(** * Agency: job registry, workflow engine, scoped memory and planner

    A shallow embedding of [src/src/Agency.js] and of the [EventEmitter] and
    [MemoryManager] classes of [Agent.js] (found as [src/unnamed/part_001]),
    followed by the properties of the specification that were checked
    against it.

    Conventions of the embedding.
    - JavaScript values are the inductive type [Value]; numbers are integers
      ([Z]), [new Date()] is the opaque token [VDate] (wall-clock time is not
      modelled), functions are not values: the callbacks the code stores
      (error handlers, step conditions, the [run] method of an assignee) live
      in typed fields and are pure functions of their arguments.
    - A plain object is a list of properties in insertion order; as in an
      object literal, a later property of the same name wins.
    - The registries of the [Agency] ([agents], [brief], [activeJobs], ...)
      are finite maps from identifiers.  Job records are mutable objects that
      [execute] keeps a reference to across its [await]; they live in a heap
      ([jobHeap]) and [activeJobs] maps an identifier to a reference.
    - A method is a function in the monad [M]: it reads and updates the
      [Agency] and either returns or throws an error message.  An [async]
      method is modelled by the effects it has once its promise has settled;
      [execute] is split at its single suspension point ([await
      assignee.run]) so that the branches of a parallel workflow step can be
      interleaved.
    - [events] is the log of [EventEmitter.emit] calls (listeners are not
      modelled: [emit] catches what they throw).  [invocations] and
      [transitions] are ghost logs: the calls made to [run], and the writes
      to the [status] field of a job.  [inFlight] holds the calls of
      [execute] that a failed parallel step has left suspended. *)

From stdpp Require Import gmap strings list fin_maps pretty.
From Stdlib Require Import ZArith Lia Ascii.

Set Warnings "-register-all".
Open Scope string_scope.
Open Scope list_scope.

(** ** JavaScript values *)

Inductive Value : Type :=
| VUndefined
| VNull
| VBool (b : bool)
| VNum (n : Z)
| VStr (s : string)
| VDate
| VArr (l : list Value)
| VObj (o : list (string * Value)).

Abbreviation Obj := (list (string * Value)).

(** Outcome of a call that may throw: [Error] objects are reduced to their
    [message]. *)
Inductive Result (A : Type) : Type :=
| Ok (a : A)
| Throw (message : string).
Arguments Ok {A} a.
Arguments Throw {A} message.

Module JS.

(** [!!v] is false exactly for the falsy values. *)
Definition truthy (v : Value) : bool :=
  match v with
  | VUndefined | VNull => false
  | VBool b => b
  | VNum n => negb (n =? 0)%Z
  | VStr s => negb (String.eqb s EmptyString)
  | VDate | VArr _ | VObj _ => true
  end.

(** [o[k]] on a plain object, [None] when [o] has no own property [k]. *)
Fixpoint obj_get (o : Obj) (k : string) : option Value :=
  match o with
  | [] => None
  | (k', v) :: o' =>
      match obj_get o' k with
      | Some w => Some w
      | None => if String.eqb k' k then Some v else None
      end
  end.

Definition prop (o : Obj) (k : string) : Value :=
  default VUndefined (obj_get o k).

Definition has_key (o : Obj) (k : string) : bool :=
  existsb (fun kv => String.eqb kv.1 k) o.

(** [o[k] = v]: an existing property keeps its place, a new one is
    appended. *)
Definition obj_set (k : string) (v : Value) (o : Obj) : Obj :=
  if has_key o k
  then map (fun kv => if String.eqb kv.1 k then (k, v) else kv) o
  else o ++ [(k, v)].

(** [{...a, ...b}]. *)
Definition spread (a b : Obj) : Obj :=
  fold_left (fun acc kv => obj_set kv.1 kv.2 acc) b a.

(** [Object.keys(o)]. *)
Definition keys (o : Obj) : list string := remove_dups (map fst o).

(** [Object.entries(o)]. *)
Definition entries (o : Obj) : list (string * Value) :=
  map (fun k => (k, prop o k)) (keys o).

(** The own enumerable properties that [...v] copies. *)
Definition own_props (v : Value) : Obj :=
  match v with
  | VObj o => o
  | VArr l => imap (fun i x => (pretty i, x)) l
  | VStr s =>
      imap (fun i c => (pretty i, VStr (String c EmptyString)))
           (String.list_ascii_of_string s)
  | _ => []
  end.

(** [String(v)], as used by template literals and property keys. *)
Fixpoint to_string (v : Value) : string :=
  match v with
  | VUndefined => "undefined"
  | VNull => "null"
  | VBool true => "true"
  | VBool false => "false"
  | VNum n => pretty n
  | VStr s => s
  | VDate => "[date]"
  | VArr l =>
      String.concat ","
        (map (fun x => match x with
                       | VUndefined | VNull => EmptyString
                       | _ => to_string x
                       end) l)
  | VObj _ => "[object Object]"
  end.

(** [typeof v]. *)
Definition typeof (v : Value) : string :=
  match v with
  | VUndefined => "undefined"
  | VBool _ => "boolean"
  | VNum _ => "number"
  | VStr _ => "string"
  | VNull | VDate | VArr _ | VObj _ => "object"
  end.

(** [Array.isArray(v) ? 'array' : typeof v]. *)
Definition type_name (v : Value) : string :=
  match v with
  | VUndefined => "undefined"
  | VBool _ => "boolean"
  | VNum _ => "number"
  | VStr _ => "string"
  | VArr _ => "array"
  | VNull | VDate | VObj _ => "object"
  end.

Definition is_undefined (v : Value) : bool :=
  match v with VUndefined => true | _ => false end.

Definition is_nullish (v : Value) : bool :=
  match v with VUndefined | VNull => true | _ => false end.

(** [a === b] where it is decided by value; two object, array or date
    values are different references unless they are the same one, which a
    value cannot tell: they compare unequal. *)
Definition strict_eq (a b : Value) : bool :=
  match a, b with
  | VUndefined, VUndefined | VNull, VNull => true
  | VBool x, VBool y => Bool.eqb x y
  | VNum x, VNum y => (x =? y)%Z
  | VStr x, VStr y => String.eqb x y
  | _, _ => false
  end.

(** [arr.includes(v)]. *)
Definition includes (arr : list Value) (v : Value) : bool :=
  existsb (fun x => strict_eq x v) arr.

(** [key] is written with decimal digits only, as an array index is. *)
Definition is_index (key : string) : bool :=
  negb (String.eqb key EmptyString) &&
  forallb (fun c => let n := Ascii.nat_of_ascii c in
                    (48 <=? n)%nat && (n <=? 57)%nat)
          (String.list_ascii_of_string key).

(** [data[key]]: throws on [undefined] and [null]; own properties only. *)
Definition member (data : Value) (key : string) : Result Value :=
  match data with
  | VUndefined | VNull =>
      Throw ("Cannot read properties of " +:+ to_string data +:+
             " (reading '" +:+ key +:+ "')")
  | VObj o => Ok (prop o key)
  | VArr _ | VStr _ =>
      if String.eqb key "length"
      then Ok (VNum (Z.of_nat (length (own_props data))))
      else if is_index key then Ok (prop (own_props data) key)
      else Ok VUndefined
  | _ => Ok VUndefined
  end.

(** [arr[index]]. *)
Definition index (arr : list Value) (i : nat) : Value :=
  default VUndefined (arr !! i).

Definition lower_ascii (c : Ascii.ascii) : Ascii.ascii :=
  let n := Ascii.nat_of_ascii c in
  if (65 <=? n)%nat && (n <=? 90)%nat then Ascii.ascii_of_nat (n + 32) else c.

(** [s.toLowerCase()] on ASCII text. *)
Fixpoint to_lower (s : string) : string :=
  match s with
  | EmptyString => EmptyString
  | String c s' => String (lower_ascii c) (to_lower s')
  end.

(** [s.includes(needle)]. *)
Fixpoint str_includes (needle s : string) : bool :=
  String.prefix needle s ||
  match s with
  | EmptyString => false
  | String _ s' => str_includes needle s'
  end.

End JS.

(** ** Data model *)

(** The four values the code ever writes to [job.status]. *)
Inductive Status : Type := assigned | in_progress | completed | failed.

(** The three values of [workflow.status]. *)
Inductive WorkflowStatus : Type := wf_in_progress | wf_completed | wf_failed.

Global Instance Status_eq_dec : EqDecision Status.
Proof. solve_decision. Defined.

Global Instance WorkflowStatus_eq_dec : EqDecision WorkflowStatus.
Proof. solve_decision. Defined.

(** The job object built by [assignJob]; [error] and [retryCount] are absent
    until [execute] and [retryJob] write them ([None] stands for both
    [undefined] and [null]). *)
Record Job : Type := mkJob {
  jobId : string;
  brief : Obj;
  assigneeId : Value;
  assigneeType : Value;
  status : Status;
  results : Value;
  error : option string;
  retryCount : option nat
}.

(** A call of [assignee.run].  [AgentPrompt brief mergedInputs jobId
    jobContext] is the call
    [run(formatBriefAsPrompt(brief, mergedInputs), { jobId, jobContext })]
    that [execute] makes for an agent: it records the two arguments the
    prompt is rendered from, and [formatBriefAsPrompt], at the end of the
    model, gives the text that the agent is handed.  [TeamInput mergedInputs
    brief jobId jobContext] is the call
    [run(mergedInputs, { brief, jobId, jobContext })] made for a team. *)
Inductive RunInput : Type :=
| AgentPrompt (brief mergedInputs : Obj) (jobId : string) (jobContext : Obj)
| TeamInput (mergedInputs brief : Obj) (jobId : string) (jobContext : Obj)
| PlanningPrompt (goal : string)
| ReplanningPrompt (goal taskName overview errorMessage : Value).

(** The promise returned by [run] resolves or rejects. *)
Inductive RunOutcome : Type :=
| Resolves (reply : Value)
| Rejects (message : string).

(** The Runnable capability: anything with a [run] method. *)
Definition Runnable : Type := RunInput -> RunOutcome.

(** [MemoryManager]: the key-value store, and the keys for which
    [shareMemoryBetween] has wrapped this instance's [remember] method (one
    wrapper per read-only key shared, the latest first).  The conversation
    history is not used by the agency and is left out. *)
Record MemoryManager : Type := mkMemory {
  keyValueStore : Obj;
  readOnlyWrappers : list string;
  memoryUpdated : list (string * Value)
}.

(** A step of a workflow definition; every field may be an array in a
    parallel step, so fields are dynamically typed as in the source. *)
Record Step : Type := mkStep {
  step_jobId : Value;
  step_assigneeId : Value;
  step_assigneeType : Value;
  step_inputs : Value;
  step_type : Value;
  step_brief : Value;
  step_condition : option (Value -> MemoryManager -> Value)
}.

Record Workflow : Type := mkWorkflow {
  wf_id : string;
  wf_definition : list Step;
  wf_status : WorkflowStatus;
  wf_currentStep : nat;
  wf_results : Obj;
  wf_error : option string
}.

Record AccessGrant : Type := mkGrant {
  sourceScope : string;
  accessMode : string;
  sharedAt : Value
}.

Record SchemaField : Type := mkField {
  field_required : Value;
  field_type : Value;
  field_enum : option (list Value)
}.

Abbreviation Schema := (list (string * SchemaField)).

Record JobSchema : Type := mkJobSchema {
  schema_input : option Schema;
  schema_output : option Schema
}.

(** What an error handler does when called: return a substitute value, or
    throw in turn. *)
Inductive HandlerOutcome : Type :=
| HandlerReturns (v : Value)
| HandlerThrows.

Inductive Writer : Type := ByAssignJob | ByExecute | ByRetryJob.

(** A write to the [status] field of the job object of [tr_job]: the value it
    replaces ([None] when [assignJob] creates the first record of that id)
    and the value written. *)
Record Transition : Type := mkTransition {
  tr_job : string;
  tr_by : Writer;
  tr_from : option Status;
  tr_to : Status
}.

(** A call of [execute] that has been started: suspended at
    [await assignee.run(...)], whose promise will settle as [reply], or
    already at its end (it failed before calling [run], and its [catch]
    block has run). *)
Inductive Launch : Type :=
| Awaiting (ref : nat) (reply : RunOutcome)
| Settled (r : Result Value).

Record Agency : Type := mkAgency {
  agents : gmap string Runnable;
  team : gmap string Runnable;
  briefs : gmap string Obj;
  activeJobs : gmap string nat;
  jobHeap : list Job;
  events : list (string * Obj);
  globalMemory : MemoryManager;
  memoryScopes : gmap string MemoryManager;
  jobContexts : gmap string Obj;
  workflows : gmap string Workflow;
  errorHandlers : gmap string (string -> Job -> HandlerOutcome);
  workflowErrorHandlers : gmap string (string -> Workflow -> HandlerOutcome);
  jobSchemas : gmap string JobSchema;
  memoryAccessControl : gmap string (gmap string AccessGrant);
  inFlight : list (nat * string * Launch);
  invocations : list (string * RunInput);
  transitions : list Transition
}.

(** The agency right after its constructor. *)
Definition new_memory : MemoryManager :=
  {| keyValueStore := []; readOnlyWrappers := []; memoryUpdated := [] |}.

Definition new_agency : Agency :=
  {| agents := ∅; team := ∅; briefs := ∅; activeJobs := ∅; jobHeap := [];
     events := []; globalMemory := new_memory; memoryScopes := ∅;
     jobContexts := ∅; workflows := ∅; errorHandlers := ∅;
     workflowErrorHandlers := ∅; jobSchemas := ∅; memoryAccessControl := ∅;
     inFlight := []; invocations := []; transitions := [] |}.

(** ** The monad of methods *)

Definition M (A : Type) : Type := Agency -> Result A * Agency.

Definition ret {A} (a : A) : M A := fun st => (Ok a, st).

Definition throw {A} (message : string) : M A := fun st => (Throw message, st).

Definition bind {A B} (m : M A) (k : A -> M B) : M B :=
  fun st =>
    match m st with
    | (Ok a, st') => k a st'
    | (Throw e, st') => (Throw e, st')
    end.

(** [try { m } catch (error) { handler(error.message) }]. *)
Definition try_catch {A} (m : M A) (handler : string -> M A) : M A :=
  fun st =>
    match m st with
    | (Ok a, st') => (Ok a, st')
    | (Throw e, st') => handler e st'
    end.

Definition get : M Agency := fun st => (Ok st, st).

Definition modify (f : Agency -> Agency) : M unit := fun st => (Ok tt, f st).

Definition lift {A} (r : Result A) : M A := fun st => (r, st).

Declare Scope agency_scope.
Delimit Scope agency_scope with agency.
Notation "x <- m ;; k" := (bind m (fun x => k))
  (at level 100, m at next level, right associativity) : agency_scope.
Notation "m ;; k" := (bind m (fun _ => k))
  (at level 100, right associativity) : agency_scope.
Open Scope agency_scope.

(** Field updates. *)
Definition set_briefs f (st : Agency) : Agency :=
  mkAgency (agents st) (team st) (f (briefs st)) (activeJobs st) (jobHeap st)
    (events st) (globalMemory st) (memoryScopes st) (jobContexts st)
    (workflows st) (errorHandlers st) (workflowErrorHandlers st)
    (jobSchemas st) (memoryAccessControl st) (inFlight st) (invocations st)
    (transitions st).

Definition set_activeJobs f (st : Agency) : Agency :=
  mkAgency (agents st) (team st) (briefs st) (f (activeJobs st)) (jobHeap st)
    (events st) (globalMemory st) (memoryScopes st) (jobContexts st)
    (workflows st) (errorHandlers st) (workflowErrorHandlers st)
    (jobSchemas st) (memoryAccessControl st) (inFlight st) (invocations st)
    (transitions st).

Definition set_jobHeap f (st : Agency) : Agency :=
  mkAgency (agents st) (team st) (briefs st) (activeJobs st) (f (jobHeap st))
    (events st) (globalMemory st) (memoryScopes st) (jobContexts st)
    (workflows st) (errorHandlers st) (workflowErrorHandlers st)
    (jobSchemas st) (memoryAccessControl st) (inFlight st) (invocations st)
    (transitions st).

Definition set_events f (st : Agency) : Agency :=
  mkAgency (agents st) (team st) (briefs st) (activeJobs st) (jobHeap st) (f
    (events st)) (globalMemory st) (memoryScopes st) (jobContexts st)
    (workflows st) (errorHandlers st) (workflowErrorHandlers st)
    (jobSchemas st) (memoryAccessControl st) (inFlight st) (invocations st)
    (transitions st).

Definition set_globalMemory f (st : Agency) : Agency :=
  mkAgency (agents st) (team st) (briefs st) (activeJobs st) (jobHeap st)
    (events st) (f (globalMemory st)) (memoryScopes st) (jobContexts st)
    (workflows st) (errorHandlers st) (workflowErrorHandlers st)
    (jobSchemas st) (memoryAccessControl st) (inFlight st) (invocations st)
    (transitions st).

Definition set_memoryScopes f (st : Agency) : Agency :=
  mkAgency (agents st) (team st) (briefs st) (activeJobs st) (jobHeap st)
    (events st) (globalMemory st) (f (memoryScopes st)) (jobContexts st)
    (workflows st) (errorHandlers st) (workflowErrorHandlers st)
    (jobSchemas st) (memoryAccessControl st) (inFlight st) (invocations st)
    (transitions st).

Definition set_jobContexts f (st : Agency) : Agency :=
  mkAgency (agents st) (team st) (briefs st) (activeJobs st) (jobHeap st)
    (events st) (globalMemory st) (memoryScopes st) (f (jobContexts st))
    (workflows st) (errorHandlers st) (workflowErrorHandlers st)
    (jobSchemas st) (memoryAccessControl st) (inFlight st) (invocations st)
    (transitions st).

Definition set_workflows f (st : Agency) : Agency :=
  mkAgency (agents st) (team st) (briefs st) (activeJobs st) (jobHeap st)
    (events st) (globalMemory st) (memoryScopes st) (jobContexts st) (f
    (workflows st)) (errorHandlers st) (workflowErrorHandlers st)
    (jobSchemas st) (memoryAccessControl st) (inFlight st) (invocations st)
    (transitions st).

Definition set_workflowErrorHandlers f (st : Agency) : Agency :=
  mkAgency (agents st) (team st) (briefs st) (activeJobs st) (jobHeap st)
    (events st) (globalMemory st) (memoryScopes st) (jobContexts st)
    (workflows st) (errorHandlers st) (f (workflowErrorHandlers st))
    (jobSchemas st) (memoryAccessControl st) (inFlight st) (invocations st)
    (transitions st).

Definition set_memoryAccessControl f (st : Agency) : Agency :=
  mkAgency (agents st) (team st) (briefs st) (activeJobs st) (jobHeap st)
    (events st) (globalMemory st) (memoryScopes st) (jobContexts st)
    (workflows st) (errorHandlers st) (workflowErrorHandlers st)
    (jobSchemas st) (f (memoryAccessControl st)) (inFlight st)
    (invocations st) (transitions st).

Definition set_inFlight f (st : Agency) : Agency :=
  mkAgency (agents st) (team st) (briefs st) (activeJobs st) (jobHeap st)
    (events st) (globalMemory st) (memoryScopes st) (jobContexts st)
    (workflows st) (errorHandlers st) (workflowErrorHandlers st)
    (jobSchemas st) (memoryAccessControl st) (f (inFlight st))
    (invocations st) (transitions st).

Definition set_invocations f (st : Agency) : Agency :=
  mkAgency (agents st) (team st) (briefs st) (activeJobs st) (jobHeap st)
    (events st) (globalMemory st) (memoryScopes st) (jobContexts st)
    (workflows st) (errorHandlers st) (workflowErrorHandlers st)
    (jobSchemas st) (memoryAccessControl st) (inFlight st) (f
    (invocations st)) (transitions st).

Definition set_transitions f (st : Agency) : Agency :=
  mkAgency (agents st) (team st) (briefs st) (activeJobs st) (jobHeap st)
    (events st) (globalMemory st) (memoryScopes st) (jobContexts st)
    (workflows st) (errorHandlers st) (workflowErrorHandlers st)
    (jobSchemas st) (memoryAccessControl st) (inFlight st) (invocations st) (f
    (transitions st)).

(** ** EventEmitter and MemoryManager *)

(** [this.events.emit(name, payload)]. *)
Definition emit (name : string) (payload : Obj) : M unit :=
  modify (set_events (fun log => log ++ [(name, payload)])).

Fixpoint for_each {A} (l : list A) (body : A -> M unit) : M unit :=
  match l with
  | [] => ret tt
  | x :: l' => body x ;; for_each l' body
  end.

Module Memory.

(** [recall(key)]. *)
Definition recall (m : MemoryManager) (key : string) : Value :=
  JS.prop (keyValueStore m) key.

(** The [remember] of the class: store, then emit ['memoryUpdated']. *)
Definition class_remember (m : MemoryManager) (key : string) (value : Value)
  : MemoryManager :=
  {| keyValueStore := JS.obj_set key value (keyValueStore m);
     readOnlyWrappers := readOnlyWrappers m;
     memoryUpdated := memoryUpdated m ++ [(key, value)] |}.

(** The [remember] of an instance: each wrapper installed by
    [shareMemoryBetween] answers [false] for its own key and defers to the
    method it wrapped for the others. *)
Fixpoint wrapped_remember (wrappers : list string) (m : MemoryManager)
  (k : string) (v : Value) : Value * MemoryManager :=
  match wrappers with
  | [] => (VUndefined, class_remember m k v)
  | key :: older =>
      if String.eqb k key then (VBool false, m)
      else wrapped_remember older m k v
  end.

Definition remember (m : MemoryManager) (k : string) (v : Value)
  : Value * MemoryManager :=
  wrapped_remember (readOnlyWrappers m) m k v.

(** [targetScope.remember = (k, v) => ...] for [key]. *)
Definition wrap_remember (key : string) (m : MemoryManager) : MemoryManager :=
  {| keyValueStore := keyValueStore m;
     readOnlyWrappers := key :: readOnlyWrappers m;
     memoryUpdated := memoryUpdated m |}.

End Memory.

(** ** Agency: memory scopes *)

(** [this.memoryScopes[scopeId]]; the entry [global] is the [globalMemory]
    object itself. *)
Definition scope_lookup (st : Agency) (scopeId : string)
  : option MemoryManager :=
  if String.eqb scopeId "global" then Some (globalMemory st)
  else memoryScopes st !! scopeId.

Definition scope_update (scopeId : string)
  (f : MemoryManager -> MemoryManager) (st : Agency) : Agency :=
  if String.eqb scopeId "global" then set_globalMemory f st
  else set_memoryScopes (alter f scopeId) st.

(** A call of [remember] on the scope object registered as [scopeId]. *)
Definition scope_remember (scopeId key : string) (value : Value) : M Value :=
  fun st =>
    match scope_lookup st scopeId with
    | Some m =>
        let (r, m') := Memory.remember m key value in
        (Ok r, scope_update scopeId (fun _ => m') st)
    | None => (Ok VUndefined, st)
    end.

Definition createMemoryScope (scopeId : string) : M unit :=
  st <- get ;;
  match scope_lookup st scopeId with
  | Some _ => throw ("Memory scope " +:+ scopeId +:+ " already exists")
  | None => modify (set_memoryScopes (insert scopeId new_memory))
  end.

Definition getMemoryScope (scopeId : string) : M MemoryManager :=
  st <- get ;;
  match scope_lookup st scopeId with
  | Some m => ret m
  | None => throw ("Memory scope " +:+ scopeId +:+ " not found")
  end.

(** The body of the loop of [shareMemoryBetween] for one key. *)
Definition share_key (sourceId targetId accessMode key : string) : M unit :=
  source <- getMemoryScope sourceId ;;
  let value := Memory.recall source key in
  if JS.is_undefined value then ret tt
  else
    scope_remember targetId key value ;;
    modify (set_memoryAccessControl (fun acl =>
      <[targetId :=
          <[key := {| sourceScope := sourceId; accessMode := accessMode;
                      sharedAt := VDate |}]> (default ∅ (acl !! targetId))]>
        acl)) ;;
    if String.eqb accessMode "read-only"
    then modify (scope_update targetId (Memory.wrap_remember key))
    else ret tt.

Definition shareMemoryBetween (sourceId targetId : string)
  (keys : list string) (accessMode : string) : M unit :=
  source <- getMemoryScope sourceId ;;
  getMemoryScope targetId ;;
  let keysToShare :=
    match keys with
    | [] => JS.keys (keyValueStore source)
    | _ => keys
    end in
  modify (set_memoryAccessControl (fun acl =>
    <[targetId := default ∅ (acl !! targetId)]> acl)) ;;
  for_each keysToShare (share_key sourceId targetId accessMode) ;;
  emit "memory:shared"
    [("sourceScope", VStr sourceId); ("targetScope", VStr targetId);
     ("keys", VArr (map VStr keysToShare)); ("accessMode", VStr accessMode)].

Definition getMemoryAccessInfo (st : Agency) (scopeId key : string)
  : option AccessGrant :=
  match memoryAccessControl st !! scopeId with
  | None => None
  | Some grants => grants !! key
  end.

(** ** Agency: briefs, job contexts, assignment *)

Definition with_status (s : Status) (j : Job) : Job :=
  mkJob (jobId j) (brief j) (assigneeId j) (assigneeType j) s (results j)
    (error j) (retryCount j).

Definition with_results (v : Value) (j : Job) : Job :=
  mkJob (jobId j) (brief j) (assigneeId j) (assigneeType j) (status j) v
    (error j) (retryCount j).

Definition with_error (e : option string) (j : Job) : Job :=
  mkJob (jobId j) (brief j) (assigneeId j) (assigneeType j) (status j)
    (results j) e (retryCount j).

Definition with_retryCount (n : option nat) (j : Job) : Job :=
  mkJob (jobId j) (brief j) (assigneeId j) (assigneeType j) (status j)
    (results j) (error j) n.

(** [this.activeJobs[jobId]]: the reference and the object it points to. *)
Definition job_ref (st : Agency) (jobId : string) : option (nat * Job) :=
  match activeJobs st !! jobId with
  | Some ref =>
      match jobHeap st !! ref with
      | Some job => Some (ref, job)
      | None => None
      end
  | None => None
  end.

Definition getJob (st : Agency) (jobId : string) : option Job :=
  snd <$> job_ref st jobId.

(** A write to a field other than [status] of the job object at [ref]. *)
Definition update_job (ref : nat) (f : Job -> Job) : M unit :=
  modify (set_jobHeap (alter f ref)).

(** [job.status = s] on the job object at [ref]. *)
Definition set_status (who : Writer) (ref : nat) (s : Status) : M unit :=
  fun st =>
    match jobHeap st !! ref with
    | Some job =>
        (Ok tt,
         set_transitions
           (fun log => log ++ [mkTransition (jobId job) who (Some (status job)) s])
           (set_jobHeap (alter (with_status s) ref) st))
    | None => (Ok tt, st)
    end.

Definition createBrief (jobId : string) (briefData : Obj) : M Obj :=
  let brief :=
    JS.spread [("jobId", VStr jobId); ("createdAt", VDate)] briefData in
  modify (set_briefs (insert jobId brief)) ;;
  emit "brief:created" [("jobId", VStr jobId); ("brief", VObj brief)] ;;
  ret brief.

Definition createJobContext (jobId : string) (initialContext : Obj) : M Obj :=
  let context :=
    JS.obj_set "updatedAt" VDate
      (JS.obj_set "createdAt" VDate (JS.spread [] initialContext)) in
  modify (set_jobContexts (insert jobId context)) ;;
  emit "jobContext:created" [("jobId", VStr jobId); ("context", VObj context)] ;;
  ret context.

Definition updateJobContext (jobId : string) (updates : Obj) : M Obj :=
  st <- get ;;
  match jobContexts st !! jobId with
  | None => throw ("Job context for " +:+ jobId +:+ " not found")
  | Some old =>
      let context :=
        JS.obj_set "updatedAt" VDate
          (JS.spread (JS.spread [] old) updates) in
      modify (set_jobContexts (insert jobId context)) ;;
      emit "jobContext:updated"
        [("jobId", VStr jobId); ("context", VObj context);
         ("updates", VArr (map VStr (JS.keys updates)))] ;;
      ret context
  end.

Definition is_agent (assigneeType : Value) : bool :=
  match assigneeType with
  | VStr s => String.eqb s "agent"
  | _ => false
  end.

(** [assigneeType === 'agent' ? this.agents[id] : this.team[id]]. *)
Definition lookup_assignee (st : Agency) (assigneeType assigneeId : Value)
  : option Runnable :=
  if is_agent assigneeType then agents st !! JS.to_string assigneeId
  else team st !! JS.to_string assigneeId.

(** A parameter with the default value ['agent']. *)
Definition default_agent (assigneeType : Value) : Value :=
  match assigneeType with
  | VUndefined => VStr "agent"
  | v => v
  end.

Definition assignJob (jobId : string) (assigneeId assigneeTypeArg : Value)
  : M Job :=
  let assigneeType := default_agent assigneeTypeArg in
  st <- get ;;
  match briefs st !! jobId with
  | None => throw ("No brief found for job " +:+ jobId)
  | Some brief =>
      match lookup_assignee st assigneeType assigneeId with
      | None =>
          throw (JS.to_string assigneeType +:+ " " +:+
                 JS.to_string assigneeId +:+ " not found")
      | Some _ =>
          let job :=
            {| jobId := jobId; brief := brief; assigneeId := assigneeId;
               assigneeType := assigneeType; status := assigned;
               results := VNull; error := None; retryCount := None |} in
          modify (fun st =>
            set_transitions
              (fun log =>
                 log ++ [mkTransition jobId ByAssignJob
                           (status <$> getJob st jobId) assigned])
              (set_activeJobs (insert jobId (length (jobHeap st)))
                 (set_jobHeap (fun heap => heap ++ [job]) st))) ;;
          (match jobContexts st !! jobId with
           | None => createJobContext jobId [] ;; ret tt
           | Some _ => ret tt
           end) ;;
          emit "job:assigned"
            [("jobId", VStr jobId); ("assigneeId", assigneeId);
             ("assigneeType", assigneeType)] ;;
          ret job
      end
  end.

(** ** Agency: schemas *)

(** One iteration of the loop of [_validateAgainstSchema]: the messages it
    pushes for the field [key]. *)
Definition validate_field (data : Value) (key : string) (f : SchemaField)
  : Result (list string) :=
  match JS.member data key with
  | Throw e => Throw e
  | Ok d =>
      if JS.truthy (field_required f) && JS.is_nullish d
      then Ok ["Required field '" +:+ key +:+ "' is missing"]
      else
        let type_errors :=
          if negb (JS.is_undefined d) && JS.truthy (field_type f) &&
             negb (JS.strict_eq (VStr (JS.type_name d)) (field_type f))
          then ["Field '" +:+ key +:+ "' should be of type '" +:+
                JS.to_string (field_type f) +:+ "', but got '" +:+
                JS.type_name d +:+ "'"]
          else [] in
        let enum_errors :=
          match field_enum f with
          | Some allowed =>
              if negb (JS.is_undefined d) && negb (JS.includes allowed d)
              then ["Field '" +:+ key +:+ "' should be one of [" +:+
                    String.concat ", " (map JS.to_string allowed) +:+
                    "], but got '" +:+ JS.to_string d +:+ "'"]
              else []
          | None => []
          end in
        Ok (type_errors ++ enum_errors)
  end.

(** [_validateAgainstSchema(data, schema)]: the list [errors]; the result is
    valid when it is empty. *)
Fixpoint validate_fields (data : Value) (schema : Schema)
  : Result (list string) :=
  match schema with
  | [] => Ok []
  | (key, f) :: rest =>
      match validate_field data key f with
      | Throw e => Throw e
      | Ok errs =>
          match validate_fields data rest with
          | Throw e => Throw e
          | Ok more => Ok (errs ++ more)
          end
      end
  end.

Definition _validateAgainstSchema (data : Value) (schema : option Schema)
  : Result (list string) :=
  match schema with
  | None => Ok []
  | Some fields => validate_fields data fields
  end.

(** The guarded validation of [execute]: throws
    ["<what> validation failed: ..."] when the list of errors is not empty. *)
Definition check_schema (what : string) (data : Value)
  (schema : option Schema) : Result unit :=
  match schema with
  | None => Ok tt
  | Some _ =>
      match _validateAgainstSchema data schema with
      | Throw e => Throw e
      | Ok [] => Ok tt
      | Ok errs =>
          Throw (what +:+ " validation failed: " +:+ String.concat ", " errs)
      end
  end.

(** ** Agency: execution of a job *)

(** [v && v.toLowerCase().includes(needle)]; a truthy value that is not a
    string has no [toLowerCase]. *)
Definition lower_includes (field : string) (v : Value) (needle : string)
  : Result bool :=
  match v with
  | VStr s => Ok (JS.truthy v && JS.str_includes needle (JS.to_lower s))
  | _ =>
      if JS.truthy v
      then Throw ("brief." +:+ field +:+ ".toLowerCase is not a function")
      else Ok false
  end.

Definition copy_if_truthy (brief : Obj) (key : string) (inputs : Obj) : Obj :=
  if JS.truthy (JS.prop brief key)
  then JS.obj_set key (JS.prop brief key) inputs
  else inputs.

Definition extractInputsFromBrief (brief : Obj) : Result Obj :=
  let water f := lower_includes f (JS.prop brief f) "water bottle" in
  let topic := JS.obj_set "topic" (VStr "eco-friendly water bottles") [] in
  let with_topic : Result Obj :=
    match water "title" with
    | Throw e => Throw e
    | Ok true => Ok topic
    | Ok false =>
        match water "overview" with
        | Throw e => Throw e
        | Ok true => Ok topic
        | Ok false =>
            match water "background" with
            | Throw e => Throw e
            | Ok true => Ok topic
            | Ok false => Ok []
            end
        end
    end in
  match with_topic with
  | Throw e => Throw e
  | Ok inputs0 =>
      let inputs1 := copy_if_truthy brief "targetAudience" inputs0 in
      match lower_includes "deliverables" (JS.prop brief "deliverables")
              "social media" with
      | Throw e => Throw e
      | Ok social =>
          let inputs2 :=
            if social
            then JS.obj_set "contentType" (VStr "social media posts") inputs1
            else inputs1 in
          Ok (copy_if_truthy brief "transportation"
                (copy_if_truthy brief "budget"
                   (copy_if_truthy brief "dates"
                      (copy_if_truthy brief "preferences" inputs2))))
      end
  end.

(** [{...briefInputs, ...jobContext, ...additionalInputs}]. *)
Definition merge_inputs (briefInputs jobContext additionalInputs : Obj) : Obj :=
  JS.spread (JS.spread (JS.spread [] briefInputs) jobContext) additionalInputs.

(** Runs [m] and hands its outcome over as a value. *)
Definition capture {A} (m : M A) : M (Result A) :=
  fun st => let (r, st') := m st in (Ok r, st').

(** The [catch] block of [execute]. *)
Definition execute_catch (jobId : string) (ref : nat) (message : string)
  : M Value :=
  set_status ByExecute ref failed ;;
  update_job ref (with_error (Some message)) ;;
  emit "job:failed" [("jobId", VStr jobId); ("error", VStr message)] ;;
  st <- get ;;
  match errorHandlers st !! jobId, jobHeap st !! ref with
  | Some handler, Some job =>
      match handler message job with
      | HandlerReturns v => ret v
      | HandlerThrows => throw message
      end
  | _, _ => throw message
  end.

Definition input_schema (st : Agency) (jobId : string) : option Schema :=
  match jobSchemas st !! jobId with
  | Some s => schema_input s
  | None => None
  end.

Definition output_schema (st : Agency) (jobId : string) : option Schema :=
  match jobSchemas st !! jobId with
  | Some s => schema_output s
  | None => None
  end.

(** The [try] block of [execute] up to the call of [run]. *)
Definition execute_try_before_run (jobId : string) (ref : nat) (job : Job)
  (assignee : option Runnable) (additionalInputs : Obj) : M Launch :=
  set_status ByExecute ref in_progress ;;
  emit "job:started" [("jobId", VStr jobId)] ;;
  briefInputs <- lift (extractInputsFromBrief (brief job)) ;;
  st <- get ;;
  let jobContext := default [] (jobContexts st !! jobId) in
  let mergedInputs := merge_inputs briefInputs jobContext additionalInputs in
  lift (check_schema "Input" (VObj mergedInputs) (input_schema st jobId)) ;;
  let input :=
    if is_agent (assigneeType job)
    then AgentPrompt (brief job) mergedInputs jobId jobContext
    else TeamInput mergedInputs (brief job) jobId jobContext in
  match assignee with
  | None => throw "Cannot read properties of undefined (reading 'run')"
  | Some run =>
      modify (set_invocations (fun log =>
        log ++ [(JS.to_string (assigneeId job), input)])) ;;
      ret (Awaiting ref (run input))
  end.

(** [execute] from its call to its first suspension. *)
Definition execute_start (jobId : string) (additionalInputs : Obj) : M Launch :=
  st <- get ;;
  match job_ref st jobId with
  | None => ret (Settled (Throw ("No active job found with id " +:+ jobId)))
  | Some (ref, job) =>
      let assignee := lookup_assignee st (assigneeType job) (assigneeId job) in
      r <- capture
             (try_catch
                (execute_try_before_run jobId ref job assignee additionalInputs)
                (fun e => v <- execute_catch jobId ref e ;; ret (Settled (Ok v)))) ;;
      match r with
      | Ok launch => ret launch
      | Throw e => ret (Settled (Throw e))
      end
  end.

(** The [try] block of [execute] after [run] has settled. *)
Definition execute_try_after_run (jobId : string) (ref : nat)
  (reply : RunOutcome) : M Value :=
  match reply with
  | Rejects e => throw e
  | Resolves results =>
      st <- get ;;
      lift (check_schema "Output" results (output_schema st jobId)) ;;
      set_status ByExecute ref completed ;;
      update_job ref (with_results results) ;;
      updateJobContext jobId [("results", results)] ;;
      emit "job:completed" [("jobId", VStr jobId); ("results", results)] ;;
      ret results
  end.

(** [execute] from the settlement of [run] to its end. *)
Definition execute_finish (jobId : string) (launch : Launch) : M Value :=
  match launch with
  | Settled r => lift r
  | Awaiting ref reply =>
      try_catch (execute_try_after_run jobId ref reply)
                (execute_catch jobId ref)
  end.

Definition execute (jobId : string) (additionalInputs : Obj) : M Value :=
  launch <- execute_start jobId additionalInputs ;;
  execute_finish jobId launch.

Definition retryJob (jobId : string) (maxRetries : Z) (additionalInputs : Obj)
  : M Value :=
  st <- get ;;
  match job_ref st jobId with
  | None => throw ("No job found with id " +:+ jobId)
  | Some (ref, job) =>
      match status job with
      | failed =>
          let count := default 0%nat (retryCount job) in
          update_job ref (with_retryCount (Some count)) ;;
          if (maxRetries <=? Z.of_nat count)%Z
          then throw ("Maximum retry attempts (" +:+ pretty maxRetries +:+
                      ") reached for job " +:+ jobId)
          else
            update_job ref (with_retryCount (Some (S count))) ;;
            set_status ByRetryJob ref assigned ;;
            update_job ref (with_error None) ;;
            emit "job:retrying"
              [("jobId", VStr jobId);
               ("retryCount", VNum (Z.of_nat (S count)));
               ("maxRetries", VNum maxRetries)] ;;
            execute jobId additionalInputs
      | _ => throw ("Job " +:+ jobId +:+ " is not in failed state")
      end
  end.

Definition cleanupJob (jobId : string) (keepResults : bool) : M bool :=
  st <- get ;;
  match job_ref st jobId with
  | None => ret false
  | Some (_, job) =>
      match status job with
      | completed | failed =>
          let results := if keepResults then results job else VNull in
          modify (set_jobContexts (delete jobId)) ;;
          modify (set_activeJobs (delete jobId)) ;;
          emit "job:cleaned"
            [("jobId", VStr jobId); ("keepResults", VBool keepResults)] ;;
          (if keepResults && JS.truthy results
           then scope_remember "global" ("job_" +:+ jobId +:+ "_results")
                  (VObj [("results", results); ("cleanedAt", VDate)]) ;;
                ret tt
           else ret tt) ;;
          ret true
      | _ => ret false
      end
  end.

(** ** Agency: workflows *)

(** The order in which the promises of a parallel step settle is not decided
    by the agency: a scheduler picks, among the calls in flight (their branch
    index and job id), the position of the one that settles next. *)
Definition Scheduler : Type := list (nat * string) -> nat.

Definition workflow_scope (workflowId : string) : string :=
  "workflow:" +:+ workflowId.

(** [workflowMemory.remember(key, value)]. *)
Definition workflow_remember (workflowId key : string) (value : Value)
  : M unit :=
  scope_remember (workflow_scope workflowId) key value ;; ret tt.

Definition with_wf_status (s : WorkflowStatus) (w : Workflow) : Workflow :=
  mkWorkflow (wf_id w) (wf_definition w) s (wf_currentStep w) (wf_results w)
    (wf_error w).

Definition with_wf_currentStep (i : nat) (w : Workflow) : Workflow :=
  mkWorkflow (wf_id w) (wf_definition w) (wf_status w) i (wf_results w)
    (wf_error w).

Definition with_wf_result (jobId : string) (v : Value) (w : Workflow)
  : Workflow :=
  mkWorkflow (wf_id w) (wf_definition w) (wf_status w) (wf_currentStep w)
    (JS.obj_set jobId v (wf_results w)) (wf_error w).

Definition with_wf_error (e : option string) (w : Workflow) : Workflow :=
  mkWorkflow (wf_id w) (wf_definition w) (wf_status w) (wf_currentStep w)
    (wf_results w) e.

(** A write to a field of [this.workflows[workflowId]]. *)
Definition update_workflow (workflowId : string) (f : Workflow -> Workflow)
  : M unit :=
  modify (set_workflows (alter f workflowId)).

(** [if (!this.brief[jobId]) this.createBrief(jobId, briefData)]. *)
Definition ensure_brief (jobId : string) (briefData : Obj) : M unit :=
  st <- get ;;
  match briefs st !! jobId with
  | Some _ => ret tt
  | None => createBrief jobId briefData ;; ret tt
  end.

(** [`${job.error}`]. *)
Definition error_text (job : Job) : string :=
  match error job with
  | Some e => e
  | None => "undefined"
  end.

(** The check that closes a step: [getJob(jobId).status === 'failed']. *)
Definition fail_if_job_failed (what : string) (i : nat) (jobId : string)
  : M unit :=
  st <- get ;;
  match getJob st jobId with
  | None => throw "Cannot read properties of undefined (reading 'status')"
  | Some job =>
      match status job with
      | failed =>
          throw (what +:+ " " +:+ pretty i +:+ " (job " +:+ jobId +:+
                 ") failed: " +:+ error_text job)
      | _ => ret tt
      end
  end.

(** [inputs = {}] and [type = 'sequential'] of the destructuring of a step. *)
Definition inputs_of (step : Step) : Value :=
  match step_inputs step with
  | VUndefined => VObj []
  | v => v
  end.

Definition type_of (step : Step) : Value :=
  match step_type step with
  | VUndefined => VStr "sequential"
  | v => v
  end.

(** [{...base, k1: v1, ...}]. *)
Definition literal (base : Value) (props : Obj) : Obj :=
  JS.spread (JS.spread [] (JS.own_props base)) props.

(** The inputs a sequential or conditional step hands to [execute]. *)
Definition step_inputs_for (conditional : bool) (workflowId : string)
  (i : nat) (step : Step) (currentData : Value) : Obj :=
  literal (inputs_of step)
    ([("previousStepData", currentData); ("workflowId", VStr workflowId);
      ("workflowStep", VNum (Z.of_nat i))] ++
     (if conditional then [("isConditional", VBool true)] else [])).

(** A sequential step, and a conditional step whose condition holds. *)
Definition run_single (conditional : bool) (workflowId : string) (i : nat)
  (step : Step) (currentData : Value) : M Value :=
  let jobId := JS.to_string (step_jobId step) in
  ensure_brief jobId
    (literal (step_brief step)
       ([("workflowId", VStr workflowId); ("workflowStep", VNum (Z.of_nat i))]
        ++ (if conditional then [("isConditional", VBool true)] else []))) ;;
  assignJob jobId (step_assigneeId step) (step_assigneeType step) ;;
  result <- execute jobId
              (step_inputs_for conditional workflowId i step currentData) ;;
  workflow_remember workflowId ("step_" +:+ pretty i +:+ "_results") result ;;
  update_workflow workflowId (with_wf_result jobId result) ;;
  fail_if_job_failed
    (if conditional then "Conditional workflow step" else "Workflow step")
    i jobId ;;
  ret result.

Definition run_conditional (workflowId : string) (i : nat) (step : Step)
  (currentData : Value) : M Value :=
  st <- get ;;
  let workflowMemory :=
    default new_memory (scope_lookup st (workflow_scope workflowId)) in
  let shouldExecute :=
    match step_condition step with
    | Some conditionFn => conditionFn currentData workflowMemory
    | None => VBool true
    end in
  if JS.truthy shouldExecute
  then run_single true workflowId i step currentData
  else
    workflow_remember workflowId ("step_" +:+ pretty i +:+ "_skipped")
      (VBool true) ;;
    emit "workflow:stepSkipped"
      [("workflowId", VStr workflowId); ("stepIndex", VNum (Z.of_nat i));
       ("reason", VStr "condition-not-met")] ;;
    ret currentData.

(** [Array.isArray(x) ? x[index] : x]. *)
Definition element (x : Value) (index : nat) : Value :=
  match x with
  | VArr l => JS.index l index
  | _ => x
  end.

(** The calls of [execute] that a failed parallel step leaves in flight. *)
Definition abandon (pending : list (nat * string * Launch)) : M unit :=
  modify (set_inFlight (fun l => l ++ pending)).

(** The callback of [jobId.map] for one branch: brief, assignment, and the
    call of [execute], which runs up to its [await]. *)
Definition launch_branch (workflowId : string) (i : nat) (step : Step)
  (currentData : Value) (index : nat) (jid : string)
  : M (nat * string * Launch) :=
  let flags :=
    [("workflowId", VStr workflowId); ("workflowStep", VNum (Z.of_nat i));
     ("isParallel", VBool true); ("parallelIndex", VNum (Z.of_nat index))] in
  ensure_brief jid (literal (element (step_brief step) index) flags) ;;
  assignJob jid (element (step_assigneeId step) index)
    (element (step_assigneeType step) index) ;;
  launch <- execute_start jid
              (literal (element (inputs_of step) index)
                 (("previousStepData", currentData) :: flags)) ;;
  ret (index, jid, launch).

(** [jobId.map(...)]: the branches are started one after the other; when a
    callback throws, the calls already started stay in flight. *)
Fixpoint launch_all (workflowId : string) (i : nat) (step : Step)
  (currentData : Value) (branches : list (nat * string))
  (launched : list (nat * string * Launch))
  : M (list (nat * string * Launch)) :=
  match branches with
  | [] => ret launched
  | (index, jid) :: rest =>
      l <- try_catch (launch_branch workflowId i step currentData index jid)
             (fun e => abandon launched ;; throw e) ;;
      launch_all workflowId i step currentData rest (launched ++ [l])
  end.

(** [await Promise.all(parallelJobs)]: the calls settle in the order the
    scheduler picks; the first rejection is the outcome of the join and
    leaves the other calls in flight.  [n] bounds the number of
    settlements. *)
Fixpoint join (schedule : Scheduler) (n : nat)
  (pending : list (nat * string * Launch))
  (slots : list (option (string * Value))) : M (list (string * Value)) :=
  match n, pending with
  | S n', _ :: _ =>
      let k := (schedule (map fst pending) mod length pending)%nat in
      match pending !! k with
      | None => ret (omap id slots)
      | Some (index, jid, launch) =>
          v <- try_catch (execute_finish jid launch)
                 (fun e => abandon (delete k pending) ;; throw e) ;;
          join schedule n' (delete k pending)
            (<[index := Some (jid, v)]> slots)
      end
  | _, _ => ret (omap id slots)
  end.

(** The loop over [parallelResults]. *)
Fixpoint store_parallel (workflowId : string) (i : nat)
  (parallelResults : list (string * Value)) (combinedResults : Obj) : M Obj :=
  match parallelResults with
  | [] => ret combinedResults
  | (jid, result) :: rest =>
      workflow_remember workflowId
        ("step_" +:+ pretty i +:+ "_job_" +:+ jid +:+ "_results") result ;;
      update_workflow workflowId (with_wf_result jid result) ;;
      fail_if_job_failed "Parallel workflow step" i jid ;;
      store_parallel workflowId i rest (JS.obj_set jid result combinedResults)
  end.

Definition run_parallel (schedule : Scheduler) (workflowId : string) (i : nat)
  (step : Step) (jobIds : list Value) (currentData : Value) : M Value :=
  let branches := imap (fun index jid => (index, JS.to_string jid)) jobIds in
  launched <- launch_all workflowId i step currentData branches [] ;;
  parallelResults <- join schedule (length launched) launched
                       (replicate (length launched) None) ;;
  combinedResults <- store_parallel workflowId i parallelResults [] ;;
  workflow_remember workflowId ("step_" +:+ pretty i +:+ "_results")
    (VObj combinedResults) ;;
  ret (VObj combinedResults).

Definition is_type (name : string) (t : Value) : bool :=
  match t with
  | VStr s => String.eqb s name
  | _ => false
  end.

(** One iteration of the loop of [executeWorkflow], after the step event:
    [type === 'parallel' && Array.isArray(jobId)], else
    [type === 'conditional'], else sequential. *)
Definition run_step (schedule : Scheduler) (workflowId : string) (i : nat)
  (step : Step) (currentData : Value) : M Value :=
  let otherwise :=
    if is_type "conditional" (type_of step)
    then run_conditional workflowId i step currentData
    else run_single false workflowId i step currentData in
  match step_jobId step with
  | VArr jobIds =>
      if is_type "parallel" (type_of step)
      then run_parallel schedule workflowId i step jobIds currentData
      else otherwise
  | _ => otherwise
  end.

Fixpoint run_steps (schedule : Scheduler) (workflowId : string) (i : nat)
  (steps : list Step) (currentData : Value) : M unit :=
  match steps with
  | [] => ret tt
  | step :: rest =>
      update_workflow workflowId (with_wf_currentStep i) ;;
      emit "workflow:step"
        [("workflowId", VStr workflowId); ("stepIndex", VNum (Z.of_nat i));
         ("jobId", step_jobId step); ("assigneeId", step_assigneeId step);
         ("assigneeType", step_assigneeType step); ("type", type_of step)] ;;
      currentData' <- run_step schedule workflowId i step currentData ;;
      run_steps schedule workflowId (S i) rest currentData'
  end.

Definition workflow_results (st : Agency) (workflowId : string) : Obj :=
  match workflows st !! workflowId with
  | Some w => wf_results w
  | None => []
  end.

Definition workflow_step (st : Agency) (workflowId : string) : nat :=
  match workflows st !! workflowId with
  | Some w => wf_currentStep w
  | None => 0
  end.

(** The [catch] block of [executeWorkflow]. *)
Definition workflow_catch (workflowId : string) (message : string) : M Value :=
  update_workflow workflowId (with_wf_status wf_failed) ;;
  update_workflow workflowId (with_wf_error (Some message)) ;;
  st <- get ;;
  emit "workflow:failed"
    [("workflowId", VStr workflowId); ("error", VStr message);
     ("step", VNum (Z.of_nat (workflow_step st workflowId)))] ;;
  let failure :=
    VObj [("status", VStr "failed"); ("workflowId", VStr workflowId);
          ("error", VStr message);
          ("step", VNum (Z.of_nat (workflow_step st workflowId)));
          ("results", VObj (workflow_results st workflowId))] in
  match workflowErrorHandlers st !! workflowId, workflows st !! workflowId with
  | Some handler, Some w =>
      match handler message w with
      | HandlerReturns v => ret v
      | HandlerThrows => ret failure
      end
  | _, _ => ret failure
  end.

Definition executeWorkflow (schedule : Scheduler)
  (workflowDefinition : list Step) (workflowId : string) (initialData : Obj)
  : M Value :=
  modify (set_workflows (insert workflowId
    {| wf_id := workflowId; wf_definition := workflowDefinition;
       wf_status := wf_in_progress; wf_currentStep := 0; wf_results := [];
       wf_error := None |})) ;;
  emit "workflow:started"
    [("workflowId", VStr workflowId);
     ("steps", VNum (Z.of_nat (length workflowDefinition)))] ;;
  createMemoryScope (workflow_scope workflowId) ;;
  for_each (JS.entries initialData)
    (fun kv => workflow_remember workflowId kv.1 kv.2) ;;
  try_catch
    (run_steps schedule workflowId 0 workflowDefinition (VObj initialData) ;;
     update_workflow workflowId (with_wf_status wf_completed) ;;
     st <- get ;;
     emit "workflow:completed"
       [("workflowId", VStr workflowId);
        ("results", VObj (workflow_results st workflowId))] ;;
     ret (VObj [("status", VStr "completed"); ("workflowId", VStr workflowId);
                ("results", VObj (workflow_results st workflowId))]))
    (workflow_catch workflowId).

(** The calls of [execute] left in flight settle at some later time, in the
    order the scheduler picks; nobody awaits their outcome. *)
Fixpoint settle_in_flight (schedule : Scheduler) (n : nat) : M unit :=
  match n with
  | O => ret tt
  | S n' =>
      st <- get ;;
      let pending := inFlight st in
      let k := (schedule (map fst pending) mod length pending)%nat in
      match pending !! k with
      | None => ret tt
      | Some (_, jid, launch) =>
          modify (set_inFlight (delete k)) ;;
          capture (execute_finish jid launch) ;;
          settle_in_flight schedule n'
      end
  end.

Definition cleanupWorkflow (workflowId : string) (keepResults : bool)
  : M bool :=
  st <- get ;;
  match workflows st !! workflowId with
  | None => ret false
  | Some workflow =>
      match wf_status workflow with
      | wf_in_progress => ret false
      | _ =>
          let results :=
            if keepResults then VObj (wf_results workflow) else VNull in
          modify (set_memoryScopes (delete (workflow_scope workflowId))) ;;
          modify (set_workflowErrorHandlers (delete workflowId)) ;;
          modify (set_workflows (delete workflowId)) ;;
          emit "workflow:cleaned"
            [("workflowId", VStr workflowId);
             ("keepResults", VBool keepResults)] ;;
          (if keepResults && JS.truthy results
           then scope_remember "global"
                  ("workflow_" +:+ workflowId +:+ "_results")
                  (VObj [("results", results); ("cleanedAt", VDate)]) ;;
                ret tt
           else ret tt) ;;
          ret true
      end
  end.

(** ** Agency: planner *)

Module Lenient.

Definition is_space (c : Ascii.ascii) : bool :=
  let n := Ascii.nat_of_ascii c in
  (n =? 32)%nat || ((9 <=? n)%nat && (n <=? 13)%nat).

Fixpoint skip_spaces (s : string) : string :=
  match s with
  | String c s' => if is_space c then skip_spaces s' else s
  | EmptyString => s
  end.

(** [s] starts with [first], white space, then [second]: what follows. *)
Definition bracket_pair (first second : Ascii.ascii) (s : string)
  : option string :=
  match s with
  | String c s' =>
      if Ascii.eqb c first then
        match skip_spaces s' with
        | String d rest => if Ascii.eqb d second then Some rest else None
        | EmptyString => None
        end
      else None
  | EmptyString => None
  end.

(** The length of the longest prefix of [s] that ends with a closing brace,
    white space and a closing bracket. *)
Fixpoint longest_close (s : string) : option nat :=
  match s with
  | EmptyString => None
  | String _ s' =>
      match longest_close s' with
      | Some n => Some (S n)
      | None =>
          match bracket_pair "}"%char "]"%char s with
          | Some rest => Some (String.length s - String.length rest)%nat
          | None => None
          end
      end
  end.

(** A match of the pattern that starts at the head of [s]. *)
Definition match_here (s : string) : option string :=
  match bracket_pair "["%char "{"%char s with
  | Some rest =>
      match longest_close rest with
      | Some n =>
          Some (String.substring 0
                  (String.length s - String.length rest + n) s)
      | None => None
      end
  | None => None
  end.

(** [text.match(/\[\s*\{.*\}\s*\]/s)]: the leftmost match, on ASCII text. *)
Fixpoint array_match (s : string) : option string :=
  match match_here s with
  | Some m => Some m
  | None =>
      match s with
      | String _ s' => array_match s'
      | EmptyString => None
      end
  end.

End Lenient.

(** The fixed plan that [planJobsFromGoal] returns when the reply cannot be
    parsed. *)
Definition default_plan : Value :=
  VArr
    [VObj [("name", VStr "Research vacation options");
           ("description",
            VStr "Research and suggest vacation options based on user preferences");
           ("inputs", VArr [VStr "user_preferences"]);
           ("outputs", VArr [VStr "vacation_suggestions"])];
     VObj [("name", VStr "Create vacation itinerary");
           ("description",
            VStr "Create a detailed itinerary for the vacation");
           ("inputs",
            VArr [VStr "vacation_suggestions"; VStr "user_preferences"]);
           ("outputs", VArr [VStr "vacation_itinerary"])];
     VObj [("name", VStr "Book accommodations and transportation");
           ("description",
            VStr "Book accommodations and transportation for the vacation");
           ("inputs",
            VArr [VStr "vacation_itinerary"; VStr "user_preferences"]);
           ("outputs", VArr [VStr "booking_confirmations"])]].

Section Planner.

(** [JSON.parse], answering the parsed value or the message of the
    [SyntaxError]; and [Date.now()] as read in each iteration of the loops
    that name the new jobs. *)
Variable JSON_parse : string -> Result Value.
Variable Date_now : nat -> Z.

(** [s] between double quotes. *)
Definition quoted (s : string) : string :=
  let q := String (Ascii.ascii_of_nat 34) EmptyString in q +:+ s +:+ q.

(** [a || b]. *)
Definition or_else (a b : Value) : Value := if JS.truthy a then a else b.

(** [response.text || response.output || response]. *)
Definition response_text (response : Value) : Result Value :=
  match JS.member response "text" with
  | Throw e => Throw e
  | Ok text =>
      if JS.truthy text then Ok text
      else
        match JS.member response "output" with
        | Throw e => Throw e
        | Ok output => Ok (or_else output response)
        end
  end.

(** The two parsing tiers, shared by the planner and the replanner: the
    whole reply, then the first array-shaped substring. *)
Definition parse_reply (responseText : Value) : Result Value :=
  match JSON_parse (JS.to_string responseText) with
  | Ok v => Ok v
  | Throw directParseErr =>
      match responseText with
      | VStr text =>
          match Lenient.array_match text with
          | Some jsonMatch =>
              match JSON_parse jsonMatch with
              | Ok v => Ok v
              | Throw extractErr =>
                  Throw ("Failed to parse extracted JSON: " +:+ extractErr)
              end
          | None => Throw directParseErr
          end
      | _ => Throw "responseText.match is not a function"
      end
  end.

(** The loop that turns the tasks of a plan into briefs and jobs assigned
    to [assignee]. *)
Fixpoint create_jobs (tag : string) (assignee : Value)
  (make_brief : Value -> Result Obj) (i : nat) (tasks : list Value)
  (jobIds : list Value) : M (list Value) :=
  match tasks with
  | [] => ret jobIds
  | task :: rest =>
      let jobId :=
        JS.to_string assignee +:+ "-" +:+ tag +:+ "-" +:+
        pretty (Date_now i) +:+ "-" +:+ pretty i in
      brief <- lift (make_brief task) ;;
      createBrief jobId brief ;;
      assignJob jobId assignee (VStr "agent") ;;
      create_jobs tag assignee make_brief (S i) rest (jobIds ++ [VStr jobId])
  end.

Definition task_fields (task : Value) : Result (Value * Value * Value * Value) :=
  match JS.member task "name", JS.member task "description",
        JS.member task "inputs", JS.member task "outputs" with
  | Ok name, Ok description, Ok inputs, Ok outputs =>
      Ok (name, description, or_else inputs (VArr []),
          or_else outputs (VArr []))
  | _, _, _, _ =>
      Throw ("Cannot read properties of " +:+ JS.to_string task +:+
             " (reading 'name')")
  end.

Definition goal_brief (goal : string) (task : Value) : Result Obj :=
  match task_fields task with
  | Throw e => Throw e
  | Ok (name, description, inputs, outputs) =>
      Ok [("goal", VStr goal); ("taskName", name); ("overview", description);
          ("inputs", inputs); ("expectedOutputs", outputs);
          ("instructions",
           VStr ("You are to complete the task " +:+ quoted (JS.to_string name)
                 +:+ " as part of the broader goal " +:+ quoted goal +:+
                 ". Use the provided inputs and return the expected outputs."))]
  end.

Definition planJobsFromGoal (agentId goal : string) : M Value :=
  st <- get ;;
  match agents st !! agentId with
  | None => throw ("Agent " +:+ agentId +:+ " not found")
  | Some run =>
      modify (set_invocations (fun log =>
        log ++ [(agentId, PlanningPrompt goal)])) ;;
      match run (PlanningPrompt goal) with
      | Rejects e => throw e
      | Resolves planResponse =>
          responseText <- lift (response_text planResponse) ;;
          match parse_reply responseText with
          | Throw _ => ret default_plan
          | Ok (VArr taskPlan) =>
              jobIds <- create_jobs "goal" (VStr agentId) (goal_brief goal)
                          0 taskPlan [] ;;
              ret (VArr jobIds)
          | Ok taskPlan =>
              throw ("Planning output was not a valid task array. " +:+
                     "Expected an array but got: " +:+ JS.typeof taskPlan)
          end
      end
  end.

Definition replan_brief (brief : Obj) (failedJobId errorMessage : string)
  (task : Value) : Result Obj :=
  match task_fields task with
  | Throw e => Throw e
  | Ok (name, description, inputs, outputs) =>
      Ok [("goal", JS.prop brief "goal"); ("taskName", name);
          ("overview", description); ("inputs", inputs);
          ("expectedOutputs", outputs);
          ("instructions",
           VStr ("This is an alternative approach after the original task "
                 +:+ quoted (JS.to_string (JS.prop brief "taskName")) +:+
                 " failed with error: " +:+ quoted errorMessage +:+ "."));
          ("originalJobId", VStr failedJobId)]
  end.

Definition replanFailedJob (failedJobId errorMessage : string) : M Value :=
  st <- get ;;
  match getJob st failedJobId with
  | None => throw ("Job " +:+ failedJobId +:+ " not found")
  | Some job =>
      match agents st !! JS.to_string (assigneeId job) with
      | None =>
          throw ("Agent " +:+ JS.to_string (assigneeId job) +:+ " not found")
      | Some run =>
          match briefs st !! failedJobId with
          | Some brief =>
              if JS.truthy (JS.prop brief "goal") then
                let prompt :=
                  ReplanningPrompt (JS.prop brief "goal")
                    (JS.prop brief "taskName") (JS.prop brief "overview")
                    (VStr errorMessage) in
                modify (set_invocations (fun log =>
                  log ++ [(JS.to_string (assigneeId job), prompt)])) ;;
                match run prompt with
                | Rejects e => throw e
                | Resolves replanResponse =>
                    responseText <- lift (response_text replanResponse) ;;
                    match parse_reply responseText with
                    | Throw e =>
                        throw ("Failed to parse replanning response: " +:+ e
                               +:+ ". The model did not return valid JSON.")
                    | Ok (VArr alternatives) =>
                        newJobIds <-
                          create_jobs "replan" (assigneeId job)
                            (replan_brief brief failedJobId errorMessage)
                            0 alternatives [] ;;
                        ret (VArr newJobIds)
                    | Ok alternatives =>
                        throw ("Replanning output was not a valid task array. "
                               +:+ "Expected an array but got: " +:+
                               JS.typeof alternatives)
                    end
                end
              else
                throw ("Cannot replan job " +:+ failedJobId +:+
                       ": no goal context found")
          | None =>
              throw ("Cannot replan job " +:+ failedJobId +:+
                     ": no goal context found")
          end
      end
  end.

End Planner.

(** ** Agency: the prompt of an agent *)

(** The line break of a template literal. *)
Definition nl : string := String (Ascii.ascii_of_nat 10) EmptyString.

(** The text of [${v + 1}]: a number is incremented, [undefined] gives
    [NaN], [null] and the booleans count as 0 and 1, and a string, an array,
    an object or a date is converted to a string to which [1] is appended. *)
Definition plus_one_text (v : Value) : string :=
  match v with
  | VUndefined => "NaN"
  | VNull => "1"
  | VBool true => "2"
  | VBool false => "1"
  | VNum n => pretty (n + 1)%Z
  | _ => JS.to_string v +:+ "1"
  end.

(** [if (v) prompt += `\n## <title>\n${v}\n`]. *)
Definition optional_section (title : string) (v : Value) : string :=
  if JS.truthy v
  then nl +:+ "## " +:+ title +:+ nl +:+ JS.to_string v +:+ nl
  else EmptyString.

Section Prompt.

(** [JSON.stringify(v, null, 2)], which [formatBriefAsPrompt] calls on a
    truthy value only. *)
Variable JSON_stringify : Value -> string.

(** The last block of [formatBriefAsPrompt]: [if (inputs.workflowId)]. *)
Definition workflow_context (inputs : Obj) : string :=
  if JS.truthy (JS.prop inputs "workflowId")
  then
    nl +:+ "## Workflow Context" +:+ nl +:+ "This is step " +:+
    plus_one_text (JS.prop inputs "workflowStep") +:+ " of workflow " +:+
    JS.to_string (JS.prop inputs "workflowId") +:+ "." +:+ nl +:+
    (if JS.truthy (JS.prop inputs "previousStepData")
     then nl +:+ "## Previous Step Results" +:+ nl +:+
          JSON_stringify (JS.prop inputs "previousStepData") +:+ nl
     else EmptyString)
  else EmptyString.

Definition formatBriefAsPrompt (brief inputs : Obj) : string :=
  nl +:+ "# JOB BRIEF: " +:+ JS.to_string (JS.prop brief "title") +:+ nl +:+
  nl +:+ "## Overview" +:+ nl +:+ JS.to_string (JS.prop brief "overview") +:+
  nl +:+
  nl +:+ "## Background" +:+ nl +:+
  JS.to_string (or_else (JS.prop brief "background") (VStr "Not provided")) +:+
  nl +:+
  nl +:+ "## Objective" +:+ nl +:+ JS.to_string (JS.prop brief "objective") +:+
  nl +:+
  nl +:+ "## Target Audience" +:+ nl +:+
  JS.to_string
    (or_else (JS.prop brief "targetAudience") (VStr "Not specified")) +:+
  nl +:+
  optional_section "Preferences"
    (or_else (JS.prop brief "preferences") (JS.prop inputs "preferences")) +:+
  optional_section "Dates"
    (or_else (JS.prop brief "dates") (JS.prop inputs "dates")) +:+
  optional_section "Budget"
    (or_else (JS.prop brief "budget") (JS.prop inputs "budget")) +:+
  optional_section "Transportation"
    (or_else (JS.prop brief "transportation")
       (JS.prop inputs "transportation")) +:+
  optional_section "Deliverables" (JS.prop brief "deliverables") +:+
  optional_section "Additional Information" (JS.prop brief "additionalInfo") +:+
  workflow_context inputs.

(** The first argument of the call of [run] that [execute] makes: the
    prompt text for an agent, the merged inputs for a team.  The calls made
    for planning are not made by [execute] and have no answer here. *)
Definition run_argument (input : RunInput) : option Value :=
  match input with
  | AgentPrompt brief mergedInputs _ _ =>
      Some (VStr (formatBriefAsPrompt brief mergedInputs))
  | TeamInput mergedInputs _ _ _ => Some (VObj mergedInputs)
  | _ => None
  end.

End Prompt.
(** * Statements: auxiliary definitions *)

(** The [jobId] field of a job object, where a method's parameter has the
    same name. *)
Abbreviation job_id := jobId.

(** [m] keeps the property [P] of the agency. *)
Definition preserves {A} (P : Agency -> Prop) (m : M A) : Prop :=
  forall st r st', P st -> m st = (r, st') -> P st'.

Ltac msimpl :=
  cbv beta iota delta
    [bind ret throw get modify lift emit try_catch capture update_job
     update_workflow abandon].

(** The record that [executeWorkflow] creates before anything else. *)
Definition workflow_record (workflowDefinition : list Step)
  (workflowId : string) : Workflow :=
  {| wf_id := workflowId; wf_definition := workflowDefinition;
     wf_status := wf_in_progress; wf_currentStep := 0; wf_results := [];
     wf_error := None |}.

(** The agency after the first two statements of [executeWorkflow]. *)
Definition workflow_started (workflowDefinition : list Step)
  (workflowId : string) (st : Agency) : Agency :=
  set_events
    (fun log =>
       log ++
       [("workflow:started",
         [("workflowId", VStr workflowId);
          ("steps", VNum (Z.of_nat (length workflowDefinition)))])])
    (set_workflows
       (insert workflowId (workflow_record workflowDefinition workflowId)) st).

(** The agency in which the workflow [w] has run once, to its end, and has
    not been cleaned up. *)
Definition agency_after_w : Agency :=
  snd (executeWorkflow (fun _ => 0%nat) [] "w" [] new_agency).

(** The job object after the writes of [retryJob]. *)
Definition retried (count : nat) (job : Job) : Job :=
  with_error None (with_status assigned (with_retryCount (Some (S count)) job)).

Ltac fields :=
  cbn [agents team briefs activeJobs jobHeap events globalMemory memoryScopes
       jobContexts workflows errorHandlers workflowErrorHandlers jobSchemas
       memoryAccessControl inFlight invocations transitions
       set_briefs set_activeJobs set_jobHeap set_events set_globalMemory
       set_memoryScopes set_jobContexts set_workflows
       set_workflowErrorHandlers set_memoryAccessControl set_inFlight
       set_invocations set_transitions].

Definition archive_key (jobId : string) : string := "job_" +:+ jobId +:+ "_results".

Definition archive_entry (job : Job) : Value :=
  VObj [("results", results job); ("cleanedAt", VDate)].

(** The agency after [cleanupJob] has removed the job and its context. *)
Definition job_removed (jobId : string) (keepResults : bool) (st : Agency) : Agency :=
  set_events
    (fun log => log ++
       [("job:cleaned", [("jobId", VStr jobId); ("keepResults", VBool keepResults)])])
    (set_activeJobs (delete jobId) (set_jobContexts (delete jobId) st)).

(** The agency after a successful [cleanupJob]. *)
Definition cleaned_up (jobId : string) (keepResults : bool) (job : Job) (st : Agency) : Agency :=
  if keepResults && JS.truthy (results job)
  then set_globalMemory
         (fun m => (Memory.remember m (archive_key jobId) (archive_entry job)).2)
         (job_removed jobId keepResults st)
  else job_removed jobId keepResults st.

Definition terminal (s : Status) : bool :=
  match s with completed | failed => true | _ => false end.

(** The agency after the body of the loop of [shareMemoryBetween] has run
    for [key]. *)
Definition shared_key (sourceId targetId accessMode key : string)
  (source target : MemoryManager) (st : Agency) : Agency :=
  let value := Memory.recall source key in
  if JS.is_undefined value then st
  else
    let granted :=
      set_memoryAccessControl
        (fun acl =>
           <[targetId :=
               <[key := {| sourceScope := sourceId; accessMode := accessMode;
                           sharedAt := VDate |}]>
                 (default ∅ (acl !! targetId))]> acl)
        (scope_update targetId
           (fun _ => (Memory.remember target key value).2) st) in
    if String.eqb accessMode "read-only"
    then scope_update targetId (Memory.wrap_remember key) granted
    else granted.

(** The target scope after the loop body has run for a key that has a value
    in the source. *)
Definition target_after (accessMode key : string) (value : Value)
  (target : MemoryManager) : MemoryManager :=
  let written := (Memory.remember target key value).2 in
  if String.eqb accessMode "read-only"
  then Memory.wrap_remember key written
  else written.

(** The agency when the loop of [shareMemoryBetween] starts. *)
Definition acl_ready (targetId : string) (st : Agency) : Agency :=
  set_memoryAccessControl
    (fun acl => <[targetId := default ∅ (acl !! targetId)]> acl) st.

Definition shared_event (sourceId targetId : string) (keys : list string)
  (accessMode : string) : string * Obj :=
  ("memory:shared",
   [("sourceScope", VStr sourceId); ("targetScope", VStr targetId);
    ("keys", VArr (map VStr keys)); ("accessMode", VStr accessMode)]).

(** Writes made after a grant, to any scopes. *)
Definition remember_all (writes : list (string * string * Value)) : M unit :=
  for_each writes (fun w => scope_remember w.1.1 w.1.2 w.2 ;; ret tt).

(** The key [k] of the scope [scopeId] is write-protected and holds [x]. *)
Definition locked (scopeId k : string) (x : Value) (st : Agency) : Prop :=
  exists m, scope_lookup st scopeId = Some m /\
            k ∈ readOnlyWrappers m /\ Memory.recall m k = x.

(** The grant that [shareMemoryBetween] records for a key. *)
Definition grant_of (sourceId accessMode : string) : AccessGrant :=
  {| sourceScope := sourceId; accessMode := accessMode; sharedAt := VDate |}.

(** Later calls of [remember] on one scope. *)
Definition remember_in (scopeId : string) (writes : list (string * Value))
  : M unit :=
  for_each writes (fun w => scope_remember scopeId w.1 w.2 ;; ret tt).

(** What the claim promises of [cleanupJob] with [keepResults] set on a job
    that is [completed] or [failed]: afterwards the global scope holds an
    archive under the derived key. *)
Definition archives_when_kept (st : Agency) (jobId : string) : Prop :=
  forall job,
    getJob st jobId = Some job ->
    status job = completed \/ status job = failed ->
    Memory.recall (globalMemory (cleanupJob jobId true st).2)
      (archive_key jobId) <> VUndefined.

(** What the claim promises of a call of [run]: the assignee is passed the
    merged inputs, and they hold [v] under [previousStepData]. *)
Definition passed_previous_step_data (JSON_stringify : Value -> string)
  (call : string * RunInput) (v : Value) : Prop :=
  exists mergedInputs,
    run_argument JSON_stringify call.2 = Some (VObj mergedInputs) /\
    JS.obj_get mergedInputs "previousStepData" = Some v.

(** What the claim promises of one call, for the keys it shares: a grant is
    recorded for each, and the target holds the current value of the
    source. *)
Definition shares_every_key (st : Agency) (sourceId targetId : string)
  (keys : list string) (accessMode : string) : Prop :=
  forall st' source target' k,
    (shareMemoryBetween sourceId targetId keys accessMode st).2 = st' ->
    scope_lookup st sourceId = Some source ->
    scope_lookup st' targetId = Some target' ->
    k ∈ keys ->
    getMemoryAccessInfo st' targetId k = Some (grant_of sourceId accessMode) /\
    Memory.recall target' k = Memory.recall source k.

(** What the claim promises of the copies of one call: whatever the source
    scope remembers afterwards, the target holds for the key what it held
    when the call returned. *)
Definition keeps_a_snapshot (st : Agency) (sourceId targetId : string)
  (keys : list string) (accessMode : string) (writes : list (string * Value))
  : Prop :=
  forall st' st'' target' k,
    (shareMemoryBetween sourceId targetId keys accessMode st).2 = st' ->
    scope_lookup st' targetId = Some target' ->
    (remember_in sourceId writes st').2 = st'' ->
    (fun m => Memory.recall m k) <$> scope_lookup st'' targetId =
      Some (Memory.recall target' k).

(** An agency with a scope [t] to which [global] has granted its key [a]
    read-only when it held 1; [global] holds 2 for [a] by now, and nothing
    for [missing]. *)
Definition agency_with_grant : Agency :=
  let run {A} (m : M A) (st : Agency) := (m st).2 in
  run (scope_remember "global" "a" (VNum 2))
    (run (shareMemoryBetween "global" "t" ["a"] "read-only")
       (run (createMemoryScope "t")
          (run (scope_remember "global" "a" (VNum 1)) new_agency))).

(** The key has a value in the source scope: [recall] does not answer
    [undefined]. *)
Definition defined_in (source : MemoryManager) (k : string) : Prop :=
  JS.is_undefined (Memory.recall source k) = false.

(** The reply passes neither parsing tier: [JSON.parse] rejects the whole
    text, and either no substring has the shape of an array of objects, or
    [JSON.parse] rejects the first one that has (a reply that is not a
    string has no [match] method). *)
Definition unparsable (JSON_parse : string -> Result Value)
  (responseText : Value) : Prop :=
  (exists e, JSON_parse (JS.to_string responseText) = Throw e) /\
  match responseText with
  | VStr text =>
      Lenient.array_match text = None \/
      exists m e, Lenient.array_match text = Some m /\ JSON_parse m = Throw e
  | _ => True
  end.

(** The agency after the planner has called its agent. *)
Definition planner_called (assignee : string) (prompt : RunInput)
  (st : Agency) : Agency :=
  set_invocations (fun log => log ++ [(assignee, prompt)]) st.

(** A stand-in for [JSON.parse] that accepts no text. *)
Definition rejecting_parser : string -> Result Value :=
  fun _ => Throw "Unexpected token".

(** [P] does not depend on the parts of the agency that the job registry
    and the memory scopes write. *)
Record Frame (P : Agency -> Prop) : Prop := {
  frame_briefs : forall f st, P st -> P (set_briefs f st);
  frame_activeJobs : forall f st, P st -> P (set_activeJobs f st);
  frame_jobHeap : forall f st, P st -> P (set_jobHeap f st);
  frame_events : forall f st, P st -> P (set_events f st);
  frame_globalMemory : forall f st, P st -> P (set_globalMemory f st);
  frame_memoryScopes : forall f st, P st -> P (set_memoryScopes f st);
  frame_jobContexts : forall f st, P st -> P (set_jobContexts f st);
  frame_inFlight : forall f st, P st -> P (set_inFlight f st);
  frame_transitions : forall f st, P st -> P (set_transitions f st)
}.

(** [P] survives a write to a field of a workflow record. *)
Definition WorkflowFrame (P : Agency -> Prop) : Prop :=
  forall f workflowId st, P st -> P (set_workflows (alter f workflowId) st).

(** [P] survives a call of [run] made by [execute] for the inputs [extra]. *)
Definition InvocationFrame (P : Agency -> Prop) (extra : Obj) : Prop :=
  forall st assignee brief briefInputs jobContext jobId,
    P st ->
    P (set_invocations
         (fun log => log ++
            [(assignee,
              AgentPrompt brief (merge_inputs briefInputs jobContext extra)
                jobId jobContext)]) st) /\
    P (set_invocations
         (fun log => log ++
            [(assignee,
              TeamInput (merge_inputs briefInputs jobContext extra) brief
                jobId jobContext)]) st).

(** [P] survives any call of [run]. *)
Definition AnyInvocation (P : Agency -> Prop) : Prop :=
  forall f st, P st -> P (set_invocations f st).

(** The call of [assignee.run] that [execute] makes: for an agent with the
    prompt rendered from the brief and the merged inputs, for a team with the
    merged inputs. *)
Definition run_input (job : Job) (jobId : string) (mergedInputs jobContext : Obj)
  : RunInput :=
  if is_agent (assigneeType job)
  then AgentPrompt (brief job) mergedInputs jobId jobContext
  else TeamInput mergedInputs (brief job) jobId jobContext.

(** The [try] block of [execute] before the call of [run], as a function
    of the agency at the call: the assignee and what it is called with, or
    the message of the error thrown (brief extraction, input validation, no
    assignee). *)
Definition prepare (st : Agency) (job : Job) (jobId : string)
  (additionalInputs : Obj) : Result (Runnable * RunInput) :=
  match extractInputsFromBrief (brief job) with
  | Throw e => Throw e
  | Ok briefInputs =>
      let jobContext := default [] (jobContexts st !! jobId) in
      let mergedInputs :=
        merge_inputs briefInputs jobContext additionalInputs in
      match check_schema "Input" (VObj mergedInputs) (input_schema st jobId) with
      | Throw e => Throw e
      | Ok _ =>
          match lookup_assignee st (assigneeType job) (assigneeId job) with
          | None => Throw "Cannot read properties of undefined (reading 'run')"
          | Some run => Ok (run, run_input job jobId mergedInputs jobContext)
          end
      end
  end.

(** The [try] block of [execute] after [run] has settled: the results with
    which the job completes, or the message of the error thrown (rejection,
    output validation, update of the job context). *)
Definition conclude (st : Agency) (jobId : string) (reply : RunOutcome)
  : Result Value :=
  match reply with
  | Rejects e => Throw e
  | Resolves results =>
      match check_schema "Output" results (output_schema st jobId) with
      | Throw e => Throw e
      | Ok _ =>
          match jobContexts st !! jobId with
          | Some _ => Ok results
          | None => Throw ("Job context for " +:+ jobId +:+ " not found")
          end
      end
  end.

(** The whole [try] block of [execute]: the invocation or a validation
    fails exactly when it answers [Throw]. *)
Definition attempt (st : Agency) (job : Job) (jobId : string)
  (additionalInputs : Obj) : Result Value :=
  match prepare st job jobId additionalInputs with
  | Throw e => Throw e
  | Ok (run, input) => conclude st jobId (run input)
  end.

(** The job object after the [catch] block of [execute]. *)
Definition failed_with (e : string) (job : Job) : Job :=
  with_error (Some e) (with_status failed job).

(** What [execute] answers after a failure: the value of the error handler
    of the job when there is one and it returns, the error otherwise. *)
Definition handler_result (st : Agency) (jobId e : string) (job : Job)
  : Result Value :=
  match errorHandlers st !! jobId with
  | Some handler =>
      match handler e job with
      | HandlerReturns v => Ok v
      | HandlerThrows => Throw e
      end
  | None => Throw e
  end.

(** The agency after [job.status = s]. *)
Definition status_written (who : Writer) (ref : nat) (s : Status) (job : Job)
  (st : Agency) : Agency :=
  set_transitions
    (fun log => log ++ [mkTransition (jobId job) who (Some (status job)) s])
    (set_jobHeap (alter (with_status s) ref) st).

(** The agency when [retryJob] calls [execute]. *)
Definition retry_prepared (jobId : string) (ref : nat) (job : Job)
  (maxRetries : Z) (st : Agency) : Agency :=
  let count := default 0%nat (retryCount job) in
  set_events
    (fun log => log ++
       [("job:retrying",
         [("jobId", VStr jobId); ("retryCount", VNum (Z.of_nat (S count)));
          ("maxRetries", VNum maxRetries)])])
    (set_jobHeap (alter (with_error None) ref)
       (status_written ByRetryJob ref assigned
          (with_retryCount (Some (S count)) job)
          (set_jobHeap (alter (with_retryCount (Some (S count))) ref)
             (set_jobHeap (alter (with_retryCount (Some count)) ref) st)))).

(** The agency after the [catch] block of [execute]. *)
Definition job_failed (jobId : string) (ref : nat) (e : string) (job : Job)
  (st : Agency) : Agency :=
  set_events
    (fun log => log ++
       [("job:failed", [("jobId", VStr jobId); ("error", VStr e)])])
    (set_jobHeap (alter (with_error (Some e)) ref)
       (status_written ByExecute ref failed job st)).

(** The agency when [execute] has entered its [try] block. *)
Definition job_started (jobId : string) (ref : nat) (job : Job) (st : Agency)
  : Agency :=
  set_events
    (fun log => log ++ [("job:started", [("jobId", VStr jobId)])])
    (status_written ByExecute ref in_progress job st).

(** The agency when [execute] has called [run]. *)
Definition invoked (job : Job) (input : RunInput) (st : Agency) : Agency :=
  set_invocations
    (fun log => log ++ [(JS.to_string (assigneeId job), input)]) st.

(** The job context after [updateJobContext(jobId, { results })]. *)
Definition context_with_results (old : Obj) (results : Value) : Obj :=
  JS.obj_set "updatedAt" VDate
    (JS.spread (JS.spread [] old) [("results", results)]).

(** The agency when [execute] has completed the job. *)
Definition job_completed (jobId : string) (ref : nat) (results : Value)
  (job : Job) (old : Obj) (st : Agency) : Agency :=
  set_events
    (fun log => log ++
       [("job:completed", [("jobId", VStr jobId); ("results", results)])])
    (set_events
       (fun log => log ++
          [("jobContext:updated",
            [("jobId", VStr jobId);
             ("context", VObj (context_with_results old results));
             ("updates", VArr [VStr "results"])])])
       (set_jobContexts (insert jobId (context_with_results old results))
          (set_jobHeap (alter (with_results results) ref)
             (status_written ByExecute ref completed job st)))).

(** The agency when [executeWorkflow] enters its [try] block: record
    created, memory scope created and seeded with the initial data. *)
Definition workflow_ready (workflowDefinition : list Step)
  (workflowId : string) (initialData : Obj) (st : Agency) : Agency :=
  (for_each (JS.entries initialData)
     (fun kv => workflow_remember workflowId kv.1 kv.2)
     (set_memoryScopes (insert (workflow_scope workflowId) new_memory)
        (workflow_started workflowDefinition workflowId st))).2.

(** The object that [executeWorkflow] returns for a failed workflow. *)
Definition failure_record (workflowId e : string) (w : Workflow) : Value :=
  VObj [("status", VStr "failed"); ("workflowId", VStr workflowId);
        ("error", VStr e); ("step", VNum (Z.of_nat (wf_currentStep w)));
        ("results", VObj (wf_results w))].

(** What [executeWorkflow] answers after a failure: the value of the error
    handler of the workflow when there is one and it returns, the failure
    record otherwise. *)
Definition workflow_handler_result (st : Agency) (workflowId e : string)
  (w : Workflow) : Value :=
  match workflowErrorHandlers st !! workflowId with
  | Some handler =>
      match handler e w with
      | HandlerReturns v => v
      | HandlerThrows => failure_record workflowId e w
      end
  | None => failure_record workflowId e w
  end.

(** The workflow record after the [catch] block of [executeWorkflow]. *)
Definition workflow_failed_with (e : string) (w : Workflow) : Workflow :=
  with_wf_error (Some e) (with_wf_status wf_failed w).

(** The workflow has a record and the handlers are those of [st0]. *)
Definition workflow_kept (workflowId : string) (st0 st : Agency) : Prop :=
  is_Some (workflows st !! workflowId) /\
  workflowErrorHandlers st = workflowErrorHandlers st0.

(** The job object that [assignJob] builds. *)
Definition new_job (jobId : string) (brief : Obj)
  (assigneeId assigneeType : Value) : Job :=
  {| jobId := jobId; brief := brief; assigneeId := assigneeId;
     assigneeType := default_agent assigneeType; status := assigned;
     results := VNull; error := None; retryCount := None |}.

(** The agency after [this.activeJobs[jobId] = job]. *)
Definition job_registered (jobId : string) (job : Job) (st : Agency) : Agency :=
  set_transitions
    (fun log =>
       log ++ [mkTransition jobId ByAssignJob (status <$> getJob st jobId)
                 assigned])
    (set_activeJobs (insert jobId (length (jobHeap st)))
       (set_jobHeap (fun heap => heap ++ [job]) st)).

(** The agency after [assignJob]. *)
Definition job_assigned (jobId : string) (job : Job) (st : Agency) : Agency :=
  let st1 := job_registered jobId job st in
  let st2 :=
    match jobContexts st !! jobId with
    | Some _ => st1
    | None => (createJobContext jobId [] st1).2
    end in
  set_events
    (fun log => log ++
       [("job:assigned",
         [("jobId", VStr jobId); ("assigneeId", assigneeId job);
          ("assigneeType", assigneeType job)])]) st2.

(** A call made to the job registry. *)
Inductive Call : Type :=
| CallAssignJob (jobId : string) (assigneeId assigneeType : Value)
| CallExecute (jobId : string) (additionalInputs : Obj)
| CallRetryJob (jobId : string) (maxRetries : Z) (additionalInputs : Obj).

Definition call (c : Call) : M Value :=
  match c with
  | CallAssignJob jobId assigneeId assigneeType =>
      assignJob jobId assigneeId assigneeType ;; ret VUndefined
  | CallExecute jobId additionalInputs => execute jobId additionalInputs
  | CallRetryJob jobId maxRetries additionalInputs =>
      retryJob jobId maxRetries additionalInputs
  end.

(** A sequence of calls, each awaited before the next is made; a call that
    throws does not keep the caller from making the next. *)
Fixpoint run_calls (calls : list Call) (st : Agency) : Agency :=
  match calls with
  | [] => st
  | c :: rest => run_calls rest (call c st).2
  end.

(** The edges of the specification: [assigned] to [in_progress],
    [in_progress] to [completed] or [failed], and [failed] to [assigned] by
    [retryJob]; the first record of a job starts as [assigned]. *)
Definition claimed_edge (t : Transition) : Prop :=
  match tr_from t, tr_to t with
  | None, assigned => True
  | Some assigned, in_progress => True
  | Some in_progress, completed => True
  | Some in_progress, failed => True
  | Some failed, assigned => tr_by t = ByRetryJob
  | _, _ => False
  end.

(** The edges of the code: [execute] moves a job to [in_progress] whatever
    its status, then from [in_progress] to [completed] or [failed];
    [retryJob] moves it from [failed] to [assigned]; [assignJob] installs a
    fresh record, [assigned], whatever the status of the record it
    replaces. *)
Definition actual_edge (t : Transition) : Prop :=
  match tr_by t with
  | ByAssignJob => tr_to t = assigned
  | ByExecute =>
      tr_to t = in_progress \/
      (tr_from t = Some in_progress /\
       (tr_to t = completed \/ tr_to t = failed))
  | ByRetryJob => tr_from t = Some failed /\ tr_to t = assigned
  end.

(** Every active job has a job context. *)
Definition contexts_ok (st : Agency) : Prop :=
  forall jobId, is_Some (activeJobs st !! jobId) ->
                is_Some (jobContexts st !! jobId).

(** The calls of [st'] to the status field extend those of [st] by edges of
    the code, and every active job still has a context. *)
Definition extends_by_edges (st st' : Agency) : Prop :=
  (exists new, transitions st' = transitions st ++ new /\
               Forall actual_edge new) /\
  contexts_ok st'.

(** The block that [formatBriefAsPrompt] appends for the data of the step
    before. *)
Definition previous_step_results (JSON_stringify : Value -> string)
  (inputs : Obj) : string :=
  if JS.truthy (JS.prop inputs "workflowId") &&
     JS.truthy (JS.prop inputs "previousStepData")
  then nl +:+ "## Previous Step Results" +:+ nl +:+
       JSON_stringify (JS.prop inputs "previousStepData") +:+ nl
  else EmptyString.

(** A stand-in for [JSON.stringify] that answers the same text for every
    value. *)
Definition json_text : Value -> string := fun _ => "<json>".

(** The step is neither parallel nor conditional. *)
Definition sequential (step : Step) : bool :=
  negb (is_type "conditional" (type_of step)) &&
  negb (is_type "parallel" (type_of step) &&
        match step_jobId step with VArr _ => true | _ => false end).

(** The agency when the loop of [executeWorkflow] has announced step [i]. *)
Definition step_begun (workflowId : string) (i : nat) (step : Step)
  (st : Agency) : Agency :=
  set_events
    (fun log => log ++
       [("workflow:step",
         [("workflowId", VStr workflowId); ("stepIndex", VNum (Z.of_nat i));
          ("jobId", step_jobId step); ("assigneeId", step_assigneeId step);
          ("assigneeType", step_assigneeType step); ("type", type_of step)])])
    (set_workflows (alter (with_wf_currentStep i) workflowId) st).

(** The agency after [ensure_brief]. *)
Definition brief_ensured (jobId : string) (briefData : Obj) (st : Agency)
  : Agency :=
  match briefs st !! jobId with
  | Some _ => st
  | None => (createBrief jobId briefData st).2
  end.

(** The calls of [run] are those of [log]. *)
Definition invocations_are (log : list (string * RunInput)) (st : Agency)
  : Prop :=
  invocations st = log.

(** What follows [execute] in a sequential or conditional step. *)
Definition close_single (conditional : bool) (workflowId : string) (i : nat)
  (jobId : string) (result : Value) : M Value :=
  workflow_remember workflowId ("step_" +:+ pretty i +:+ "_results") result ;;
  update_workflow workflowId (with_wf_result jobId result) ;;
  fail_if_job_failed
    (if conditional then "Conditional workflow step" else "Workflow step")
    i jobId ;;
  ret result.

(** A call of [execute] whose promise can only reject: [run] has rejected,
    or the call has thrown already. *)
Definition doomed (launch : Launch) : Prop :=
  match launch with
  | Awaiting _ (Rejects _) => True
  | Settled (Throw _) => True
  | _ => False
  end.

(** The assignees and the error handlers are those of [st0]. *)
Definition same_parties (st0 st : Agency) : Prop :=
  agents st = agents st0 /\ team st = team st0 /\
  errorHandlers st = errorHandlers st0.

(** Every call of [run] on the runnable rejects. *)
Definition rejecting (run : Runnable) : Prop :=
  forall input, exists e, run input = Rejects e.

(** The workflow records are those of [st0]. *)
Definition same_workflows (st0 st : Agency) : Prop :=
  workflows st = workflows st0.

(** The workflow has a record and no result is stored in it. *)
Definition no_results (workflowId : string) (st : Agency) : Prop :=
  exists w, workflows st !! workflowId = Some w /\ wf_results w = [].

(** An assignee whose [run] resolves to [reply] whatever it is called with. *)
Definition replying (reply : Value) : Runnable := fun _ => Resolves reply.

(** An assignee whose [run] rejects whatever it is called with. *)
Definition failing (message : string) : Runnable := fun _ => Rejects message.

(** An error handler that answers a substitute value. *)
Definition substitute {A} (v : Value) : string -> A -> HandlerOutcome :=
  fun _ _ => HandlerReturns v.

(** The agency right after the constructor was given three agents, [ok],
    which resolves to [{a: 1}], [ko], which rejects, and [planner], which
    resolves to prose, with an error handler registered for the job [h] and
    one for the workflow [wh], and with a brief for each of the jobs [j], [h]
    and [p]. *)
Definition office : Agency :=
  let fresh :=
    {| agents := <["ok" := replying (VObj [("a", VNum 1)])]>
                   (<["ko" := failing "boom"]>
                      (<["planner" := replying (VStr "I cannot plan this.")]>
                         ∅));
       team := ∅; briefs := ∅; activeJobs := ∅; jobHeap := [];
       events := []; globalMemory := new_memory; memoryScopes := ∅;
       jobContexts := ∅; workflows := ∅;
       errorHandlers := <["h" := substitute (VStr "fallback")]> ∅;
       workflowErrorHandlers := <["wh" := substitute (VStr "fallback")]> ∅;
       jobSchemas := ∅; memoryAccessControl := ∅;
       inFlight := []; invocations := []; transitions := [] |} in
  (createBrief "p" [("goal", VStr "ship it")]
     (createBrief "h" [] (createBrief "j" [] fresh).2).2).2.

(** The job [j] is assigned to [ok] and executed twice. *)
Definition executed_twice : list Call :=
  [CallAssignJob "j" (VStr "ok") VUndefined; CallExecute "j" [];
   CallExecute "j" []].

(** The office after the job [h] was assigned to the agent [ko]. *)
Definition office_h : Agency := (assignJob "h" (VStr "ko") VUndefined office).2.

(** A workflow of one step, which hands the job [h] to the agent [ko]. *)
Definition one_step : list Step :=
  [{| step_jobId := VStr "h"; step_assigneeId := VStr "ko";
      step_assigneeType := VUndefined; step_inputs := VUndefined;
      step_type := VUndefined; step_brief := VUndefined;
      step_condition := None |}].

(** The office after the job [j] was assigned to [ok] and executed: it is
    [completed]. *)
Definition office_done : Agency :=
  run_calls [CallAssignJob "j" (VStr "ok") VUndefined; CallExecute "j" []]
    office.

(** The office after the job [h] was executed by [ko]: it is [failed]. *)
Definition office_failed : Agency := (execute "h" [] office_h).2.

(** An agency whose global scope holds 1 for the key [a], with an empty
    scope [t]. *)
Definition agency_with_scope : Agency :=
  (createMemoryScope "t"
     (scope_remember "global" "a" (VNum 1) new_agency).2).2.

(** The office after the job [p] was assigned to the agent [planner]. *)
Definition office_p : Agency :=
  (assignJob "p" (VStr "planner") VUndefined office).2.

(** A sequential step that hands the job [jobId] to the agent [agentId]. *)
Definition step_for (jobId agentId : string) : Step :=
  {| step_jobId := VStr jobId; step_assigneeId := VStr agentId;
     step_assigneeType := VUndefined; step_inputs := VUndefined;
     step_type := VUndefined; step_brief := VUndefined;
     step_condition := None |}.

(** The prompt of a brief that has no title, overview, background,
    objective nor audience, for inputs that name no workflow. *)
Definition bare_prompt : string :=
  nl +:+ "# JOB BRIEF: undefined" +:+ nl +:+
  nl +:+ "## Overview" +:+ nl +:+ "undefined" +:+ nl +:+
  nl +:+ "## Background" +:+ nl +:+ "Not provided" +:+ nl +:+
  nl +:+ "## Objective" +:+ nl +:+ "undefined" +:+ nl +:+
  nl +:+ "## Target Audience" +:+ nl +:+ "Not specified" +:+ nl.

(** A parallel step of three branches; the second goes to the agent [ko]. *)
Definition three_branches : Step :=
  {| step_jobId := VArr [VStr "b1"; VStr "b2"; VStr "b3"];
     step_assigneeId := VArr [VStr "ok"; VStr "ko"; VStr "ok"];
     step_assigneeType := VUndefined; step_inputs := VUndefined;
     step_type := VStr "parallel"; step_brief := VUndefined;
     step_condition := None |}.

(** * Further methods of the agency, the memory manager and the event emitter *)

(** ** Cleaning up a workflow *)

(** The key under which [cleanupWorkflow] archives the results. *)
Definition workflow_archive_key (workflowId : string) : string :=
  "workflow_" +:+ workflowId +:+ "_results".

(** What it archives. *)
Definition workflow_archive_entry (w : Workflow) : Value :=
  VObj [("results", VObj (wf_results w)); ("cleanedAt", VDate)].

(** The workflow has reached one of its two final statuses. *)
Definition wf_terminal (w : Workflow) : Prop :=
  wf_status w = wf_completed \/ wf_status w = wf_failed.

(** The identifier has a memory scope and a record that is in progress. *)
Definition wedged (workflowId : string) (st : Agency) : Prop :=
  is_Some (scope_lookup st (workflow_scope workflowId)) /\
  exists w, workflows st !! workflowId = Some w /\
            wf_status w = wf_in_progress.

(** The object that [executeWorkflow] returns for a completed workflow. *)
Definition completion_record (workflowId : string) (w : Workflow) : Value :=
  VObj [("status", VStr "completed"); ("workflowId", VStr workflowId);
        ("results", VObj (wf_results w))].

(** ** Agency: registration of agents and schemas *)

Definition set_agents f (st : Agency) : Agency :=
  mkAgency (f (agents st)) (team st) (briefs st) (activeJobs st) (jobHeap st)
    (events st) (globalMemory st) (memoryScopes st) (jobContexts st)
    (workflows st) (errorHandlers st) (workflowErrorHandlers st)
    (jobSchemas st) (memoryAccessControl st) (inFlight st) (invocations st)
    (transitions st).

Definition set_jobSchemas f (st : Agency) : Agency :=
  mkAgency (agents st) (team st) (briefs st) (activeJobs st) (jobHeap st)
    (events st) (globalMemory st) (memoryScopes st) (jobContexts st)
    (workflows st) (errorHandlers st) (workflowErrorHandlers st)
    (f (jobSchemas st)) (memoryAccessControl st) (inFlight st) (invocations st)
    (transitions st).

(** [addAgent(id, agent)]: [this.agents[id] = agent].  The relay of the
    agent's own events ([statusChanged], [runCompleted], [runError]) is not
    modelled: an assignee is its [run] method. *)
Definition addAgent (id : string) (agent : Runnable) : M unit :=
  modify (set_agents (insert id agent)).

(** [defineJobSchema(jobId, inputSchema, outputSchema)]; [None] is a schema
    left [undefined]. *)
Definition defineJobSchema (jobId : string)
  (inputSchema outputSchema : option Schema) : M unit :=
  modify (set_jobSchemas
            (insert jobId {| schema_input := inputSchema;
                             schema_output := outputSchema |})).

Definition getJobContext (jobId : string) : M Obj :=
  st <- get ;;
  match jobContexts st !! jobId with
  | Some context => ret context
  | None => throw ("Job context for " +:+ jobId +:+ " not found")
  end.

(** A field that is required and must be a string. *)
Definition required_string : SchemaField :=
  {| field_required := VBool true; field_type := VStr "string";
     field_enum := None |}.

(** The office after the job [j] was assigned to the agent [ok], with a
    schema that requires a string [topic] in the inputs and a string [text]
    in the output. *)
Definition office_with_schema : Agency :=
  (defineJobSchema "j" (Some [("topic", required_string)])
     (Some [("text", required_string)])
     (assignJob "j" (VStr "ok") VUndefined office).2).2.

(** ** Retrying a job again and again *)

(** [k] calls of [retryJob] in a row, each awaited, whatever they answer. *)
Fixpoint retry_times (k : nat) (jobId : string) (maxRetries : Z)
  (additionalInputs : Obj) (st : Agency) : Agency :=
  match k with
  | O => st
  | S k' =>
      retry_times k' jobId maxRetries additionalInputs
        (retryJob jobId maxRetries additionalInputs st).2
  end.

(** The retries that [retryJob] still accepts for the job. *)
Definition retries_left (maxRetries : Z) (job : Job) : nat :=
  Z.to_nat (maxRetries - Z.of_nat (default 0%nat (retryCount job))).

(** ** Jobs planned from a goal *)

(** The identifiers that [planJobsFromGoal] gives to the jobs of a plan,
    from the task of index [i] on. *)
Fixpoint planned_ids (Date_now : nat -> Z) (agentId : string) (i : nat)
  (tasks : list Value) : list Value :=
  match tasks with
  | [] => []
  | _ :: rest =>
      VStr (agentId +:+ "-goal-" +:+ pretty (Date_now i) +:+ "-" +:+ pretty i)
      :: planned_ids Date_now agentId (S i) rest
  end.

(** The job [jobId] is assigned to the agent [agentId], not started, and
    its brief carries the goal. *)
Definition planned (agentId goal : string) (st : Agency) (jobId : string)
  : Prop :=
  exists job brief,
    getJob st jobId = Some job /\
    status job = assigned /\
    assigneeId job = VStr agentId /\
    assigneeType job = VStr "agent" /\
    briefs st !! jobId = Some brief /\
    JS.prop brief "goal" = VStr goal.

(** ** The array found in a reply *)

(** Every character of [s] is white space. *)
Fixpoint all_space (s : string) : bool :=
  match s with
  | EmptyString => true
  | String c s' => Lenient.is_space c && all_space s'
  end.

(** [m] is an opening bracket, white space, an opening brace, any text, a
    closing brace, white space and a closing bracket. *)
Definition array_shaped (m : string) : Prop :=
  exists ws1 body ws2,
    all_space ws1 = true /\ all_space ws2 = true /\
    m = "[" +:+ ws1 +:+ "{" +:+ body +:+ "}" +:+ ws2 +:+ "]".

(** A stand-in for [JSON.parse] that accepts one text only, an array of one
    empty object. *)
Definition tiny_parser : string -> Result Value :=
  fun text =>
    if String.eqb text "[{}]" then Ok (VArr [VObj []])
    else Throw "Unexpected token".

(** The office with one more agent, [lister], whose reply wraps an array in
    prose. *)
Definition office_with_lister : Agency :=
  (addAgent "lister" (replying (VStr "Here it is: [{}] Enjoy.")) office).2.

(** ** Agency: planning and running in one call *)

(** The step that [planAndExecuteWorkflow] builds for a planned job. *)
Definition planned_step (st : Agency) (agentId : string) (jobId : Value)
  : Step :=
  {| step_jobId := jobId; step_assigneeId := VStr agentId;
     step_assigneeType := VStr "agent"; step_inputs := VUndefined;
     step_type := VUndefined;
     step_brief :=
       match briefs st !! JS.to_string jobId with
       | Some brief => VObj brief
       | None => VUndefined
       end;
     step_condition := None |}.

(** [planAndExecuteWorkflow(agentId, goal, { executeImmediately })];
    [now_goal] and [now_workflow] are the two values of [Date.now()] that
    the method reads itself. *)
Definition planAndExecuteWorkflow (JSON_parse : string -> Result Value)
  (Date_now : nat -> Z) (now_goal now_workflow : Z) (schedule : Scheduler)
  (agentId goal : string) (executeImmediately : bool) : M Value :=
  jobIds <- planJobsFromGoal JSON_parse Date_now agentId goal ;;
  getMemoryScope ("agent:" +:+ agentId) ;;
  scope_remember ("agent:" +:+ agentId) ("goal:" +:+ pretty now_goal)
    (VObj [("goal", VStr goal); ("plannedJobs", jobIds);
           ("timestamp", VDate)]) ;;
  if executeImmediately then
    match jobIds with
    | VArr ids =>
        st <- get ;;
        let workflowDefinition := map (planned_step st agentId) ids in
        let workflowId :=
          "workflow-" +:+ agentId +:+ "-" +:+ pretty now_workflow in
        workflowResult <-
          executeWorkflow schedule workflowDefinition workflowId [] ;;
        ret (VObj [("jobIds", jobIds); ("workflowId", VStr workflowId);
                   ("workflowResult", workflowResult)])
    | _ => throw "jobIds.map is not a function"
    end
  else ret (VObj [("jobIds", jobIds)]).

(** The record kept in the memory of the agent. *)
Definition goal_record (goal : string) (jobIds : Value) : Value :=
  VObj [("goal", VStr goal); ("plannedJobs", jobIds); ("timestamp", VDate)].

(** A conditional step whose condition never holds. *)
Definition never_step : Step :=
  {| step_jobId := VStr "j"; step_assigneeId := VStr "ok";
     step_assigneeType := VUndefined; step_inputs := VUndefined;
     step_type := VStr "conditional"; step_brief := VUndefined;
     step_condition := Some (fun _ _ => VBool false) |}.

(** ** Calls that reach the memory scopes *)

(** The calls of the agency that create a memory scope or write into one:
    [remember] on a registered scope, [shareMemoryBetween],
    [createMemoryScope], and [cleanupJob], which archives into the global
    scope. *)
Inductive MemoryCall : Type :=
  | call_remember (scopeId key : string) (value : Value)
  | call_shareMemoryBetween (sourceId targetId : string) (keys : list string)
      (accessMode : string)
  | call_createMemoryScope (scopeId : string)
  | call_cleanupJob (jobId : string) (keepResults : bool).

Definition memory_call (c : MemoryCall) : M unit :=
  match c with
  | call_remember scopeId key value =>
      scope_remember scopeId key value ;; ret tt
  | call_shareMemoryBetween sourceId targetId keys accessMode =>
      shareMemoryBetween sourceId targetId keys accessMode
  | call_createMemoryScope scopeId => createMemoryScope scopeId
  | call_cleanupJob jobId keepResults =>
      cleanupJob jobId keepResults ;; ret tt
  end.

(** The calls one after the other; a call that throws is caught by the
    caller, and the next one runs on the agency it left. *)
Fixpoint run_memory_calls (calls : list MemoryCall) (st : Agency) : Agency :=
  match calls with
  | [] => st
  | c :: rest => run_memory_calls rest (memory_call c st).2
  end.

(** Calls made after the scope [t] got the key [a] read-only. *)
Definition later_calls : list MemoryCall :=
  [call_remember "t" "a" (VNum 9);
   call_shareMemoryBetween "global" "t" [] "read-write";
   call_createMemoryScope "u";
   call_cleanupJob "j" true].

(** ** A failed job inside a workflow *)

(** The assignees and handlers are those of [st0], and the workflow has the
    record [w]. *)
Definition parties_and_record (workflowId : string) (w : Workflow)
  (st0 st : Agency) : Prop :=
  same_parties st0 st /\
  workflowErrorHandlers st = workflowErrorHandlers st0 /\
  workflows st !! workflowId = Some w.

(** The message of the error that closes a sequential step whose job has
    failed with [e]. *)
Definition step_failure (i : nat) (jobId e : string) : string :=
  "Workflow step" +:+ " " +:+ pretty i +:+ " (job " +:+ jobId +:+
  ") failed: " +:+ e.

(** ** MemoryManager: the conversation history *)

(** [array.slice(start)]: a negative [start] counts from the end. *)
Definition slice_from {A} (start : Z) (l : list A) : list A :=
  let len := Z.of_nat (length l) in
  let k := if (start <? 0)%Z then Z.max (len + start) 0 else Z.min start len in
  drop (Z.to_nat k) l.

(** The whole state of a [MemoryManager]: the key-value part [store] as
    above, the conversation history, its bound, and the data of the
    ['historyUpdated'] and ['memoryCleared'] events emitted so far. *)
Record ManagedMemory : Type := mkManaged {
  store : MemoryManager;
  conversationHistory : list Obj;
  maxHistoryLength : Z;
  historyUpdated : list (list Obj);
  memoryCleared : nat
}.

Module History.

(** [new MemoryManager(config)], for a configuration whose
    [maxHistoryLength] is an integer or is absent:
    [config.maxHistoryLength || 100]. *)
Definition create (config_maxHistoryLength : option Z) : ManagedMemory :=
  {| store := new_memory; conversationHistory := [];
     maxHistoryLength :=
       match config_maxHistoryLength with
       | Some n => if (n =? 0)%Z then 100%Z else n
       | None => 100%Z
       end;
     historyUpdated := []; memoryCleared := 0 |}.

(** [{...entry, timestamp: entry.timestamp || new Date()}]. *)
Definition stamped (entry : Obj) : Obj :=
  JS.obj_set "timestamp"
    (if JS.truthy (JS.prop entry "timestamp") then JS.prop entry "timestamp"
     else VDate)
    (JS.spread [] entry).

Definition addToHistory (entry : Obj) (m : ManagedMemory) : ManagedMemory :=
  let pushed := conversationHistory m ++ [stamped entry] in
  let history :=
    if (Z.of_nat (length pushed) >? maxHistoryLength m)%Z
    then tail pushed else pushed in
  {| store := store m; conversationHistory := history;
     maxHistoryLength := maxHistoryLength m;
     historyUpdated := historyUpdated m ++ [history];
     memoryCleared := memoryCleared m |}.

(** [getHistory(limit = this.maxHistoryLength)]. *)
Definition getHistory (limit : option Z) (m : ManagedMemory) : list Obj :=
  slice_from (- default (maxHistoryLength m) limit) (conversationHistory m).

Definition remember (key : string) (value : Value) (m : ManagedMemory)
  : Value * ManagedMemory :=
  let (r, s) := Memory.remember (store m) key value in
  (r, {| store := s; conversationHistory := conversationHistory m;
         maxHistoryLength := maxHistoryLength m;
         historyUpdated := historyUpdated m;
         memoryCleared := memoryCleared m |}).

Definition recall (m : ManagedMemory) (key : string) : Value :=
  Memory.recall (store m) key.

(** [clear()]: both stores are replaced by empty ones; a [remember] method
    installed on the instance by [shareMemoryBetween] stays. *)
Definition clear (m : ManagedMemory) : ManagedMemory :=
  {| store := {| keyValueStore := [];
                 readOnlyWrappers := readOnlyWrappers (store m);
                 memoryUpdated := memoryUpdated (store m) |};
     conversationHistory := [];
     maxHistoryLength := maxHistoryLength m;
     historyUpdated := historyUpdated m;
     memoryCleared := S (memoryCleared m) |}.

(** The entries added one after the other. *)
Definition add_all (entries : list Obj) (m : ManagedMemory) : ManagedMemory :=
  fold_left (fun m entry => addToHistory entry m) entries m.

End History.

(** ** EventEmitter *)

(** A listener passed by a caller: [fn] is the identity of the function
    object, which [off] compares with [!==]; the function may throw,
    depending on the data it is called with, and does not call back into
    the emitter. *)
Record Listener : Type := mkListener {
  fn : nat;
  throws_on : Value -> bool
}.

(** The function objects held in [this.events[eventName]]: a listener given
    to [on], or the [onceWrapper] closure that a call of [once] creates
    around a listener; every call of [once] creates a new closure. *)
Inductive Subscriber : Type :=
  | Direct (listener : Listener)
  | OnceWrapper (closure : nat) (listener : Listener).

Module Emitter.

(** [events] is [this.events]; [closures] counts the [onceWrapper] closures
    created so far; [called] lists the calls made to listeners, with the
    data passed, and [reported] counts the errors caught by [emit]. *)
Record t : Type := mk {
  events : gmap string (list Subscriber);
  closures : nat;
  called : list (nat * Value);
  reported : nat
}.

Definition create : t :=
  {| events := ∅; closures := 0; called := []; reported := 0 |}.

Definition listener_of (f : Subscriber) : Listener :=
  match f with
  | Direct l => l
  | OnceWrapper _ l => l
  end.

(** [f === g] on function objects. *)
Definition same_function (f g : Subscriber) : bool :=
  match f, g with
  | Direct l, Direct l' => Nat.eqb (fn l) (fn l')
  | OnceWrapper c _, OnceWrapper c' _ => Nat.eqb c c'
  | _, _ => false
  end.

Definition on (eventName : string) (f : Subscriber) (em : t) : t :=
  {| events :=
       <[eventName := default [] (events em !! eventName) ++ [f]]> (events em);
     closures := closures em; called := called em; reported := reported em |}.

Definition off (eventName : string) (listenerToRemove : Subscriber) (em : t)
  : t :=
  match events em !! eventName with
  | None => em
  | Some listeners =>
      {| events :=
           <[eventName :=
               List.filter
                 (fun listener => negb (same_function listener listenerToRemove))
                 listeners]> (events em);
         closures := closures em; called := called em;
         reported := reported em |}
  end.

(** One iteration of the [forEach] of [emit]: the call of the function
    object inside [try], and the [catch]. A [onceWrapper] calls its
    listener and then [off]; when the listener throws, [off] is not
    reached. *)
Definition invoke (eventName : string) (data : Value) (f : Subscriber)
  (em : t) : t :=
  let l := listener_of f in
  let em1 :=
    {| events := events em; closures := closures em;
       called := called em ++ [(fn l, data)]; reported := reported em |} in
  if throws_on l data
  then {| events := events em1; closures := closures em1;
          called := called em1; reported := S (reported em1) |}
  else
    match f with
    | Direct _ => em1
    | OnceWrapper _ _ => off eventName f em1
    end.

(** [emit]: [forEach] runs over the array that [this.events[eventName]]
    holds when it starts; [off] replaces the array and leaves that one as
    it is. *)
Definition emit (eventName : string) (data : Value) (em : t) : t :=
  match events em !! eventName with
  | None => em
  | Some listeners =>
      fold_left (fun em f => invoke eventName data f em) listeners em
  end.

Definition once (eventName : string) (listener : Listener) (em : t) : t :=
  on eventName (OnceWrapper (closures em) listener)
    {| events := events em; closures := S (closures em);
       called := called em; reported := reported em |}.

(** [this.events[eventName]], empty when absent. *)
Definition listeners (em : t) (eventName : string) : list Subscriber :=
  default [] (events em !! eventName).

End Emitter.

(** The calls a user can make: [on] with a listener, [off] with a listener
    or through the function that [on] or [once] has returned, [once], and
    [emit]. *)
Inductive EmitterCall : Type :=
  | call_on (eventName : string) (listener : Listener)
  | call_off (eventName : string) (f : Subscriber)
  | call_once (eventName : string) (listener : Listener)
  | call_emit (eventName : string) (data : Value).

Definition emitter_call (c : EmitterCall) (em : Emitter.t) : Emitter.t :=
  match c with
  | call_on eventName listener => Emitter.on eventName (Direct listener) em
  | call_off eventName f => Emitter.off eventName f em
  | call_once eventName listener => Emitter.once eventName listener em
  | call_emit eventName data => Emitter.emit eventName data em
  end.

Definition run_emitter_calls (calls : list EmitterCall) (em : Emitter.t)
  : Emitter.t :=
  fold_left (fun em c => emitter_call c em) calls em.

(** The subscriber is still registered after it was called with [data]:
    a listener given to [on] always, a [onceWrapper] when its listener has
    thrown. *)
Definition stays (data : Value) (f : Subscriber) : bool :=
  match f with
  | Direct _ => true
  | OnceWrapper _ l => throws_on l data
  end.

(** The closures of the [onceWrapper]s of a list of subscribers. *)
Definition wrapper_closures (fs : list Subscriber) : list nat :=
  omap (fun f => match f with
                 | Direct _ => None
                 | OnceWrapper c _ => Some c
                 end) fs.

(** Every [onceWrapper] registered is a closure created earlier, and no
    closure is registered twice for an event. *)
Definition closures_ok (em : Emitter.t) : Prop :=
  forall eventName fs,
    Emitter.events em !! eventName = Some fs ->
    NoDup (wrapper_closures fs) /\
    Forall (fun c => c < Emitter.closures em) (wrapper_closures fs).

(** A listener that throws when it is called with [null]. *)
Definition picky (id : nat) : Listener :=
  {| fn := id;
     throws_on := fun data => match data with VNull => true | _ => false end |}.

(** ** A parallel step whose branches all resolve *)

(** The identifier of the job of a branch that was started. *)
Definition launch_jobId (l : nat * string * Launch) : string := l.1.2.

(** What the call of [execute] of a branch resolves to. *)
Definition launch_result (l : nat * string * Launch) : string * Value :=
  (launch_jobId l,
   match l.2 with
   | Awaiting _ (Resolves v) => v
   | Settled (Ok v) => v
   | _ => VUndefined
   end).

(** The branch has called [run], and the promise of [run] resolves to a
    value that passes the output schema of the job, if there is one. *)
Definition resolving (st : Agency) (l : nat * string * Launch) : Prop :=
  exists ref v,
    l.2 = Awaiting ref (Resolves v) /\
    check_schema "Output" v (output_schema st (launch_jobId l)) = Ok tt.

(** The job of the branch is [completed] with the result of the branch. *)
Definition branch_completed (st : Agency) (l : nat * string * Launch) : Prop :=
  exists job,
    getJob st (launch_jobId l) = Some job /\
    status job = completed /\ results job = (launch_result l).2.

(** The branches of a parallel step, as [jobId.map((jid, index) => ...)]
    enumerates them. *)
Definition branches_of (jobIds : list Value) : list (nat * string) :=
  imap (fun index jid => (index, JS.to_string jid)) jobIds.

(** The branch is suspended at its call of [run]: its job object is the one
    registered for the job id, it is [in_progress], and the job has a
    context. *)
Definition branch_running (st : Agency) (l : nat * string * Launch) : Prop :=
  forall ref reply,
    l.2 = Awaiting ref reply ->
    activeJobs st !! launch_jobId l = Some ref /\
    is_Some (jobContexts st !! launch_jobId l) /\
    exists job, jobHeap st !! ref = Some job /\ status job = in_progress.

(** The branch has settled: its job object is [completed] and holds what
    [run] resolved to. *)
Definition branch_settled (st : Agency) (l : nat * string * Launch) : Prop :=
  forall ref reply,
    l.2 = Awaiting ref reply ->
    activeJobs st !! launch_jobId l = Some ref /\
    is_Some (jobContexts st !! launch_jobId l) /\
    exists job, jobHeap st !! ref = Some job /\ status job = completed /\
                reply = Resolves (results job).

(** The job objects of the branches that are suspended. *)
Definition launch_refs (launched : list (nat * string * Launch)) : list nat :=
  omap (fun l => match l.2 with
                 | Awaiting ref _ => Some ref
                 | Settled _ => None
                 end) launched.

(** The branches started so far: numbered from 0, for distinct jobs, each
    with a job object of its own. *)
Definition launched_ok (launched : list (nat * string * Launch))
  (st : Agency) : Prop :=
  (fun l => l.1.1) <$> launched = seq 0 (length launched) /\
  NoDup (launch_jobId <$> launched) /\
  NoDup (launch_refs launched) /\
  Forall (fun ref => ref < length (jobHeap st)) (launch_refs launched).

(** The state of [Promise.all] over the branches [launched], when the
    branches [pending] have not settled: a branch that has settled has its
    result in its slot and its job completed, the others are suspended. *)
Definition join_inv (st0 : Agency) (launched pending : list (nat * string * Launch))
  (slots : list (option (string * Value))) (st : Agency) : Prop :=
  jobSchemas st = jobSchemas st0 /\
  length slots = length launched /\
  NoDup pending /\
  (forall l, l ∈ pending -> l ∈ launched) /\
  forall l, l ∈ launched ->
    (l ∈ pending /\ slots !! l.1.1 = Some None /\ branch_running st l) \/
    ((l ∉ pending) /\ slots !! l.1.1 = Some (Some (launch_result l)) /\
     branch_settled st l).

(** A parallel step of two branches, for the agents [ok] and [planner] of
    the office. *)
Definition two_branches : Step :=
  {| step_jobId := VArr [VStr "b1"; VStr "b2"];
     step_assigneeId := VArr [VStr "ok"; VStr "planner"];
     step_assigneeType := VUndefined; step_inputs := VUndefined;
     step_type := VStr "parallel"; step_brief := VUndefined;
     step_condition := None |}.

(** The two branches after [jobId.map(...)]: both are suspended at their
    call of [run]. *)
Definition two_launched : list (nat * string * Launch) :=
  [(0, "b1", Awaiting 0 (Resolves (VObj [("a", VNum 1)])));
   (1, "b2", Awaiting 1 (Resolves (VStr "I cannot plan this.")))].
(** * Properties *)

(** ** Objects *)

Lemma obj_get_app_last (o : Obj) k v k' :
  JS.obj_get (o ++ [(k, v)]) k' =
  if String.eqb k k' then Some v else JS.obj_get o k'.
Proof.
  induction o as [|[k0 v0] o IH]; simpl.
  - reflexivity.
  - rewrite IH. destruct (String.eqb k k'); reflexivity.
Qed.

Lemma obj_get_replace (o : Obj) k v k' :
  JS.obj_get (map (fun kv => if String.eqb kv.1 k then (k, v) else kv) o) k' =
  if String.eqb k k'
  then (if JS.has_key o k then Some v else None)
  else JS.obj_get o k'.
Proof.
  induction o as [|[k0 v0] o IH]; simpl.
  - destruct (String.eqb k k'); reflexivity.
  - rewrite IH. clear IH.
    destruct (String.eqb k0 k) eqn:E0; simpl;
      destruct (String.eqb k k') eqn:Ekk'; simpl; rewrite ?Ekk'.
    + destruct (JS.has_key o k); reflexivity.
    + apply String.eqb_eq in E0. subst k0. rewrite Ekk'. reflexivity.
    + destruct (JS.has_key o k); [reflexivity|].
      apply String.eqb_eq in Ekk'. subst k'. rewrite E0. reflexivity.
    + reflexivity.
Qed.

Lemma has_key_obj_get (o : Obj) k :
  JS.has_key o k = false -> JS.obj_get o k = None.
Proof.
  induction o as [|[k0 v0] o IH]; simpl; [reflexivity|].
  intros H. apply orb_false_elim in H as [H0 H1].
  rewrite (IH H1), H0. reflexivity.
Qed.

Lemma obj_get_obj_set (o : Obj) k v k' :
  JS.obj_get (JS.obj_set k v o) k' =
  if String.eqb k k' then Some v else JS.obj_get o k'.
Proof.
  unfold JS.obj_set. destruct (JS.has_key o k) eqn:Hk.
  - rewrite obj_get_replace, Hk. reflexivity.
  - apply obj_get_app_last.
Qed.

Lemma prop_obj_set (o : Obj) k v k' :
  JS.prop (JS.obj_set k v o) k' =
  if String.eqb k k' then v else JS.prop o k'.
Proof.
  unfold JS.prop. rewrite obj_get_obj_set.
  destruct (String.eqb k k'); reflexivity.
Qed.

Lemma str_cons c (a b : string) : String c a +:+ b = String c (a +:+ b).
Proof. reflexivity. Qed.

Lemma str_nil (b : string) : EmptyString +:+ b = b.
Proof. reflexivity. Qed.

Ltac sapp := rewrite ?str_cons, ?str_nil.

Lemma string_app_assoc (a b c : string) : (a +:+ b) +:+ c = a +:+ b +:+ c.
Proof.
  induction a as [|x a IH]; sapp; [reflexivity|]. rewrite IH. reflexivity.
Qed.

Lemma string_app_nil_r (a : string) : a +:+ EmptyString = a.
Proof.
  induction a as [|x a IH]; sapp; [reflexivity|]. rewrite IH. reflexivity.
Qed.

(** In [{...a, ...b}] a property of [b] overrides the property of the same
    name of [a]. *)
Lemma obj_get_spread (a b : Obj) k :
  JS.obj_get (JS.spread a b) k =
  match JS.obj_get b k with
  | Some v => Some v
  | None => JS.obj_get a k
  end.
Proof.
  unfold JS.spread. revert a.
  induction b as [|[k0 v0] b IH]; intros a; simpl; [reflexivity|].
  rewrite IH. destruct (JS.obj_get b k); [reflexivity|].
  rewrite obj_get_obj_set. destruct (String.eqb k0 k); reflexivity.
Qed.

(** ** The monad *)

Section Preserves.

Context (P : Agency -> Prop).

Lemma preserves_ret {A} (a : A) : preserves P (ret a).
Proof. intros st r st' HP [= <- <-]. exact HP. Qed.

Lemma preserves_throw {A} e : preserves P (@throw A e).
Proof. intros st r st' HP [= <- <-]. exact HP. Qed.

Lemma preserves_lift {A} (x : Result A) : preserves P (lift x).
Proof. intros st r st' HP [= <- <-]. exact HP. Qed.

Lemma preserves_get : preserves P get.
Proof. intros st r st' HP [= <- <-]. exact HP. Qed.

Lemma preserves_modify f :
  (forall st, P st -> P (f st)) -> preserves P (modify f).
Proof. intros Hf st r st' HP [= <- <-]. auto. Qed.

Lemma preserves_bind {A B} (m : M A) (k : A -> M B) :
  preserves P m -> (forall a, preserves P (k a)) -> preserves P (bind m k).
Proof.
  intros Hm Hk st r st' HP. unfold bind.
  destruct (m st) as [[a|e] st1] eqn:E; intros H.
  - eapply Hk; [|exact H]. eapply Hm; eauto.
  - injection H as <- <-. eapply Hm; eauto.
Qed.

Lemma preserves_try_catch {A} (m : M A) (h : string -> M A) :
  preserves P m -> (forall e, preserves P (h e)) ->
  preserves P (try_catch m h).
Proof.
  intros Hm Hh st r st' HP. unfold try_catch.
  destruct (m st) as [[a|e] st1] eqn:E; intros H.
  - injection H as <- <-. eapply Hm; eauto.
  - eapply Hh; [|exact H]. eapply Hm; eauto.
Qed.

Lemma preserves_capture {A} (m : M A) :
  preserves P m -> preserves P (capture m).
Proof.
  intros Hm st r st' HP. unfold capture.
  destruct (m st) as [x st1] eqn:E. intros [= <- <-]. eapply Hm; eauto.
Qed.

Lemma preserves_for_each {A} (l : list A) (body : A -> M unit) :
  (forall x, preserves P (body x)) -> preserves P (for_each l body).
Proof.
  intros Hb. induction l as [|x l IH]; simpl.
  - apply preserves_ret.
  - apply preserves_bind; auto.
Qed.

End Preserves.

(** ** Reuse of a workflow identifier *)

(** C10. When the memory scope [workflow:<workflowId>] already exists,
    [executeWorkflow] throws "Memory scope workflow:<workflowId> already
    exists" out of the call, before its [try] block: the record it has just
    created stays with status [in_progress] and no error, the only event
    emitted is [workflow:started] (no [workflow:failed]), and no step has
    run (no job created or touched, no assignee called). *)
Theorem executeWorkflow_reused_id schedule workflowDefinition workflowId
  initialData st m :
  scope_lookup st (workflow_scope workflowId) = Some m ->
  let st' := workflow_started workflowDefinition workflowId st in
  executeWorkflow schedule workflowDefinition workflowId initialData st =
    (Throw ("Memory scope workflow:" +:+ workflowId +:+ " already exists"),
     st') /\
  workflows st' !! workflowId =
    Some (workflow_record workflowDefinition workflowId) /\
  (forall payload,
     ("workflow:failed", payload) ∉ drop (length (events st)) (events st')) /\
  invocations st' = invocations st /\
  transitions st' = transitions st /\
  jobHeap st' = jobHeap st /\
  activeJobs st' = activeJobs st.
Proof.
  intros Hm st'. split; [|split; [|split]].
  - unfold executeWorkflow, createMemoryScope. msimpl.
    change (scope_lookup _ (workflow_scope workflowId))
      with (scope_lookup st (workflow_scope workflowId)).
    rewrite Hm. reflexivity.
  - cbn. apply lookup_insert_eq.
  - intros payload. cbn. rewrite drop_app_length.
    intros H. apply list_elem_of_singleton in H. discriminate H.
  - auto.
Qed.

(** C10 for the workflow id [w] used a second time. *)
Lemma executeWorkflow_reused_id_witness :
  executeWorkflow (fun _ => 0%nat) [] "w" [] agency_after_w =
    (Throw "Memory scope workflow:w already exists",
     workflow_started [] "w" agency_after_w) /\
  wf_status <$> workflows (workflow_started [] "w" agency_after_w) !! "w" =
    Some wf_in_progress.
Proof.
  destruct (executeWorkflow_reused_id (fun _ => 0%nat) [] "w" [] agency_after_w
              new_memory) as (H1 & H2 & _).
  - vm_compute. reflexivity.
  - split; [exact H1|]. rewrite H2. reflexivity.
Defined.


(** ** Cleaning up a job *)

Lemma job_ref_Some st jobId ref job :
  job_ref st jobId = Some (ref, job) <->
  activeJobs st !! jobId = Some ref /\ jobHeap st !! ref = Some job.
Proof.
  unfold job_ref. split.
  - destruct (activeJobs st !! jobId) as [r|]; [|discriminate].
    destruct (jobHeap st !! r) as [j|] eqn:E; [|discriminate].
    intros [= <- <-]. auto.
  - intros [-> ->]. reflexivity.
Qed.

Lemma wrapped_remember_blocked wrappers m k v :
  k ∈ wrappers -> Memory.wrapped_remember wrappers m k v = (VBool false, m).
Proof.
  induction wrappers as [|key older IH]; simpl; intros H.
  - apply elem_of_nil in H as [].
  - destruct (String.eqb k key) eqn:E; [reflexivity|].
    apply elem_of_cons in H as [->|H]; [|auto].
    rewrite String.eqb_refl in E. discriminate.
Qed.

Lemma wrapped_remember_free wrappers m k v :
  k ∉ wrappers ->
  Memory.wrapped_remember wrappers m k v = (VUndefined, Memory.class_remember m k v).
Proof.
  induction wrappers as [|key older IH]; simpl; intros H; [reflexivity|].
  apply not_elem_of_cons in H as [Hne H].
  destruct (String.eqb k key) eqn:E; [|auto].
  apply String.eqb_eq in E. contradiction.
Qed.

Lemma recall_class_remember m k v k' :
  Memory.recall (Memory.class_remember m k v) k' =
  if String.eqb k k' then v else Memory.recall m k'.
Proof. unfold Memory.recall. cbn. apply prop_obj_set. Qed.

Lemma cleanupJob_eval jobId keepResults st :
  cleanupJob jobId keepResults st =
  match getJob st jobId with
  | Some job =>
      if terminal (status job)
      then (Ok true, cleaned_up jobId keepResults job st)
      else (Ok false, st)
  | None => (Ok false, st)
  end.
Proof.
  unfold cleanupJob, getJob. msimpl.
  destruct (job_ref st jobId) as [[ref job]|]; [|reflexivity].
  cbn [fmap option_fmap option_map snd].
  unfold cleaned_up.
  destruct (status job); cbn [terminal]; try reflexivity;
    destruct keepResults; cbn [andb]; try reflexivity;
    destruct (JS.truthy (results job)); try reflexivity.
  all: unfold scope_remember, scope_lookup, scope_update; cbn [String.eqb Ascii.eqb Bool.eqb];
    cbv beta iota; cbn [globalMemory set_events set_activeJobs set_jobContexts];
    destruct (Memory.remember _ _ _) as [r m'] eqn:E;
    unfold set_globalMemory, job_removed, archive_key, archive_entry,
      set_events, set_activeJobs, set_jobContexts; fields; rewrite E;
    reflexivity.
Qed.

(** C8, as amended. [cleanupJob] answers [true] exactly when the job exists
    and its status is [completed] or [failed]; in every other case it answers
    [false] and the agency is the one it was called in. When it answers
    [true] the job and its job context are gone; the results are archived
    in the global scope under [job_<jobId>_results] when [keepResults] is
    set and the job holds results (a truthy value), and the global scope is
    untouched otherwise. *)
Theorem cleanupJob_spec jobId keepResults st :
  ((cleanupJob jobId keepResults st).1 = Ok true <->
   exists job, getJob st jobId = Some job /\
               (status job = completed \/ status job = failed)) /\
  ((cleanupJob jobId keepResults st).1 <> Ok true ->
   cleanupJob jobId keepResults st = (Ok false, st)) /\
  (forall job,
     getJob st jobId = Some job ->
     status job = completed \/ status job = failed ->
     let st' := (cleanupJob jobId keepResults st).2 in
     st' = cleaned_up jobId keepResults job st /\
     getJob st' jobId = None /\
     jobContexts st' !! jobId = None /\
     (keepResults = true -> JS.truthy (results job) = true ->
      globalMemory st' =
        (Memory.remember (globalMemory st) (archive_key jobId)
           (archive_entry job)).2 /\
      (archive_key jobId ∉ readOnlyWrappers (globalMemory st) ->
       Memory.recall (globalMemory st') (archive_key jobId) =
         archive_entry job)) /\
     (keepResults = false \/ JS.truthy (results job) = false ->
      globalMemory st' = globalMemory st)).
Proof.
  rewrite cleanupJob_eval. split; [|split].
  - split.
    + destruct (getJob st jobId) as [job|]; [|discriminate].
      destruct (status job) eqn:E; cbn; try discriminate; eauto.
    + intros (job & -> & [E|E]); rewrite E; reflexivity.
  - destruct (getJob st jobId) as [job|]; [|reflexivity].
    destruct (terminal (status job)); [|reflexivity]. cbn. congruence.
  - intros job Hjob Hst. rewrite Hjob.
    replace (terminal (status job)) with true
      by (destruct Hst as [-> | ->]; reflexivity).
    cbn [snd]. split; [reflexivity|].
    assert (Hact : activeJobs (cleaned_up jobId keepResults job st) !! jobId = None).
    { unfold cleaned_up.
      destruct (keepResults && JS.truthy (results job)); cbn;
        apply lookup_delete_eq. }
    split; [|split; [|split]].
    + unfold getJob, job_ref. rewrite Hact. reflexivity.
    + unfold cleaned_up.
      destruct (keepResults && JS.truthy (results job)); cbn;
        apply lookup_delete_eq.
    + intros -> Ht. unfold cleaned_up. rewrite Ht. cbn [andb].
      split; [reflexivity|]. intros Hfree. cbn.
      unfold Memory.remember. rewrite wrapped_remember_free by exact Hfree.
      cbn [snd]. rewrite recall_class_remember, String.eqb_refl. reflexivity.
    + intros H. unfold cleaned_up.
      replace (keepResults && JS.truthy (results job)) with false; [reflexivity|].
      destruct H as [-> | ->]; [reflexivity|]. rewrite andb_false_r. reflexivity.
Qed.


(** ** Sharing memory between scopes *)

(** [remember] never changes the wrappers of the instance. *)
Lemma remember_wrappers m k v :
  readOnlyWrappers (Memory.remember m k v).2 = readOnlyWrappers m.
Proof.
  unfold Memory.remember.
  destruct (decide (k ∈ readOnlyWrappers m)) as [H|H].
  - rewrite wrapped_remember_blocked by exact H. reflexivity.
  - rewrite wrapped_remember_free by exact H. reflexivity.
Qed.

(** A key other than the one written keeps its value. *)
Lemma remember_other m k v k' :
  k <> k' -> Memory.recall (Memory.remember m k v).2 k' = Memory.recall m k'.
Proof.
  intros Hne. unfold Memory.remember.
  destruct (decide (k ∈ readOnlyWrappers m)) as [H|H].
  - rewrite wrapped_remember_blocked by exact H. reflexivity.
  - rewrite wrapped_remember_free by exact H. cbn [snd].
    rewrite recall_class_remember.
    destruct (String.eqb k k') eqn:E; [|reflexivity].
    apply String.eqb_eq in E. contradiction.
Qed.

Lemma scope_lookup_update st scopeId f scopeId' :
  scope_lookup (scope_update scopeId f st) scopeId' =
  if decide (scopeId = scopeId') then f <$> scope_lookup st scopeId'
  else scope_lookup st scopeId'.
Proof.
  unfold scope_lookup, scope_update.
  destruct (String.eqb_spec scopeId "global") as [E|E],
    (String.eqb_spec scopeId' "global") as [E'|E']; fields; subst.
  - rewrite decide_True by reflexivity. reflexivity.
  - rewrite decide_False by congruence. reflexivity.
  - rewrite decide_False by congruence. reflexivity.
  - rewrite lookup_alter. destruct (decide (scopeId = scopeId')); subst; reflexivity.
Qed.

Lemma scope_update_same st scopeId m :
  scope_lookup st scopeId = Some m -> scope_update scopeId (fun _ => m) st = st.
Proof.
  unfold scope_lookup, scope_update. destruct st. fields.
  destruct (String.eqb scopeId "global").
  - intros [= ->]. reflexivity.
  - intros H. unfold set_memoryScopes. fields. f_equal.
    apply map_eq. intros i. rewrite lookup_alter.
    destruct (decide (scopeId = i)) as [<-|]; [|reflexivity].
    rewrite H. reflexivity.
Qed.

Lemma scope_remember_eval st scopeId m k v :
  scope_lookup st scopeId = Some m ->
  scope_remember scopeId k v st =
    (Ok (Memory.remember m k v).1,
     scope_update scopeId (fun _ => (Memory.remember m k v).2) st).
Proof.
  intros H. unfold scope_remember. rewrite H.
  destruct (Memory.remember m k v). reflexivity.
Qed.

Lemma share_key_eval sourceId targetId accessMode key source target st :
  scope_lookup st sourceId = Some source ->
  scope_lookup st targetId = Some target ->
  share_key sourceId targetId accessMode key st =
    (Ok tt, shared_key sourceId targetId accessMode key source target st).
Proof.
  intros Hs Ht. unfold share_key, getMemoryScope, shared_key. msimpl.
  rewrite Hs. cbv beta iota.
  destruct (JS.is_undefined (Memory.recall source key)); [reflexivity|].
  rewrite (scope_remember_eval _ _ _ _ _ Ht).
  destruct (String.eqb accessMode "read-only"); reflexivity.
Qed.

Lemma scope_lookup_acl st f scopeId :
  scope_lookup (set_memoryAccessControl f st) scopeId = scope_lookup st scopeId.
Proof. reflexivity. Qed.

Lemma scope_lookup_events st f scopeId :
  scope_lookup (set_events f st) scopeId = scope_lookup st scopeId.
Proof. reflexivity. Qed.

Lemma shared_key_target sourceId targetId accessMode key source target st :
  scope_lookup st targetId = Some target ->
  scope_lookup (shared_key sourceId targetId accessMode key source target st)
    targetId =
  Some (if JS.is_undefined (Memory.recall source key) then target
        else target_after accessMode key (Memory.recall source key) target).
Proof.
  intros Ht. unfold shared_key, target_after.
  destruct (JS.is_undefined (Memory.recall source key)); [exact Ht|].
  destruct (String.eqb accessMode "read-only").
  - rewrite scope_lookup_update, decide_True by reflexivity.
    rewrite scope_lookup_acl, scope_lookup_update, decide_True by reflexivity.
    rewrite Ht. reflexivity.
  - rewrite scope_lookup_acl, scope_lookup_update, decide_True by reflexivity.
    rewrite Ht. reflexivity.
Qed.

Lemma shared_key_other_scope sourceId targetId accessMode key source target st
  scopeId :
  scopeId <> targetId ->
  scope_lookup (shared_key sourceId targetId accessMode key source target st)
    scopeId = scope_lookup st scopeId.
Proof.
  intros Hne. unfold shared_key.
  destruct (JS.is_undefined (Memory.recall source key)); [reflexivity|].
  destruct (String.eqb accessMode "read-only");
    rewrite ?scope_lookup_update, ?scope_lookup_acl, ?scope_lookup_update,
      ?decide_False by congruence; reflexivity.
Qed.

Lemma scope_remember_locked scopeId k x s key v :
  preserves (locked scopeId k x) (scope_remember s key v).
Proof.
  intros st r st' (m & Hm & Hw & Hx). unfold scope_remember.
  destruct (scope_lookup st s) as [ms|] eqn:Hs.
  - destruct (Memory.remember ms key v) as [r0 m'] eqn:E.
    intros [= <- <-]. unfold locked. rewrite scope_lookup_update.
    destruct (decide (s = scopeId)) as [->|Hne]; [|eauto].
    rewrite Hm in Hs. injection Hs as <-. rewrite Hm. cbn.
    exists m'. split; [reflexivity|].
    replace m' with (Memory.remember m key v).2 by (rewrite E; reflexivity).
    rewrite remember_wrappers. split; [exact Hw|].
    destruct (decide (key = k)) as [->|Hk].
    + unfold Memory.remember. rewrite wrapped_remember_blocked by exact Hw.
      exact Hx.
    + rewrite remember_other by exact Hk. exact Hx.
  - intros [= <- <-]. exists m. auto.
Qed.

Lemma remember_all_locked scopeId k x writes :
  preserves (locked scopeId k x) (remember_all writes).
Proof.
  apply preserves_for_each. intros w.
  apply preserves_bind; [apply scope_remember_locked|].
  intros _. apply preserves_ret.
Qed.

Lemma locked_rejects scopeId k x st v :
  locked scopeId k x st ->
  scope_remember scopeId k v st = (Ok (VBool false), st).
Proof.
  intros (m & Hm & Hw & _). rewrite (scope_remember_eval _ _ _ _ _ Hm).
  unfold Memory.remember. rewrite wrapped_remember_blocked by exact Hw.
  cbn [fst snd]. rewrite scope_update_same by exact Hm. reflexivity.
Qed.

(** C3. After [shareMemoryBetween(sourceId, targetId, [k], 'read-only')] for
    a key [k] that has a value in the source scope, the target scope holds
    a value [x] for [k] and, whatever is remembered later in whatever scope,
    [remember(k, v)] on the target answers [false] and leaves [x] in place.
    [remember(other, v)] on the target, for a key other than [k] that no
    earlier grant has write-protected, stores [v] and leaves [x] in
    place. *)
Theorem read_only_grant st sourceId targetId k source target :
  scope_lookup st sourceId = Some source ->
  scope_lookup st targetId = Some target ->
  Memory.recall source k <> VUndefined ->
  exists st1 x,
    shareMemoryBetween sourceId targetId [k] "read-only" st = (Ok tt, st1) /\
    locked targetId k x st1 /\
    (forall writes st2 v,
       (remember_all writes st1).2 = st2 ->
       scope_remember targetId k v st2 = (Ok (VBool false), st2) /\
       locked targetId k x st2) /\
    (forall other v,
       other <> k -> other ∉ readOnlyWrappers target ->
       exists st2 target2,
         scope_remember targetId other v st1 = (Ok VUndefined, st2) /\
         scope_lookup st2 targetId = Some target2 /\
         Memory.recall target2 other = v /\
         Memory.recall target2 k = x).
Proof.
  intros Hs Ht Hdef.
  set (st1 := set_events (fun log => log ++ [shared_event sourceId targetId [k] "read-only"])
                (shared_key sourceId targetId "read-only" k source target
                   (acl_ready targetId st))).
  set (target1 := target_after "read-only" k (Memory.recall source k) target).
  assert (Hund : JS.is_undefined (Memory.recall source k) = false)
    by (destruct (Memory.recall source k); try reflexivity; contradiction).
  assert (Ht1 : scope_lookup st1 targetId = Some target1).
  { subst st1. rewrite scope_lookup_events, shared_key_target by exact Ht.
    rewrite Hund. reflexivity. }
  assert (Hlock : locked targetId k (Memory.recall target1 k) st1).
  { exists target1. split; [exact Ht1|]. split; [|reflexivity].
    subst target1. unfold target_after. cbn. apply elem_of_cons; left; reflexivity. }
  exists st1, (Memory.recall target1 k). split; [|split; [exact Hlock|split]].
  - unfold shareMemoryBetween, getMemoryScope. msimpl.
    rewrite Hs, Ht. cbn [for_each]. msimpl.
    rewrite (share_key_eval sourceId targetId "read-only" k source target)
      by assumption. reflexivity.
  - intros writes st2 v Hst2.
    assert (Hl2 : locked targetId k (Memory.recall target1 k) st2).
    { destruct (remember_all writes st1) as [r s2] eqn:E. cbn in Hst2. subst s2.
      eapply remember_all_locked; eauto. }
    split; [|exact Hl2]. eapply locked_rejects; eauto.
  - intros other v Hne Hfree.
    rewrite (scope_remember_eval _ _ _ _ _ Ht1).
    assert (Hfree1 : other ∉ readOnlyWrappers target1).
    { subst target1. unfold target_after. cbn. rewrite remember_wrappers.
      apply not_elem_of_cons. auto. }
    unfold Memory.remember. rewrite wrapped_remember_free by exact Hfree1.
    cbn [fst snd]. eexists _, _. split; [reflexivity|].
    rewrite scope_lookup_update, decide_True, Ht1 by reflexivity. cbn.
    split; [reflexivity|]. rewrite !recall_class_remember, String.eqb_refl.
    split; [reflexivity|].
    destruct (String.eqb_spec other k); [contradiction|reflexivity].
Qed.

Lemma acl_scope_update scopeId f st :
  memoryAccessControl (scope_update scopeId f st) = memoryAccessControl st.
Proof. unfold scope_update. destruct (String.eqb scopeId "global"); reflexivity. Qed.

Lemma access_info_acl_ready targetId st scopeId k :
  getMemoryAccessInfo (acl_ready targetId st) scopeId k =
  getMemoryAccessInfo st scopeId k.
Proof.
  unfold getMemoryAccessInfo, acl_ready. fields.
  destruct (decide (targetId = scopeId)) as [->|Hne].
  - rewrite lookup_insert_eq.
    destruct (memoryAccessControl st !! scopeId); [reflexivity|].
    apply lookup_empty.
  - rewrite lookup_insert_ne by exact Hne. reflexivity.
Qed.

Lemma access_info_shared_key sourceId targetId accessMode key source target st k :
  getMemoryAccessInfo
    (shared_key sourceId targetId accessMode key source target st) targetId k =
  if JS.is_undefined (Memory.recall source key)
  then getMemoryAccessInfo st targetId k
  else if decide (key = k) then Some (grant_of sourceId accessMode)
       else getMemoryAccessInfo st targetId k.
Proof.
  unfold shared_key.
  destruct (JS.is_undefined (Memory.recall source key)); [reflexivity|].
  unfold getMemoryAccessInfo.
  destruct (String.eqb accessMode "read-only");
    rewrite ?acl_scope_update; fields; rewrite ?acl_scope_update;
    rewrite lookup_insert_eq, lookup_insert;
    (destruct (decide (key = k)); [reflexivity|]);
    (destruct (memoryAccessControl st !! targetId); [reflexivity|]);
    apply lookup_empty.
Qed.

Lemma target_after_wrappers accessMode key value target k :
  k ∈ readOnlyWrappers target ->
  k ∈ readOnlyWrappers (target_after accessMode key value target).
Proof.
  intros H. unfold target_after.
  destruct (String.eqb accessMode "read-only"); cbn;
    rewrite remember_wrappers; [apply elem_of_cons; right|]; exact H.
Qed.

Lemma target_after_free accessMode key value target k :
  k <> key -> k ∉ readOnlyWrappers target ->
  k ∉ readOnlyWrappers (target_after accessMode key value target).
Proof.
  intros Hne H. unfold target_after.
  destruct (String.eqb accessMode "read-only"); cbn;
    rewrite remember_wrappers; [apply not_elem_of_cons; split|]; assumption.
Qed.

Lemma recall_wrap key m k :
  Memory.recall (Memory.wrap_remember key m) k = Memory.recall m k.
Proof. reflexivity. Qed.

Lemma target_after_recall accessMode key value target k :
  Memory.recall (target_after accessMode key value target) k =
  Memory.recall (Memory.remember target key value).2 k.
Proof.
  unfold target_after. destruct (String.eqb accessMode "read-only"); reflexivity.
Qed.

Lemma remember_written m k v :
  k ∉ readOnlyWrappers m -> Memory.recall (Memory.remember m k v).2 k = v.
Proof.
  intros H. unfold Memory.remember. rewrite wrapped_remember_free by exact H.
  cbn [snd]. rewrite recall_class_remember, String.eqb_refl. reflexivity.
Qed.

Section Share.

Context (sourceId targetId accessMode : string) (source : MemoryManager).
Hypothesis distinct : sourceId <> targetId.


Lemma share_loop keys : forall st target,
  scope_lookup st sourceId = Some source ->
  scope_lookup st targetId = Some target ->
  exists st' target',
    for_each keys (share_key sourceId targetId accessMode) st = (Ok tt, st') /\
    scope_lookup st' sourceId = Some source /\
    scope_lookup st' targetId = Some target' /\
    (forall k, k ∈ keys -> defined_in source k ->
               getMemoryAccessInfo st' targetId k = Some (grant_of sourceId accessMode)) /\
    (forall k, k ∈ keys -> defined_in source k -> k ∉ readOnlyWrappers target ->
               Memory.recall target' k = Memory.recall source k) /\
    (forall k, ~ defined_in source k ->
               getMemoryAccessInfo st' targetId k =
                 getMemoryAccessInfo st targetId k /\
               Memory.recall target' k = Memory.recall target k) /\
    (forall k, getMemoryAccessInfo st targetId k = Some (grant_of sourceId accessMode) ->
               getMemoryAccessInfo st' targetId k = Some (grant_of sourceId accessMode)) /\
    (forall k, Memory.recall target k = Memory.recall source k ->
               Memory.recall target' k = Memory.recall source k).
Proof.
  induction keys as [|key rest IH]; intros st target Hs Ht.
  - exists st, target. cbn. unfold ret. repeat split; auto.
    all: intros k Hk; apply elem_of_nil in Hk as [].
  - cbn [for_each]. unfold bind.
    rewrite (share_key_eval _ _ _ _ _ _ _ Hs Ht).
    set (st1 := shared_key sourceId targetId accessMode key source target st).
    pose proof (shared_key_target sourceId targetId accessMode key source _ _ Ht) as Ht1.
    pose proof (shared_key_other_scope sourceId targetId accessMode key source
                  target st sourceId distinct) as Hs1.
    rewrite Hs in Hs1. fold st1 in Ht1, Hs1.
    pose proof (access_info_shared_key sourceId targetId accessMode key source
                  target st) as Hacl. fold st1 in Hacl.
    destruct (IH st1 _ Hs1 Ht1) as (st' & target' & Hrun & Hs' & Ht' & Hg & Hv & Hu & Hsg & Hsv).
    exists st', target'. split; [exact Hrun|]. split; [exact Hs'|].
    split; [exact Ht'|].
    assert (Hstable : forall k, Memory.recall target k = Memory.recall source k ->
              Memory.recall
                (if JS.is_undefined (Memory.recall source key) then target
                 else target_after accessMode key (Memory.recall source key) target) k =
              Memory.recall source k).
    { intros k Hk. destruct (JS.is_undefined (Memory.recall source key)); [exact Hk|].
      rewrite target_after_recall.
      destruct (decide (key = k)) as [->|Hne].
      - destruct (decide (k ∈ readOnlyWrappers target)) as [Hin|Hout].
        + unfold Memory.remember. rewrite wrapped_remember_blocked by exact Hin.
          exact Hk.
        + apply remember_written. exact Hout.
      - rewrite remember_other by exact Hne. exact Hk. }
    repeat split.
    + intros k Hk Hd. destruct (decide (key = k)) as [->|Hne].
      * apply Hsg. rewrite Hacl. unfold defined_in in Hd. rewrite Hd.
        rewrite decide_True by reflexivity. reflexivity.
      * apply elem_of_cons in Hk as [->|Hk]; [contradiction|]. auto.
    + intros k Hk Hd Hfree. destruct (decide (key = k)) as [->|Hne].
      * apply Hsv. unfold defined_in in Hd. rewrite Hd, target_after_recall.
        apply remember_written. exact Hfree.
      * apply elem_of_cons in Hk as [->|Hk]; [contradiction|].
        apply Hv; [exact Hk|exact Hd|].
        destruct (JS.is_undefined (Memory.recall source key)); [exact Hfree|].
        apply target_after_free; auto.
    + destruct (Hu k H) as [-> _]. rewrite Hacl.
      destruct (JS.is_undefined (Memory.recall source key)) eqn:E; [reflexivity|].
      destruct (decide (key = k)) as [->|Hne]; [|reflexivity].
      unfold defined_in in H. contradiction.
    + destruct (Hu k H) as [_ ->].
      destruct (JS.is_undefined (Memory.recall source key)) eqn:E; [reflexivity|].
      rewrite target_after_recall. apply remember_other.
      intros ->. unfold defined_in in H. contradiction.
    + intros k Hk. apply Hsg. rewrite Hacl.
      destruct (JS.is_undefined (Memory.recall source key)); [exact Hk|].
      destruct (decide (key = k)); [reflexivity|exact Hk].
    + intros k Hk. apply Hsv. apply Hstable. exact Hk.
Qed.

End Share.

Lemma scope_remember_other_scope scopeId m s key v :
  s <> scopeId ->
  preserves (fun st => scope_lookup st scopeId = Some m) (scope_remember s key v).
Proof.
  intros Hne st r st' Hm. unfold scope_remember.
  destruct (scope_lookup st s) as [ms|].
  - destruct (Memory.remember ms key v). intros [= <- <-].
    rewrite scope_lookup_update, decide_False by exact Hne. exact Hm.
  - intros [= <- <-]. exact Hm.
Qed.

Lemma remember_in_other_scope scopeId m s writes :
  s <> scopeId ->
  preserves (fun st => scope_lookup st scopeId = Some m) (remember_in s writes).
Proof.
  intros Hne. apply preserves_for_each. intros w.
  apply preserves_bind; [|intros _; apply preserves_ret].
  apply scope_remember_other_scope. exact Hne.
Qed.

(** C9, as amended. Between two distinct scopes, for every listed key (every
    key of the source when the list is empty) whose value in the source is
    not [undefined] and which no earlier read-only grant protects in the
    target, [shareMemoryBetween] copies the value of the source to the
    target and records a grant (source scope, access mode, time of sharing),
    which [getMemoryAccessInfo] answers. A key whose value is [undefined] in
    the source gets no grant and no copy. Whatever the source scope
    remembers later, the target scope stays as the call left it. *)
Theorem shareMemoryBetween_snapshot st sourceId targetId keys accessMode
  source target :
  sourceId <> targetId ->
  scope_lookup st sourceId = Some source ->
  scope_lookup st targetId = Some target ->
  let keysToShare :=
    match keys with [] => JS.keys (keyValueStore source) | _ => keys end in
  exists st' target',
    shareMemoryBetween sourceId targetId keys accessMode st = (Ok tt, st') /\
    scope_lookup st' targetId = Some target' /\
    (forall k,
       k ∈ keysToShare -> Memory.recall source k <> VUndefined ->
       k ∉ readOnlyWrappers target ->
       Memory.recall target' k = Memory.recall source k /\
       getMemoryAccessInfo st' targetId k =
         Some (grant_of sourceId accessMode)) /\
    (forall k,
       Memory.recall source k = VUndefined ->
       getMemoryAccessInfo st' targetId k = getMemoryAccessInfo st targetId k /\
       Memory.recall target' k = Memory.recall target k) /\
    (forall writes st'',
       (remember_in sourceId writes st').2 = st'' ->
       scope_lookup st'' targetId = Some target').
Proof.
  intros Hne Hs Ht keysToShare.
  destruct (share_loop sourceId targetId accessMode source Hne keysToShare
              (acl_ready targetId st) target Hs Ht)
    as (st1 & target' & Hrun & Hs1 & Ht1 & Hg & Hv & Hu & _ & _).
  exists (set_events (fun log => log ++
            [shared_event sourceId targetId keysToShare accessMode]) st1), target'.
  assert (Hdef : forall k, Memory.recall source k <> VUndefined ->
            JS.is_undefined (Memory.recall source k) = false).
  { intros k Hk. destruct (Memory.recall source k); try reflexivity. contradiction. }
  split; [|split; [exact Ht1|split; [|split]]].
  - unfold shareMemoryBetween, getMemoryScope. msimpl. rewrite Hs, Ht.
    fold (acl_ready targetId st). fold keysToShare. rewrite Hrun. reflexivity.
  - intros k Hk Hd Hfree. split.
    + apply (Hv k Hk); [apply Hdef, Hd|exact Hfree].
    + apply (Hg k Hk). apply Hdef, Hd.
  - intros k Hk. destruct (Hu k) as [Ha Hr].
    + unfold defined_in. rewrite Hk. discriminate.
    + split; [|exact Hr].
      change (getMemoryAccessInfo st1 targetId k = getMemoryAccessInfo st targetId k).
      rewrite Ha. apply access_info_acl_ready.
  - intros writes st'' <-.
    destruct (remember_in _ _ _) as [r s2] eqn:E. cbn [snd].
    eapply (remember_in_other_scope targetId target' sourceId writes Hne);
      [|exact E].
    exact Ht1.
Qed.


(** ** Replies the planner cannot parse *)

Lemma unparsable_parse_reply JSON_parse responseText :
  unparsable JSON_parse responseText ->
  exists e, parse_reply JSON_parse responseText = Throw e.
Proof.
  intros [[e He] H]. unfold parse_reply. rewrite He.
  destruct responseText; eauto.
  destruct H as [-> | (m & e' & -> & ->)]; eauto.
Qed.

(** C6. The reply of the planner has a text that [JSON.parse] rejects, and
    in which the pattern of the second tier finds nothing, or finds a
    substring that [JSON.parse] rejects as well. Then [planJobsFromGoal]
    answers the built-in plan of three tasks and throws nothing, and
    [replanFailedJob] throws "Failed to parse replanning response: ..." and
    substitutes no plan. *)
Theorem unparsable_plan_reply JSON_parse Date_now st reply responseText :
  response_text reply = Ok responseText ->
  unparsable JSON_parse responseText ->
  (forall agentId goal run,
     agents st !! agentId = Some run ->
     run (PlanningPrompt goal) = Resolves reply ->
     planJobsFromGoal JSON_parse Date_now agentId goal st =
       (Ok default_plan, planner_called agentId (PlanningPrompt goal) st) /\
     exists t1 t2 t3, default_plan = VArr [t1; t2; t3]) /\
  (forall failedJobId errorMessage job run brief,
     getJob st failedJobId = Some job ->
     agents st !! JS.to_string (assigneeId job) = Some run ->
     briefs st !! failedJobId = Some brief ->
     JS.truthy (JS.prop brief "goal") = true ->
     let prompt :=
       ReplanningPrompt (JS.prop brief "goal") (JS.prop brief "taskName")
         (JS.prop brief "overview") (VStr errorMessage) in
     run prompt = Resolves reply ->
     exists e,
       parse_reply JSON_parse responseText = Throw e /\
       replanFailedJob JSON_parse Date_now failedJobId errorMessage st =
         (Throw ("Failed to parse replanning response: " +:+ e +:+
                 ". The model did not return valid JSON."),
          planner_called (JS.to_string (assigneeId job)) prompt st)).
Proof.
  intros Htext Hbad. destruct (unparsable_parse_reply _ _ Hbad) as [e He]. split.
  - intros agentId goal run Hrun Hreply. split; [|unfold default_plan; eauto].
    unfold planJobsFromGoal. msimpl. rewrite Hrun, Hreply, Htext, He.
    reflexivity.
  - intros failedJobId errorMessage job run brief Hjob Hrun Hbrief Hgoal prompt
      Hreply.
    exists e. split; [exact He|].
    unfold replanFailedJob. msimpl. rewrite Hjob, Hrun, Hbrief, Hgoal.
    fold prompt. rewrite Hreply, Htext, He. reflexivity.
Qed.


(** ** What the methods leave unchanged *)

Lemma scope_update_frame P scopeId f st :
  Frame P -> P st -> P (scope_update scopeId f st).
Proof.
  intros HP. unfold scope_update. destruct (String.eqb scopeId "global").
  - apply frame_globalMemory, HP.
  - apply frame_memoryScopes, HP.
Qed.

Create HintDb frames.

Ltac frame_solve :=
  repeat first
    [ assumption
    | apply frame_briefs; [assumption|]
    | apply frame_activeJobs; [assumption|]
    | apply frame_jobHeap; [assumption|]
    | apply frame_events; [assumption|]
    | apply frame_globalMemory; [assumption|]
    | apply frame_memoryScopes; [assumption|]
    | apply frame_jobContexts; [assumption|]
    | apply frame_inFlight; [assumption|]
    | apply frame_transitions; [assumption|]
    | apply scope_update_frame; [assumption|] ].

Ltac preserve_step :=
  first
    [ solve [eauto 4 with frames]
    | apply preserves_ret
    | apply preserves_throw
    | apply preserves_lift
    | apply preserves_get
    | apply preserves_modify; intros ? ?; solve [frame_solve]
    | apply preserves_bind; [|intros ?]
    | apply preserves_try_catch; [|intros ?]
    | apply preserves_capture
    | apply preserves_for_each; intros ?
    | match goal with
      | |- preserves _ (match ?x with _ => _ end) => destruct x
      | |- preserves _ (let _ := _ in _) => cbv zeta
      end ].

Ltac preserve := repeat preserve_step.

Lemma scope_remember_preserves P scopeId key value :
  Frame P -> preserves P (scope_remember scopeId key value).
Proof.
  intros HP st r st' H. unfold scope_remember.
  destruct (scope_lookup st scopeId) as [m|].
  - destruct (Memory.remember m key value). intros [= <- <-].
    apply scope_update_frame; assumption.
  - intros [= <- <-]. exact H.
Qed.
#[local] Hint Resolve scope_remember_preserves : frames.

Lemma set_status_preserves P who ref s :
  Frame P -> preserves P (set_status who ref s).
Proof.
  intros HP st r st' H. unfold set_status.
  destruct (jobHeap st !! ref); intros [= <- <-]; frame_solve.
Qed.
#[local] Hint Resolve set_status_preserves : frames.

Lemma assignJob_preserves P jobId assigneeId assigneeType :
  Frame P -> preserves P (assignJob jobId assigneeId assigneeType).
Proof. intros HP. unfold assignJob. preserve. Qed.
#[local] Hint Resolve assignJob_preserves : frames.

Lemma ensure_brief_preserves P jobId briefData :
  Frame P -> preserves P (ensure_brief jobId briefData).
Proof. intros HP. unfold ensure_brief. preserve. Qed.
#[local] Hint Resolve ensure_brief_preserves : frames.

Lemma execute_catch_preserves P jobId ref e :
  Frame P -> preserves P (execute_catch jobId ref e).
Proof. intros HP. unfold execute_catch. preserve. Qed.
#[local] Hint Resolve execute_catch_preserves : frames.

Lemma execute_finish_preserves P jobId launch :
  Frame P -> preserves P (execute_finish jobId launch).
Proof. intros HP. unfold execute_finish, execute_try_after_run. preserve. Qed.
#[local] Hint Resolve execute_finish_preserves : frames.

Lemma execute_start_preserves P extra jobId :
  Frame P -> InvocationFrame P extra -> preserves P (execute_start jobId extra).
Proof.
  intros HP HI. unfold execute_start, execute_try_before_run. preserve.
  all: apply preserves_modify; intros st H;
    destruct (is_agent (assigneeType _)); apply HI, H.
Qed.
#[local] Hint Resolve execute_start_preserves : frames.

Lemma execute_preserves P extra jobId :
  Frame P -> InvocationFrame P extra -> preserves P (execute jobId extra).
Proof. intros HP HI. unfold execute. preserve. Qed.
#[local] Hint Resolve execute_preserves : frames.

Lemma settle_in_flight_preserves P schedule n :
  Frame P -> preserves P (settle_in_flight schedule n).
Proof.
  intros HP. induction n as [|n IH]; cbn [settle_in_flight]; preserve.
Qed.

Lemma update_workflow_preserves P workflowId f :
  WorkflowFrame P -> preserves P (update_workflow workflowId f).
Proof. intros HW. apply preserves_modify. intros st. apply HW. Qed.
#[local] Hint Resolve update_workflow_preserves : frames.

Lemma fail_if_job_failed_preserves P what i jobId :
  preserves P (fail_if_job_failed what i jobId).
Proof. unfold fail_if_job_failed. preserve. Qed.
#[local] Hint Resolve fail_if_job_failed_preserves : frames.

Lemma run_single_preserves P conditional workflowId i step currentData :
  Frame P -> WorkflowFrame P ->
  InvocationFrame P (step_inputs_for conditional workflowId i step currentData) ->
  preserves P (run_single conditional workflowId i step currentData).
Proof. intros HP HW HI. unfold run_single, workflow_remember. preserve. Qed.

Lemma any_invocation P extra : AnyInvocation P -> InvocationFrame P extra.
Proof. intros H st a b bi c j HP. split; apply H, HP. Qed.
#[local] Hint Resolve any_invocation : frames.

Lemma launch_all_preserves P workflowId i step currentData branches :
  Frame P -> AnyInvocation P ->
  forall launched,
    preserves P (launch_all workflowId i step currentData branches launched).
Proof.
  intros HP HI. induction branches as [|[index jid] rest IH]; intros launched;
    cbn [launch_all]; [apply preserves_ret|].
  unfold launch_branch. preserve.
Qed.
#[local] Hint Resolve launch_all_preserves : frames.

Lemma join_preserves P schedule n :
  Frame P -> forall pending slots, preserves P (join schedule n pending slots).
Proof.
  intros HP. induction n as [|n IH]; intros pending slots; cbn [join].
  - destruct pending; apply preserves_ret.
  - destruct pending as [|p pending]; [apply preserves_ret|].
    preserve.
Qed.
#[local] Hint Resolve join_preserves : frames.

Lemma store_parallel_preserves P workflowId i parallelResults :
  Frame P -> WorkflowFrame P ->
  forall combined,
    preserves P (store_parallel workflowId i parallelResults combined).
Proof.
  intros HP HW. induction parallelResults as [|[jid result] rest IH];
    intros combined; cbn [store_parallel]; [apply preserves_ret|].
  unfold workflow_remember. preserve.
Qed.
#[local] Hint Resolve store_parallel_preserves : frames.

Lemma run_step_preserves P schedule workflowId i step currentData :
  Frame P -> WorkflowFrame P -> AnyInvocation P ->
  preserves P (run_step schedule workflowId i step currentData).
Proof.
  intros HP HW HI.
  assert (Hs : forall c, preserves P (run_single c workflowId i step currentData)).
  { intros c. apply run_single_preserves; auto with frames. }
  assert (Hc : preserves P (run_conditional workflowId i step currentData)).
  { unfold run_conditional, workflow_remember. preserve. }
  unfold run_step. cbv zeta.
  destruct (step_jobId step), (is_type "conditional" (type_of step)),
    (is_type "parallel" (type_of step)); auto.
  all: unfold run_parallel, workflow_remember; preserve.
Qed.
#[local] Hint Resolve run_step_preserves : frames.

Lemma run_steps_preserves P schedule workflowId steps :
  Frame P -> WorkflowFrame P -> AnyInvocation P ->
  forall i currentData,
    preserves P (run_steps schedule workflowId i steps currentData).
Proof.
  intros HP HW HI. induction steps as [|step rest IH]; intros i currentData;
    cbn [run_steps]; preserve.
Qed.


(** ** A call of execute that fails *)

Lemma set_status_eval who ref s job st :
  jobHeap st !! ref = Some job ->
  set_status who ref s st = (Ok tt, status_written who ref s job st).
Proof. intros H. unfold set_status. rewrite H. reflexivity. Qed.

Lemma status_written_lookup who ref s job st :
  jobHeap st !! ref = Some job ->
  jobHeap (status_written who ref s job st) !! ref = Some (with_status s job).
Proof. intros H. cbn. rewrite list_lookup_alter_eq, H. reflexivity. Qed.

Lemma job_failed_lookup jobId ref e job st :
  jobHeap st !! ref = Some job ->
  jobHeap (job_failed jobId ref e job st) !! ref = Some (failed_with e job).
Proof. intros H. cbn. rewrite !list_lookup_alter_eq, H. reflexivity. Qed.

Lemma execute_catch_eval jobId ref e job st :
  jobHeap st !! ref = Some job ->
  execute_catch jobId ref e st =
    (handler_result st jobId e (failed_with e job), job_failed jobId ref e job st).
Proof.
  intros H. unfold execute_catch. msimpl. rewrite (set_status_eval _ _ _ _ _ H).
  fold (job_failed jobId ref e job st).
  rewrite (job_failed_lookup jobId ref e job st H).
  unfold handler_result.
  change (errorHandlers (job_failed jobId ref e job st)) with (errorHandlers st).
  destruct (errorHandlers st !! jobId) as [h|]; [|reflexivity].
  destruct (h e (failed_with e job)); reflexivity.
Qed.

Lemma execute_start_eval jobId additionalInputs st ref job :
  job_ref st jobId = Some (ref, job) ->
  let job1 := with_status in_progress job in
  let st1 := job_started jobId ref job st in
  execute_start jobId additionalInputs st =
  match prepare st job jobId additionalInputs with
  | Throw e =>
      (Ok (Settled (handler_result st jobId e (failed_with e job1))),
       job_failed jobId ref e job1 st1)
  | Ok (run, input) => (Ok (Awaiting ref (run input)), invoked job input st1)
  end.
Proof.
  intros Href job1 st1. pose proof Href as Href'.
  apply job_ref_Some in Href' as [Hact Hheap].
  unfold execute_start, execute_try_before_run. msimpl. rewrite Href.
  cbv beta iota. rewrite (set_status_eval _ _ _ _ _ Hheap).
  fold (job_started jobId ref job st). fold st1.
  assert (H1 : jobHeap st1 !! ref = Some job1)
    by (apply status_written_lookup, Hheap).
  assert (Hc : forall e,
            execute_catch jobId ref e st1 =
              (handler_result st jobId e (failed_with e job1),
               job_failed jobId ref e job1 st1)).
  { intros e. rewrite (execute_catch_eval jobId ref e job1 st1 H1). reflexivity. }
  unfold prepare.
  destruct (extractInputsFromBrief (brief job)) as [briefInputs|e].
  2:{ rewrite Hc. destruct (handler_result _ _ _ _); reflexivity. }
  change (jobContexts st1) with (jobContexts st).
  change (input_schema st1 jobId) with (input_schema st jobId).
  cbv zeta.
  destruct (check_schema _ _ _) as [[]|e].
  2:{ rewrite Hc. destruct (handler_result _ _ _ _); reflexivity. }
  destruct (lookup_assignee st _ _) as [run|].
  2:{ rewrite Hc. destruct (handler_result _ _ _ _); reflexivity. }
  reflexivity.
Qed.

Lemma execute_finish_eval jobId ref reply job st :
  jobHeap st !! ref = Some job ->
  execute_finish jobId (Awaiting ref reply) st =
  match reply with
  | Rejects e =>
      (handler_result st jobId e (failed_with e job),
       job_failed jobId ref e job st)
  | Resolves results =>
      match check_schema "Output" results (output_schema st jobId) with
      | Throw e =>
          (handler_result st jobId e (failed_with e job),
           job_failed jobId ref e job st)
      | Ok _ =>
          match jobContexts st !! jobId with
          | Some old => (Ok results, job_completed jobId ref results job old st)
          | None =>
              let e := "Job context for " +:+ jobId +:+ " not found" in
              let job2 := with_results results (with_status completed job) in
              (handler_result st jobId e (failed_with e job2),
               job_failed jobId ref e job2
                 (set_jobHeap (alter (with_results results) ref)
                    (status_written ByExecute ref completed job st)))
          end
      end
  end.
Proof.
  intros Hheap. unfold execute_finish, execute_try_after_run.
  destruct reply as [results|e].
  2:{ msimpl. apply execute_catch_eval, Hheap. }
  unfold updateJobContext. msimpl.
  destruct (check_schema _ _ _) as [[]|e].
  2:{ apply execute_catch_eval, Hheap. }
  rewrite (set_status_eval _ _ _ _ _ Hheap).
  cbn [jobContexts set_jobHeap status_written set_transitions].
  destruct (jobContexts st !! jobId) as [old|]; [reflexivity|].
  cbv zeta.
  match goal with |- execute_catch _ _ ?e ?s = _ =>
    rewrite (execute_catch_eval jobId ref e
               (with_results results (with_status completed job)) s)
  end.
  - reflexivity.
  - cbn. rewrite !list_lookup_alter_eq, Hheap. reflexivity.
Qed.

Lemma execute_eval jobId additionalInputs st ref job :
  job_ref st jobId = Some (ref, job) ->
  let job1 := with_status in_progress job in
  let st1 := job_started jobId ref job st in
  execute jobId additionalInputs st =
  match prepare st job jobId additionalInputs with
  | Throw e =>
      (handler_result st jobId e (failed_with e job1),
       job_failed jobId ref e job1 st1)
  | Ok (run, input) =>
      execute_finish jobId (Awaiting ref (run input)) (invoked job input st1)
  end.
Proof.
  intros Href job1 st1. unfold execute, bind.
  rewrite (execute_start_eval _ _ _ _ _ Href). fold job1 st1.
  destruct (prepare st job jobId additionalInputs) as [[run input]|e];
    reflexivity.
Qed.

Lemma getJob_at st jobId ref job :
  activeJobs st !! jobId = Some ref -> jobHeap st !! ref = Some job ->
  getJob st jobId = Some job.
Proof. intros Ha Hh. unfold getJob, job_ref. rewrite Ha, Hh. reflexivity. Qed.

Lemma execute_failure jobId additionalInputs st ref job e :
  job_ref st jobId = Some (ref, job) ->
  attempt st job jobId additionalInputs = Throw e ->
  exists st' job',
    execute jobId additionalInputs st = (handler_result st jobId e job', st') /\
    getJob st' jobId = Some job' /\
    status job' = failed /\
    error job' = Some e.
Proof.
  intros Href Hatt. rewrite (execute_eval _ _ _ _ _ Href).
  apply job_ref_Some in Href as [Hact Hheap].
  set (job1 := with_status in_progress job).
  set (st1 := job_started jobId ref job st).
  assert (H1 : jobHeap st1 !! ref = Some job1)
    by (apply status_written_lookup, Hheap).
  unfold attempt in Hatt.
  destruct (prepare st job jobId additionalInputs) as [[run input]|e0].
  2:{ injection Hatt as ->. eexists _, _. split; [reflexivity|].
      split; [|split; reflexivity].
      eapply getJob_at; [exact Hact|]. apply job_failed_lookup, H1. }
  set (st2 := invoked job input st1).
  assert (H2 : jobHeap st2 !! ref = Some job1) by exact H1.
  rewrite (execute_finish_eval _ _ _ _ _ H2).
  unfold conclude in Hatt.
  change (output_schema st2 jobId) with (output_schema st jobId).
  change (jobContexts st2) with (jobContexts st).
  destruct (run input) as [results|e1].
  2:{ injection Hatt as ->. eexists _, _. split; [reflexivity|].
      split; [|split; reflexivity].
      eapply getJob_at; [exact Hact|]. apply job_failed_lookup, H2. }
  destruct (check_schema "Output" results (output_schema st jobId)) as [[]|e1].
  2:{ injection Hatt as ->. eexists _, _. split; [reflexivity|].
      split; [|split; reflexivity].
      eapply getJob_at; [exact Hact|]. apply job_failed_lookup, H2. }
  destruct (jobContexts st !! jobId) as [old|]; [discriminate|].
  injection Hatt as <-. cbv zeta. eexists _, _. split; [reflexivity|].
  split; [|split; reflexivity].
  eapply getJob_at; [exact Hact|]. apply job_failed_lookup.
  cbn. rewrite !list_lookup_alter_eq, Hheap. reflexivity.
Qed.


(** ** A workflow that fails *)

Lemma workflow_kept_frame workflowId st0 :
  Frame (workflow_kept workflowId st0) /\
  WorkflowFrame (workflow_kept workflowId st0) /\
  AnyInvocation (workflow_kept workflowId st0).
Proof.
  split; [|split].
  - split; intros f st H; exact H.
  - intros f w st [H1 H2]. split; [|exact H2]. cbn.
    apply lookup_alter_is_Some. exact H1.
  - intros f st H. exact H.
Qed.

Lemma for_each_ok {A} (l : list A) (body : A -> M unit) st :
  (forall x s, (body x s).1 = Ok tt) -> (for_each l body st).1 = Ok tt.
Proof.
  intros Hb. revert st. induction l as [|x l IH]; intros st; [reflexivity|].
  cbn [for_each]. unfold bind. specialize (Hb x st).
  destruct (body x st) as [r s]. cbn in Hb. subst r. apply IH.
Qed.

Lemma workflow_remember_ok workflowId key value st :
  (workflow_remember workflowId key value st).1 = Ok tt.
Proof.
  unfold workflow_remember, scope_remember, bind, ret.
  destruct (scope_lookup st _); [|reflexivity].
  destruct (Memory.remember _ _ _). reflexivity.
Qed.

Lemma workflow_scope_not_global workflowId :
  String.eqb (workflow_scope workflowId) "global" = false.
Proof. reflexivity. Qed.

Lemma executeWorkflow_eval schedule workflowDefinition workflowId initialData st :
  scope_lookup st (workflow_scope workflowId) = None ->
  executeWorkflow schedule workflowDefinition workflowId initialData st =
  try_catch
    (run_steps schedule workflowId 0 workflowDefinition (VObj initialData) ;;
     update_workflow workflowId (with_wf_status wf_completed) ;;
     st <- get ;;
     emit "workflow:completed"
       [("workflowId", VStr workflowId);
        ("results", VObj (workflow_results st workflowId))] ;;
     ret (VObj [("status", VStr "completed"); ("workflowId", VStr workflowId);
                ("results", VObj (workflow_results st workflowId))]))
    (workflow_catch workflowId)
    (workflow_ready workflowDefinition workflowId initialData st).
Proof.
  intros Hnone. unfold executeWorkflow, createMemoryScope.
  unfold bind at 1. unfold modify at 1. unfold bind at 1.
  unfold emit at 1. unfold modify at 1. unfold bind at 1. unfold bind at 1.
  unfold get at 1.
  change (scope_lookup _ (workflow_scope workflowId))
    with (scope_lookup st (workflow_scope workflowId)).
  rewrite Hnone. unfold modify at 1. unfold bind at 1.
  unfold workflow_ready. fold (workflow_started workflowDefinition workflowId st).
  pose proof (for_each_ok (JS.entries initialData)
                (fun kv => workflow_remember workflowId kv.1 kv.2)
                (set_memoryScopes (insert (workflow_scope workflowId) new_memory)
                   (workflow_started workflowDefinition workflowId st))
                (fun x s => workflow_remember_ok workflowId x.1 x.2 s)) as Hok.
  destruct (for_each _ _ _) as [r s]. cbn in Hok. subst r. reflexivity.
Qed.

Lemma workflow_ready_kept workflowDefinition workflowId initialData st :
  workflow_kept workflowId st
    (workflow_ready workflowDefinition workflowId initialData st).
Proof.
  unfold workflow_ready.
  destruct (for_each _ _ _) as [r s] eqn:E. cbn [snd].
  destruct (workflow_kept_frame workflowId st) as (HF & HW & HI).
  eapply (preserves_for_each (workflow_kept workflowId st)); [| |exact E].
  - intros kv. unfold workflow_remember. preserve.
  - split; [|reflexivity]. cbn. rewrite lookup_insert_eq. eauto.
Qed.

Lemma workflow_catch_eval workflowId e st w :
  workflows st !! workflowId = Some w ->
  exists st',
    workflow_catch workflowId e st =
      (Ok (workflow_handler_result st workflowId e (workflow_failed_with e w)),
       st') /\
    workflows st' !! workflowId = Some (workflow_failed_with e w).
Proof.
  intros Hw. unfold workflow_catch. msimpl.
  cbn [workflows workflowErrorHandlers set_workflows set_events].
  rewrite !lookup_alter_eq, Hw. cbn [fmap option_fmap option_map].
  fold (workflow_failed_with e w).
  unfold workflow_handler_result, workflow_step, workflow_results.
  cbn [workflows workflowErrorHandlers set_workflows set_events].
  rewrite !lookup_alter_eq, Hw. cbn [fmap option_fmap option_map].
  fold (workflow_failed_with e w).
  destruct (workflowErrorHandlers st !! workflowId) as [h|].
  - destruct (h e (workflow_failed_with e w)); eexists; split;
      try reflexivity; cbn; rewrite !lookup_alter_eq, Hw; reflexivity.
  - eexists; split; try reflexivity; cbn; rewrite !lookup_alter_eq, Hw;
      reflexivity.
Qed.

Lemma executeWorkflow_failure schedule workflowDefinition workflowId
  initialData st e st_failed :
  scope_lookup st (workflow_scope workflowId) = None ->
  run_steps schedule workflowId 0 workflowDefinition (VObj initialData)
    (workflow_ready workflowDefinition workflowId initialData st) =
    (Throw e, st_failed) ->
  exists st' w,
    executeWorkflow schedule workflowDefinition workflowId initialData st =
      (Ok (workflow_handler_result st workflowId e w), st') /\
    workflows st' !! workflowId = Some w /\
    wf_status w = wf_failed /\
    wf_error w = Some e.
Proof.
  intros Hnone Hrun. rewrite executeWorkflow_eval by exact Hnone.
  unfold try_catch, bind at 1. rewrite Hrun.
  destruct (workflow_kept_frame workflowId st) as (HF & HW & HI).
  destruct (run_steps_preserves _ schedule workflowId workflowDefinition HF HW HI
              0 (VObj initialData) _ _ _
              (workflow_ready_kept workflowDefinition workflowId initialData st)
              Hrun) as [[w Hw] Hh].
  destruct (workflow_catch_eval workflowId e st_failed w Hw) as (st' & -> & Hw').
  exists st', (workflow_failed_with e w).
  unfold workflow_handler_result. rewrite Hh. auto.
Qed.


(** ** Retrying a job *)

Lemma retryJob_no_job jobId maxRetries additionalInputs st :
  job_ref st jobId = None ->
  retryJob jobId maxRetries additionalInputs st =
    (Throw ("No job found with id " +:+ jobId), st).
Proof. intros H. unfold retryJob. msimpl. rewrite H. reflexivity. Qed.

Lemma retryJob_not_failed jobId maxRetries additionalInputs st ref job :
  job_ref st jobId = Some (ref, job) -> status job <> failed ->
  retryJob jobId maxRetries additionalInputs st =
    (Throw ("Job " +:+ jobId +:+ " is not in failed state"), st).
Proof.
  intros H Hs. unfold retryJob. msimpl. rewrite H. cbv beta iota.
  destruct (status job); try reflexivity. contradiction.
Qed.

Lemma retryJob_exhausted jobId maxRetries additionalInputs st ref job :
  job_ref st jobId = Some (ref, job) -> status job = failed ->
  (maxRetries <=? Z.of_nat (default 0%nat (retryCount job)))%Z = true ->
  retryJob jobId maxRetries additionalInputs st =
    (Throw ("Maximum retry attempts (" +:+ pretty maxRetries +:+
            ") reached for job " +:+ jobId),
     set_jobHeap
       (alter (with_retryCount (Some (default 0%nat (retryCount job)))) ref)
       st).
Proof.
  intros H Hs Hm. unfold retryJob. msimpl. rewrite H. cbv beta iota.
  rewrite Hs. cbv zeta. rewrite Hm. reflexivity.
Qed.

Lemma retryJob_again jobId maxRetries additionalInputs st ref job :
  job_ref st jobId = Some (ref, job) -> status job = failed ->
  (maxRetries <=? Z.of_nat (default 0%nat (retryCount job)))%Z = false ->
  retryJob jobId maxRetries additionalInputs st =
    execute jobId additionalInputs (retry_prepared jobId ref job maxRetries st).
Proof.
  intros H Hs Hm. apply job_ref_Some in H as H'. destruct H' as [Hact Hheap].
  unfold retryJob. msimpl. rewrite H. cbv beta iota. rewrite Hs. cbv zeta.
  rewrite Hm.
  rewrite (set_status_eval ByRetryJob ref assigned
             (with_retryCount (Some (S (default 0%nat (retryCount job)))) job)).
  - reflexivity.
  - cbn [jobHeap set_jobHeap]. rewrite !list_lookup_alter_eq, Hheap.
    reflexivity.
Qed.

Lemma retry_prepared_ref jobId maxRetries st ref job :
  job_ref st jobId = Some (ref, job) ->
  job_ref (retry_prepared jobId ref job maxRetries st) jobId =
    Some (ref, retried (default 0%nat (retryCount job)) job).
Proof.
  intros H. apply job_ref_Some in H as [Hact Hheap].
  apply job_ref_Some. split; [exact Hact|].
  unfold retry_prepared, status_written.
  cbn [jobHeap set_jobHeap set_events set_transitions].
  rewrite !list_lookup_alter_eq, Hheap. reflexivity.
Qed.

Lemma retry_prepared_transitions jobId maxRetries st ref job :
  transitions (retry_prepared jobId ref job maxRetries st) =
  transitions st ++
    [mkTransition (job_id job) ByRetryJob (Some (status job)) assigned].
Proof. reflexivity. Qed.

Lemma retryJob_eval jobId maxRetries additionalInputs st :
  match job_ref st jobId with
  | None =>
      retryJob jobId maxRetries additionalInputs st =
        (Throw ("No job found with id " +:+ jobId), st)
  | Some (ref, job) =>
      let count := default 0%nat (retryCount job) in
      match status job with
      | failed =>
          if (maxRetries <=? Z.of_nat count)%Z
          then
            retryJob jobId maxRetries additionalInputs st =
              (Throw ("Maximum retry attempts (" +:+ pretty maxRetries +:+
                      ") reached for job " +:+ jobId),
               set_jobHeap (alter (with_retryCount (Some count)) ref) st)
          else
            retryJob jobId maxRetries additionalInputs st =
              execute jobId additionalInputs
                (retry_prepared jobId ref job maxRetries st) /\
            job_ref (retry_prepared jobId ref job maxRetries st) jobId =
              Some (ref, retried count job) /\
            status (retried count job) = assigned /\
            error (retried count job) = None /\
            retryCount (retried count job) = Some (S count)
      | _ =>
          retryJob jobId maxRetries additionalInputs st =
            (Throw ("Job " +:+ jobId +:+ " is not in failed state"), st)
      end
  end.
Proof.
  destruct (job_ref st jobId) as [[ref job]|] eqn:Href;
    [|apply retryJob_no_job, Href].
  cbv zeta.
  destruct (status job) eqn:Hst;
    try (eapply retryJob_not_failed; [exact Href|congruence]).
  destruct (maxRetries <=? _)%Z eqn:Hmax.
  - eapply retryJob_exhausted; eauto.
  - split; [eapply retryJob_again; eauto|].
    split; [apply retry_prepared_ref, Href|]. auto.
Qed.



(** ** The writes to the status of a job *)

Lemma assignJob_eval jobId assigneeId assigneeType st :
  assignJob jobId assigneeId assigneeType st =
  match briefs st !! jobId with
  | None => (Throw ("No brief found for job " +:+ jobId), st)
  | Some brief =>
      match lookup_assignee st (default_agent assigneeType) assigneeId with
      | None =>
          (Throw (JS.to_string (default_agent assigneeType) +:+ " " +:+
                  JS.to_string assigneeId +:+ " not found"), st)
      | Some _ =>
          let job := new_job jobId brief assigneeId assigneeType in
          (Ok job, job_assigned jobId job st)
      end
  end.
Proof.
  unfold assignJob. msimpl.
  destruct (briefs st !! jobId) as [brief|]; [|reflexivity].
  destruct (lookup_assignee st _ _); [|reflexivity].
  unfold job_assigned. cbv zeta.
  destruct (jobContexts st !! jobId); reflexivity.
Qed.

Lemma job_assigned_ref jobId job st :
  job_ref (job_assigned jobId job st) jobId = Some (length (jobHeap st), job).
Proof.
  unfold job_ref, job_assigned. cbv zeta.
  destruct (jobContexts st !! jobId); cbn;
    rewrite lookup_insert_eq, lookup_app_r, Nat.sub_diag by lia; reflexivity.
Qed.

Lemma job_assigned_context jobId job st :
  is_Some (jobContexts (job_assigned jobId job st) !! jobId).
Proof.
  unfold job_assigned. cbv zeta.
  destruct (jobContexts st !! jobId) eqn:E; cbn.
  - rewrite E. eauto.
  - rewrite lookup_insert_eq. eauto.
Qed.

Lemma job_assigned_invocations jobId job st :
  invocations (job_assigned jobId job st) = invocations st.
Proof.
  unfold job_assigned. cbv zeta. destruct (jobContexts st !! jobId); reflexivity.
Qed.

Lemma job_assigned_transitions jobId job st :
  transitions (job_assigned jobId job st) =
  transitions st ++
    [mkTransition jobId ByAssignJob (status <$> getJob st jobId) assigned].
Proof.
  unfold job_assigned. cbv zeta. destruct (jobContexts st !! jobId); reflexivity.
Qed.

Lemma extends_refl st : contexts_ok st -> extends_by_edges st st.
Proof.
  intros H. split; [|exact H]. exists []. rewrite app_nil_r. auto.
Qed.

Lemma extends_trans st1 st2 st3 :
  extends_by_edges st1 st2 -> extends_by_edges st2 st3 ->
  extends_by_edges st1 st3.
Proof.
  intros [(n1 & E1 & F1) _] [(n2 & E2 & F2) H]. split; [|exact H].
  exists (n1 ++ n2). rewrite E2, E1, app_assoc. split; [reflexivity|].
  apply Forall_app. auto.
Qed.

Lemma assignJob_edges jobId assigneeId assigneeType st :
  contexts_ok st ->
  extends_by_edges st (assignJob jobId assigneeId assigneeType st).2.
Proof.
  intros Hok. rewrite assignJob_eval.
  destruct (briefs st !! jobId) as [b|]; [|apply extends_refl, Hok].
  destruct (lookup_assignee st _ _); [|apply extends_refl, Hok].
  cbn [snd]. split.
  - eexists. split; [apply job_assigned_transitions|].
    apply Forall_singleton. reflexivity.
  - intros j Hj. destruct (decide (j = jobId)) as [->|Hne].
    + apply job_assigned_context.
    + assert (Ha : is_Some (activeJobs st !! j)).
      { revert Hj. unfold job_assigned. cbv zeta.
        destruct (jobContexts st !! jobId); cbn;
          rewrite lookup_insert_ne by congruence; auto. }
      specialize (Hok j Ha). unfold job_assigned. cbv zeta.
      destruct (jobContexts st !! jobId); cbn; [exact Hok|].
      rewrite lookup_insert_ne by congruence. exact Hok.
Qed.

Lemma execute_edges jobId additionalInputs st :
  contexts_ok st ->
  extends_by_edges st (execute jobId additionalInputs st).2.
Proof.
  intros Hok. destruct (job_ref st jobId) as [[ref job]|] eqn:Href.
  2:{ unfold execute, execute_start. msimpl. rewrite Href.
      apply extends_refl, Hok. }
  rewrite (execute_eval _ _ _ _ _ Href).
  apply job_ref_Some in Href as [Hact Hheap].
  set (job1 := with_status in_progress job).
  set (st1 := job_started jobId ref job st).
  assert (H1 : jobHeap st1 !! ref = Some job1)
    by (apply status_written_lookup, Hheap).
  assert (Hfail : forall e j s,
            transitions s = transitions st ++
              [mkTransition (job_id job) ByExecute (Some (status job))
                 in_progress] ->
            status j = in_progress ->
            activeJobs s = activeJobs st -> jobContexts s = jobContexts st ->
            extends_by_edges st (job_failed jobId ref e j s)).
  { intros e j s Ht Hs Ha Hc. split.
    - eexists. split.
      + cbn. rewrite Ht, <- app_assoc. reflexivity.
      + apply Forall_cons. split; [left; reflexivity|].
        apply Forall_singleton. right. rewrite Hs. auto.
    - intros x. cbn. rewrite Ha, Hc. apply Hok. }
  destruct (prepare st job jobId additionalInputs) as [[run input]|e].
  2:{ cbn [snd]. apply Hfail; reflexivity. }
  set (st2 := invoked job input st1).
  rewrite (execute_finish_eval jobId ref (run input) job1 st2 H1).
  destruct (run input) as [results|e].
  2:{ cbn [snd]. apply Hfail; reflexivity. }
  destruct (check_schema _ _ _) as [[]|e].
  2:{ cbn [snd]. apply Hfail; reflexivity. }
  destruct (Hok jobId) as [old Hold]; [rewrite Hact; eauto|].
  change (jobContexts st2) with (jobContexts st). rewrite Hold. cbn [snd].
  split.
  - eexists. split.
    + cbn. rewrite <- app_assoc. reflexivity.
    + apply Forall_cons. split; [left; reflexivity|].
      apply Forall_singleton. right. auto.
  - intros x Hx. cbn in *. destruct (decide (x = jobId)) as [->|Hne].
    + rewrite lookup_insert_eq. eauto.
    + rewrite lookup_insert_ne by congruence. apply Hok, Hx.
Qed.

Lemma retryJob_edges jobId maxRetries additionalInputs st :
  contexts_ok st ->
  extends_by_edges st (retryJob jobId maxRetries additionalInputs st).2.
Proof.
  intros Hok. pose proof (retryJob_eval jobId maxRetries additionalInputs st) as H.
  destruct (job_ref st jobId) as [[ref job]|] eqn:Href.
  2:{ rewrite H. apply extends_refl, Hok. }
  cbv zeta in H.
  destruct (status job) eqn:Hst; try (rewrite H; apply extends_refl, Hok).
  destruct (maxRetries <=? _)%Z.
  - rewrite H. cbn [snd]. split; [|exact Hok].
    exists []. rewrite app_nil_r. auto.
  - destruct H as (-> & _).
    eapply extends_trans; [|apply execute_edges].
    + split; [|exact Hok]. eexists. split; [reflexivity|].
      apply Forall_singleton. split; [|reflexivity].
      cbn. rewrite Hst. reflexivity.
    + exact Hok.
Qed.

Lemma call_edges c st :
  contexts_ok st -> extends_by_edges st (call c st).2.
Proof.
  intros Hok. destruct c as [j a t|j x|j m x]; cbn [call].
  - unfold bind, ret. pose proof (assignJob_edges j a t st Hok) as H.
    destruct (assignJob j a t st) as [[]]; exact H.
  - apply execute_edges, Hok.
  - apply retryJob_edges, Hok.
Qed.

(** C1, as amended. Whatever sequence of calls of [assignJob], [execute] and
    [retryJob] is made, every write to a status field is one of these:
    [assignJob] installs a record with the status [assigned], whatever the
    status of the record it replaces; [execute] writes [in_progress]
    whatever the status was, and then moves the job from [in_progress] to
    [completed] or to [failed]; [retryJob] moves the job from [failed] to
    [assigned]. *)
Theorem status_edges_of_the_code calls st :
  contexts_ok st ->
  exists new,
    transitions (run_calls calls st) = transitions st ++ new /\
    Forall actual_edge new.
Proof.
  intros Hok.
  enough (H : extends_by_edges st (run_calls calls st)) by apply H.
  revert st Hok. induction calls as [|c rest IH]; intros st Hok; cbn.
  - apply extends_refl, Hok.
  - pose proof (call_edges c st Hok) as Hc.
    eapply extends_trans; [exact Hc|]. apply IH, Hc.
Qed.


(** ** The data handed from a step to the next *)

Lemma merge_inputs_get briefInputs jobContext additionalInputs k :
  JS.obj_get (merge_inputs briefInputs jobContext additionalInputs) k =
  match JS.obj_get additionalInputs k with
  | Some v => Some v
  | None =>
      match JS.obj_get jobContext k with
      | Some v => Some v
      | None => JS.obj_get briefInputs k
      end
  end.
Proof.
  unfold merge_inputs. rewrite !obj_get_spread.
  destruct (JS.obj_get additionalInputs k); [reflexivity|].
  destruct (JS.obj_get jobContext k); [reflexivity|].
  destruct (JS.obj_get briefInputs k); reflexivity.
Qed.

Lemma step_inputs_previous conditional workflowId i step currentData :
  JS.obj_get (step_inputs_for conditional workflowId i step currentData)
    "previousStepData" = Some currentData.
Proof.
  unfold step_inputs_for, literal. rewrite obj_get_spread.
  destruct conditional; reflexivity.
Qed.

Lemma step_inputs_workflowId conditional workflowId i step currentData :
  JS.obj_get (step_inputs_for conditional workflowId i step currentData)
    "workflowId" = Some (VStr workflowId).
Proof.
  unfold step_inputs_for, literal. rewrite obj_get_spread.
  destruct conditional; reflexivity.
Qed.

Lemma invocations_are_frame log :
  Frame (invocations_are log) /\ WorkflowFrame (invocations_are log).
Proof.
  split; [split; intros f st H; exact H|intros f w st H; exact H].
Qed.

Lemma prepare_call st job jobId additionalInputs run input :
  prepare st job jobId additionalInputs = Ok (run, input) ->
  exists briefInputs,
    extractInputsFromBrief (brief job) = Ok briefInputs /\
    lookup_assignee st (assigneeType job) (assigneeId job) = Some run /\
    input =
      run_input job jobId
        (merge_inputs briefInputs (default [] (jobContexts st !! jobId))
           additionalInputs)
        (default [] (jobContexts st !! jobId)).
Proof.
  unfold prepare. intros H.
  destruct (extractInputsFromBrief (brief job)) as [bi|]; [|discriminate].
  cbv zeta in H. destruct (check_schema _ _ _); [|discriminate].
  destruct (lookup_assignee st _ _); [|discriminate].
  injection H as <- <-. eauto.
Qed.

(** [execute] calls [run] at most once, and what it calls [run] with is
    built from the job it finds, the job context it finds and its additional
    inputs. *)
Lemma execute_call jobId additionalInputs st :
  invocations (execute jobId additionalInputs st).2 = invocations st \/
  exists job briefInputs,
    getJob st jobId = Some job /\
    extractInputsFromBrief (brief job) = Ok briefInputs /\
    invocations (execute jobId additionalInputs st).2 =
      invocations st ++
      [(JS.to_string (assigneeId job),
        run_input job jobId
          (merge_inputs briefInputs (default [] (jobContexts st !! jobId))
             additionalInputs)
          (default [] (jobContexts st !! jobId)))].
Proof.
  destruct (job_ref st jobId) as [[ref job]|] eqn:Href.
  - rewrite (execute_eval _ _ _ _ _ Href).
    destruct (prepare st job jobId additionalInputs) as [[run input]|e]
      eqn:Hprep; [|left; reflexivity].
    right. destruct (prepare_call _ _ _ _ _ _ Hprep) as (bi & Hbi & _ & ->).
    exists job, bi. split; [unfold getJob; rewrite Href; reflexivity|].
    split; [exact Hbi|].
    match goal with |- invocations (execute_finish ?j ?l ?s).2 = ?log =>
      destruct (execute_finish j l s) as [r4 st4] eqn:E4;
      destruct (invocations_are_frame log) as [HF _];
      exact (execute_finish_preserves _ _ _ HF s r4 st4 eq_refl E4)
    end.
  - left. unfold execute, execute_start. msimpl. rewrite Href. reflexivity.
Qed.

(** The prompt reads seven properties of the inputs. *)
Lemma formatBriefAsPrompt_reads J brief inputs inputs' :
  (forall k,
     In k ["preferences"; "dates"; "budget"; "transportation"; "workflowId";
           "workflowStep"; "previousStepData"] ->
     JS.prop inputs k = JS.prop inputs' k) ->
  formatBriefAsPrompt J brief inputs = formatBriefAsPrompt J brief inputs'.
Proof.
  intros H. unfold formatBriefAsPrompt, workflow_context.
  rewrite (H "preferences"), (H "dates"), (H "budget"), (H "transportation"),
    (H "workflowId"), (H "workflowStep"), (H "previousStepData")
    by (cbn; tauto).
  reflexivity.
Qed.

Lemma workflow_context_previous J inputs :
  workflow_context J inputs =
  workflow_context J (JS.obj_set "previousStepData" VUndefined inputs) +:+
  previous_step_results J inputs.
Proof.
  unfold workflow_context, previous_step_results. rewrite !prop_obj_set.
  cbn [String.eqb Ascii.eqb Bool.eqb JS.truthy].
  destruct (JS.truthy (JS.prop inputs "workflowId")); [|reflexivity].
  cbn [andb].
  destruct (JS.truthy (JS.prop inputs "previousStepData")).
  - rewrite !string_app_assoc, str_nil. reflexivity.
  - rewrite !string_app_assoc, !string_app_nil_r. reflexivity.
Qed.

(** The prompt is the prompt for the inputs without [previousStepData],
    followed by the section of the previous step. *)
Lemma formatBriefAsPrompt_previous J brief inputs :
  formatBriefAsPrompt J brief inputs =
  formatBriefAsPrompt J brief
    (JS.obj_set "previousStepData" VUndefined inputs) +:+
  previous_step_results J inputs.
Proof.
  unfold formatBriefAsPrompt. rewrite (workflow_context_previous J inputs).
  rewrite !prop_obj_set. cbn [String.eqb Ascii.eqb Bool.eqb].
  rewrite !string_app_assoc. reflexivity.
Qed.

(** Without [previousStepData] in the inputs, the prompt does not depend on
    how values are written as JSON. *)
Lemma formatBriefAsPrompt_plain J J' brief inputs :
  JS.truthy (JS.prop inputs "previousStepData") = false ->
  formatBriefAsPrompt J brief inputs = formatBriefAsPrompt J' brief inputs.
Proof.
  intros H. unfold formatBriefAsPrompt, workflow_context. rewrite H.
  reflexivity.
Qed.

Lemma run_argument_call J job jobId mergedInputs jobContext :
  run_argument J (run_input job jobId mergedInputs jobContext) =
  Some (if is_agent (assigneeType job)
        then VStr (formatBriefAsPrompt J (brief job) mergedInputs)
        else VObj mergedInputs).
Proof. unfold run_input. destruct (is_agent _); reflexivity. Qed.

Lemma ensure_brief_eval jobId briefData st :
  ensure_brief jobId briefData st = (Ok tt, brief_ensured jobId briefData st).
Proof.
  unfold ensure_brief, brief_ensured. msimpl.
  destruct (briefs st !! jobId); reflexivity.
Qed.

Lemma brief_ensured_brief jobId briefData st :
  is_Some (briefs (brief_ensured jobId briefData st) !! jobId).
Proof.
  unfold brief_ensured. destruct (briefs st !! jobId) eqn:E.
  - rewrite E. eauto.
  - cbn. rewrite lookup_insert_eq. eauto.
Qed.

Lemma brief_ensured_invocations jobId briefData st :
  invocations (brief_ensured jobId briefData st) = invocations st.
Proof. unfold brief_ensured. destruct (briefs st !! jobId); reflexivity. Qed.

Lemma getJob_scope_update scopeId f st jobId :
  getJob (scope_update scopeId f st) jobId = getJob st jobId.
Proof.
  unfold scope_update. destruct (String.eqb scopeId "global"); reflexivity.
Qed.

Lemma workflow_remember_getJob workflowId key value st jobId :
  getJob (workflow_remember workflowId key value st).2 jobId = getJob st jobId.
Proof.
  unfold workflow_remember, scope_remember, bind, ret.
  destruct (scope_lookup st _); [|reflexivity].
  destruct (Memory.remember _ _ _). cbn [snd]. apply getJob_scope_update.
Qed.

Lemma close_single_failed conditional workflowId i jobId result st job :
  getJob st jobId = Some job -> status job = failed ->
  exists e, (close_single conditional workflowId i jobId result st).1 = Throw e.
Proof.
  intros Hjob Hst. unfold close_single. unfold bind at 1.
  pose proof (workflow_remember_ok workflowId
                ("step_" +:+ pretty i +:+ "_results") result st) as Hok.
  pose proof (workflow_remember_getJob workflowId
                ("step_" +:+ pretty i +:+ "_results") result st jobId) as Hg.
  destruct (workflow_remember _ _ _ st) as [r s]. cbn in Hok, Hg. subst r.
  msimpl. unfold fail_if_job_failed. msimpl.
  change (getJob (set_workflows _ s) jobId) with (getJob s jobId).
  rewrite Hg, Hjob, Hst. eauto.
Qed.

Lemma close_single_invocations conditional workflowId i jobId result log :
  preserves (invocations_are log)
    (close_single conditional workflowId i jobId result).
Proof.
  destruct (invocations_are_frame log) as [HF HW].
  unfold close_single, workflow_remember. preserve.
Qed.

Lemma run_single_unfold conditional workflowId i step currentData :
  run_single conditional workflowId i step currentData =
  (let jobId := JS.to_string (step_jobId step) in
   ensure_brief jobId
     (literal (step_brief step)
        ([("workflowId", VStr workflowId); ("workflowStep", VNum (Z.of_nat i))]
         ++ (if conditional then [("isConditional", VBool true)] else []))) ;;
   assignJob jobId (step_assigneeId step) (step_assigneeType step) ;;
   result <- execute jobId
               (step_inputs_for conditional workflowId i step currentData) ;;
   close_single conditional workflowId i jobId result).
Proof. reflexivity. Qed.

Lemma run_single_calls conditional workflowId i step currentData st r st' :
  run_single conditional workflowId i step currentData st = (r, st') ->
  (exists job briefInputs jobContext,
     assigneeId job = step_assigneeId step /\
     assigneeType job = default_agent (step_assigneeType step) /\
     extractInputsFromBrief (brief job) = Ok briefInputs /\
     invocations st' =
       invocations st ++
       [(JS.to_string (assigneeId job),
         run_input job (JS.to_string (step_jobId step))
           (merge_inputs briefInputs jobContext
              (step_inputs_for conditional workflowId i step currentData))
           jobContext)]) \/
  (invocations st' = invocations st /\ exists e, r = Throw e).
Proof.
  rewrite run_single_unfold. cbv zeta.
  set (jobId := JS.to_string (step_jobId step)).
  set (extra := step_inputs_for conditional workflowId i step currentData).
  unfold bind at 1. rewrite ensure_brief_eval.
  match goal with |- context [brief_ensured jobId ?d st] =>
    set (st0 := brief_ensured jobId d st);
    assert (H0 : invocations st0 = invocations st)
      by apply brief_ensured_invocations
  end.
  unfold bind at 1. rewrite assignJob_eval.
  destruct (briefs st0 !! jobId) as [b|].
  2:{ intros [= <- <-]. right. eauto. }
  destruct (lookup_assignee st0 _ _).
  2:{ intros [= <- <-]. right. eauto. }
  cbv zeta.
  set (job := new_job jobId b (step_assigneeId step) (step_assigneeType step)).
  set (st1 := job_assigned jobId job st0).
  assert (H1 : invocations st1 = invocations st).
  { subst st1. rewrite job_assigned_invocations. exact H0. }
  pose proof (job_assigned_ref jobId job st0) as Href. fold st1 in Href.
  set (ref := length (jobHeap st0)) in *.
  unfold bind at 1. rewrite (execute_eval _ _ _ _ _ Href).
  pose proof Href as Href'. apply job_ref_Some in Href' as [Hact Hheap].
  set (job1 := with_status in_progress job).
  set (st2 := job_started jobId ref job st1).
  assert (H2 : jobHeap st2 !! ref = Some job1)
    by (apply status_written_lookup, Hheap).
  destruct (prepare st1 job jobId extra) as [[run input]|e] eqn:Hprep.
  - (* the assignee is called *)
    set (st3 := invoked job input st2).
    destruct (execute_finish _ _ st3) as [r4 st4] eqn:E4.
    assert (H4 : invocations_are
                   (invocations st ++ [(JS.to_string (assigneeId job), input)])
                   st4).
    { destruct (invocations_are_frame
                  (invocations st ++ [(JS.to_string (assigneeId job), input)]))
        as [HF _].
      eapply (execute_finish_preserves _ _ _ HF); [|exact E4].
      unfold invocations_are. subst st3. cbn. rewrite <- H1. reflexivity. }
    destruct (prepare_call _ _ _ _ _ _ Hprep) as (bi & Hbi & _ & Hin).
    intros H. left.
    exists job, bi, (default [] (jobContexts st1 !! jobId)).
    split; [reflexivity|]. split; [reflexivity|]. split; [exact Hbi|].
    fold extra. rewrite <- Hin.
    destruct r4 as [result|e].
    + eapply (close_single_invocations conditional workflowId i jobId result);
        [exact H4|exact H].
    + injection H as <- <-. exact H4.
  - (* the job fails before the call *)
    set (st3 := job_failed jobId ref e job1 st2).
    assert (H3 : invocations st3 = invocations st) by exact H1.
    destruct (handler_result st1 jobId e (failed_with e job1)) as [v|e'].
    2:{ intros [= <- <-]. right. eauto. }
    intros H. right.
    destruct (close_single_failed conditional workflowId i jobId v st3
                (failed_with e job1)) as [e' He'].
    { eapply getJob_at; [exact Hact|]. apply job_failed_lookup, H2. }
    { reflexivity. }
    rewrite H in He'. cbn in He'. split; [|eauto].
    rewrite <- H3.
    eapply (close_single_invocations conditional workflowId i jobId v
              (invocations st3)); [reflexivity|exact H].
Qed.

Lemma run_step_sequential schedule workflowId i step currentData :
  sequential step = true ->
  run_step schedule workflowId i step currentData =
  run_single false workflowId i step currentData.
Proof.
  unfold sequential, run_step. cbv zeta.
  destruct (is_type "conditional" (type_of step)); [discriminate|].
  destruct (step_jobId step); try reflexivity.
  destruct (is_type "parallel" (type_of step)); [discriminate|reflexivity].
Qed.

Lemma run_steps_two schedule workflowId s1 s2 d0 st v st1 :
  run_step schedule workflowId 0 s1 d0 (step_begun workflowId 0 s1 st) =
    (Ok v, st1) ->
  run_steps schedule workflowId 0 [s1; s2] d0 st =
  match run_step schedule workflowId 1 s2 v (step_begun workflowId 1 s2 st1) with
  | (Ok _, s) => (Ok tt, s)
  | (Throw e, s) => (Throw e, s)
  end.
Proof.
  intros H1. cbn [run_steps]. msimpl. fold (step_begun workflowId 0 s1 st).
  rewrite H1. fold (step_begun workflowId 1 s2 st1).
  destruct (run_step schedule workflowId 1 s2 v _) as [[d|e] s]; reflexivity.
Qed.

Lemma workflow_catch_invocations workflowId e log :
  preserves (invocations_are log) (workflow_catch workflowId e).
Proof.
  destruct (invocations_are_frame log) as [HF HW].
  unfold workflow_catch. preserve.
Qed.

Lemma step_begun_kept workflowId i step st0 st :
  workflow_kept workflowId st0 st ->
  workflow_kept workflowId st0 (step_begun workflowId i step st).
Proof.
  intros [H1 H2]. split; [|exact H2]. cbn.
  apply lookup_alter_is_Some. exact H1.
Qed.

(** C7, as amended. In a workflow of two sequential steps whose first step
    resolves to [v], the steps that follow make at most one call of [run],
    exactly one when the workflow completes. That call is made for the job of
    step 2 and is built from the inputs taken from the brief of the job, the
    job context and the inputs of the step, merged in this order; the merged
    inputs hold [v] under [previousStepData] and the identifier of the
    workflow under [workflowId]. A team is handed the merged inputs as they
    are; an agent is handed the text of [formatBriefAsPrompt] for the brief
    and the merged inputs.
    Every call of [run] that [execute] makes is built in this way, from the
    job and the job context found at the call. The merged inputs answer, for
    every key, the additional inputs of the call first, then the job context,
    then the inputs taken from the brief.
    The prompt is the prompt for the inputs without [previousStepData],
    which does not depend on how values are written as JSON, followed by the
    section of the previous step, which is there when [workflowId] and
    [previousStepData] are both truthy. *)
Theorem previous_step_data JSON_stringify schedule workflowId initialData s1 s2
  st v st1 :
  scope_lookup st (workflow_scope workflowId) = None ->
  sequential s1 = true ->
  sequential s2 = true ->
  run_step schedule workflowId 0 s1 (VObj initialData)
    (step_begun workflowId 0 s1
       (workflow_ready [s1; s2] workflowId initialData st)) = (Ok v, st1) ->
  let final :=
    (executeWorkflow schedule [s1; s2] workflowId initialData st).2 in
  let jobId2 := JS.to_string (step_jobId s2) in
  let additionalInputs := step_inputs_for false workflowId 1 s2 v in
  (exists calls,
     invocations final = invocations st1 ++ calls /\
     length calls <= 1 /\
     (wf_status <$> workflows final !! workflowId = Some wf_completed ->
      length calls = 1) /\
     Forall
       (fun call =>
          exists job briefInputs jobContext,
            assigneeId job = step_assigneeId s2 /\
            assigneeType job = default_agent (step_assigneeType s2) /\
            extractInputsFromBrief (brief job) = Ok briefInputs /\
            let mergedInputs :=
              merge_inputs briefInputs jobContext additionalInputs in
            call =
              (JS.to_string (assigneeId job),
               if is_agent (assigneeType job)
               then AgentPrompt (brief job) mergedInputs jobId2 jobContext
               else TeamInput mergedInputs (brief job) jobId2 jobContext) /\
            JS.obj_get mergedInputs "previousStepData" = Some v /\
            JS.obj_get mergedInputs "workflowId" = Some (VStr workflowId) /\
            run_argument JSON_stringify call.2 =
              Some (if is_agent (assigneeType job)
                    then VStr (formatBriefAsPrompt JSON_stringify (brief job)
                                 mergedInputs)
                    else VObj mergedInputs))
       calls) /\
  (forall jobId extra st0,
     let st' := (execute jobId extra st0).2 in
     invocations st' = invocations st0 \/
     exists job briefInputs,
       getJob st0 jobId = Some job /\
       extractInputsFromBrief (brief job) = Ok briefInputs /\
       let jobContext := default [] (jobContexts st0 !! jobId) in
       let mergedInputs := merge_inputs briefInputs jobContext extra in
       let input :=
         if is_agent (assigneeType job)
         then AgentPrompt (brief job) mergedInputs jobId jobContext
         else TeamInput mergedInputs (brief job) jobId jobContext in
       invocations st' =
         invocations st0 ++ [(JS.to_string (assigneeId job), input)] /\
       run_argument JSON_stringify input =
         Some (if is_agent (assigneeType job)
               then VStr (formatBriefAsPrompt JSON_stringify (brief job)
                            mergedInputs)
               else VObj mergedInputs)) /\
  (forall briefInputs jobContext extra k,
     JS.obj_get (merge_inputs briefInputs jobContext extra) k =
     match JS.obj_get extra k with
     | Some x => Some x
     | None =>
         match JS.obj_get jobContext k with
         | Some x => Some x
         | None => JS.obj_get briefInputs k
         end
     end) /\
  (forall brief inputs,
     formatBriefAsPrompt JSON_stringify brief inputs =
       formatBriefAsPrompt JSON_stringify brief
         (JS.obj_set "previousStepData" VUndefined inputs) +:+
       previous_step_results JSON_stringify inputs /\
     forall J',
       formatBriefAsPrompt JSON_stringify brief
         (JS.obj_set "previousStepData" VUndefined inputs) =
       formatBriefAsPrompt J' brief
         (JS.obj_set "previousStepData" VUndefined inputs)).
Proof.
  intros Hnone Hs1 Hs2 Hstep1 final jobId2 additionalInputs.
  split; [|split; [|split; [apply merge_inputs_get|]]].
  2:{ intros jobId extra st0 st'. subst st'.
      destruct (execute_call jobId extra st0)
        as [H|(job & bi & Hjob & Hbi & H)]; [left; exact H|].
      right. exists job, bi. split; [exact Hjob|]. split; [exact Hbi|].
      cbv zeta. split; [exact H|]. apply run_argument_call. }
  2:{ intros brief inputs. split; [apply formatBriefAsPrompt_previous|].
      intros J'. apply formatBriefAsPrompt_plain. rewrite prop_obj_set.
      reflexivity. }
  subst final.
  destruct (executeWorkflow schedule [s1; s2] workflowId initialData st)
    as [rf sf] eqn:Ef. cbn [snd].
  rewrite executeWorkflow_eval in Ef by exact Hnone.
  set (ready := workflow_ready [s1; s2] workflowId initialData st) in *.
  unfold try_catch in Ef. unfold bind at 1 in Ef.
  rewrite (run_steps_two _ _ _ _ _ _ _ _ Hstep1) in Ef.
  rewrite (run_step_sequential _ _ _ _ _ Hs2) in Ef.
  set (st1' := step_begun workflowId 1 s2 st1) in *.
  destruct (workflow_kept_frame workflowId st) as (HF & HW & HI).
  assert (Hk1 : workflow_kept workflowId st st1).
  { eapply (run_step_preserves _ schedule workflowId 0 s1 _ HF HW HI);
      [|exact Hstep1].
    apply step_begun_kept, workflow_ready_kept. }
  destruct (run_single false workflowId 1 s2 v st1') as [r2 st2] eqn:E2.
  assert (Hk2 : workflow_kept workflowId st st2).
  { eapply (run_single_preserves _ false workflowId 1 s2 v HF HW);
      [apply any_invocation, HI| |exact E2].
    apply step_begun_kept, Hk1. }
  assert (Hcalls :
    (exists call,
       invocations st2 = invocations st1 ++ [call] /\
       exists job briefInputs jobContext,
         assigneeId job = step_assigneeId s2 /\
         assigneeType job = default_agent (step_assigneeType s2) /\
         extractInputsFromBrief (brief job) = Ok briefInputs /\
         let mergedInputs :=
           merge_inputs briefInputs jobContext additionalInputs in
         call =
           (JS.to_string (assigneeId job),
            if is_agent (assigneeType job)
            then AgentPrompt (brief job) mergedInputs jobId2 jobContext
            else TeamInput mergedInputs (brief job) jobId2 jobContext) /\
         JS.obj_get mergedInputs "previousStepData" = Some v /\
         JS.obj_get mergedInputs "workflowId" = Some (VStr workflowId) /\
         run_argument JSON_stringify call.2 =
           Some (if is_agent (assigneeType job)
                 then VStr (formatBriefAsPrompt JSON_stringify (brief job)
                              mergedInputs)
                 else VObj mergedInputs)) \/
    (invocations st2 = invocations st1 /\ exists e, r2 = Throw e)).
  { destruct (run_single_calls _ _ _ _ _ _ _ _ E2)
      as [(job & bi & ctx & Hid & Hty & Hbi & Hinv)|H]; [|right; exact H].
    left. eexists. split; [exact Hinv|].
    exists job, bi, ctx. split; [exact Hid|]. split; [exact Hty|].
    split; [exact Hbi|]. cbv zeta. split; [reflexivity|].
    split.
    { rewrite merge_inputs_get.
      unfold additionalInputs. rewrite step_inputs_previous. reflexivity. }
    split.
    { rewrite merge_inputs_get.
      unfold additionalInputs. rewrite step_inputs_workflowId. reflexivity. }
    apply run_argument_call. }
  destruct r2 as [d2|e].
  - (* step 2 has run to its end *)
    destruct Hcalls as [(call & Hc & Hr)|[_ [e He]]]; [|discriminate].
    revert Ef. msimpl. intros [= <- <-]. exists [call].
    split; [exact Hc|]. split; [cbn; lia|].
    split; [reflexivity|apply Forall_singleton, Hr].
  - (* step 2 has failed: the catch block *)
    destruct Hk2 as [[w Hw] _].
    destruct (workflow_catch_eval workflowId e st2 w Hw) as (st' & Hcatch & Hw').
    assert (Hinv : invocations st' = invocations st2).
    { eapply (workflow_catch_invocations workflowId e (invocations st2));
        [reflexivity|exact Hcatch]. }
    rewrite Hcatch in Ef. injection Ef as <- <-.
    destruct Hcalls as [(call & Hc & Hr)|[Hc _]].
    + exists [call]. rewrite Hinv. split; [exact Hc|]. split; [cbn; lia|].
      split; [reflexivity|apply Forall_singleton, Hr].
    + exists []. rewrite Hinv, app_nil_r. split; [exact Hc|].
      split; [cbn; lia|]. split; [|constructor].
      intros H. rewrite Hw' in H. discriminate H.
Qed.


(** ** A parallel step with a branch that rejects *)

Lemma same_parties_frame st0 :
  Frame (same_parties st0) /\ WorkflowFrame (same_parties st0) /\
  AnyInvocation (same_parties st0).
Proof.
  split; [split; intros f st H; exact H|].
  split; [intros f w st H; exact H|intros f st H; exact H].
Qed.

Lemma same_workflows_frame st0 :
  Frame (same_workflows st0) /\ AnyInvocation (same_workflows st0).
Proof. split; [split; intros f st H; exact H|intros f st H; exact H]. Qed.

Lemma execute_finish_doomed jobId launch st :
  doomed launch -> errorHandlers st !! jobId = None ->
  exists e, (execute_finish jobId launch st).1 = Throw e.
Proof.
  intros Hd Hh. destruct launch as [ref [v|e]|[v|e]]; try contradiction.
  - unfold execute_finish, execute_try_after_run, try_catch, throw.
    unfold execute_catch. unfold bind at 1.
    destruct (set_status ByExecute ref failed st) as [[[]|e0] s1] eqn:E1.
    2:{ unfold set_status in E1. destruct (jobHeap st !! ref); discriminate. }
    assert (H1 : errorHandlers s1 = errorHandlers st).
    { unfold set_status in E1.
      destruct (jobHeap st !! ref); injection E1 as <-; reflexivity. }
    msimpl. cbn [errorHandlers set_events set_jobHeap]. rewrite H1, Hh.
    eauto.
  - cbn. eauto.
Qed.

Lemma lookup_assignee_same st0 st assigneeType assigneeId :
  same_parties st0 st ->
  lookup_assignee st assigneeType assigneeId =
  lookup_assignee st0 assigneeType assigneeId.
Proof.
  intros (Ha & Ht & _). unfold lookup_assignee. rewrite Ha, Ht. reflexivity.
Qed.

Lemma handler_result_none st jobId e job :
  errorHandlers st !! jobId = None -> handler_result st jobId e job = Throw e.
Proof. intros H. unfold handler_result. rewrite H. reflexivity. Qed.

Section Doomed.

Context (st0 : Agency) (workflowId : string) (i : nat) (step : Step)
  (currentData : Value) (index : nat) (jid : string).

Hypothesis no_handler : errorHandlers st0 !! jid = None.
Hypothesis rejects :
  forall run,
    lookup_assignee st0 (default_agent (element (step_assigneeType step) index))
      (element (step_assigneeId step) index) = Some run ->
    rejecting run.

Lemma launch_branch_doomed st l st' :
  same_parties st0 st ->
  launch_branch workflowId i step currentData index jid st = (Ok l, st') ->
  exists launch, l = (index, jid, launch) /\ doomed launch.
Proof using no_handler rejects.
  intros Hsame. unfold launch_branch. unfold bind at 1.
  rewrite ensure_brief_eval.
  match goal with |- context [brief_ensured jid ?d st] =>
    set (sb := brief_ensured jid d st)
  end.
  assert (Hb : same_parties st0 sb).
  { subst sb. unfold brief_ensured. destruct (briefs st !! jid); exact Hsame. }
  unfold bind at 1. rewrite assignJob_eval.
  destruct (briefs sb !! jid) as [b|]; [|discriminate].
  rewrite (lookup_assignee_same st0 sb _ _ Hb).
  destruct (lookup_assignee st0 _ _) as [run|] eqn:Hrun; [|discriminate].
  cbv zeta.
  set (job := new_job jid b (element (step_assigneeId step) index)
                (element (step_assigneeType step) index)).
  set (sa := job_assigned jid job sb).
  assert (Hsa : same_parties st0 sa).
  { subst sa. unfold job_assigned. cbv zeta.
    destruct (jobContexts sb !! jid); exact Hb. }
  pose proof (job_assigned_ref jid job sb) as Href. fold sa in Href.
  unfold bind at 1. rewrite (execute_start_eval _ _ _ _ _ Href).
  destruct (prepare sa job jid _) as [[run' input]|e] eqn:Hprep.
  - intros [= <- <-]. eexists. split; [reflexivity|].
    assert (run' = run) as ->.
    { revert Hprep. unfold prepare.
      destruct (extractInputsFromBrief (brief job)); [|discriminate].
      cbv zeta. destruct (check_schema _ _ _); [|discriminate].
      rewrite (lookup_assignee_same st0 sa _ _ Hsa).
      change (lookup_assignee st0 (assigneeType job) (assigneeId job))
        with (lookup_assignee st0
                (default_agent (element (step_assigneeType step) index))
                (element (step_assigneeId step) index)).
      rewrite Hrun. intros [= <- _]. reflexivity. }
    destruct (rejects run eq_refl input) as [e ->]. exact I.
  - rewrite handler_result_none.
    + intros [= <- <-]. eexists. split; [reflexivity|exact I].
    + destruct Hsa as (_ & _ & ->). exact no_handler.
Qed.

Lemma launch_all_doomed branches : forall launched st all st',
  same_parties st0 st ->
  launch_all workflowId i step currentData branches launched st = (Ok all, st') ->
  (index, jid) ∈ branches \/
  (exists launch, (index, jid, launch) ∈ launched /\ doomed launch) ->
  exists launch, (index, jid, launch) ∈ all /\ doomed launch.
Proof using no_handler rejects.
  induction branches as [|[k j] rest IH]; intros launched st all st' Hsame;
    cbn [launch_all].
  - intros [= <- <-] [H|H]; [apply elem_of_nil in H as []|exact H].
  - unfold bind at 1, try_catch.
    destruct (launch_branch workflowId i step currentData k j st)
      as [[l|e] s1] eqn:E1.
    2:{ msimpl. discriminate. }
    assert (Hs1 : same_parties st0 s1).
    { destruct (same_parties_frame st0) as (HF & HW & HI).
      assert (Hp : preserves (same_parties st0)
                     (launch_branch workflowId i step currentData k j)).
      { unfold launch_branch. preserve. }
      eapply Hp; eauto. }
    intros Hall Hin. eapply (IH _ _ _ _ Hs1 Hall).
    destruct Hin as [Hin|(launch & Hin & Hd)].
    + apply elem_of_cons in Hin as [[= <- <-]|Hin]; [|left; exact Hin].
      right. destruct (launch_branch_doomed _ _ _ Hsame E1) as (launch & -> & Hd).
      exists launch. split; [|exact Hd]. apply elem_of_app. right.
      apply elem_of_cons. left. reflexivity.
    + right. exists launch. split; [|exact Hd]. apply elem_of_app. left.
      exact Hin.
Qed.

Lemma join_doomed schedule n : forall pending slots st,
  errorHandlers st !! jid = None ->
  length pending <= n ->
  (exists launch, (index, jid, launch) ∈ pending /\ doomed launch) ->
  exists e, (join schedule n pending slots st).1 = Throw e.
Proof.
  induction n as [|n IH]; intros pending slots st Hh Hlen (launch & Hin & Hd).
  - destruct pending; [apply elem_of_nil in Hin as []|cbn in Hlen; lia].
  - destruct pending as [|p0 pending']; [apply elem_of_nil in Hin as []|].
    cbn [join]. set (pending := p0 :: pending') in *.
    set (k := (schedule (map fst pending) mod length pending)%nat).
    assert (Hk : (k < length pending)%nat).
    { subst k. apply Nat.mod_upper_bound. subst pending. cbn. lia. }
    destruct (lookup_lt_is_Some_2 pending k Hk) as [[[idx j] l] Hpick].
    rewrite Hpick. unfold bind at 1, try_catch.
    destruct (execute_finish j l st) as [[v|e] s1] eqn:E1.
    2:{ msimpl. eauto. }
    apply list_elem_of_lookup_1 in Hin as [pos Hpos].
    assert (Hne : pos <> k).
    { intros ->. rewrite Hpick in Hpos. injection Hpos as -> -> ->.
      destruct (execute_finish_doomed jid launch st Hd Hh) as [e He].
      rewrite E1 in He. discriminate He. }
    apply IH.
    + destruct (same_parties_frame st) as (HF & _ & _).
      destruct (execute_finish_preserves _ j l HF st _ _
                  (conj eq_refl (conj eq_refl eq_refl)) E1) as (_ & _ & ->).
      exact Hh.
    + rewrite length_delete by eauto. lia.
    + exists launch. split; [|exact Hd].
      destruct (decide (pos < k)%nat) as [Hlt|Hge].
      * apply (list_elem_of_lookup_2 _ pos).
        rewrite list_lookup_delete_lt by exact Hlt. exact Hpos.
      * destruct pos as [|pos']; [lia|].
        apply (list_elem_of_lookup_2 _ pos').
        rewrite list_lookup_delete_ge by lia. exact Hpos.
Qed.

Lemma run_parallel_doomed schedule jobIds st r st' :
  same_parties st0 st ->
  (index, jid) ∈ imap (fun n j => (n, JS.to_string j)) jobIds ->
  run_parallel schedule workflowId i step jobIds currentData st = (r, st') ->
  (exists e, r = Throw e) /\ workflows st' = workflows st.
Proof using no_handler rejects.
  intros Hsame Hin Hrun. split.
  - revert Hrun. unfold run_parallel. unfold bind at 1.
    destruct (launch_all _ _ _ _ _ _ st) as [[launched|e] s1] eqn:E1.
    2:{ intros [= <- _]. eauto. }
    destruct (launch_all_doomed _ _ _ _ _ Hsame E1 (or_introl Hin))
      as (launch & Hl & Hd).
    assert (Hs1 : same_parties st0 s1).
    { destruct (same_parties_frame st0) as (HF & HW & HI).
      eapply (launch_all_preserves _ _ _ _ _ _ HF HI); eauto. }
    unfold bind at 1.
    destruct (join_doomed schedule (length launched) launched
                (replicate (length launched) None) s1) as [e He].
    + destruct Hs1 as (_ & _ & ->). exact no_handler.
    + lia.
    + eauto.
    + destruct (join _ _ _ _ s1) as [rj sj]. cbn in He. subst rj.
      intros [= <- _]. eauto.
  - destruct (same_workflows_frame st) as (HF & HI).
    revert Hrun. unfold run_parallel. unfold bind at 1.
    destruct (launch_all _ _ _ _ _ _ st) as [[launched|e] s1] eqn:E1.
    2:{ intros [= _ <-].
        eapply (launch_all_preserves _ _ _ _ _ _ HF HI); [|exact E1].
        reflexivity. }
    assert (H1 : same_workflows st s1).
    { eapply (launch_all_preserves _ _ _ _ _ _ HF HI); [|exact E1].
      reflexivity. }
    destruct (launch_all_doomed _ _ _ _ _ Hsame E1 (or_introl Hin))
      as (launch & Hl & Hd).
    assert (Hs1 : same_parties st0 s1).
    { destruct (same_parties_frame st0) as (HF' & HW' & HI').
      eapply (launch_all_preserves _ _ _ _ _ _ HF' HI'); eauto. }
    unfold bind at 1.
    destruct (join_doomed schedule (length launched) launched
                (replicate (length launched) None) s1) as [e He].
    + destruct Hs1 as (_ & _ & ->). exact no_handler.
    + lia.
    + eauto.
    + destruct (join _ _ _ _ s1) as [rj sj] eqn:Ej. cbn in He. subst rj.
      intros [= _ <-]. change (same_workflows st sj).
      eapply join_preserves; [exact HF|exact H1|exact Ej].
Qed.

End Doomed.

Lemma run_step_parallel schedule workflowId i step jobIds currentData :
  is_type "parallel" (type_of step) = true ->
  step_jobId step = VArr jobIds ->
  run_step schedule workflowId i step currentData =
  run_parallel schedule workflowId i step jobIds currentData.
Proof. intros Ht Hj. unfold run_step. rewrite Hj, Ht. reflexivity. Qed.

Lemma same_parties_ready workflowDefinition workflowId initialData st :
  same_parties st (workflow_ready workflowDefinition workflowId initialData st).
Proof.
  unfold workflow_ready.
  destruct (for_each _ _ _) as [r s] eqn:E. cbn [snd].
  destruct (same_parties_frame st) as (HF & HW & HI).
  eapply (preserves_for_each (same_parties st)); [| |exact E].
  - intros kv. unfold workflow_remember. preserve.
  - repeat split.
Qed.

Lemma no_results_ready workflowDefinition workflowId initialData st :
  no_results workflowId
    (workflow_ready workflowDefinition workflowId initialData st).
Proof.
  unfold workflow_ready.
  destruct (for_each _ _ _) as [r s] eqn:E. cbn [snd].
  assert (HF : Frame (no_results workflowId)) by (split; intros f s0 H; exact H).
  eapply (preserves_for_each (no_results workflowId)); [| |exact E].
  - intros kv. unfold workflow_remember. preserve.
  - exists (workflow_record workflowDefinition workflowId). split; [|reflexivity].
    cbn. apply lookup_insert_eq.
Qed.

Section ParallelStep.

Context (st0 : Agency) (schedule : Scheduler) (workflowId : string)
  (p : Step) (post : list Step) (j1 j2 j3 : Value).

Hypothesis parallel : is_type "parallel" (type_of p) = true.
Hypothesis branches : step_jobId p = VArr [j1; j2; j3].
Hypothesis no_handler : errorHandlers st0 !! JS.to_string j2 = None.
Hypothesis rejects :
  forall run,
    lookup_assignee st0 (default_agent (element (step_assigneeType p) 1))
      (element (step_assigneeId p) 1) = Some run ->
    rejecting run.

Lemma run_step_doomed i currentData st r st' :
  same_parties st0 st ->
  run_step schedule workflowId i p currentData st = (r, st') ->
  (exists e, r = Throw e) /\ workflows st' = workflows st.
Proof using parallel branches no_handler rejects.
  intros Hsame. rewrite (run_step_parallel _ _ _ _ _ _ parallel branches).
  apply (run_parallel_doomed st0 workflowId i p currentData 1 (JS.to_string j2)
           no_handler rejects); [exact Hsame|].
  cbn. apply elem_of_cons. right. apply elem_of_cons. left. reflexivity.
Qed.

Lemma run_steps_doomed pre : forall i currentData st,
  same_parties st0 st ->
  exists e st',
    run_steps schedule workflowId i (pre ++ p :: post) currentData st =
      (Throw e, st').
Proof using parallel branches no_handler rejects.
  destruct (same_parties_frame st0) as (HF & HW & HI).
  induction pre as [|q pre IH]; intros i currentData st Hsame;
    cbn [app run_steps]; unfold bind at 1, update_workflow at 1, modify at 1;
    unfold bind at 1, emit at 1, modify at 1; unfold bind at 1.
  - match goal with |- context [run_step _ _ _ _ _ ?s] =>
      destruct (run_step schedule workflowId i p currentData s) as [r s'] eqn:E
    end.
    apply run_step_doomed in E as [[e ->] _]; [eauto|exact Hsame].
  - match goal with |- context [run_step _ _ _ _ _ ?s] =>
      destruct (run_step schedule workflowId i q currentData s)
        as [[v|e] s'] eqn:E
    end; [|eauto].
    apply IH.
    eapply (run_step_preserves _ schedule workflowId i q currentData HF HW HI);
      [|exact E]. exact Hsame.
Qed.

Lemma run_steps_first_doomed i currentData st r st' :
  same_parties st0 st -> no_results workflowId st ->
  run_steps schedule workflowId i (p :: post) currentData st = (r, st') ->
  no_results workflowId st'.
Proof using parallel branches no_handler rejects.
  intros Hsame (w & Hw & Hres). cbn [run_steps].
  unfold bind at 1, update_workflow at 1, modify at 1.
  unfold bind at 1, emit at 1, modify at 1. unfold bind at 1.
  match goal with |- context [run_step _ _ _ _ _ ?s] =>
    destruct (run_step schedule workflowId i p currentData s) as [r1 s1] eqn:E
  end.
  apply run_step_doomed in E as [[e ->] Hsame1]; [|exact Hsame].
  intros [= _ <-]. exists (with_wf_currentStep i w). split; [|exact Hres].
  rewrite Hsame1. cbn [workflows set_events set_workflows].
  rewrite lookup_alter_eq, Hw. reflexivity.
Qed.

End ParallelStep.

(** C4. A workflow reaches a parallel step of three branches [j1; j2; j3]
    under a workflow id whose memory scope is free. The second branch has no
    error handler for its job, and whatever runnable it is assigned to
    rejects every call of [run]. Then [executeWorkflow] answers through its
    [catch] block and leaves the workflow record with the status [failed]
    and the error set. The calls of [execute] of the other branches that are
    still in flight write nothing to the workflow record when they settle.
    The results of a parallel step are stored only once every branch has
    resolved: when the parallel step is the first one the results map is
    empty, without an entry for the first or the third branch. *)
Theorem parallel_branch_rejects schedule later n workflowId pre p post
  initialData st j1 j2 j3 :
  scope_lookup st (workflow_scope workflowId) = None ->
  is_type "parallel" (type_of p) = true ->
  step_jobId p = VArr [j1; j2; j3] ->
  errorHandlers st !! JS.to_string j2 = None ->
  (forall run,
     lookup_assignee st (default_agent (element (step_assigneeType p) 1))
       (element (step_assigneeId p) 1) = Some run ->
     rejecting run) ->
  exists e w st',
    executeWorkflow schedule (pre ++ p :: post) workflowId initialData st =
      (Ok (workflow_handler_result st workflowId e w), st') /\
    workflows st' !! workflowId = Some w /\
    wf_status w = wf_failed /\
    wf_error w = Some e /\
    workflows (settle_in_flight later n st').2 = workflows st' /\
    (pre = [] -> wf_results w = []).
Proof.
  intros Hnone Hpar Hbr Hh Hrej.
  pose proof (same_parties_ready (pre ++ p :: post) workflowId initialData st)
    as Hsame.
  destruct (run_steps_doomed st schedule workflowId p post j1 j2 j3 Hpar Hbr Hh
              Hrej pre 0 (VObj initialData) _ Hsame) as (e & st_failed & Hrun).
  rewrite executeWorkflow_eval by exact Hnone.
  unfold try_catch, bind at 1. rewrite Hrun.
  destruct (workflow_kept_frame workflowId st) as (HF & HW & HI).
  destruct (run_steps_preserves _ schedule workflowId (pre ++ p :: post)
              HF HW HI 0 (VObj initialData) _ _ _
              (workflow_ready_kept (pre ++ p :: post) workflowId initialData st)
              Hrun) as [[w Hw] Hhandlers].
  destruct (workflow_catch_eval workflowId e st_failed w Hw) as (st' & -> & Hw').
  exists e, (workflow_failed_with e w), st'.
  split; [unfold workflow_handler_result; rewrite Hhandlers; reflexivity|].
  split; [exact Hw'|]. split; [reflexivity|]. split; [reflexivity|]. split.
  - destruct (settle_in_flight later n st') as [r s] eqn:E. cbn [snd].
    assert (HFw : Frame (fun s => workflows s = workflows st'))
      by (split; intros f s0 H; exact H).
    eapply (settle_in_flight_preserves _ later n HFw); [|exact E]. reflexivity.
  - intros ->.
    destruct (run_steps_first_doomed st schedule workflowId p post j1 j2 j3
                Hpar Hbr Hh Hrej 0 (VObj initialData) _ _ _ Hsame
                (no_results_ready _ workflowId initialData st) Hrun)
      as (w0 & Hw0 & Hres).
    rewrite Hw in Hw0. injection Hw0 as <-. exact Hres.
Qed.


(** ** The properties on concrete agencies *)

(** C1 for a job that is assigned and executed twice. *)
Lemma status_edges_of_the_code_witness :
  contexts_ok office /\
  exists new,
    transitions (run_calls executed_twice office) = transitions office ++ new /\
    Forall actual_edge new.
Proof.
  split; [intros jobId [ref Href]; vm_compute in Href; discriminate Href|].
  apply (status_edges_of_the_code executed_twice office).
  intros jobId [ref Href]. vm_compute in Href. discriminate Href.
Defined.

(** C1, counterexample: a job is assigned, executed to completion and
    executed again. The second call of [execute] writes [in_progress] over
    [completed], an edge that the claim excludes. *)
Lemma execute_of_completed_job :
  transitions (run_calls executed_twice office) =
    [mkTransition "j" ByAssignJob None assigned;
     mkTransition "j" ByExecute (Some assigned) in_progress;
     mkTransition "j" ByExecute (Some in_progress) completed;
     mkTransition "j" ByExecute (Some completed) in_progress;
     mkTransition "j" ByExecute (Some in_progress) completed] /\
  ~ Forall claimed_edge (transitions (run_calls executed_twice office)).
Proof.
  assert (H : transitions (run_calls executed_twice office) =
    [mkTransition "j" ByAssignJob None assigned;
     mkTransition "j" ByExecute (Some assigned) in_progress;
     mkTransition "j" ByExecute (Some in_progress) completed;
     mkTransition "j" ByExecute (Some completed) in_progress;
     mkTransition "j" ByExecute (Some in_progress) completed])
    by (vm_compute; reflexivity).
  split; [exact H|]. rewrite H. intros Hall.
  apply Forall_cons in Hall as [_ Hall]. apply Forall_cons in Hall as [_ Hall].
  apply Forall_cons in Hall as [_ Hall]. apply Forall_cons in Hall as [Hbad _].
  exact Hbad.
Qed.

(** C2. A call of [execute] whose [try] block throws [e] (the assignee
    rejects, or the brief, the inputs or the output fail validation) leaves
    the job with the status [failed] and the error [e]; a call of
    [executeWorkflow] whose steps throw [e] leaves the workflow record with
    the status [failed] and the error [e]. When an error handler is
    registered and returns a value, that value is what the call answers, and
    the status and the error stay as the [catch] block wrote them. *)
Theorem failure_is_recorded :
  (forall jobId additionalInputs st ref job e,
     job_ref st jobId = Some (ref, job) ->
     attempt st job jobId additionalInputs = Throw e ->
     exists st' job',
       execute jobId additionalInputs st =
         (handler_result st jobId e job', st') /\
       getJob st' jobId = Some job' /\
       status job' = failed /\
       error job' = Some e /\
       (forall handler v,
          errorHandlers st !! jobId = Some handler ->
          handler e job' = HandlerReturns v ->
          execute jobId additionalInputs st = (Ok v, st'))) /\
  (forall schedule workflowDefinition workflowId initialData st e st_failed,
     scope_lookup st (workflow_scope workflowId) = None ->
     run_steps schedule workflowId 0 workflowDefinition (VObj initialData)
       (workflow_ready workflowDefinition workflowId initialData st) =
       (Throw e, st_failed) ->
     exists st' w,
       executeWorkflow schedule workflowDefinition workflowId initialData st =
         (Ok (workflow_handler_result st workflowId e w), st') /\
       workflows st' !! workflowId = Some w /\
       wf_status w = wf_failed /\
       wf_error w = Some e /\
       (forall handler v,
          workflowErrorHandlers st !! workflowId = Some handler ->
          handler e w = HandlerReturns v ->
          executeWorkflow schedule workflowDefinition workflowId initialData st =
            (Ok v, st'))).
Proof.
  split.
  - intros jobId additionalInputs st ref job e Href Hthrow.
    destruct (execute_failure jobId additionalInputs st ref job e Href Hthrow)
      as (st' & job' & Hexec & Hjob & Hstatus & Herror).
    exists st', job'. repeat (split; [assumption|]).
    intros handler v Hh Hv. rewrite Hexec. unfold handler_result.
    rewrite Hh, Hv. reflexivity.
  - intros schedule workflowDefinition workflowId initialData st e st_failed
      Hfree Hrun.
    destruct (executeWorkflow_failure schedule workflowDefinition workflowId
                initialData st e st_failed Hfree Hrun)
      as (st' & w & Hexec & Hw & Hstatus & Herror).
    exists st', w. repeat (split; [assumption|]).
    intros handler v Hh Hv. rewrite Hexec. unfold workflow_handler_result.
    rewrite Hh, Hv. reflexivity.
Qed.

(** C2 for the job [h] and the workflow [wh], each with a handler that
    answers "fallback", run by the agent [ko]. *)
Lemma failure_is_recorded_witness :
  (exists st' job',
     execute "h" [] office_h = (Ok (VStr "fallback"), st') /\
     getJob st' "h" = Some job' /\
     status job' = failed /\
     error job' = Some "boom") /\
  (exists st' w,
     executeWorkflow (fun _ => 0%nat) one_step "wh" [] office =
       (Ok (VStr "fallback"), st') /\
     workflows st' !! "wh" = Some w /\
     wf_status w = wf_failed /\
     wf_error w = Some "Workflow step 0 (job h) failed: boom").
Proof.
  split.
  - destruct (proj1 failure_is_recorded "h" [] office_h 0%nat
                (new_job "h" [("jobId", VStr "h"); ("createdAt", VDate)]
                   (VStr "ko") VUndefined) "boom")
      as (st' & job' & _ & Hjob & Hstatus & Herror & Hhandler).
    + vm_compute. reflexivity.
    + vm_compute. reflexivity.
    + exists st', job'. split; [|auto].
      apply (Hhandler (substitute (VStr "fallback"))); reflexivity.
  - destruct (proj2 failure_is_recorded (fun _ => 0%nat) one_step "wh" [] office
                "Workflow step 0 (job h) failed: boom"
                (run_steps (fun _ => 0%nat) "wh" 0 one_step (VObj [])
                   (workflow_ready one_step "wh" [] office)).2)
      as (st' & w & _ & Hw & Hstatus & Herror & Hhandler).
    + vm_compute. reflexivity.
    + vm_compute. reflexivity.
    + exists st', w. split; [|auto].
      apply (Hhandler (substitute (VStr "fallback"))); reflexivity.
Defined.

(** C5. For a job that exists, [retryJob] throws "Job <id> is not in failed
    state" and changes nothing unless the status is [failed]. For a failed
    job whose retry count (0 when absent) has reached [maxRetries] it throws
    "Maximum retry attempts (<maxRetries>) reached for job <id>". Otherwise
    it answers what [execute] answers for the same job id and inputs, called
    when the job object has its retry count incremented, the status
    [assigned] and no error. *)
Theorem retryJob_only_when_failed jobId maxRetries additionalInputs st ref job :
  job_ref st jobId = Some (ref, job) ->
  let count := default 0%nat (retryCount job) in
  (status job <> failed ->
   retryJob jobId maxRetries additionalInputs st =
     (Throw ("Job " +:+ jobId +:+ " is not in failed state"), st)) /\
  (status job = failed -> (maxRetries <= Z.of_nat count)%Z ->
   exists st',
     retryJob jobId maxRetries additionalInputs st =
       (Throw ("Maximum retry attempts (" +:+ pretty maxRetries +:+
               ") reached for job " +:+ jobId), st') /\
     status <$> getJob st' jobId = Some failed) /\
  (status job = failed -> (Z.of_nat count < maxRetries)%Z ->
   let st' := retry_prepared jobId ref job maxRetries st in
   retryJob jobId maxRetries additionalInputs st =
     execute jobId additionalInputs st' /\
   job_ref st' jobId = Some (ref, retried count job) /\
   status (retried count job) = assigned /\
   error (retried count job) = None /\
   retryCount (retried count job) = Some (S count)).
Proof.
  intros Href count. split; [|split].
  - intros Hstatus. eapply retryJob_not_failed; eassumption.
  - intros Hstatus Hmax. eexists. split.
    + eapply retryJob_exhausted; [exact Href|exact Hstatus|].
      apply Z.leb_le. exact Hmax.
    + apply job_ref_Some in Href as [Hact Hheap].
      unfold getJob, job_ref. cbn [activeJobs jobHeap set_jobHeap].
      rewrite Hact. cbn. rewrite list_lookup_alter_eq, Hheap. cbn.
      rewrite Hstatus. reflexivity.
  - intros Hstatus Hmax st'. split; [|split].
    + eapply retryJob_again; [exact Href|exact Hstatus|].
      apply Z.leb_gt. exact Hmax.
    + apply retry_prepared_ref. exact Href.
    + auto.
Qed.

(** C5 for a completed job and for a failed job retried for the first
    time. *)
Lemma retryJob_only_when_failed_witness :
  retryJob "j" 3 [] office_done =
    (Throw "Job j is not in failed state", office_done) /\
  (exists job,
     getJob office_failed "h" = Some job /\ status job = failed /\
     retryJob "h" 3 [] office_failed =
       execute "h" [] (retry_prepared "h" 0 job 3 office_failed) /\
     retryCount <$> getJob (retry_prepared "h" 0 job 3 office_failed) "h" =
       Some (Some 1%nat)).
Proof.
  split.
  - refine (proj1 (retryJob_only_when_failed "j" 3 [] office_done 0%nat
                     (default (new_job "j" [] VNull VNull)
                        (getJob office_done "j")) _) _).
    + vm_compute. reflexivity.
    + vm_compute. discriminate.
  - exists (default (new_job "h" [] VNull VNull) (getJob office_failed "h")).
    split; [vm_compute; reflexivity|]. split; [vm_compute; reflexivity|].
    destruct (proj2 (proj2 (retryJob_only_when_failed "h" 3 [] office_failed
                              0%nat
                              (default (new_job "h" [] VNull VNull)
                                 (getJob office_failed "h")) eq_refl)))
      as (Hretry & _); [vm_compute; reflexivity|vm_compute; reflexivity|].
    split; [exact Hretry|]. vm_compute. reflexivity.
Defined.

(** C3 on an agency whose global scope shares its key [a] with the scope
    [t]. *)
Lemma read_only_grant_witness :
  exists st1,
    shareMemoryBetween "global" "t" ["a"] "read-only" agency_with_scope =
      (Ok tt, st1) /\
    scope_remember "t" "a" (VNum 5) st1 = (Ok (VBool false), st1) /\
    locked "t" "a" (VNum 1) st1 /\
    exists st2 target2,
      scope_remember "t" "b" (VNum 7) st1 = (Ok VUndefined, st2) /\
      scope_lookup st2 "t" = Some target2 /\
      Memory.recall target2 "b" = VNum 7 /\
      Memory.recall target2 "a" = VNum 1.
Proof.
  destruct (read_only_grant agency_with_scope "global" "t" "a"
              (globalMemory agency_with_scope) new_memory)
    as (st1 & x & Hshare & Hlocked & Hrejected & Hother).
  - vm_compute. reflexivity.
  - vm_compute. reflexivity.
  - vm_compute. discriminate.
  - assert (Hx : x = VNum 1).
    { destruct Hlocked as (m & Hm & _ & Hrecall).
      assert (Hst1 : st1 = (shareMemoryBetween "global" "t" ["a"] "read-only"
                              agency_with_scope).2)
        by (rewrite Hshare; reflexivity).
      rewrite Hst1 in Hm. vm_compute in Hm. injection Hm as <-.
      vm_compute in Hrecall. symmetry. exact Hrecall. }
    subst x. exists st1. split; [exact Hshare|].
    split; [exact (proj1 (Hrejected [] st1 (VNum 5) eq_refl))|].
    split; [exact Hlocked|].
    apply (Hother "b" (VNum 7)); [discriminate|]. apply not_elem_of_nil.
Defined.

(** C9 on an agency whose global scope shares all its keys with the scope
    [t], and remembers another value for [a] afterwards. *)
Lemma shareMemoryBetween_snapshot_witness :
  exists st' target',
    shareMemoryBetween "global" "t" [] "read-write" agency_with_scope =
      (Ok tt, st') /\
    scope_lookup st' "t" = Some target' /\
    getMemoryAccessInfo st' "t" "a" = Some (grant_of "global" "read-write") /\
    Memory.recall target' "a" = VNum 1 /\
    scope_lookup (scope_remember "global" "a" (VNum 2) st').2 "t" =
      Some target'.
Proof.
  destruct (shareMemoryBetween_snapshot agency_with_scope "global" "t" []
              "read-write" (globalMemory agency_with_scope) new_memory)
    as (st' & target' & Hshare & Htarget & Hshared & _ & Hlater).
  - discriminate.
  - vm_compute. reflexivity.
  - vm_compute. reflexivity.
  - exists st', target'. split; [exact Hshare|]. split; [exact Htarget|].
    destruct (Hshared "a") as [Hvalue Hgrant].
    + vm_compute. apply elem_of_cons. left. reflexivity.
    + vm_compute. discriminate.
    + apply not_elem_of_nil.
    + split; [exact Hgrant|]. split.
      * rewrite Hvalue. reflexivity.
      * apply (Hlater [("a", VNum 2)]). cbn [remember_in for_each].
        unfold bind, ret.
        destruct (scope_remember _ _ _ st') as [[v|e] s]; reflexivity.
Defined.

(** C9, counterexample: the global scope holds 2 for [a] and nothing for
    [missing]; the scope [t] holds 1 for [a], write-protected by an earlier
    read-only grant. Sharing [a] and [missing] succeeds, records no grant
    for [missing], and leaves 1 in [t] for [a]. And when the global scope,
    holding 1 for [a], shares [a] with itself, what it remembers for [a]
    afterwards is what the target holds: 2. *)
Lemma shares_every_key_counterexample :
  let shared :=
    shareMemoryBetween "global" "t" ["a"; "missing"] "read-write"
      agency_with_grant in
  let itself :=
    shareMemoryBetween "global" "global" ["a"] "read-write"
      agency_with_scope in
  shared.1 = Ok tt /\
  getMemoryAccessInfo shared.2 "t" "missing" = None /\
  Memory.recall (globalMemory agency_with_grant) "a" = VNum 2 /\
  (fun m => Memory.recall m "a") <$> scope_lookup shared.2 "t" =
    Some (VNum 1) /\
  ~ shares_every_key agency_with_grant "global" "t" ["a"; "missing"]
      "read-write" /\
  itself.1 = Ok tt /\
  (fun m => Memory.recall m "a") <$> scope_lookup itself.2 "global" =
    Some (VNum 1) /\
  (fun m => Memory.recall m "a") <$>
    scope_lookup (scope_remember "global" "a" (VNum 2) itself.2).2 "global" =
    Some (VNum 2) /\
  ~ keeps_a_snapshot agency_with_scope "global" "global" ["a"] "read-write"
      [("a", VNum 2)].
Proof.
  cbv zeta. split; [vm_compute; reflexivity|].
  split; [vm_compute; reflexivity|]. split; [vm_compute; reflexivity|].
  split; [vm_compute; reflexivity|]. split.
  { intros H.
    assert (Hs : scope_lookup agency_with_grant "global" =
                 Some (globalMemory agency_with_grant)) by reflexivity.
    pose (st' := (shareMemoryBetween "global" "t" ["a"; "missing"] "read-write"
                    agency_with_grant).2).
    assert (Ht : exists target', scope_lookup st' "t" = Some target' /\
                   Memory.recall target' "a" = VNum 1).
    { eexists. split; vm_compute; reflexivity. }
    destruct Ht as (target' & Ht & Ha).
    destruct (H st' _ target' "missing" eq_refl Hs Ht) as [Hg _].
    { apply elem_of_cons. right. apply elem_of_cons. left. reflexivity. }
    vm_compute in Hg. discriminate Hg. }
  split; [vm_compute; reflexivity|]. split; [vm_compute; reflexivity|].
  split; [vm_compute; reflexivity|]. intros H.
  assert (Ht : exists target',
            scope_lookup
              (shareMemoryBetween "global" "global" ["a"] "read-write"
                 agency_with_scope).2 "global" = Some target' /\
            Memory.recall target' "a" = VNum 1).
  { eexists. split; vm_compute; reflexivity. }
  destruct Ht as (target' & Ht & Ha).
  specialize (H _ _ target' "a" eq_refl Ht eq_refl).
  rewrite Ha in H. vm_compute in H. discriminate H.
Qed.

(** C6 for a planner that replies in prose and a parser that rejects every
    text. *)
Lemma unparsable_plan_reply_witness :
  planJobsFromGoal rejecting_parser (fun _ => 0%Z) "planner" "ship it" office =
    (Ok default_plan, planner_called "planner" (PlanningPrompt "ship it") office)
  /\
  exists e, (replanFailedJob rejecting_parser (fun _ => 0%Z) "p" "boom"
               office_p).1 = Throw e.
Proof.
  destruct (unparsable_plan_reply rejecting_parser (fun _ => 0%Z) office
              (VStr "I cannot plan this.") (VStr "I cannot plan this."))
    as [Hplan _].
  { vm_compute. reflexivity. }
  { split; [eexists; reflexivity|]. left. vm_compute. reflexivity. }
  destruct (unparsable_plan_reply rejecting_parser (fun _ => 0%Z) office_p
              (VStr "I cannot plan this.") (VStr "I cannot plan this."))
    as [_ Hreplan].
  { vm_compute. reflexivity. }
  { split; [eexists; reflexivity|]. left. vm_compute. reflexivity. }
  split.
  - apply (Hplan "planner" "ship it" (replying (VStr "I cannot plan this.")));
      [vm_compute; reflexivity|reflexivity].
  - destruct (Hreplan "p" "boom"
                (new_job "p" [("jobId", VStr "p"); ("createdAt", VDate);
                              ("goal", VStr "ship it")]
                   (VStr "planner") VUndefined)
                (replying (VStr "I cannot plan this."))
                [("jobId", VStr "p"); ("createdAt", VDate);
                 ("goal", VStr "ship it")])
      as (e & _ & Hthrow).
    + vm_compute. reflexivity.
    + vm_compute. reflexivity.
    + vm_compute. reflexivity.
    + vm_compute. reflexivity.
    + reflexivity.
    + eexists. rewrite Hthrow. reflexivity.
Defined.

(** C7 for two steps run by the agent [ok], which resolves to [{a: 1}]. *)
Lemma previous_step_data_witness :
  let final :=
    (executeWorkflow (fun _ => 0%nat) [step_for "s1" "ok"; step_for "s2" "ok"]
       "w" [] office).2 in
  wf_status <$> workflows final !! "w" = Some wf_completed /\
  exists first second brief mergedInputs jobContext,
    invocations final = [first; second] /\
    second = (JS.to_string (VStr "ok"),
              AgentPrompt brief mergedInputs "s2" jobContext) /\
    JS.obj_get mergedInputs "previousStepData" = Some (VObj [("a", VNum 1)]) /\
    JS.obj_get mergedInputs "workflowId" = Some (VStr "w") /\
    run_argument json_text second.2 =
      Some (VStr (formatBriefAsPrompt json_text brief mergedInputs)).
Proof.
  cbv zeta. split; [vm_compute; reflexivity|].
  pose (st1 := (run_step (fun _ => 0%nat) "w" 0 (step_for "s1" "ok") (VObj [])
                  (step_begun "w" 0 (step_for "s1" "ok")
                     (workflow_ready [step_for "s1" "ok"; step_for "s2" "ok"]
                        "w" [] office))).2).
  destruct (previous_step_data json_text (fun _ => 0%nat) "w" []
              (step_for "s1" "ok") (step_for "s2" "ok") office
              (VObj [("a", VNum 1)]) st1)
    as [(calls & Hcalls & _ & Hone & Hbuilt) _].
  - vm_compute. reflexivity.
  - reflexivity.
  - reflexivity.
  - vm_compute. reflexivity.
  - specialize (Hone ltac:(vm_compute; reflexivity)).
    destruct calls as [|second [|]]; try discriminate Hone.
    assert (H1 : exists first, invocations st1 = [first])
      by (eexists; vm_compute; reflexivity).
    destruct H1 as [first H1].
    apply Forall_cons in Hbuilt as [H _].
    destruct H as (job & bi & ctx & Hid & Hty & _ & H).
    cbv zeta in H. rewrite Hid, Hty in H.
    change (is_agent (default_agent (step_assigneeType (step_for "s2" "ok"))))
      with true in H.
    cbv iota in H. destruct H as (Hcall & Hprev & Hwf & Hrun).
    exists first, second. eexists _, _, _.
    rewrite Hcalls, H1. split; [reflexivity|].
    split; [exact Hcall|]. split; [exact Hprev|]. split; [exact Hwf|].
    rewrite Hcall. reflexivity.
Defined.

(** C7, counterexample: two steps run by the agent [ok], which resolves to
    [{a: 1}]. In the workflow [w] the agent is called for step 2 with a
    text, the prompt of the brief, which ends with the section of the
    previous step; it is not called with the merged inputs. In a workflow
    whose identifier is the empty string the text has no such section: it is
    the prompt of the brief alone. *)
Lemma passed_merged_inputs_counterexample :
  let steps := [step_for "s1" "ok"; step_for "s2" "ok"] in
  let final := (executeWorkflow (fun _ => 0%nat) steps "w" [] office).2 in
  let unnamed := (executeWorkflow (fun _ => 0%nat) steps "" [] office).2 in
  (wf_results <$> workflows final !! "w" =
     Some [("s1", VObj [("a", VNum 1)]); ("s2", VObj [("a", VNum 1)])] /\
   exists first second,
     invocations final = [first; second] /\
     run_argument json_text second.2 =
       Some (VStr (bare_prompt +:+
                   nl +:+ "## Workflow Context" +:+ nl +:+
                   "This is step 2 of workflow w." +:+ nl +:+
                   nl +:+ "## Previous Step Results" +:+ nl +:+
                   "<json>" +:+ nl)) /\
     ~ passed_previous_step_data json_text second (VObj [("a", VNum 1)])) /\
  (wf_results <$> workflows unnamed !! "" =
     Some [("s1", VObj [("a", VNum 1)]); ("s2", VObj [("a", VNum 1)])] /\
   exists first second,
     invocations unnamed = [first; second] /\
     run_argument json_text second.2 = Some (VStr bare_prompt) /\
     ~ passed_previous_step_data json_text second (VObj [("a", VNum 1)])).
Proof.
  cbv zeta. split.
  - split; [vm_compute; reflexivity|]. eexists _, _.
    split; [vm_compute; reflexivity|]. split; [vm_compute; reflexivity|].
    intros (mergedInputs & H & _). vm_compute in H. discriminate H.
  - split; [vm_compute; reflexivity|]. eexists _, _.
    split; [vm_compute; reflexivity|]. split; [vm_compute; reflexivity|].
    intros (mergedInputs & H & _). vm_compute in H. discriminate H.
Qed.

(** C4 for a workflow of one parallel step whose second branch goes to the
    agent [ko]. *)
Lemma parallel_branch_rejects_witness :
  exists e w st',
    executeWorkflow (fun _ => 0%nat) [three_branches] "w" [] office =
      (Ok (failure_record "w" e w), st') /\
    workflows st' !! "w" = Some w /\
    wf_status w = wf_failed /\
    wf_error w = Some e /\
    wf_results w = [] /\
    workflows (settle_in_flight (fun _ => 0%nat) 2 st').2 = workflows st'.
Proof.
  destruct (parallel_branch_rejects (fun _ => 0%nat) (fun _ => 0%nat) 2 "w" []
              three_branches [] [] office (VStr "b1") (VStr "b2") (VStr "b3"))
    as (e & w & st' & Hexec & Hw & Hstatus & Herror & Hsettle & Hresults).
  - vm_compute. reflexivity.
  - reflexivity.
  - reflexivity.
  - vm_compute. reflexivity.
  - intros run Hrun. vm_compute in Hrun. injection Hrun as <-.
    intros input. exists "boom". reflexivity.
  - exists e, w, st'. split; [exact Hexec|].
    split; [exact Hw|]. split; [exact Hstatus|]. split; [exact Herror|].
    split; [exact (Hresults eq_refl)|exact Hsettle].
Defined.

(** C8, counterexample: the job [h] has failed and holds no results. With
    [keepResults] set, [cleanupJob] answers [true] and removes the job, and
    the global scope is the one it was: nothing is archived under
    [job_h_results]. *)
Lemma archives_when_kept_counterexample :
  status <$> getJob office_failed "h" = Some failed /\
  results <$> getJob office_failed "h" = Some VNull /\
  (cleanupJob "h" true office_failed).1 = Ok true /\
  getJob (cleanupJob "h" true office_failed).2 "h" = None /\
  globalMemory (cleanupJob "h" true office_failed).2 =
    globalMemory office_failed /\
  Memory.recall (globalMemory (cleanupJob "h" true office_failed).2)
    (archive_key "h") = VUndefined /\
  ~ archives_when_kept office_failed "h".
Proof.
  split; [vm_compute; reflexivity|]. split; [vm_compute; reflexivity|].
  split; [vm_compute; reflexivity|]. split; [vm_compute; reflexivity|].
  split; [vm_compute; reflexivity|]. split; [vm_compute; reflexivity|].
  intros H.
  assert (Hjob : exists job,
            getJob office_failed "h" = Some job /\ status job = failed)
    by (eexists; split; vm_compute; reflexivity).
  destruct Hjob as (job & Hjob & Hst).
  apply (H job Hjob (or_intror Hst)). vm_compute. reflexivity.
Qed.

(** C8 for a completed job, which is cleaned up, and for an assigned job,
    which is not. *)
Lemma cleanupJob_spec_witness :
  (cleanupJob "j" true office_done).1 = Ok true /\
  getJob (cleanupJob "j" true office_done).2 "j" = None /\
  cleanupJob "h" true office_h = (Ok false, office_h).
Proof.
  destruct (cleanupJob_spec "j" true office_done) as (Hiff & _ & Hdone).
  destruct (cleanupJob_spec "h" true office_h) as (_ & Hnot & _).
  assert (Hjob : exists job,
             getJob office_done "j" = Some job /\
             (status job = completed \/ status job = failed))
    by (eexists; split; [vm_compute; reflexivity|left; reflexivity]).
  split; [apply Hiff; exact Hjob|].
  destruct Hjob as (job & Hj & Hs).
  split; [destruct (Hdone job Hj Hs) as (_ & H & _); exact H|].
  apply Hnot. vm_compute. discriminate.
Defined.

(** * Further properties *)

(** ** Cleaning up a workflow *)

Lemma cleanupWorkflow_refused workflowId keepResults st :
  (forall w, workflows st !! workflowId = Some w ->
             wf_status w = wf_in_progress) ->
  cleanupWorkflow workflowId keepResults st = (Ok false, st).
Proof.
  intros H. unfold cleanupWorkflow. msimpl.
  destruct (workflows st !! workflowId) as [w|]; [|reflexivity].
  rewrite (H w eq_refl). reflexivity.
Qed.

Lemma cleanupWorkflow_done workflowId keepResults st w :
  workflows st !! workflowId = Some w -> wf_terminal w ->
  exists st',
    cleanupWorkflow workflowId keepResults st = (Ok true, st') /\
    workflows st' = delete workflowId (workflows st) /\
    memoryScopes st' = delete (workflow_scope workflowId) (memoryScopes st) /\
    workflowErrorHandlers st' = delete workflowId (workflowErrorHandlers st) /\
    activeJobs st' = activeJobs st /\
    jobHeap st' = jobHeap st /\
    briefs st' = briefs st /\
    jobContexts st' = jobContexts st /\
    globalMemory st' =
      (if keepResults
       then (Memory.remember (globalMemory st) (workflow_archive_key workflowId)
               (workflow_archive_entry w)).2
       else globalMemory st).
Proof.
  intros Hw Hterm. unfold cleanupWorkflow. msimpl. rewrite Hw.
  assert (Hs : match wf_status w with
               | wf_in_progress => False | _ => True end)
    by (destruct Hterm as [-> | ->]; exact I).
  destruct (wf_status w); [contradiction| |];
    destruct keepResults; cbn [andb JS.truthy];
    unfold scope_remember, scope_lookup, scope_update; cbn [String.eqb Ascii.eqb Bool.eqb fst snd];
    try (destruct (Memory.remember _ _ _) as [r m'] eqn:E);
    eexists; (split; [reflexivity|]); cbn; repeat split;
    try (unfold workflow_archive_key, workflow_archive_entry; rewrite E; reflexivity).
Qed.

(** X1. [cleanupWorkflow] answers [true] exactly when the workflow has a
    record whose status is [completed] or [failed]; otherwise it answers
    [false] and changes nothing. When it answers [true] the record, the
    memory scope [workflow:<id>] and the error handler of the workflow are
    gone, while the jobs, their contexts and the briefs of the workflow stay;
    with [keepResults] the results are archived in the global scope under
    [workflow_<id>_results], also when they are empty. *)
Theorem cleanupWorkflow_spec workflowId keepResults st :
  ((cleanupWorkflow workflowId keepResults st).1 = Ok true <->
   exists w, workflows st !! workflowId = Some w /\ wf_terminal w) /\
  ((cleanupWorkflow workflowId keepResults st).1 <> Ok true ->
   cleanupWorkflow workflowId keepResults st = (Ok false, st)) /\
  (forall w,
     workflows st !! workflowId = Some w -> wf_terminal w ->
     let st' := (cleanupWorkflow workflowId keepResults st).2 in
     workflows st' !! workflowId = None /\
     scope_lookup st' (workflow_scope workflowId) = None /\
     workflowErrorHandlers st' !! workflowId = None /\
     activeJobs st' = activeJobs st /\
     jobHeap st' = jobHeap st /\
     jobContexts st' = jobContexts st /\
     briefs st' = briefs st /\
     (keepResults = true ->
      workflow_archive_key workflowId ∉ readOnlyWrappers (globalMemory st) ->
      Memory.recall (globalMemory st') (workflow_archive_key workflowId) =
        workflow_archive_entry w) /\
     (keepResults = false -> globalMemory st' = globalMemory st)).
Proof.
  assert (Hcases :
    (exists w, workflows st !! workflowId = Some w /\ wf_terminal w) \/
    (forall w, workflows st !! workflowId = Some w ->
               wf_status w = wf_in_progress)).
  { destruct (workflows st !! workflowId) as [w|]; [|right; discriminate].
    destruct (wf_status w) eqn:E.
    - right. intros w' [= <-]. exact E.
    - left. exists w. split; [reflexivity|left; exact E].
    - left. exists w. split; [reflexivity|right; exact E]. }
  split; [|split].
  - split.
    + intros Htrue. destruct Hcases as [H|H]; [exact H|].
      rewrite (cleanupWorkflow_refused _ _ _ H) in Htrue. discriminate Htrue.
    + intros (w & Hw & Hterm).
      destruct (cleanupWorkflow_done workflowId keepResults st w Hw Hterm)
        as (st' & -> & _). reflexivity.
  - intros Hnot. destruct Hcases as [(w & Hw & Hterm)|H].
    + destruct (cleanupWorkflow_done workflowId keepResults st w Hw Hterm)
        as (st' & E & _). rewrite E in Hnot. contradiction Hnot. reflexivity.
    + apply cleanupWorkflow_refused, H.
  - intros w Hw Hterm.
    destruct (cleanupWorkflow_done workflowId keepResults st w Hw Hterm)
      as (st' & -> & Hwf & Hscopes & Hhandlers & Hact & Hheap & Hbriefs & Hctx
          & Hglobal).
    cbn [snd]. rewrite Hwf, Hhandlers, Hact, Hheap, Hbriefs, Hctx.
    split; [apply lookup_delete_eq|].
    split; [unfold scope_lookup; rewrite workflow_scope_not_global, Hscopes;
            apply lookup_delete_eq|].
    split; [apply lookup_delete_eq|]. repeat (split; [reflexivity|]).
    split.
    + intros -> Hfree. rewrite Hglobal. apply remember_written. exact Hfree.
    + intros ->. exact Hglobal.
Qed.

(** ** When a workflow run rejects *)

Lemma executeWorkflow_taken schedule workflowDefinition workflowId initialData
  st m :
  scope_lookup st (workflow_scope workflowId) = Some m ->
  executeWorkflow schedule workflowDefinition workflowId initialData st =
    (Throw ("Memory scope workflow:" +:+ workflowId +:+ " already exists"),
     workflow_started workflowDefinition workflowId st).
Proof.
  intros Hm. unfold executeWorkflow, createMemoryScope. msimpl.
  change (scope_lookup _ (workflow_scope workflowId))
    with (scope_lookup st (workflow_scope workflowId)).
  rewrite Hm. reflexivity.
Qed.

Lemma executeWorkflow_success schedule workflowDefinition workflowId
  initialData st st_done :
  scope_lookup st (workflow_scope workflowId) = None ->
  run_steps schedule workflowId 0 workflowDefinition (VObj initialData)
    (workflow_ready workflowDefinition workflowId initialData st) =
    (Ok tt, st_done) ->
  exists st' w,
    executeWorkflow schedule workflowDefinition workflowId initialData st =
      (Ok (completion_record workflowId w), st') /\
    workflows st' !! workflowId = Some w /\
    wf_status w = wf_completed /\
    (exists w0, workflows st_done !! workflowId = Some w0 /\
                w = with_wf_status wf_completed w0).
Proof.
  intros Hnone Hrun. rewrite executeWorkflow_eval by exact Hnone.
  destruct (workflow_kept_frame workflowId st) as (HF & HW & HI).
  destruct (run_steps_preserves _ schedule workflowId workflowDefinition HF HW HI
              0 (VObj initialData) _ _ _
              (workflow_ready_kept workflowDefinition workflowId initialData st)
              Hrun) as [[w0 Hw0] _].
  unfold try_catch, bind at 1. rewrite Hrun. msimpl.
  unfold workflow_results. cbn [workflows set_workflows set_events].
  rewrite lookup_alter_eq, Hw0. cbn [fmap option_fmap option_map].
  eexists _, (with_wf_status wf_completed w0).
  split; [reflexivity|].
  split; [cbn [workflows set_workflows set_events];
          rewrite lookup_alter_eq, Hw0; reflexivity|].
  split; [reflexivity|]. exists w0. split; reflexivity.
Qed.

(** X2. [executeWorkflow] throws exactly when the memory scope
    [workflow:<id>] exists at the call. When the scope is free the call
    resolves whatever the steps do, and the record it leaves has the status
    [completed] (the answer is then the completion record with the results)
    or [failed] with its error set; the record is never left in progress. *)
Theorem executeWorkflow_rejects_iff schedule workflowDefinition workflowId
  initialData st :
  ((exists e, (executeWorkflow schedule workflowDefinition workflowId
                 initialData st).1 = Throw e) <->
   is_Some (scope_lookup st (workflow_scope workflowId))) /\
  (scope_lookup st (workflow_scope workflowId) = None ->
   exists v st' w,
     executeWorkflow schedule workflowDefinition workflowId initialData st =
       (Ok v, st') /\
     workflows st' !! workflowId = Some w /\
     ((wf_status w = wf_completed /\ v = completion_record workflowId w) \/
      (wf_status w = wf_failed /\ exists e, wf_error w = Some e))).
Proof.
  assert (Hfree : scope_lookup st (workflow_scope workflowId) = None ->
    exists v st' w,
      executeWorkflow schedule workflowDefinition workflowId initialData st =
        (Ok v, st') /\
      workflows st' !! workflowId = Some w /\
      ((wf_status w = wf_completed /\ v = completion_record workflowId w) \/
       (wf_status w = wf_failed /\ exists e, wf_error w = Some e))).
  { intros Hnone.
    destruct (run_steps schedule workflowId 0 workflowDefinition
                (VObj initialData)
                (workflow_ready workflowDefinition workflowId initialData st))
      as [[[]|e] s] eqn:Hrun.
    - destruct (executeWorkflow_success _ _ _ _ _ _ Hnone Hrun)
        as (st' & w & Hexec & Hw & Hstatus & _).
      exists (completion_record workflowId w), st', w. auto.
    - destruct (executeWorkflow_failure _ _ _ _ _ _ _ Hnone Hrun)
        as (st' & w & Hexec & Hw & Hstatus & Herror).
      exists (workflow_handler_result st workflowId e w), st', w.
      split; [exact Hexec|]. split; [exact Hw|]. right. eauto. }
  split; [|exact Hfree]. split.
  - intros [e He].
    destruct (scope_lookup st (workflow_scope workflowId)) as [m|] eqn:Hs;
      [eauto|].
    destruct (Hfree eq_refl) as (v & st' & w & Hexec & _).
    rewrite Hexec in He. discriminate He.
  - intros [m Hm]. rewrite (executeWorkflow_taken _ _ _ _ _ _ Hm). eauto.
Qed.

(** X3. An identifier that has a memory scope and a record in progress is
    wedged: [cleanupWorkflow] refuses it and changes nothing, and
    [executeWorkflow] throws and leaves it wedged. Reusing the identifier of
    a workflow that was not cleaned up wedges it, whatever the status of the
    earlier run was. *)
Theorem reused_id_stays_wedged workflowId st :
  (forall schedule workflowDefinition initialData,
     is_Some (scope_lookup st (workflow_scope workflowId)) ->
     wedged workflowId
       (executeWorkflow schedule workflowDefinition workflowId initialData
          st).2) /\
  (wedged workflowId st ->
   (forall keepResults,
      cleanupWorkflow workflowId keepResults st = (Ok false, st)) /\
   (forall schedule workflowDefinition initialData,
      exists e st',
        executeWorkflow schedule workflowDefinition workflowId initialData st =
          (Throw e, st') /\
        wedged workflowId st')).
Proof.
  assert (Hreuse : forall schedule workflowDefinition initialData m,
    scope_lookup st (workflow_scope workflowId) = Some m ->
    executeWorkflow schedule workflowDefinition workflowId initialData st =
      (Throw ("Memory scope workflow:" +:+ workflowId +:+ " already exists"),
       workflow_started workflowDefinition workflowId st) /\
    wedged workflowId (workflow_started workflowDefinition workflowId st)).
  { intros schedule workflowDefinition initialData m Hm.
    split; [apply (executeWorkflow_taken _ _ _ _ _ _ Hm)|]. split.
    - exists m. exact Hm.
    - exists (workflow_record workflowDefinition workflowId).
      split; [cbn; apply lookup_insert_eq|reflexivity]. }
  split.
  - intros schedule workflowDefinition initialData [m Hm].
    destruct (Hreuse schedule workflowDefinition initialData m Hm) as [-> H].
    exact H.
  - intros [[m Hm] (w & Hw & Hstatus)]. split.
    + intros keepResults. apply cleanupWorkflow_refused.
      intros w' Hw'. rewrite Hw in Hw'. injection Hw' as <-. exact Hstatus.
    + intros schedule workflowDefinition initialData.
      destruct (Hreuse schedule workflowDefinition initialData m Hm) as [E H].
      eauto.
Qed.

(** X1 for the workflow [w], which has completed. *)
Lemma cleanupWorkflow_spec_witness :
  let st' := (cleanupWorkflow "w" true agency_after_w).2 in
  (cleanupWorkflow "w" true agency_after_w).1 = Ok true /\
  workflows st' !! "w" = None /\
  scope_lookup st' "workflow:w" = None /\
  Memory.recall (globalMemory st') "workflow_w_results" =
    VObj [("results", VObj []); ("cleanedAt", VDate)] /\
  cleanupWorkflow "w" true st' = (Ok false, st').
Proof.
  cbv zeta.
  destruct (cleanupWorkflow_spec "w" true agency_after_w)
    as (Hiff & _ & Hdone).
  destruct (cleanupWorkflow_spec "w" true
              (cleanupWorkflow "w" true agency_after_w).2) as (_ & Hnot & _).
  assert (Hw : workflows agency_after_w !! "w" =
               Some (with_wf_status wf_completed (workflow_record [] "w")))
    by (vm_compute; reflexivity).
  assert (Hterm : wf_terminal (with_wf_status wf_completed
                                 (workflow_record [] "w")))
    by (left; reflexivity).
  destruct (Hdone _ Hw Hterm) as (H1 & H2 & _ & _ & _ & _ & _ & H3 & _).
  split; [apply Hiff; eauto|]. split; [exact H1|]. split; [exact H2|].
  split; [apply (H3 eq_refl); vm_compute; apply not_elem_of_nil|].
  apply Hnot. vm_compute. discriminate.
Defined.

(** X2 for the identifier [w]: free in the office, taken once the workflow
    has run. *)
Lemma executeWorkflow_rejects_iff_witness :
  (exists v, (executeWorkflow (fun _ => 0%nat) [] "w" [] office).1 = Ok v) /\
  (exists e, (executeWorkflow (fun _ => 0%nat) [] "w" [] agency_after_w).1 =
             Throw e).
Proof.
  split.
  - destruct (proj2 (executeWorkflow_rejects_iff (fun _ => 0%nat) [] "w" []
                       office)) as (v & st' & w & -> & _).
    + vm_compute. reflexivity.
    + exists v. reflexivity.
  - apply (proj1 (executeWorkflow_rejects_iff (fun _ => 0%nat) [] "w" []
                    agency_after_w)).
    eexists. vm_compute. reflexivity.
Defined.

(** X3 for the identifier [w], used again after the workflow has
    completed. *)
Lemma reused_id_stays_wedged_witness :
  let st := (executeWorkflow (fun _ => 0%nat) [] "w" [] agency_after_w).2 in
  wedged "w" st /\
  cleanupWorkflow "w" true st = (Ok false, st) /\
  exists e st', executeWorkflow (fun _ => 0%nat) [] "w" [] st = (Throw e, st').
Proof.
  cbv zeta.
  assert (Hw : wedged "w"
                 (executeWorkflow (fun _ => 0%nat) [] "w" [] agency_after_w).2).
  { apply (proj1 (reused_id_stays_wedged "w" agency_after_w)).
    eexists. vm_compute. reflexivity. }
  split; [exact Hw|].
  destruct (proj2 (reused_id_stays_wedged "w" _) Hw) as [Hclean Hrun].
  split; [apply Hclean|].
  destruct (Hrun (fun _ => 0%nat) [] []) as (e & st' & E & _). eauto.
Defined.

(** ** How a call of execute ends *)

Lemma getJob_job_failed jobId ref e job st :
  activeJobs st !! jobId = Some ref -> jobHeap st !! ref = Some job ->
  getJob (job_failed jobId ref e job st) jobId = Some (failed_with e job).
Proof.
  intros Hact Hheap. eapply getJob_at; [exact Hact|].
  apply job_failed_lookup, Hheap.
Qed.

Lemma execute_success jobId additionalInputs st ref job v :
  job_ref st jobId = Some (ref, job) ->
  attempt st job jobId additionalInputs = Ok v ->
  exists st' job' run input old,
    execute jobId additionalInputs st = (Ok v, st') /\
    prepare st job jobId additionalInputs = Ok (run, input) /\
    run input = Resolves v /\
    job_ref st' jobId = Some (ref, job') /\
    job' = with_results v (with_status completed job) /\
    jobContexts st !! jobId = Some old /\
    jobContexts st' !! jobId = Some (context_with_results old v) /\
    invocations st' =
      invocations st ++ [(JS.to_string (assigneeId job), input)].
Proof.
  intros Href Hatt. rewrite (execute_eval _ _ _ _ _ Href).
  apply job_ref_Some in Href as [Hact Hheap].
  set (job1 := with_status in_progress job).
  set (st1 := job_started jobId ref job st).
  assert (H1 : jobHeap st1 !! ref = Some job1)
    by (apply status_written_lookup, Hheap).
  unfold attempt in Hatt.
  destruct (prepare st job jobId additionalInputs) as [[run input]|e0];
    [|discriminate].
  set (st2 := invoked job input st1).
  assert (H2 : jobHeap st2 !! ref = Some job1) by exact H1.
  rewrite (execute_finish_eval _ _ _ _ _ H2).
  unfold conclude in Hatt.
  change (output_schema st2 jobId) with (output_schema st jobId).
  change (jobContexts st2) with (jobContexts st).
  destruct (run input) as [results|e1] eqn:Hrun; [|discriminate].
  destruct (check_schema "Output" results (output_schema st jobId))
    as [[]|e1]; [|discriminate].
  destruct (jobContexts st !! jobId) as [old|] eqn:Hold; [|discriminate].
  injection Hatt as ->.
  eexists _, _, run, input, old. split; [reflexivity|].
  split; [reflexivity|]. split; [exact Hrun|]. split.
  { apply job_ref_Some. split; [exact Hact|]. cbn.
    rewrite !list_lookup_alter_eq, Hheap. reflexivity. }
  split; [reflexivity|]. split; [reflexivity|].
  split; [cbn; apply lookup_insert_eq|reflexivity].
Qed.

(** X4. [execute] on an identifier with no active job throws and changes
    nothing. On an active job it never leaves the job [assigned] or
    [in_progress]: either the job ends [completed], the call answers the
    results of the assignee, and the same results are in the job object and
    under [results] in the job context; or the job ends [failed] with the
    error of the [try] block. *)
Theorem execute_settles_the_job jobId additionalInputs st :
  (job_ref st jobId = None ->
   execute jobId additionalInputs st =
     (Throw ("No active job found with id " +:+ jobId), st)) /\
  (forall ref job,
     job_ref st jobId = Some (ref, job) ->
     exists r st' job',
       execute jobId additionalInputs st = (r, st') /\
       getJob st' jobId = Some job' /\
       ((exists v context,
           attempt st job jobId additionalInputs = Ok v /\
           r = Ok v /\ status job' = completed /\ results job' = v /\
           error job' = error job /\
           jobContexts st' !! jobId = Some context /\
           JS.prop context "results" = v) \/
        (exists e,
           attempt st job jobId additionalInputs = Throw e /\
           r = handler_result st jobId e job' /\
           status job' = failed /\ error job' = Some e))).
Proof.
  split.
  - intros Hnone. unfold execute, execute_start. msimpl. rewrite Hnone.
    reflexivity.
  - intros ref job Href.
    destruct (attempt st job jobId additionalInputs) as [v|e] eqn:Hatt.
    + destruct (execute_success _ _ _ _ _ _ Href Hatt)
        as (st' & job' & run & input & old & Hexec & _ & _ & Hjob & -> & _
            & Hctx & _).
      exists (Ok v), st', (with_results v (with_status completed job)).
      split; [exact Hexec|].
      split; [unfold getJob; rewrite Hjob; reflexivity|]. left.
      exists v, (context_with_results old v).
      repeat (split; [reflexivity|]). split; [exact Hctx|].
      unfold context_with_results.
      rewrite prop_obj_set. cbn [String.eqb Ascii.eqb Bool.eqb].
      unfold JS.prop. rewrite obj_get_spread. cbn. reflexivity.
    + destruct (execute_failure _ _ _ _ _ _ Href Hatt)
        as (st' & job' & Hexec & Hjob & Hstatus & Herror).
      exists (handler_result st jobId e job'), st', job'.
      split; [exact Hexec|]. split; [exact Hjob|]. right. exists e. auto.
Qed.

(** ** Schemas *)

Lemma validate_fields_object o schema :
  exists errs, validate_fields (VObj o) schema = Ok errs.
Proof.
  induction schema as [|[key f] schema [errs IH]]; cbn [validate_fields];
    [eauto|].
  unfold validate_field. cbn [JS.member]. rewrite IH.
  destruct (JS.truthy (field_required f) && JS.is_nullish (JS.prop o key));
    eauto.
Qed.

Lemma validate_fields_required data schema key f errs :
  validate_fields data schema = Ok errs ->
  (key, f) ∈ schema ->
  JS.truthy (field_required f) = true ->
  (exists d, JS.member data key = Ok d /\ JS.is_nullish d = true) ->
  ("Required field '" +:+ key +:+ "' is missing") ∈ errs.
Proof.
  intros Hv Hin Hreq (d & Hd & Hnull). revert errs Hv.
  induction schema as [|[key0 f0] schema IH]; intros errs;
    [apply elem_of_nil in Hin as []|].
  cbn [validate_fields].
  destruct (validate_field data key0 f0) as [errs0|] eqn:E0; [|discriminate].
  destruct (validate_fields data schema) as [more|]; [|discriminate].
  intros [= <-]. apply elem_of_app.
  apply elem_of_cons in Hin as [[= <- <-]|Hin].
  - left. unfold validate_field in E0. rewrite Hd, Hreq, Hnull in E0.
    injection E0 as <-. apply elem_of_cons. left. reflexivity.
  - right. apply IH; [exact Hin|reflexivity].
Qed.

Lemma check_schema_errors what data schema errs :
  _validateAgainstSchema data (Some schema) = Ok errs -> errs <> [] ->
  check_schema what data (Some schema) =
    Throw (what +:+ " validation failed: " +:+ String.concat ", " errs).
Proof.
  intros Hv Hne. unfold check_schema. rewrite Hv.
  destruct errs; [contradiction|reflexivity].
Qed.

(** X5. When the merged inputs of a job violate its input schema, [execute]
    never calls the assignee: the job ends [failed] with the error "Input
    validation failed: " followed by the messages of the validation, and its
    results and its job context stay as they were. A required field that is
    absent or [null] is always such a violation. *)
Theorem invalid_input_blocks_the_run jobId additionalInputs st ref job
  briefInputs schema errs :
  job_ref st jobId = Some (ref, job) ->
  extractInputsFromBrief (brief job) = Ok briefInputs ->
  input_schema st jobId = Some schema ->
  let mergedInputs :=
    merge_inputs briefInputs (default [] (jobContexts st !! jobId))
      additionalInputs in
  _validateAgainstSchema (VObj mergedInputs) (Some schema) = Ok errs ->
  errs <> [] ->
  (exists st' job',
     let e := "Input validation failed: " +:+ String.concat ", " errs in
     execute jobId additionalInputs st = (handler_result st jobId e job', st')
     /\ getJob st' jobId = Some job' /\
     status job' = failed /\ error job' = Some e /\
     results job' = results job /\
     invocations st' = invocations st /\
     jobContexts st' = jobContexts st) /\
  (forall key f,
     (key, f) ∈ schema -> JS.truthy (field_required f) = true ->
     JS.is_nullish (JS.prop mergedInputs key) = true ->
     ("Required field '" +:+ key +:+ "' is missing") ∈ errs).
Proof.
  intros Href Hbrief Hschema mergedInputs Hv Hne. split.
  - rewrite (execute_eval _ _ _ _ _ Href).
    apply job_ref_Some in Href as [Hact Hheap].
    unfold prepare. rewrite Hbrief. cbv zeta. fold mergedInputs.
    rewrite Hschema, (check_schema_errors "Input" _ _ _ Hv Hne).
    eexists _, _. cbv zeta. split; [reflexivity|].
    split; [apply getJob_job_failed;
            [exact Hact|apply status_written_lookup, Hheap]|].
    repeat split.
  - intros key f Hin Hreq Hnull.
    eapply validate_fields_required; [exact Hv|exact Hin|exact Hreq|].
    eexists. split; [reflexivity|exact Hnull].
Qed.

(** X6. When the assignee resolves to a value that violates the output
    schema of the job, the job ends [failed] with the error "Output
    validation failed: " followed by the messages of the validation: the
    assignee has been called once, and the value is stored neither in the
    job object nor in the job context. *)
Theorem invalid_output_fails_the_job jobId additionalInputs st ref job run
  input v schema errs :
  job_ref st jobId = Some (ref, job) ->
  prepare st job jobId additionalInputs = Ok (run, input) ->
  run input = Resolves v ->
  output_schema st jobId = Some schema ->
  _validateAgainstSchema v (Some schema) = Ok errs ->
  errs <> [] ->
  exists st' job',
    let e := "Output validation failed: " +:+ String.concat ", " errs in
    execute jobId additionalInputs st = (handler_result st jobId e job', st')
    /\ getJob st' jobId = Some job' /\
    status job' = failed /\ error job' = Some e /\
    results job' = results job /\
    invocations st' =
      invocations st ++ [(JS.to_string (assigneeId job), input)] /\
    jobContexts st' = jobContexts st.
Proof.
  intros Href Hprep Hrun Hschema Hv Hne.
  rewrite (execute_eval _ _ _ _ _ Href), Hprep.
  apply job_ref_Some in Href as [Hact Hheap].
  set (st1 := job_started jobId ref job st).
  assert (H2 : jobHeap (invoked job input st1) !! ref =
               Some (with_status in_progress job))
    by (apply status_written_lookup, Hheap).
  rewrite (execute_finish_eval _ _ _ _ _ H2), Hrun.
  change (output_schema (invoked job input st1) jobId)
    with (output_schema st jobId).
  rewrite Hschema, (check_schema_errors "Output" _ _ _ Hv Hne).
  eexists _, _. cbv zeta. split; [reflexivity|].
  split; [apply getJob_job_failed; [exact Hact|exact H2]|].
  repeat split.
Qed.

(** ** A job that completes and a job that fails *)

(** X4 for a job that completes and a job that fails. *)
Lemma execute_settles_the_job_witness :
  (exists st',
     execute "j" [] (assignJob "j" (VStr "ok") VUndefined office).2 =
       (Ok (VObj [("a", VNum 1)]), st') /\
     status <$> getJob st' "j" = Some completed /\
     results <$> getJob st' "j" = Some (VObj [("a", VNum 1)])) /\
  (exists st',
     execute "h" [] office_h = (Ok (VStr "fallback"), st') /\
     status <$> getJob st' "h" = Some failed) /\
  execute "nobody" [] office =
    (Throw "No active job found with id nobody", office).
Proof.
  split; [|split].
  - destruct (proj2 (execute_settles_the_job "j" []
                       (assignJob "j" (VStr "ok") VUndefined office).2)
                0%nat (new_job "j" [("jobId", VStr "j"); ("createdAt", VDate)]
                         (VStr "ok") VUndefined))
      as (r & st' & job' & Hexec & Hjob & [H|H]).
    + vm_compute. reflexivity.
    + destruct H as (v & context & Hatt & -> & Hstatus & Hresults & _).
      vm_compute in Hatt. injection Hatt as <-.
      exists st'. split; [exact Hexec|]. rewrite Hjob. cbn.
      rewrite Hstatus, Hresults. split; reflexivity.
    + destruct H as (e & Hatt & _). vm_compute in Hatt. discriminate Hatt.
  - destruct (proj2 (execute_settles_the_job "h" [] office_h)
                0%nat (new_job "h" [("jobId", VStr "h"); ("createdAt", VDate)]
                         (VStr "ko") VUndefined))
      as (r & st' & job' & Hexec & Hjob & [H|H]).
    + vm_compute. reflexivity.
    + destruct H as (v & context & Hatt & _). vm_compute in Hatt.
      discriminate Hatt.
    + destruct H as (e & Hatt & -> & Hstatus & _).
      exists st'. split; [|rewrite Hjob; cbn; rewrite Hstatus; reflexivity].
      rewrite Hexec. apply (f_equal (fun r => (r, st'))).
      vm_compute. reflexivity.
  - apply (proj1 (execute_settles_the_job "nobody" [] office)).
    vm_compute. reflexivity.
Defined.

(** X5 for the job [j], whose inputs lack the required [topic]. *)
Lemma invalid_input_blocks_the_run_witness :
  exists st',
    execute "j" [] office_with_schema =
      (Throw "Input validation failed: Required field 'topic' is missing", st')
    /\ status <$> getJob st' "j" = Some failed /\
    invocations st' = [].
Proof.
  destruct (invalid_input_blocks_the_run "j" [] office_with_schema 0%nat
              (new_job "j" [("jobId", VStr "j"); ("createdAt", VDate)]
                 (VStr "ok") VUndefined)
              [] [("topic", required_string)]
              ["Required field 'topic' is missing"])
    as [(st' & job' & Hexec & Hjob & Hstatus & _ & _ & Hinv & _) _].
  - vm_compute. reflexivity.
  - vm_compute. reflexivity.
  - vm_compute. reflexivity.
  - vm_compute. reflexivity.
  - discriminate.
  - exists st'. split.
    + cbv zeta in Hexec. rewrite Hexec.
      apply (f_equal (fun r => (r, st'))). vm_compute. reflexivity.
    + rewrite Hjob, Hinv. split; [cbn; rewrite Hstatus; reflexivity|].
      vm_compute. reflexivity.
Defined.

(** X6 for the job [j], whose assignee resolves to [{a: 1}], without the
    required [text]. *)
Lemma invalid_output_fails_the_job_witness :
  exists st',
    execute "j" [("topic", VStr "tea")] office_with_schema =
      (Throw "Output validation failed: Required field 'text' is missing", st')
    /\ status <$> getJob st' "j" = Some failed /\
    results <$> getJob st' "j" = Some VNull /\
    length (invocations st') = 1%nat.
Proof.
  destruct (invalid_output_fails_the_job "j" [("topic", VStr "tea")]
              office_with_schema 0%nat
              (new_job "j" [("jobId", VStr "j"); ("createdAt", VDate)]
                 (VStr "ok") VUndefined)
              (replying (VObj [("a", VNum 1)]))
              (AgentPrompt [("jobId", VStr "j"); ("createdAt", VDate)]
                 [("createdAt", VDate); ("updatedAt", VDate);
                  ("topic", VStr "tea")] "j"
                 [("createdAt", VDate); ("updatedAt", VDate)])
              (VObj [("a", VNum 1)]) [("text", required_string)]
              ["Required field 'text' is missing"])
    as (st' & job' & Hexec & Hjob & Hstatus & _ & Hresults & Hinv & _).
  - vm_compute. reflexivity.
  - vm_compute. reflexivity.
  - reflexivity.
  - vm_compute. reflexivity.
  - vm_compute. reflexivity.
  - discriminate.
  - exists st'. split.
    + cbv zeta in Hexec. rewrite Hexec.
      apply (f_equal (fun r => (r, st'))). vm_compute. reflexivity.
    + rewrite Hjob, Hinv.
      split; [cbn; rewrite Hstatus; reflexivity|].
      split; [cbn; rewrite Hresults; vm_compute; reflexivity|].
      vm_compute. reflexivity.
Defined.

(** ** Job contexts *)

Lemma obj_get_spread_nil (o : Obj) k :
  JS.obj_get (JS.spread [] o) k = JS.obj_get o k.
Proof. rewrite obj_get_spread. destruct (JS.obj_get o k); reflexivity. Qed.

(** X7. [updateJobContext] merges: afterwards [getJobContext] answers, for
    every key other than [updatedAt], the value of the updates when they
    have the key and the earlier value otherwise, and a fresh date under
    [updatedAt], even when the updates carry their own; the contexts of the
    other jobs are untouched. Without a context for the job both methods
    throw, and [updateJobContext] changes nothing. *)
Theorem updateJobContext_merges jobId updates st :
  (forall old,
     jobContexts st !! jobId = Some old ->
     exists context st',
       updateJobContext jobId updates st = (Ok context, st') /\
       getJobContext jobId st' = (Ok context, st') /\
       JS.obj_get context "updatedAt" = Some VDate /\
       (forall k, k <> "updatedAt" ->
          JS.obj_get context k =
          match JS.obj_get updates k with
          | Some v => Some v
          | None => JS.obj_get old k
          end) /\
       (forall other, other <> jobId ->
          jobContexts st' !! other = jobContexts st !! other)) /\
  (jobContexts st !! jobId = None ->
   updateJobContext jobId updates st =
     (Throw ("Job context for " +:+ jobId +:+ " not found"), st) /\
   getJobContext jobId st =
     (Throw ("Job context for " +:+ jobId +:+ " not found"), st)).
Proof.
  split.
  - intros old Hold. unfold updateJobContext, getJobContext. msimpl.
    rewrite Hold. eexists _, _. split; [reflexivity|].
    cbn [jobContexts set_jobContexts set_events].
    rewrite lookup_insert_eq. split; [reflexivity|].
    split; [rewrite obj_get_obj_set; reflexivity|]. split.
    + intros k Hk. rewrite obj_get_obj_set.
      destruct (String.eqb_spec "updatedAt" k) as [<-|_]; [contradiction|].
      rewrite obj_get_spread, obj_get_spread_nil. reflexivity.
    + intros other Hother. apply lookup_insert_ne. congruence.
  - intros Hnone. unfold updateJobContext, getJobContext. msimpl.
    rewrite Hnone. split; reflexivity.
Qed.

(** X7 for the job [j] of the office, once assigned. *)
Lemma updateJobContext_merges_witness :
  let st := (assignJob "j" (VStr "ok") VUndefined office).2 in
  exists context st',
    updateJobContext "j" [("note", VStr "hi"); ("updatedAt", VNum 7)] st =
      (Ok context, st') /\
    JS.obj_get context "note" = Some (VStr "hi") /\
    JS.obj_get context "createdAt" = Some VDate /\
    JS.obj_get context "updatedAt" = Some VDate.
Proof.
  cbv zeta.
  destruct (proj1 (updateJobContext_merges "j"
                     [("note", VStr "hi"); ("updatedAt", VNum 7)]
                     (assignJob "j" (VStr "ok") VUndefined office).2)
              [("createdAt", VDate); ("updatedAt", VDate)])
    as (context & st' & Hupdate & _ & Hdate & Hkeys & _).
  - vm_compute. reflexivity.
  - exists context, st'. split; [exact Hupdate|].
    split; [rewrite Hkeys by discriminate; reflexivity|].
    split; [rewrite Hkeys by discriminate; reflexivity|exact Hdate].
Defined.

(** ** A job executed again *)

(** X8. The results of a completed job stay in its job context, and the job
    context is merged into the inputs of every execution: when the job is
    executed again, with additional inputs that have no [results] of their
    own, the call of [run], if one is made, is built from merged inputs that
    hold the results of the earlier execution under [results]. A team is
    handed these merged inputs. An agent is handed the prompt of
    [formatBriefAsPrompt], which does not read [results]: the prompt is the
    same whatever the merged inputs hold under [results]. *)
Theorem earlier_results_are_inputs JSON_stringify jobId inputs1 inputs2 st ref
  job v :
  job_ref st jobId = Some (ref, job) ->
  attempt st job jobId inputs1 = Ok v ->
  JS.obj_get inputs2 "results" = None ->
  exists st1 job1 jobContext,
    execute jobId inputs1 st = (Ok v, st1) /\
    job_ref st1 jobId = Some (ref, job1) /\
    jobContexts st1 !! jobId = Some jobContext /\
    JS.obj_get jobContext "results" = Some v /\
    let st2 := (execute jobId inputs2 st1).2 in
    (invocations st2 = invocations st1 \/
     exists briefInputs,
       extractInputsFromBrief (brief job1) = Ok briefInputs /\
       let mergedInputs := merge_inputs briefInputs jobContext inputs2 in
       let input :=
         if is_agent (assigneeType job1)
         then AgentPrompt (brief job1) mergedInputs jobId jobContext
         else TeamInput mergedInputs (brief job1) jobId jobContext in
       invocations st2 =
         invocations st1 ++ [(JS.to_string (assigneeId job1), input)] /\
       JS.obj_get mergedInputs "results" = Some v /\
       run_argument JSON_stringify input =
         Some (if is_agent (assigneeType job1)
               then VStr (formatBriefAsPrompt JSON_stringify (brief job1)
                            mergedInputs)
               else VObj mergedInputs) /\
       forall x,
         formatBriefAsPrompt JSON_stringify (brief job1)
           (JS.obj_set "results" x mergedInputs) =
         formatBriefAsPrompt JSON_stringify (brief job1) mergedInputs).
Proof.
  intros Href Hatt Hnone.
  destruct (execute_success _ _ _ _ _ _ Href Hatt)
    as (st1 & job1 & run & input & old & Hexec & _ & _ & Hjob & -> & _ & Hctx
        & _).
  assert (Hres : JS.obj_get (context_with_results old v) "results" = Some v).
  { unfold context_with_results. rewrite obj_get_obj_set.
    cbn [String.eqb Ascii.eqb Bool.eqb]. rewrite obj_get_spread. reflexivity. }
  eexists _, _, _. split; [exact Hexec|]. split; [exact Hjob|].
  split; [exact Hctx|]. split; [exact Hres|]. cbv zeta.
  destruct (execute_call jobId inputs2 st1)
    as [H|(job' & bi & Hj & Hbi & H)]; [left; exact H|].
  right. unfold getJob in Hj. rewrite Hjob in Hj. injection Hj as <-.
  rewrite Hctx in H. cbn [default from_option id] in H.
  exists bi. split; [exact Hbi|]. split; [exact H|].
  split; [rewrite merge_inputs_get, Hnone, Hres; reflexivity|].
  split; [apply run_argument_call|].
  intros x. apply formatBriefAsPrompt_reads. intros k Hk.
  rewrite prop_obj_set.
  destruct (String.eqb "results" k) eqn:E; [|reflexivity].
  apply String.eqb_eq in E. subst k. cbn in Hk.
  repeat (destruct Hk as [Hk|Hk]; [discriminate Hk|]). contradiction.
Qed.

(** X8 for the job [j], executed twice by the agent [ok]. *)
Lemma earlier_results_are_inputs_witness :
  let st := (assignJob "j" (VStr "ok") VUndefined office).2 in
  exists call brief mergedInputs jobContext,
    invocations (execute "j" [] (execute "j" [] st).2).2 !! 1%nat = Some call /\
    call.2 = AgentPrompt brief mergedInputs "j" jobContext /\
    JS.obj_get mergedInputs "results" = Some (VObj [("a", VNum 1)]) /\
    run_argument json_text call.2 =
      Some (VStr (formatBriefAsPrompt json_text brief
                    (JS.obj_set "results" VUndefined mergedInputs))).
Proof.
  cbv zeta.
  destruct (earlier_results_are_inputs json_text "j" [] []
              (assignJob "j" (VStr "ok") VUndefined office).2 0%nat
              (new_job "j" [("jobId", VStr "j"); ("createdAt", VDate)]
                 (VStr "ok") VUndefined) (VObj [("a", VNum 1)]))
    as (st1 & job1 & ctx & Hexec & Href & _ & _ & Hcall).
  - vm_compute. reflexivity.
  - vm_compute. reflexivity.
  - reflexivity.
  - rewrite Hexec. cbn [snd].
    assert (Hst1 : st1 = (execute "j" []
                            (assignJob "j" (VStr "ok") VUndefined office).2).2)
      by (rewrite Hexec; reflexivity).
    assert (Hjob1 : job1 =
              with_results (VObj [("a", VNum 1)])
                (with_status completed
                   (new_job "j" [("jobId", VStr "j"); ("createdAt", VDate)]
                      (VStr "ok") VUndefined))).
    { rewrite Hst1 in Href. vm_compute in Href. injection Href as <-.
      reflexivity. }
    cbv zeta in Hcall. destruct Hcall as [Hno|(bi & _ & Hinv & Hres & Hrun & Hx)].
    + exfalso. rewrite Hst1 in Hno.
      apply (f_equal length) in Hno. vm_compute in Hno. discriminate Hno.
    + rewrite Hjob1 in Hinv, Hrun, Hx.
      change (is_agent _) with true in Hinv, Hrun. cbv iota in Hinv, Hrun.
      eexists _, _, _, _. split.
      { rewrite Hinv. apply list_lookup_middle.
        rewrite Hst1. vm_compute. reflexivity. }
      split; [reflexivity|]. split; [exact Hres|].
      cbn [snd]. rewrite Hrun, Hx. reflexivity.
Defined.

(** ** Retrying a job again and again *)

Lemma execute_keeps_count jobId additionalInputs st ref job :
  job_ref st jobId = Some (ref, job) ->
  exists r st' job',
    execute jobId additionalInputs st = (r, st') /\
    job_ref st' jobId = Some (ref, job') /\
    retryCount job' = retryCount job /\
    length (invocations st') <= S (length (invocations st)).
Proof.
  intros Href. rewrite (execute_eval _ _ _ _ _ Href).
  apply job_ref_Some in Href as [Hact Hheap].
  set (job1 := with_status in_progress job).
  set (st1 := job_started jobId ref job st).
  assert (H1 : jobHeap st1 !! ref = Some job1)
    by (apply status_written_lookup, Hheap).
  destruct (prepare st job jobId additionalInputs) as [[run input]|e0].
  2:{ eexists _, _, _. split; [reflexivity|]. split.
      - apply job_ref_Some. split; [exact Hact|]. apply job_failed_lookup, H1.
      - split; [reflexivity|]. cbn. lia. }
  set (st2 := invoked job input st1).
  assert (H2 : jobHeap st2 !! ref = Some job1) by exact H1.
  assert (Hlen : length (invocations st2) = S (length (invocations st)))
    by (cbn; rewrite length_app; cbn; lia).
  rewrite (execute_finish_eval _ _ _ _ _ H2).
  assert (Hfail : forall e,
            job_ref (job_failed jobId ref e job1 st2) jobId =
              Some (ref, failed_with e job1) /\
            retryCount (failed_with e job1) = retryCount job /\
            length (invocations (job_failed jobId ref e job1 st2)) <=
              S (length (invocations st))).
  { intros e. split; [|split; [reflexivity|]].
    - apply job_ref_Some. split; [exact Hact|]. apply job_failed_lookup, H2.
    - change (invocations (job_failed jobId ref e job1 st2))
        with (invocations st2). lia. }
  destruct (run input) as [results|e1].
  2:{ eexists _, _, _. split; [reflexivity|]. apply Hfail. }
  destruct (check_schema "Output" results (output_schema st2 jobId))
    as [[]|e1].
  2:{ eexists _, _, _. split; [reflexivity|]. apply Hfail. }
  destruct (jobContexts st2 !! jobId) as [old|].
  - eexists _, _, _. split; [reflexivity|]. split.
    + apply job_ref_Some. split; [exact Hact|]. cbn.
      rewrite !list_lookup_alter_eq, Hheap. reflexivity.
    + split; [reflexivity|].
      change (invocations (job_completed jobId ref results job1 old st2))
        with (invocations st2). lia.
  - cbv zeta. eexists _, _, _. split; [reflexivity|]. split.
    + apply job_ref_Some. split; [exact Hact|]. apply job_failed_lookup.
      cbn. rewrite !list_lookup_alter_eq, Hheap. reflexivity.
    + split; [reflexivity|]. cbn. rewrite length_app. cbn. lia.
Qed.

Lemma retry_round jobId maxRetries additionalInputs st ref job :
  job_ref st jobId = Some (ref, job) ->
  exists st' job',
    (retryJob jobId maxRetries additionalInputs st).2 = st' /\
    job_ref st' jobId = Some (ref, job') /\
    length (invocations st') + retries_left maxRetries job' <=
      length (invocations st) + retries_left maxRetries job /\
    (status job = failed -> retries_left maxRetries job = 0%nat ->
     (retryJob jobId maxRetries additionalInputs st).1 =
       Throw ("Maximum retry attempts (" +:+ pretty maxRetries +:+
              ") reached for job " +:+ jobId)) /\
    (status job' = failed ->
     status job = failed /\
     retries_left maxRetries job' = pred (retries_left maxRetries job)).
Proof.
  intros Href. pose proof Href as Href0.
  apply job_ref_Some in Href as [Hact Hheap].
  destruct (decide (status job = failed)) as [Hfailed|Hother].
  2:{ rewrite (retryJob_not_failed _ _ _ _ _ _ Href0 Hother).
      exists st, job. split; [reflexivity|]. split; [exact Href0|].
      split; [lia|]. split; [contradiction|]. contradiction. }
  destruct (maxRetries <=? Z.of_nat (default 0%nat (retryCount job)))%Z
    eqn:Hmax.
  - rewrite (retryJob_exhausted _ _ _ _ _ _ Href0 Hfailed Hmax).
    apply Z.leb_le in Hmax.
    eexists _, _. split; [reflexivity|]. split.
    { apply job_ref_Some. split; [exact Hact|]. cbn.
      rewrite list_lookup_alter_eq, Hheap. reflexivity. }
    unfold retries_left. cbn [retryCount with_retryCount default from_option id].
    split; [cbn; lia|]. split; [reflexivity|].
    intros _. split; [exact Hfailed|]. lia.
  - rewrite (retryJob_again _ _ _ _ _ _ Href0 Hfailed Hmax).
    apply Z.leb_gt in Hmax.
    pose proof (retry_prepared_ref jobId maxRetries st ref job Href0) as Hprep.
    destruct (execute_keeps_count jobId additionalInputs _ _ _ Hprep)
      as (r & st' & job' & Hexec & Href' & Hcount & Hlen).
    rewrite Hexec. exists st', job'. split; [reflexivity|].
    split; [exact Href'|].
    change (invocations (retry_prepared jobId ref job maxRetries st))
      with (invocations st) in Hlen.
    unfold retries_left. rewrite Hcount.
    cbn [retryCount retried with_error with_status with_retryCount default
         from_option id].
    split; [lia|]. split; [intros _ H0; unfold retries_left in H0; lia|].
    intros _. split; [exact Hfailed|]. lia.
Qed.

(** X9. However many times [retryJob] is called for a job, with the same
    [maxRetries], the assignee is called at most as many times as
    [maxRetries] exceeds the retry count the job had at first; and when the
    job is still [failed] after at least that many calls, the next call
    throws "Maximum retry attempts (<maxRetries>) reached for job <id>". *)
Theorem retry_budget jobId maxRetries additionalInputs k : forall st ref job,
  job_ref st jobId = Some (ref, job) ->
  let st' := retry_times k jobId maxRetries additionalInputs st in
  exists job',
    job_ref st' jobId = Some (ref, job') /\
    length (invocations st') <=
      length (invocations st) + retries_left maxRetries job /\
    (status job' = failed -> retries_left maxRetries job <= k ->
     (retryJob jobId maxRetries additionalInputs st').1 =
       Throw ("Maximum retry attempts (" +:+ pretty maxRetries +:+
              ") reached for job " +:+ jobId)).
Proof.
  assert (Hgen : forall st ref job,
    job_ref st jobId = Some (ref, job) ->
    exists job',
      job_ref (retry_times k jobId maxRetries additionalInputs st) jobId =
        Some (ref, job') /\
      length (invocations
                (retry_times k jobId maxRetries additionalInputs st)) +
        retries_left maxRetries job' <=
        length (invocations st) + retries_left maxRetries job /\
      (status job' = failed ->
       status job = failed /\
       retries_left maxRetries job' = retries_left maxRetries job - k)).
  { induction k as [|k IH]; intros st ref job Href; cbn [retry_times].
    - exists job. split; [exact Href|]. split; [lia|].
      intros H. split; [exact H|lia].
    - destruct (retry_round jobId maxRetries additionalInputs st ref job Href)
        as (st1 & job1 & -> & Href1 & Hlen1 & _ & Hstep).
      destruct (IH st1 ref job1 Href1) as (job' & Href' & Hlen' & Hrest).
      exists job'. split; [exact Href'|]. split; [lia|].
      intros Hfailed. destruct (Hrest Hfailed) as [Hfailed1 Hleft].
      destruct (Hstep Hfailed1) as [Hfailed0 Hleft1].
      split; [exact Hfailed0|]. lia. }
  intros st ref job Href st'.
  destruct (Hgen st ref job Href) as (job' & Href' & Hlen & Hrest).
  exists job'. split; [exact Href'|]. split; [subst st'; lia|].
  intros Hfailed Hk. destruct (Hrest Hfailed) as [_ Hleft].
  destruct (retry_round jobId maxRetries additionalInputs st' ref job' Href')
    as (_ & _ & _ & _ & _ & Hthrow & _).
  apply Hthrow; [exact Hfailed|]. lia.
Qed.

(** X9 for the failed job [h] of the office, retried five times with a
    budget of two. *)
Lemma retry_budget_witness :
  let st' := retry_times 5 "h" 2 [] office_failed in
  length (invocations st') <= 3 /\
  (retryJob "h" 2 [] st').1 =
    Throw "Maximum retry attempts (2) reached for job h".
Proof.
  cbv zeta.
  destruct (retry_budget "h" 2 [] 5 office_failed 0%nat
              (default (new_job "h" [] VNull VNull)
                 (getJob office_failed "h")))
    as (job' & Href & Hlen & Hthrow).
  - vm_compute. reflexivity.
  - split.
    + etransitivity; [exact Hlen|]. vm_compute. lia.
    + rewrite Hthrow; [vm_compute; reflexivity| |vm_compute; lia].
      assert (Hjob : job_ref (retry_times 5 "h" 2 [] office_failed) "h" =
                     Some (0%nat, job')) by exact Href.
      vm_compute in Hjob. injection Hjob as <-. reflexivity.
Defined.

(** ** Jobs planned from a goal *)

Lemma member_ok data key :
  JS.is_nullish data = false -> exists v, JS.member data key = Ok v.
Proof.
  intros H. destruct data; try discriminate H; cbn [JS.member]; eauto;
    destruct (String.eqb key "length"); eauto;
    destruct (JS.is_index key); eauto.
Qed.

Lemma goal_brief_ok goal task :
  JS.is_nullish task = false ->
  exists brief, goal_brief goal task = Ok brief /\
                JS.obj_get brief "goal" = Some (VStr goal).
Proof.
  intros H. unfold goal_brief, task_fields.
  destruct (member_ok task "name" H) as [v1 ->].
  destruct (member_ok task "description" H) as [v2 ->].
  destruct (member_ok task "inputs" H) as [v3 ->].
  destruct (member_ok task "outputs" H) as [v4 ->].
  eexists. split; reflexivity.
Qed.

Lemma length_planned_ids Date_now agentId tasks : forall i,
  length (planned_ids Date_now agentId i tasks) = length tasks.
Proof.
  induction tasks as [|task rest IH]; intros i; cbn; [reflexivity|].
  rewrite IH. reflexivity.
Qed.

Lemma getJob_job_assigned_other jobId job st other j :
  other <> jobId -> getJob st other = Some j ->
  getJob (job_assigned jobId job st) other = Some j.
Proof.
  intros Hne Hj. unfold getJob in *.
  destruct (job_ref st other) as [[ref j0]|] eqn:E; [|discriminate].
  injection Hj as ->. apply job_ref_Some in E as [Hact Hheap].
  assert (E' : job_ref (job_assigned jobId job st) other = Some (ref, j)).
  { apply job_ref_Some. unfold job_assigned. cbv zeta.
    destruct (jobContexts st !! jobId); cbn;
      (split; [rewrite lookup_insert_ne by congruence; exact Hact|]);
      apply lookup_app_l_Some; exact Hheap. }
  rewrite E'. reflexivity.
Qed.

Lemma briefs_job_assigned jobId job st :
  briefs (job_assigned jobId job st) = briefs st.
Proof.
  unfold job_assigned. cbv zeta. destruct (jobContexts st !! jobId); reflexivity.
Qed.

Lemma agents_job_assigned jobId job st :
  agents (job_assigned jobId job st) = agents st.
Proof.
  unfold job_assigned. cbv zeta. destruct (jobContexts st !! jobId); reflexivity.
Qed.

Section Plan.

Context (Date_now : nat -> Z) (agentId goal : string).

Lemma create_jobs_planned tasks : forall i jobIds st run,
  agents st !! agentId = Some run ->
  Forall (fun task => JS.is_nullish task = false) tasks ->
  Forall (fun id => planned agentId goal st (JS.to_string id)) jobIds ->
  exists st',
    create_jobs Date_now "goal" (VStr agentId) (goal_brief goal) i tasks jobIds
      st =
      (Ok (jobIds ++ planned_ids Date_now agentId i tasks), st') /\
    invocations st' = invocations st /\
    Forall (fun id => planned agentId goal st' (JS.to_string id))
      (jobIds ++ planned_ids Date_now agentId i tasks).
Proof using Type.
  induction tasks as [|task rest IH]; intros i jobIds st run Hrun Htasks Hids;
    cbn [create_jobs planned_ids].
  - exists st. rewrite app_nil_r. auto.
  - apply Forall_cons in Htasks as [Htask Hrest].
    destruct (goal_brief_ok goal task Htask) as (data & -> & Hgoal).
    set (jobId := agentId +:+ "-goal-" +:+ pretty (Date_now i) +:+ "-" +:+
                  pretty i).
    cbn [JS.to_string].
    change (agentId +:+ "-" +:+ "goal" +:+ "-" +:+ pretty (Date_now i) +:+
            "-" +:+ pretty i) with jobId.
    unfold lift at 1, bind at 1. unfold createBrief. msimpl.
    set (brief := JS.spread [("jobId", VStr jobId); ("createdAt", VDate)] data).
    match goal with |- context [assignJob jobId _ _ ?s] => set (s1 := s) end.
    rewrite assignJob_eval.
    assert (Hb1 : briefs s1 !! jobId = Some brief)
      by (cbn; apply lookup_insert_eq).
    rewrite Hb1.
    assert (Hl : lookup_assignee s1 (default_agent (VStr "agent"))
                   (VStr agentId) = Some run) by exact Hrun.
    rewrite Hl. cbv zeta.
    set (job := new_job jobId brief (VStr agentId) (VStr "agent")).
    destruct (IH (S i) (jobIds ++ [VStr jobId]) (job_assigned jobId job s1) run)
      as (st' & Hloop & Hinv & Hall).
    + rewrite agents_job_assigned. exact Hrun.
    + exact Hrest.
    + apply Forall_app. split.
      * eapply Forall_impl; [exact Hids|]. intros id (j & b & Hj & Hplanned).
        destruct (decide (JS.to_string id = jobId)) as [->|Hne].
        -- exists job, brief. unfold getJob. rewrite job_assigned_ref.
           rewrite briefs_job_assigned, Hb1. repeat (split; [reflexivity|]).
           unfold JS.prop, brief. rewrite obj_get_spread, Hgoal. reflexivity.
        -- destruct Hplanned as (H1 & H2 & H3 & H4 & H5).
           exists j, b. split; [apply getJob_job_assigned_other; assumption|].
           repeat (split; [assumption|]).
           split; [|exact H5]. rewrite briefs_job_assigned. cbn.
           rewrite lookup_insert_ne by congruence. exact H4.
      * apply Forall_cons. split; [|constructor].
        exists job, brief. cbn [JS.to_string]. unfold getJob.
        rewrite job_assigned_ref, briefs_job_assigned, Hb1.
        repeat (split; [reflexivity|]).
        unfold JS.prop, brief. rewrite obj_get_spread, Hgoal. reflexivity.
    + exists st'. rewrite <- app_assoc in Hloop, Hall. cbn [app] in Hloop, Hall.
      split; [exact Hloop|]. split; [|exact Hall].
      rewrite Hinv, job_assigned_invocations. reflexivity.
Qed.

End Plan.

(** X10. When the reply of the planner parses to an array of tasks, none of
    them [null] or [undefined], [planJobsFromGoal] answers one job
    identifier per task, [<agentId>-goal-<now>-<index>], and each of these
    jobs is assigned to the planner itself, not started, with a brief that
    carries the goal; the only call of [run] is the planning call. When the
    reply parses to something that is not an array, it throws and creates
    nothing. *)
Theorem planJobsFromGoal_creates_jobs JSON_parse Date_now agentId goal st run
  reply responseText :
  agents st !! agentId = Some run ->
  run (PlanningPrompt goal) = Resolves reply ->
  response_text reply = Ok responseText ->
  (forall tasks,
     parse_reply JSON_parse responseText = Ok (VArr tasks) ->
     Forall (fun task => JS.is_nullish task = false) tasks ->
     let jobIds := planned_ids Date_now agentId 0 tasks in
     exists st',
       planJobsFromGoal JSON_parse Date_now agentId goal st =
         (Ok (VArr jobIds), st') /\
       length jobIds = length tasks /\
       Forall (fun id => planned agentId goal st' (JS.to_string id)) jobIds /\
       invocations st' = invocations st ++ [(agentId, PlanningPrompt goal)]) /\
  (forall v,
     parse_reply JSON_parse responseText = Ok v ->
     (forall tasks, v <> VArr tasks) ->
     planJobsFromGoal JSON_parse Date_now agentId goal st =
       (Throw ("Planning output was not a valid task array. " +:+
               "Expected an array but got: " +:+ JS.typeof v),
        planner_called agentId (PlanningPrompt goal) st)).
Proof.
  intros Hrun Hreply Htext. split.
  - intros tasks Hparse Htasks jobIds.
    destruct (create_jobs_planned Date_now agentId goal tasks 0 []
                (planner_called agentId (PlanningPrompt goal) st) run
                Hrun Htasks (List.Forall_nil _)) as (st' & Hloop & Hinv & Hall).
    cbn [app] in Hloop, Hall. exists st'.
    split.
    { unfold planJobsFromGoal. msimpl. rewrite Hrun, Hreply, Htext, Hparse.
      fold (planner_called agentId (PlanningPrompt goal) st).
      rewrite Hloop. reflexivity. }
    split; [apply length_planned_ids|].
    split; [exact Hall|]. rewrite Hinv. reflexivity.
  - intros v Hparse Hnot. unfold planJobsFromGoal. msimpl.
    rewrite Hrun, Hreply, Htext, Hparse.
    destruct v; try reflexivity. exfalso. eapply Hnot. reflexivity.
Qed.

(** ** The array found in a reply *)

Lemma string_length_app (a b : string) :
  String.length (a +:+ b) = String.length a + String.length b.
Proof.
  induction a as [|x a IH]; sapp; cbn [String.length]; [reflexivity|].
  rewrite IH. reflexivity.
Qed.

Lemma substring_prefix (a b : string) :
  String.substring 0 (String.length a) (a +:+ b) = a.
Proof.
  induction a as [|x a IH]; sapp; cbn [String.length String.substring].
  - destruct b; reflexivity.
  - rewrite IH. reflexivity.
Qed.

Lemma skip_spaces_split s :
  exists ws, all_space ws = true /\ s = ws +:+ Lenient.skip_spaces s.
Proof.
  induction s as [|c s (ws & Hws & IH)]; [exists EmptyString; auto|].
  cbn [Lenient.skip_spaces]. destruct (Lenient.is_space c) eqn:Hc.
  - exists (String c ws). cbn [all_space]. rewrite Hc, Hws.
    split; [reflexivity|]. sapp. rewrite <- IH. reflexivity.
  - exists EmptyString. auto.
Qed.

Lemma skip_spaces_app ws c s :
  all_space ws = true -> Lenient.is_space c = false ->
  Lenient.skip_spaces (ws +:+ String c s) = String c s.
Proof.
  intros Hws Hc. induction ws as [|x ws IH]; sapp; cbn [Lenient.skip_spaces].
  - rewrite Hc. reflexivity.
  - cbn [all_space] in Hws. apply andb_prop in Hws as [-> Hws]. apply IH, Hws.
Qed.

Lemma bracket_pair_sound first second s rest :
  Lenient.bracket_pair first second s = Some rest ->
  exists ws, all_space ws = true /\
             s = String first (ws +:+ String second rest).
Proof.
  unfold Lenient.bracket_pair. destruct s as [|c s]; [discriminate|].
  destruct (Ascii.eqb_spec c first) as [->|]; [|discriminate].
  destruct (skip_spaces_split s) as (ws & Hws & Hs).
  destruct (Lenient.skip_spaces s) as [|d r]; [discriminate|].
  destruct (Ascii.eqb_spec d second) as [->|]; [|discriminate].
  intros [= <-]. exists ws. split; [exact Hws|]. rewrite Hs at 1. reflexivity.
Qed.

Lemma bracket_pair_complete first second ws rest :
  all_space ws = true -> Lenient.is_space second = false ->
  Lenient.bracket_pair first second (String first (ws +:+ String second rest))
    = Some rest.
Proof.
  intros Hws Hc. unfold Lenient.bracket_pair.
  rewrite Ascii.eqb_refl, (skip_spaces_app _ _ _ Hws Hc), Ascii.eqb_refl.
  reflexivity.
Qed.

Lemma longest_close_sound s : forall n,
  Lenient.longest_close s = Some n ->
  exists body ws rest,
    all_space ws = true /\
    s = body +:+ String "}" (ws +:+ String "]" rest) /\
    n = String.length (body +:+ String "}" (ws +:+ String "]" EmptyString)).
Proof.
  induction s as [|c s IH]; intros n; [discriminate|].
  cbn [Lenient.longest_close].
  destruct (Lenient.longest_close s) as [n'|].
  - intros [= <-]. destruct (IH n' eq_refl) as (body & ws & rest & Hws & -> & ->).
    exists (String c body), ws, rest. auto.
  - destruct (Lenient.bracket_pair "}" "]" (String c s)) as [rest|] eqn:E;
      [|discriminate].
    intros [= <-]. apply bracket_pair_sound in E as (ws & Hws & E).
    exists EmptyString, ws, rest. split; [exact Hws|]. split; [exact E|].
    pose proof (f_equal String.length E) as Hl. cbn [String.length] in Hl.
    rewrite string_length_app in Hl. cbn [String.length] in Hl.
    sapp. cbn [String.length]. rewrite string_length_app.
    cbn [String.length]. lia.
Qed.

Lemma longest_close_complete body ws rest :
  all_space ws = true ->
  is_Some (Lenient.longest_close
             (body +:+ String "}" (ws +:+ String "]" rest))).
Proof.
  intros Hws. induction body as [|c body [n IH]]; sapp.
  - cbn [Lenient.longest_close].
    destruct (Lenient.longest_close (ws +:+ String "]" rest)); [eauto|].
    rewrite (bracket_pair_complete "}" "]" ws rest Hws eq_refl). eauto.
  - cbn [Lenient.longest_close]. rewrite IH. eauto.
Qed.

Lemma match_here_sound s m :
  Lenient.match_here s = Some m ->
  array_shaped m /\ exists post, s = m +:+ post.
Proof.
  unfold Lenient.match_here.
  destruct (Lenient.bracket_pair "[" "{" s) as [rest|] eqn:E; [|discriminate].
  destruct (Lenient.longest_close rest) as [n|] eqn:En; [|discriminate].
  intros [= <-]. apply bracket_pair_sound in E as (ws1 & Hws1 & ->).
  apply longest_close_sound in En as (body & ws2 & post & Hws2 & -> & ->).
  set (m := String "[" (ws1 +:+ String "{"
              (body +:+ String "}" (ws2 +:+ String "]" EmptyString)))).
  assert (Hs : String "[" (ws1 +:+ String "{"
                 (body +:+ String "}" (ws2 +:+ String "]" post))) =
               m +:+ post).
  { unfold m. sapp. rewrite !string_app_assoc. sapp.
    rewrite !string_app_assoc. sapp. rewrite !string_app_assoc. sapp.
    reflexivity. }
  assert (Hlen : String.length (m +:+ post) -
                 String.length (body +:+ String "}" (ws2 +:+ String "]" post))
                 + String.length
                     (body +:+ String "}" (ws2 +:+ String "]" EmptyString)) =
                 String.length m).
  { unfold m. sapp. cbn [String.length].
    rewrite !string_length_app. cbn [String.length].
    rewrite !string_length_app. cbn [String.length].
    rewrite !string_length_app. cbn [String.length]. lia. }
  rewrite Hs, Hlen, substring_prefix. split; [|eauto].
  exists ws1, body, ws2. auto.
Qed.

Lemma match_here_complete m post :
  array_shaped m -> is_Some (Lenient.match_here (m +:+ post)).
Proof.
  intros (ws1 & body & ws2 & Hws1 & Hws2 & ->). unfold Lenient.match_here.
  assert (Hs : ("[" +:+ ws1 +:+ "{" +:+ body +:+ "}" +:+ ws2 +:+ "]") +:+ post
               = String "[" (ws1 +:+ String "{"
                   (body +:+ String "}" (ws2 +:+ String "]" post)))).
  { sapp. rewrite !string_app_assoc. sapp. rewrite !string_app_assoc. sapp.
    rewrite !string_app_assoc. sapp. reflexivity. }
  rewrite Hs, (bracket_pair_complete "[" "{" ws1 _ Hws1 eq_refl).
  destruct (longest_close_complete body ws2 post Hws2) as [n ->]. eauto.
Qed.

(** X11. The second parsing tier finds a substring of the reply exactly when
    the reply holds, somewhere, an opening bracket, white space, an opening
    brace, any text (line breaks included), a closing brace, white space and
    a closing bracket; what it finds has that shape and stands in the
    reply. *)
Theorem array_match_spec text :
  (forall m,
     Lenient.array_match text = Some m ->
     array_shaped m /\ exists pre post, text = pre +:+ m +:+ post) /\
  ((exists pre m post, array_shaped m /\ text = pre +:+ m +:+ post) ->
   is_Some (Lenient.array_match text)).
Proof.
  split.
  - induction text as [|c text IH]; intros m.
    + cbn. discriminate.
    + cbn [Lenient.array_match].
      destruct (Lenient.match_here (String c text)) as [m'|] eqn:E.
      * intros [= <-]. apply match_here_sound in E as [Hshape [post ->]].
        split; [exact Hshape|]. exists EmptyString, post. reflexivity.
      * intros H. destruct (IH m H) as [Hshape (pre & post & ->)].
        split; [exact Hshape|]. exists (String c pre), post. reflexivity.
  - intros (pre & m & post & Hshape & ->).
    induction pre as [|c pre IH]; sapp.
    + destruct (match_here_complete m post Hshape) as [m' E].
      destruct (m +:+ post); cbn [Lenient.array_match]; rewrite E; eauto.
    + cbn [Lenient.array_match].
      destruct (Lenient.match_here _); [eauto|exact IH].
Qed.

(** X11 for a reply that wraps an array in prose. *)
Lemma array_match_spec_witness :
  Lenient.array_match "Here it is: [{}] Enjoy." = Some "[{}]" /\
  is_Some (Lenient.array_match "Plan: [ {a} ] and [ {b} ]").
Proof.
  split; [vm_compute; reflexivity|].
  apply (proj2 (array_match_spec "Plan: [ {a} ] and [ {b} ]")).
  exists "Plan: ", "[ {a} ]", " and [ {b} ]". split; [|reflexivity].
  exists " ", "a", " ". repeat split.
Defined.

(** X10 for the agent [lister], whose reply holds an array of one task. *)
Lemma planJobsFromGoal_creates_jobs_witness :
  exists st',
    planJobsFromGoal tiny_parser (fun _ => 7%Z) "lister" "ship it"
      office_with_lister = (Ok (VArr [VStr "lister-goal-7-0"]), st') /\
    planned "lister" "ship it" st' "lister-goal-7-0".
Proof.
  destruct (proj1 (planJobsFromGoal_creates_jobs tiny_parser (fun _ => 7%Z)
                     "lister" "ship it" office_with_lister
                     (replying (VStr "Here it is: [{}] Enjoy."))
                     (VStr "Here it is: [{}] Enjoy.")
                     (VStr "Here it is: [{}] Enjoy.")
                     ltac:(vm_compute; reflexivity) eq_refl
                     ltac:(vm_compute; reflexivity))
              [VObj []])
    as (st' & Hplan & _ & Hall & _).
  - vm_compute. reflexivity.
  - repeat constructor.
  - exists st'. split; [exact Hplan|].
    apply Forall_cons in Hall as [H _]. exact H.
Defined.

(** ** Planning and running in one call *)

Lemma memoryScopes_job_assigned jobId job st :
  memoryScopes (job_assigned jobId job st) = memoryScopes st /\
  globalMemory (job_assigned jobId job st) = globalMemory st.
Proof.
  unfold job_assigned. cbv zeta.
  destruct (jobContexts st !! jobId); split; reflexivity.
Qed.

Lemma create_jobs_scopes Date_now tag assignee make_brief tasks :
  forall i jobIds st r st',
    create_jobs Date_now tag assignee make_brief i tasks jobIds st = (r, st') ->
    memoryScopes st' = memoryScopes st /\ globalMemory st' = globalMemory st.
Proof.
  induction tasks as [|task rest IH]; intros i jobIds st r st';
    cbn [create_jobs].
  - intros [= _ <-]. auto.
  - unfold lift at 1, bind at 1.
    destruct (make_brief task) as [brief|e]; [|intros [= _ <-]; auto].
    unfold createBrief. msimpl. rewrite assignJob_eval.
    match goal with
    | |- context [briefs ?s !! ?k] => destruct (briefs s !! k) as [b|]
    end; [|intros [= _ <-]; auto].
    match goal with
    | |- context [lookup_assignee ?s ?t ?a] =>
        destruct (lookup_assignee s t a)
    end; [|intros [= _ <-]; auto].
    cbv zeta. intros H. apply IH in H as [H1 H2].
    rewrite H1, H2.
    match goal with
    | |- context [job_assigned ?j ?x ?s] =>
        destruct (memoryScopes_job_assigned j x s) as [-> ->]
    end. auto.
Qed.

Lemma planJobsFromGoal_scopes JSON_parse Date_now agentId goal st r st' :
  planJobsFromGoal JSON_parse Date_now agentId goal st = (r, st') ->
  memoryScopes st' = memoryScopes st /\ globalMemory st' = globalMemory st.
Proof.
  unfold planJobsFromGoal. msimpl.
  destruct (agents st !! agentId) as [run|]; [|intros [= _ <-]; auto].
  destruct (run (PlanningPrompt goal)) as [reply|e]; [|intros [= _ <-]; auto].
  destruct (response_text reply) as [text|e]; [|intros [= _ <-]; auto].
  destruct (parse_reply JSON_parse text) as [v|e]; [|intros [= _ <-]; auto].
  destruct v; try (intros [= _ <-]; auto).
  match goal with
  | |- context [create_jobs ?d ?t ?a ?m ?i ?l ?j ?s] =>
      destruct (create_jobs d t a m i l j s) as [[ids|e] s1] eqn:E
  end; intros [= _ <-]; apply create_jobs_scopes in E; exact E.
Qed.

(** X12. [planAndExecuteWorkflow] records the goal in the memory scope
    [agent:<agentId>], which no method of the agency creates: when the scope
    does not exist the call throws "Memory scope agent:<agentId> not found"
    after the planning, so that the planned jobs stay created and assigned
    and nothing is executed. When the scope exists and no immediate
    execution is asked for, the call answers the planned jobs and the scope
    holds the goal and the plan under [goal:<now>]. *)
Theorem planAndExecuteWorkflow_needs_a_scope JSON_parse Date_now now_goal
  now_workflow schedule agentId goal st jobIds st1 :
  planJobsFromGoal JSON_parse Date_now agentId goal st = (Ok jobIds, st1) ->
  (scope_lookup st ("agent:" +:+ agentId) = None ->
   forall executeImmediately,
     planAndExecuteWorkflow JSON_parse Date_now now_goal now_workflow schedule
       agentId goal executeImmediately st =
       (Throw ("Memory scope agent:" +:+ agentId +:+ " not found"), st1)) /\
  (forall m,
     scope_lookup st ("agent:" +:+ agentId) = Some m ->
     ("goal:" +:+ pretty now_goal) ∉ readOnlyWrappers m ->
     exists st' m',
       planAndExecuteWorkflow JSON_parse Date_now now_goal now_workflow
         schedule agentId goal false st =
         (Ok (VObj [("jobIds", jobIds)]), st') /\
       scope_lookup st' ("agent:" +:+ agentId) = Some m' /\
       Memory.recall m' ("goal:" +:+ pretty now_goal) =
         goal_record goal jobIds /\
       invocations st' = invocations st1 /\
       activeJobs st' = activeJobs st1).
Proof.
  intros Hplan.
  assert (Hscope : scope_lookup st1 ("agent:" +:+ agentId) =
                   scope_lookup st ("agent:" +:+ agentId)).
  { destruct (planJobsFromGoal_scopes _ _ _ _ _ _ _ Hplan) as [H1 H2].
    unfold scope_lookup. rewrite H1, H2. reflexivity. }
  split.
  - intros Hnone executeImmediately. unfold planAndExecuteWorkflow.
    unfold bind at 1. rewrite Hplan. unfold getMemoryScope. msimpl.
    rewrite Hscope, Hnone. reflexivity.
  - intros m Hm Hfree. unfold planAndExecuteWorkflow.
    unfold bind at 1. rewrite Hplan. unfold getMemoryScope. msimpl.
    rewrite Hscope, Hm.
    rewrite (scope_remember_eval st1 _ m _ _ (eq_trans Hscope Hm)).
    eexists _, _. split; [reflexivity|]. split.
    + rewrite scope_lookup_update. rewrite decide_True by reflexivity.
      rewrite Hscope, Hm. reflexivity.
    + split; [apply remember_written, Hfree|].
      unfold scope_update. split; reflexivity.
Qed.

(** X12 for the agent [lister], which has no memory scope. *)
Lemma planAndExecuteWorkflow_needs_a_scope_witness :
  let st1 :=
    (planJobsFromGoal tiny_parser (fun _ => 7%Z) "lister" "ship it"
       office_with_lister).2 in
  planAndExecuteWorkflow tiny_parser (fun _ => 7%Z) 8 9 (fun _ => 0%nat)
    "lister" "ship it" true office_with_lister =
    (Throw "Memory scope agent:lister not found", st1) /\
  status <$> getJob st1 "lister-goal-7-0" = Some assigned /\
  invocations st1 = [("lister", PlanningPrompt "ship it")].
Proof.
  cbv zeta. split; [|split; vm_compute; reflexivity].
  apply (proj1 (planAndExecuteWorkflow_needs_a_scope tiny_parser
                  (fun _ => 7%Z) 8 9 (fun _ => 0%nat) "lister" "ship it"
                  office_with_lister (VArr [VStr "lister-goal-7-0"]) _
                  ltac:(vm_compute; reflexivity))).
  vm_compute. reflexivity.
Defined.

(** ** A conditional step that is skipped *)

Lemma run_step_conditional schedule workflowId i step currentData :
  is_type "conditional" (type_of step) = true ->
  run_step schedule workflowId i step currentData =
  run_conditional workflowId i step currentData.
Proof.
  intros H. unfold run_step. rewrite H.
  assert (Hp : is_type "parallel" (type_of step) = false).
  { unfold is_type in *. destruct (type_of step); try discriminate H.
    apply String.eqb_eq in H as ->. reflexivity. }
  rewrite Hp. destruct (step_jobId step); reflexivity.
Qed.

(** X13. A conditional step whose condition answers a falsy value is
    skipped: the step answers the data it was given, so that the next step
    receives the data of the step before; no brief is created, no job is
    assigned, no assignee is called and the workflow results get no entry;
    [step_<i>_skipped] is remembered in the memory of the workflow and the
    event [workflow:stepSkipped] is emitted. A conditional step without a
    condition is executed. *)
Theorem skipped_step_passes_data schedule workflowId i step currentData st :
  is_type "conditional" (type_of step) = true ->
  let memory :=
    default new_memory (scope_lookup st (workflow_scope workflowId)) in
  (forall conditionFn,
     step_condition step = Some conditionFn ->
     JS.truthy (conditionFn currentData memory) = false ->
     exists st',
       run_step schedule workflowId i step currentData st =
         (Ok currentData, st') /\
       invocations st' = invocations st /\
       activeJobs st' = activeJobs st /\
       jobHeap st' = jobHeap st /\
       briefs st' = briefs st /\
       workflows st' = workflows st /\
       events st' =
         events st ++
         [("workflow:stepSkipped",
           [("workflowId", VStr workflowId); ("stepIndex", VNum (Z.of_nat i));
            ("reason", VStr "condition-not-met")])] /\
       (forall m,
          scope_lookup st (workflow_scope workflowId) = Some m ->
          ("step_" +:+ pretty i +:+ "_skipped") ∉ readOnlyWrappers m ->
          exists m',
            scope_lookup st' (workflow_scope workflowId) = Some m' /\
            Memory.recall m' ("step_" +:+ pretty i +:+ "_skipped") =
              VBool true)) /\
  (step_condition step = None ->
   run_step schedule workflowId i step currentData st =
   run_single true workflowId i step currentData st).
Proof.
  intros Htype memory. rewrite (run_step_conditional _ _ _ _ _ Htype). split.
  - intros conditionFn Hcond Hfalsy. unfold run_conditional.
    unfold bind at 1, get at 1. rewrite Hcond. fold memory. rewrite Hfalsy.
    unfold workflow_remember. msimpl. unfold scope_remember.
    destruct (scope_lookup st (workflow_scope workflowId)) as [m|] eqn:Hm.
    + destruct (Memory.remember m _ _) as [r m'] eqn:E.
      eexists. split; [reflexivity|].
      unfold scope_update. rewrite workflow_scope_not_global.
      repeat (split; [reflexivity|]).
      intros m0 [= <-] Hfree. exists m'. split.
      * unfold scope_lookup. rewrite workflow_scope_not_global.
        cbn [memoryScopes set_memoryScopes set_events].
        rewrite lookup_alter_eq.
        unfold scope_lookup in Hm. rewrite workflow_scope_not_global in Hm.
        rewrite Hm. reflexivity.
      * change m' with (r, m').2. rewrite <- E.
        apply remember_written, Hfree.
    + eexists. split; [reflexivity|]. repeat (split; [reflexivity|]).
      intros m0 H. discriminate H.
  - intros Hnone. unfold run_conditional. unfold bind at 1, get at 1.
    rewrite Hnone. reflexivity.
Qed.

(** X13 for a step whose condition never holds, in the workflow [w]. *)
Lemma skipped_step_passes_data_witness :
  exists st' m',
    run_step (fun _ => 0%nat) "w" 1 never_step (VNum 5) agency_after_w =
      (Ok (VNum 5), st') /\
    invocations st' = [] /\
    scope_lookup st' "workflow:w" = Some m' /\
    Memory.recall m' "step_1_skipped" = VBool true.
Proof.
  destruct (proj1 (skipped_step_passes_data (fun _ => 0%nat) "w" 1 never_step
                     (VNum 5) agency_after_w eq_refl)
              (fun _ _ => VBool false) eq_refl eq_refl)
    as (st' & Hrun & Hinv & _ & _ & _ & _ & _ & Hscope).
  destruct (Hscope new_memory) as (m' & Hm' & Hrecall).
  - vm_compute. reflexivity.
  - apply not_elem_of_nil.
  - exists st', m'. split; [exact Hrun|]. split; [|split].
    + rewrite Hinv. vm_compute. reflexivity.
    + exact Hm'.
    + exact Hrecall.
Defined.

(** ** Write protection is permanent *)

Lemma share_key_locked scopeId k x sourceId targetId accessMode key :
  preserves (locked scopeId k x) (share_key sourceId targetId accessMode key).
Proof.
  unfold share_key, getMemoryScope.
  apply preserves_bind.
  { apply preserves_bind; [apply preserves_get|]. intros st0.
    destruct (scope_lookup st0 sourceId);
      [apply preserves_ret|apply preserves_throw]. }
  intros source. cbv zeta.
  destruct (JS.is_undefined (Memory.recall source key)); [apply preserves_ret|].
  apply preserves_bind; [apply scope_remember_locked|]. intros _.
  apply preserves_bind.
  { apply preserves_modify. intros st H. exact H. }
  intros _. destruct (String.eqb accessMode "read-only"); [|apply preserves_ret].
  apply preserves_modify. intros st (m & Hm & Hw & Hx).
  unfold locked. rewrite scope_lookup_update.
  destruct (decide (targetId = scopeId)) as [->|Hne]; [|eauto].
  rewrite Hm. cbn. eexists. split; [reflexivity|].
  split; [apply elem_of_cons; right; exact Hw|exact Hx].
Qed.

Lemma shareMemoryBetween_locked scopeId k x sourceId targetId keys accessMode :
  preserves (locked scopeId k x)
    (shareMemoryBetween sourceId targetId keys accessMode).
Proof.
  assert (Hget : forall s, preserves (locked scopeId k x) (getMemoryScope s)).
  { intros s. unfold getMemoryScope.
    apply preserves_bind; [apply preserves_get|]. intros st0.
    destruct (scope_lookup st0 s); [apply preserves_ret|apply preserves_throw]. }
  unfold shareMemoryBetween.
  apply preserves_bind; [apply Hget|]. intros source.
  apply preserves_bind; [apply Hget|]. intros _. cbv zeta.
  apply preserves_bind.
  { apply preserves_modify. intros st H. exact H. }
  intros _. apply preserves_bind.
  { apply preserves_for_each. intros key. apply share_key_locked. }
  intros _. apply preserves_modify. intros st H. exact H.
Qed.

Lemma createMemoryScope_locked scopeId k x s :
  preserves (locked scopeId k x) (createMemoryScope s).
Proof.
  intros st r st' (m & Hm & Hw & Hx). unfold createMemoryScope. msimpl.
  destruct (scope_lookup st s) eqn:Hs.
  - intros [= <- <-]. exists m. auto.
  - intros [= <- <-]. exists m. split; [|auto].
    revert Hm Hs. unfold scope_lookup. fields.
    destruct (String.eqb scopeId "global"); [auto|].
    destruct (String.eqb s "global"); [discriminate|].
    intros Hm Hs. rewrite lookup_insert_ne; [exact Hm|]. congruence.
Qed.

Lemma cleanupJob_locked scopeId k x jobId keepResults :
  preserves (locked scopeId k x) (cleanupJob jobId keepResults).
Proof.
  unfold cleanupJob.
  apply preserves_bind; [apply preserves_get|]. intros st0.
  destruct (job_ref st0 jobId) as [[ref job]|]; [|apply preserves_ret].
  assert (Hdone : preserves (locked scopeId k x)
    (modify (set_jobContexts (delete jobId)) ;;
     modify (set_activeJobs (delete jobId)) ;;
     emit "job:cleaned"
       [("jobId", VStr jobId); ("keepResults", VBool keepResults)] ;;
     (if keepResults && JS.truthy (if keepResults then results job else VNull)
      then scope_remember "global" ("job_" +:+ jobId +:+ "_results")
             (VObj [("results", if keepResults then results job else VNull);
                    ("cleanedAt", VDate)]) ;;
           ret tt
      else ret tt) ;;
     ret true)).
  { apply preserves_bind; [apply preserves_modify; intros st H; exact H|].
    intros _.
    apply preserves_bind; [apply preserves_modify; intros st H; exact H|].
    intros _.
    apply preserves_bind; [apply preserves_modify; intros st H; exact H|].
    intros _. apply preserves_bind; [|intros _; apply preserves_ret].
    destruct (keepResults && JS.truthy _); [|apply preserves_ret].
    apply preserves_bind; [apply scope_remember_locked|].
    intros _. apply preserves_ret. }
  destruct (status job); first [exact Hdone | apply preserves_ret].
Qed.

Lemma memory_call_locked scopeId k x c :
  preserves (locked scopeId k x) (memory_call c).
Proof.
  destruct c; cbn [memory_call].
  - apply preserves_bind; [apply scope_remember_locked|].
    intros _. apply preserves_ret.
  - apply shareMemoryBetween_locked.
  - apply createMemoryScope_locked.
  - apply preserves_bind; [apply cleanupJob_locked|].
    intros _. apply preserves_ret.
Qed.

Lemma run_memory_calls_locked scopeId k x calls : forall st,
  locked scopeId k x st -> locked scopeId k x (run_memory_calls calls st).
Proof.
  induction calls as [|c rest IH]; intros st H; [exact H|].
  cbn [run_memory_calls]. apply IH.
  destruct (memory_call c st) as [r st1] eqn:E. cbn [snd].
  eapply memory_call_locked; eauto.
Qed.

Lemma share_one_key sourceId targetId accessMode k source target st :
  scope_lookup st sourceId = Some source ->
  scope_lookup st targetId = Some target ->
  shareMemoryBetween sourceId targetId [k] accessMode st =
    (Ok tt,
     set_events (fun log => log ++
         [shared_event sourceId targetId [k] accessMode])
       (shared_key sourceId targetId accessMode k source target
          (acl_ready targetId st))).
Proof.
  intros Hs Ht. unfold shareMemoryBetween, getMemoryScope. msimpl.
  rewrite Hs, Ht. fold (acl_ready targetId st). cbn [for_each]. unfold bind.
  rewrite (share_key_eval sourceId targetId accessMode k source target
             (acl_ready targetId st) Hs Ht).
  reflexivity.
Qed.

(** X14. The write protection that a read-only grant puts on a key of a
    scope is never lifted: after any calls of [remember],
    [shareMemoryBetween], [createMemoryScope] and [cleanupJob], with any
    arguments, the key is still protected and holds the same value, and
    [remember] on it answers [false] and changes nothing. A later
    [shareMemoryBetween] of the key to that scope in mode [read-write]
    succeeds and [getMemoryAccessInfo] answers the read-write grant, yet
    the key stays protected with its old value. *)
Theorem read_only_is_permanent st scopeId k x calls :
  locked scopeId k x st ->
  let st1 := run_memory_calls calls st in
  locked scopeId k x st1 /\
  (forall v, scope_remember scopeId k v st1 = (Ok (VBool false), st1)) /\
  (forall sourceId source,
     scope_lookup st1 sourceId = Some source -> defined_in source k ->
     exists st2,
       shareMemoryBetween sourceId scopeId [k] "read-write" st1 = (Ok tt, st2) /\
       getMemoryAccessInfo st2 scopeId k =
         Some (grant_of sourceId "read-write") /\
       locked scopeId k x st2 /\
       (forall v, scope_remember scopeId k v st2 = (Ok (VBool false), st2))).
Proof.
  intros H st1.
  assert (H1 : locked scopeId k x st1) by (apply run_memory_calls_locked, H).
  split; [exact H1|]. split; [intros v; eapply locked_rejects, H1|].
  intros sourceId source Hs Hd.
  destruct H1 as (target & Ht & Hw & Hx).
  eexists. split; [apply (share_one_key _ _ _ _ _ _ _ Hs Ht)|].
  assert (H2 : locked scopeId k x
            (shareMemoryBetween sourceId scopeId [k] "read-write" st1).2).
  { destruct (shareMemoryBetween sourceId scopeId [k] "read-write" st1)
      as [r s2] eqn:E. cbn [snd].
    eapply shareMemoryBetween_locked; [|exact E]. exists target. auto. }
  rewrite (share_one_key _ _ _ _ _ _ _ Hs Ht) in H2. cbn [snd] in H2.
  split; [|split; [exact H2|intros v; eapply locked_rejects, H2]].
  change (getMemoryAccessInfo
            (shared_key sourceId scopeId "read-write" k source target
               (acl_ready scopeId st1)) scopeId k =
          Some (grant_of sourceId "read-write")).
  rewrite access_info_shared_key. unfold defined_in in Hd. rewrite Hd.
  rewrite decide_True by reflexivity. reflexivity.
Qed.

(** X14 on the agency whose scope [t] got the key [a] read-only: the
    global scope remembers, shares again read-write, a scope is created
    and a job cleaned; [a] still holds 1 in [t]. *)
Lemma read_only_is_permanent_witness :
  locked "t" "a" (VNum 1) (run_memory_calls later_calls agency_with_grant) /\
  scope_remember "t" "a" (VNum 5)
      (run_memory_calls later_calls agency_with_grant) =
    (Ok (VBool false), run_memory_calls later_calls agency_with_grant) /\
  exists st2,
    shareMemoryBetween "global" "t" ["a"] "read-write"
        (run_memory_calls later_calls agency_with_grant) = (Ok tt, st2) /\
    getMemoryAccessInfo st2 "t" "a" = Some (grant_of "global" "read-write") /\
    locked "t" "a" (VNum 1) st2.
Proof.
  assert (H0 : locked "t" "a" (VNum 1) agency_with_grant).
  { eexists. split; [vm_compute; reflexivity|].
    split; [vm_compute; apply elem_of_cons; left; reflexivity
           |vm_compute; reflexivity]. }
  destruct (read_only_is_permanent agency_with_grant "t" "a" (VNum 1)
              later_calls H0) as (H1 & Hrej & Hshare).
  split; [exact H1|]. split; [apply Hrej|].
  destruct (Hshare "global"
              (globalMemory (run_memory_calls later_calls agency_with_grant)))
    as (st2 & E & Hg & H2 & _).
  - reflexivity.
  - vm_compute. reflexivity.
  - exists st2. auto.
Defined.

(** ** A failed job inside a workflow *)

Lemma parties_and_record_frame workflowId w st0 :
  Frame (parties_and_record workflowId w st0) /\
  AnyInvocation (parties_and_record workflowId w st0).
Proof. split; [split; intros f st H; exact H|intros f st H; exact H]. Qed.

Lemma rejecting_attempt st job jobId extra run :
  lookup_assignee st (assigneeType job) (assigneeId job) = Some run ->
  rejecting run ->
  exists e, attempt st job jobId extra = Throw e.
Proof.
  intros Hrun Hrej. unfold attempt, prepare.
  destruct (extractInputsFromBrief (brief job)); [|eauto].
  cbv zeta. destruct (check_schema _ _ _); [|eauto].
  rewrite Hrun.
  match goal with |- context [run ?input] =>
    destruct (Hrej input) as [e ->] end.
  cbn. eauto.
Qed.

Lemma handler_result_same st0 st jobId e job :
  errorHandlers st = errorHandlers st0 ->
  handler_result st jobId e job = handler_result st0 jobId e job.
Proof. intros H. unfold handler_result. rewrite H. reflexivity. Qed.

Lemma run_single_failed workflowId i step currentData st0 st run w :
  lookup_assignee st0 (default_agent (step_assigneeType step))
    (step_assigneeId step) = Some run ->
  rejecting run ->
  parties_and_record workflowId w st0 st ->
  exists e st' job,
    getJob st' (JS.to_string (step_jobId step)) = Some job /\
    status job = failed /\ error job = Some e /\
    same_parties st0 st' /\
    workflowErrorHandlers st' = workflowErrorHandlers st0 /\
    match handler_result st0 (JS.to_string (step_jobId step)) e job with
    | Ok v =>
        run_single false workflowId i step currentData st =
          (Throw (step_failure i (JS.to_string (step_jobId step)) e), st') /\
        workflows st' !! workflowId =
          Some (with_wf_result (JS.to_string (step_jobId step)) v w)
    | Throw e' =>
        run_single false workflowId i step currentData st = (Throw e', st') /\
        e' = e /\ workflows st' !! workflowId = Some w
    end.
Proof.
  intros Hrun Hrej HK.
  destruct (parties_and_record_frame workflowId w st0) as [HF HI].
  destruct (run_single false workflowId i step currentData st) as [r sf] eqn:HR.
  revert HR. rewrite run_single_unfold. cbv zeta.
  set (jobId := JS.to_string (step_jobId step)).
  set (extra := step_inputs_for false workflowId i step currentData).
  unfold bind at 1. rewrite ensure_brief_eval.
  match goal with |- context [brief_ensured jobId ?d st] =>
    set (sb := brief_ensured jobId d st);
    pose proof (ensure_brief_eval jobId d st) as Eb;
    pose proof (brief_ensured_brief jobId d st) as [b Hb]
  end.
  fold sb in Eb, Hb.
  assert (Kb : parties_and_record workflowId w st0 sb)
    by (eapply (ensure_brief_preserves _ _ _ HF); [exact HK|exact Eb]).
  unfold bind at 1.
  pose proof (assignJob_eval jobId (step_assigneeId step)
                (step_assigneeType step) sb) as Ea.
  rewrite Hb, (lookup_assignee_same st0 sb _ _ (proj1 Kb)), Hrun in Ea.
  cbv zeta in Ea. rewrite Ea.
  set (job := new_job jobId b (step_assigneeId step) (step_assigneeType step))
    in *.
  set (sa := job_assigned jobId job sb) in *.
  assert (Ka : parties_and_record workflowId w st0 sa)
    by (eapply (assignJob_preserves _ _ _ _ HF); [exact Kb|exact Ea]).
  pose proof (job_assigned_ref jobId job sb) as Href. fold sa in Href.
  destruct (rejecting_attempt sa job jobId extra run) as [e He].
  { rewrite (lookup_assignee_same st0 sa _ _ (proj1 Ka)). exact Hrun. }
  { exact Hrej. }
  destruct (execute_failure jobId extra sa _ job e Href He)
    as (se & job' & Ee & Hjob & Hst & Herr).
  assert (Ke : parties_and_record workflowId w st0 se).
  { eapply (execute_preserves _ extra jobId HF); [|exact Ka|exact Ee].
    apply any_invocation, HI. }
  rewrite (handler_result_same st0 sa) in Ee
    by (destruct Ka as ((_ & _ & ->) & _); reflexivity).
  unfold bind at 1. rewrite Ee.
  destruct (handler_result st0 jobId e job') as [v|e'] eqn:Hh.
  - (* the handler has answered: the step goes on, then fails *)
    unfold close_single. unfold bind at 1.
    pose proof (workflow_remember_ok workflowId
                  ("step_" +:+ pretty i +:+ "_results") v se) as Hok.
    pose proof (workflow_remember_getJob workflowId
                  ("step_" +:+ pretty i +:+ "_results") v se jobId) as Hg.
    destruct (workflow_remember workflowId _ v se) as [r0 sr] eqn:Er.
    cbn [fst snd] in Hok, Hg. subst r0.
    assert (Kr : parties_and_record workflowId w st0 sr).
    { revert Er. unfold workflow_remember. intros Er.
      eapply (preserves_bind (parties_and_record workflowId w st0));
        [| |exact Ke|exact Er].
      - apply scope_remember_preserves, HF.
      - intros a. apply preserves_ret. }
    msimpl. unfold fail_if_job_failed. msimpl.
    change (getJob (set_workflows _ sr) jobId) with (getJob sr jobId).
    rewrite Hg, Hjob, Hst. unfold error_text. rewrite Herr.
    intros [= <- <-].
    exists e, (set_workflows (alter (with_wf_result jobId v) workflowId) sr),
      job'.
    rewrite Hh.
    split; [change (getJob sr jobId = Some job'); congruence|].
    split; [exact Hst|]. split; [exact Herr|].
    split; [exact (proj1 Kr)|]. split; [exact (proj1 (proj2 Kr))|].
    split; [reflexivity|].
    cbn. rewrite lookup_alter_eq, (proj2 (proj2 Kr)). reflexivity.
  - intros [= <- <-]. exists e, se, job'. rewrite Hh.
    split; [exact Hjob|]. split; [exact Hst|]. split; [exact Herr|].
    split; [exact (proj1 Ke)|]. split; [exact (proj1 (proj2 Ke))|].
    split; [reflexivity|]. split; [|exact (proj2 (proj2 Ke))].
    revert Hh. unfold handler_result.
    destruct (errorHandlers st0 !! jobId) as [h|]; [destruct (h e job')|];
      congruence.
Qed.

Lemma workflow_ready_record workflowDefinition workflowId initialData st :
  parties_and_record workflowId (workflow_record workflowDefinition workflowId)
    st (workflow_ready workflowDefinition workflowId initialData st).
Proof.
  unfold workflow_ready.
  destruct (for_each _ _ _) as [r s] eqn:E. cbn [snd].
  destruct (parties_and_record_frame workflowId
              (workflow_record workflowDefinition workflowId) st) as [HF HI].
  eapply (preserves_for_each
            (parties_and_record workflowId
               (workflow_record workflowDefinition workflowId) st));
    [| |exact E].
  - intros kv. unfold workflow_remember.
    apply preserves_bind; [apply scope_remember_preserves, HF|].
    intros _. apply preserves_ret.
  - split; [repeat split|]. split; [reflexivity|].
    cbn. apply lookup_insert_eq.
Qed.

Lemma workflow_catch_getJob workflowId e jobId job :
  preserves (fun st => getJob st jobId = Some job) (workflow_catch workflowId e).
Proof.
  intros st r st' H. unfold workflow_catch. msimpl.
  destruct (workflowErrorHandlers _ !! workflowId) as [h|];
    [destruct (workflows _ !! workflowId) as [w|]; [destruct (h e w)|]|];
    intros [= <- <-]; exact H.
Qed.

(** X15. A workflow whose first step is sequential and handed to an
    assignee whose [run] always rejects ends failed, whether or not the job
    has an error handler. Without a handler that returns, the error of the
    workflow is the error of the job and no result is stored. With an error
    handler that returns [v], [execute] resolves to [v], which is stored as
    the result of the job in the workflow record, and the step then throws
    [Workflow step 0 (job <jobId>) failed: <error of the job>]: the handler
    does not rescue the workflow, and no later step runs. *)
Theorem job_handler_does_not_rescue_the_step schedule step rest workflowId
  initialData st run :
  sequential step = true ->
  scope_lookup st (workflow_scope workflowId) = None ->
  lookup_assignee st (default_agent (step_assigneeType step))
    (step_assigneeId step) = Some run ->
  rejecting run ->
  exists e st' job w,
    executeWorkflow schedule (step :: rest) workflowId initialData st =
      (Ok (workflow_handler_result st workflowId (default "" (wf_error w)) w),
       st') /\
    getJob st' (JS.to_string (step_jobId step)) = Some job /\
    status job = failed /\ error job = Some e /\
    workflows st' !! workflowId = Some w /\
    wf_status w = wf_failed /\
    match handler_result st (JS.to_string (step_jobId step)) e job with
    | Ok v =>
        wf_error w =
          Some (step_failure 0 (JS.to_string (step_jobId step)) e) /\
        wf_results w = [(JS.to_string (step_jobId step), v)]
    | Throw _ => wf_error w = Some e /\ wf_results w = []
    end.
Proof.
  intros Hseq Hnone Hrun Hrej.
  rewrite executeWorkflow_eval by exact Hnone.
  set (jobId := JS.to_string (step_jobId step)).
  set (st0 := workflow_ready (step :: rest) workflowId initialData st).
  pose proof (workflow_ready_record (step :: rest) workflowId initialData st)
    as K0. fold st0 in K0.
  set (w0 := workflow_record (step :: rest) workflowId) in K0.
  assert (K1 : parties_and_record workflowId (with_wf_currentStep 0 w0) st
                 (step_begun workflowId 0 step st0)).
  { destruct K0 as (Hp & Hh & Hw). split; [exact Hp|]. split; [exact Hh|].
    cbn. rewrite lookup_alter_eq, Hw. reflexivity. }
  destruct (run_single_failed workflowId 0 step (VObj initialData) st
              (step_begun workflowId 0 step st0) run _ Hrun Hrej K1)
    as (e & sf & job & Hjob & Hst & Herr & Hp & Hwh & Hcase).
  fold jobId in Hjob, Hcase.
  assert (Hsteps : forall msg w1,
    run_single false workflowId 0 step (VObj initialData)
      (step_begun workflowId 0 step st0) = (Throw msg, sf) ->
    workflows sf !! workflowId = Some w1 ->
    exists st',
      try_catch
        (run_steps schedule workflowId 0 (step :: rest) (VObj initialData) ;;
         update_workflow workflowId (with_wf_status wf_completed) ;;
         s <- get ;;
         emit "workflow:completed"
           [("workflowId", VStr workflowId);
            ("results", VObj (workflow_results s workflowId))] ;;
         ret (VObj [("status", VStr "completed");
                    ("workflowId", VStr workflowId);
                    ("results", VObj (workflow_results s workflowId))]))
        (workflow_catch workflowId) st0 =
      (Ok (workflow_handler_result st workflowId msg
             (workflow_failed_with msg w1)), st') /\
      getJob st' jobId = Some job /\
      workflows st' !! workflowId = Some (workflow_failed_with msg w1)).
  { intros msg w1 Erun Hw1.
    unfold try_catch. unfold bind at 1. cbn [run_steps].
    unfold bind at 1. unfold update_workflow at 1, modify at 1.
    unfold bind at 1. unfold emit at 1, modify at 1.
    fold (step_begun workflowId 0 step st0).
    unfold bind at 1. rewrite (run_step_sequential _ _ _ _ _ Hseq), Erun.
    destruct (workflow_catch_eval workflowId msg sf w1 Hw1)
      as (st' & Ec & Hw').
    exists st'. rewrite Ec. split; [|split; [|exact Hw']].
    - unfold workflow_handler_result. rewrite Hwh. reflexivity.
    - eapply workflow_catch_getJob; [exact Hjob|exact Ec]. }
  destruct (handler_result st jobId e job) as [v|e'] eqn:Hh.
  - destruct Hcase as [Erun Hw1].
    destruct (Hsteps _ _ Erun Hw1) as (st' & E & Hj & Hw).
    exists e, st', job,
      (workflow_failed_with (step_failure 0 jobId e)
         (with_wf_result jobId v (with_wf_currentStep 0 w0))).
    split; [exact E|].
    split; [exact Hj|]. split; [exact Hst|]. split; [exact Herr|].
    split; [exact Hw|]. split; [reflexivity|].
    fold jobId. rewrite Hh. split; reflexivity.
  - destruct Hcase as (Erun & -> & Hw1).
    destruct (Hsteps _ _ Erun Hw1) as (st' & E & Hj & Hw).
    exists e, st', job, (workflow_failed_with e (with_wf_currentStep 0 w0)).
    split; [exact E|].
    split; [exact Hj|]. split; [exact Hst|]. split; [exact Herr|].
    split; [exact Hw|]. split; [reflexivity|].
    fold jobId. rewrite Hh. split; reflexivity.
Qed.

(** X15 on the office: the workflow of one step hands the job [h], which
    has an error handler that answers [fallback], to the agent [ko], which
    rejects with [boom]. *)
Lemma job_handler_does_not_rescue_the_step_witness :
  exists st' job w,
    executeWorkflow (fun _ => 0%nat) one_step "w" [] office =
      (Ok (workflow_handler_result office "w"
             "Workflow step 0 (job h) failed: boom" w), st') /\
    getJob st' "h" = Some job /\
    status job = failed /\ error job = Some "boom" /\
    workflows st' !! "w" = Some w /\
    wf_status w = wf_failed /\
    wf_error w = Some "Workflow step 0 (job h) failed: boom" /\
    wf_results w = [("h", VStr "fallback")].
Proof.
  destruct (job_handler_does_not_rescue_the_step (fun _ => 0%nat)
              {| step_jobId := VStr "h"; step_assigneeId := VStr "ko";
                 step_assigneeType := VUndefined; step_inputs := VUndefined;
                 step_type := VUndefined; step_brief := VUndefined;
                 step_condition := None |} [] "w" [] office (failing "boom"))
    as (e & st' & job & w & E & Hj & Hst & Herr & Hw & Hs & Hcase).
  - vm_compute. reflexivity.
  - vm_compute. reflexivity.
  - vm_compute. reflexivity.
  - intros input. exists "boom". reflexivity.
  - assert (Hst' : st' = (executeWorkflow (fun _ => 0%nat) one_step "w" []
                            office).2).
    { unfold one_step. rewrite E. reflexivity. }
    assert (He : e = "boom").
    { rewrite Hst' in Hj. vm_compute in Hj. injection Hj as <-.
      vm_compute in Herr. injection Herr as <-. reflexivity. }
    subst e.
    assert (Hh : handler_result office "h" "boom" job = Ok (VStr "fallback"))
      by (vm_compute; reflexivity).
    cbn [JS.to_string step_jobId] in Hcase. rewrite Hh in Hcase.
    destruct Hcase as [Hwe Hwr].
    exists st', job, w. unfold one_step.
    rewrite Hwe in E. cbn [default from_option id] in E.
    split; [exact E|]. split; [exact Hj|]. split; [exact Hst|].
    split; [exact Herr|]. split; [exact Hw|]. split; [exact Hs|].
    split; [rewrite Hwe; vm_compute; reflexivity|exact Hwr].
Defined.

(** ** The conversation history *)

Lemma slice_from_last {A} (n : Z) (l : list A) :
  (0 < n)%Z -> slice_from (- n) l = drop (length l - Z.to_nat n) l.
Proof.
  intros Hn. unfold slice_from.
  destruct (Z.ltb_spec (- n) 0); [|lia]. cbv zeta. f_equal. lia.
Qed.

Lemma addToHistory_last n entry m :
  (0 < n)%Z -> maxHistoryLength m = n ->
  (Z.of_nat (length (conversationHistory m)) <= n)%Z ->
  conversationHistory (History.addToHistory entry m) =
    slice_from (- n) (conversationHistory m ++ [History.stamped entry]) /\
  (Z.of_nat (length (conversationHistory (History.addToHistory entry m))) <= n)%Z.
Proof.
  intros Hn Hmax Hlen. unfold History.addToHistory. cbn [conversationHistory].
  rewrite Hmax, slice_from_last by exact Hn.
  rewrite length_app. cbn [length].
  destruct (Z.gtb_spec (Z.of_nat (length (conversationHistory m) + 1)) n)
    as [Hgt|Hle].
  - assert (Heq : length (conversationHistory m) = Z.to_nat n) by lia.
    replace (length (conversationHistory m) + 1 - Z.to_nat n) with 1 by lia.
    split; [reflexivity|].
    destruct (conversationHistory m) as [|x h]; cbn [length] in *; [lia|].
    cbn. rewrite length_app. cbn. lia.
  - replace (length (conversationHistory m) + 1 - Z.to_nat n) with 0 by lia.
    split; [reflexivity|]. rewrite length_app. cbn [length]. lia.
Qed.

Lemma add_all_snoc entries entry m :
  History.add_all (entries ++ [entry]) m =
  History.addToHistory entry (History.add_all entries m).
Proof. unfold History.add_all. rewrite fold_left_app. reflexivity. Qed.

Lemma add_all_max entries : forall m,
  maxHistoryLength (History.add_all entries m) = maxHistoryLength m.
Proof.
  induction entries as [|e es IH]; intros m; [reflexivity|].
  cbn. change (fold_left _ es ?x) with (History.add_all es x).
  rewrite IH. reflexivity.
Qed.

Lemma last_of_last {A} (k : nat) (a : list A) (x : A) :
  0 < k ->
  drop (length (drop (length a - k) a ++ [x]) - k) (drop (length a - k) a ++ [x])
  = drop (length (a ++ [x]) - k) (a ++ [x]).
Proof.
  intros Hk. rewrite !length_app, length_drop. cbn [length].
  destruct (le_lt_dec k (length a)) as [Hle|Hlt].
  - replace (length a - (length a - k) + 1 - k) with 1 by lia.
    replace (length a + 1 - k) with (length a - k + 1) by lia.
    rewrite <- (drop_drop (a ++ [x]) 1 (length a - k)).
    rewrite (drop_app_le a [x] (length a - k)) by lia. reflexivity.
  - replace (length a - k) with 0 by lia. cbn [drop].
    replace (length a - 0 + 1 - k) with 0 by lia.
    replace (length a + 1 - k) with 0 by lia. reflexivity.
Qed.

Lemma add_all_last n entries m :
  (0 < n)%Z -> maxHistoryLength m = n -> conversationHistory m = [] ->
  conversationHistory (History.add_all entries m) =
    slice_from (- n) (map History.stamped entries) /\
  (Z.of_nat (length (conversationHistory (History.add_all entries m))) <= n)%Z.
Proof.
  intros Hn Hmax Hempty.
  induction entries as [|e es IH] using rev_ind.
  - cbn. rewrite Hempty, slice_from_last by exact Hn. cbn. split; [reflexivity|lia].
  - destruct IH as [IH Hlen]. rewrite add_all_snoc.
    destruct (addToHistory_last n e (History.add_all es m) Hn) as [H1 H2];
      [rewrite add_all_max; exact Hmax|exact Hlen|].
    split; [|exact H2]. rewrite H1, IH, map_app. cbn [map].
    rewrite !slice_from_last by exact Hn.
    apply last_of_last. lia.
Qed.

(** X16. The conversation history of a memory manager created with an
    integer [maxHistoryLength] [n] (100 when absent or 0): for [n] positive,
    after any entries are added the history holds the latest [n] of them,
    each with a timestamp; [getHistory()] answers the whole history and
    [getHistory(k)] its latest [k] entries for [k] positive. For [n]
    negative every entry is dropped as it is added. [getHistory(0)] answers
    the whole history, not an empty list. *)
Theorem history_keeps_the_latest config entries :
  let m := History.add_all entries (History.create config) in
  let n := maxHistoryLength (History.create config) in
  ((0 < n)%Z ->
   conversationHistory m = slice_from (- n) (map History.stamped entries) /\
   (Z.of_nat (length (conversationHistory m)) <= n)%Z /\
   History.getHistory None m = conversationHistory m /\
   forall k, (0 < k)%Z ->
     History.getHistory (Some k) m =
       slice_from (- Z.min k n) (map History.stamped entries)) /\
  ((n < 0)%Z -> conversationHistory m = []) /\
  n <> 0%Z /\
  History.getHistory (Some 0%Z) m = conversationHistory m.
Proof.
  intros m n.
  assert (Hmax : maxHistoryLength m = n) by apply add_all_max.
  split; [|split; [|split]].
  - intros Hn.
    destruct (add_all_last n entries (History.create config) Hn eq_refl eq_refl)
      as [Hh Hlen].
    fold m in Hh, Hlen. split; [exact Hh|]. split; [exact Hlen|]. split.
    + unfold History.getHistory. cbn [default from_option id]. rewrite Hmax.
      rewrite slice_from_last by exact Hn.
      replace (length (conversationHistory m) - Z.to_nat n) with 0 by lia.
      reflexivity.
    + intros k Hk. unfold History.getHistory. cbn [default from_option id].
      rewrite Hh, !slice_from_last by lia.
      rewrite length_drop, drop_drop. f_equal. lia.
  - intros Hn. clear Hmax. subst m.
    induction entries as [|e es IH] using rev_ind; [reflexivity|].
    rewrite add_all_snoc. unfold History.addToHistory at 1.
    cbn [conversationHistory]. rewrite IH, add_all_max. fold n.
    cbn [app length].
    destruct (Z.gtb_spec (Z.of_nat 1) n); [reflexivity|lia].
  - subst n. unfold History.create. cbn [maxHistoryLength].
    destruct config as [c|]; [|discriminate].
    destruct (Z.eqb_spec c 0); [discriminate|assumption].
  - unfold History.getHistory, slice_from. cbn [default from_option id].
    cbn. rewrite Z.min_l by lia. reflexivity.
Qed.

(** X16 on a manager that keeps two entries and is given three. *)
Lemma history_keeps_the_latest_witness :
  conversationHistory
    (History.add_all
       [[("input", VStr "a")]; [("input", VStr "b")];
        [("input", VStr "c"); ("timestamp", VNum 5)]]
       (History.create (Some 2%Z))) =
    [[("input", VStr "b"); ("timestamp", VDate)];
     [("input", VStr "c"); ("timestamp", VNum 5)]] /\
  History.getHistory (Some 1%Z)
    (History.add_all
       [[("input", VStr "a")]; [("input", VStr "b")];
        [("input", VStr "c"); ("timestamp", VNum 5)]]
       (History.create (Some 2%Z))) =
    [[("input", VStr "c"); ("timestamp", VNum 5)]].
Proof.
  destruct (history_keeps_the_latest (Some 2%Z)
              [[("input", VStr "a")]; [("input", VStr "b")];
               [("input", VStr "c"); ("timestamp", VNum 5)]])
    as (Hpos & _).
  destruct Hpos as (Hh & _ & _ & Hk); [vm_compute; reflexivity|].
  split.
  - rewrite Hh. vm_compute. reflexivity.
  - rewrite (Hk 1%Z) by (vm_compute; reflexivity). vm_compute. reflexivity.
Defined.

(** X17. [clear()] empties the history and the key-value store but leaves
    the write protection of a key that a read-only grant has put on the
    manager: every key then recalls [undefined], [remember] on the protected
    key still answers [false] and stores nothing, so the key cannot be given
    a value again. The bound of the history is kept: entries added after
    [clear()] are kept as on a new manager with the same bound. *)
Theorem clear_keeps_the_protection m k :
  k ∈ readOnlyWrappers (store m) ->
  conversationHistory (History.clear m) = [] /\
  (forall key, History.recall (History.clear m) key = VUndefined) /\
  (forall v,
     History.remember k v (History.clear m) = (VBool false, History.clear m)) /\
  (forall entries,
     (0 < maxHistoryLength m)%Z ->
     conversationHistory (History.add_all entries (History.clear m)) =
       slice_from (- maxHistoryLength m) (map History.stamped entries)).
Proof.
  intros Hk. split; [reflexivity|]. split; [reflexivity|]. split.
  - intros v. unfold History.remember, Memory.remember.
    cbn [store History.clear readOnlyWrappers].
    rewrite wrapped_remember_blocked by exact Hk. reflexivity.
  - intros entries Hn.
    apply (add_all_last (maxHistoryLength m) entries (History.clear m) Hn);
      reflexivity.
Qed.

(** The manager whose store is the scope [t] of the agency in which [t] got
    the key [a] read-only. *)
Lemma clear_keeps_the_protection_witness :
  History.recall
    (History.clear
       {| store := default new_memory (scope_lookup agency_with_grant "t");
          conversationHistory := [[("input", VStr "a")]];
          maxHistoryLength := 100; historyUpdated := []; memoryCleared := 0 |})
    "a" = VUndefined /\
  History.remember "a" (VNum 3)
    (History.clear
       {| store := default new_memory (scope_lookup agency_with_grant "t");
          conversationHistory := [[("input", VStr "a")]];
          maxHistoryLength := 100; historyUpdated := []; memoryCleared := 0 |})
  = (VBool false,
     History.clear
       {| store := default new_memory (scope_lookup agency_with_grant "t");
          conversationHistory := [[("input", VStr "a")]];
          maxHistoryLength := 100; historyUpdated := []; memoryCleared := 0 |}).
Proof.
  destruct (clear_keeps_the_protection
              {| store := default new_memory (scope_lookup agency_with_grant "t");
                 conversationHistory := [[("input", VStr "a")]];
                 maxHistoryLength := 100; historyUpdated := [];
                 memoryCleared := 0 |} "a") as (_ & Hrecall & Hrem & _).
  - vm_compute. apply elem_of_cons. left. reflexivity.
  - split; [apply Hrecall|apply Hrem].
Defined.

(** ** The event emitter *)

Lemma invoke_called e d f em :
  Emitter.called (Emitter.invoke e d f em) =
  Emitter.called em ++ [(fn (Emitter.listener_of f), d)].
Proof.
  unfold Emitter.invoke. cbv zeta.
  destruct (throws_on _ d); [reflexivity|].
  destruct f; [reflexivity|]. unfold Emitter.off. cbn.
  destruct (Emitter.events em !! e); reflexivity.
Qed.

Lemma invoke_closures e d f em :
  Emitter.closures (Emitter.invoke e d f em) = Emitter.closures em.
Proof.
  unfold Emitter.invoke. cbv zeta.
  destruct (throws_on _ d); [reflexivity|].
  destruct f; [reflexivity|]. unfold Emitter.off. cbn.
  destruct (Emitter.events em !! e); reflexivity.
Qed.

Lemma invoke_events_other e d f em e' :
  e' <> e ->
  Emitter.events (Emitter.invoke e d f em) !! e' = Emitter.events em !! e'.
Proof.
  intros Hne. unfold Emitter.invoke. cbv zeta.
  destruct (throws_on _ d); [reflexivity|].
  destruct f; [reflexivity|]. unfold Emitter.off. cbn.
  destruct (Emitter.events em !! e); [|reflexivity].
  cbn. apply lookup_insert_ne. congruence.
Qed.

Lemma invoke_events_same e d f em cur :
  Emitter.events em !! e = Some cur ->
  Emitter.events (Emitter.invoke e d f em) !! e =
  Some (if stays d f then cur
        else List.filter (fun x => negb (Emitter.same_function x f)) cur).
Proof.
  intros Hcur. unfold Emitter.invoke, stays. cbv zeta.
  destruct f as [l|c l]; cbn [Emitter.listener_of].
  - destruct (throws_on l d); exact Hcur.
  - destruct (throws_on l d); [exact Hcur|].
    unfold Emitter.off. cbn. rewrite Hcur. cbn. apply lookup_insert_eq.
Qed.

Lemma fold_invoke_called e d fs : forall em,
  Emitter.called (fold_left (fun em f => Emitter.invoke e d f em) fs em) =
  Emitter.called em ++ map (fun f => (fn (Emitter.listener_of f), d)) fs.
Proof.
  induction fs as [|f fs IH]; intros em; cbn [fold_left map].
  - rewrite app_nil_r. reflexivity.
  - rewrite IH, invoke_called, <- app_assoc. reflexivity.
Qed.

Lemma fold_invoke_events_other e d e' fs : forall em,
  e' <> e ->
  Emitter.events (fold_left (fun em f => Emitter.invoke e d f em) fs em) !! e' =
  Emitter.events em !! e'.
Proof.
  induction fs as [|f fs IH]; intros em Hne; cbn [fold_left]; [reflexivity|].
  rewrite IH by exact Hne. apply invoke_events_other, Hne.
Qed.

Lemma filter_filter_andb {A} (p q : A -> bool) (l : list A) :
  List.filter p (List.filter q l) = List.filter (fun x => q x && p x) l.
Proof.
  induction l as [|x l IH]; [reflexivity|]. cbn.
  destruct (q x); cbn; [destruct (p x)|]; rewrite IH; reflexivity.
Qed.

Lemma fold_invoke_events_same e d fs : forall em cur,
  Emitter.events em !! e = Some cur ->
  Emitter.events (fold_left (fun em f => Emitter.invoke e d f em) fs em) !! e =
  Some (List.filter
          (fun x => forallb (fun w => stays d w ||
                                      negb (Emitter.same_function x w)) fs)
          cur).
Proof.
  induction fs as [|f fs IH]; intros em cur Hcur; cbn [fold_left forallb].
  - rewrite Hcur. f_equal. clear Hcur.
    induction cur as [|x cur IHc]; [reflexivity|].
    cbn. rewrite <- IHc. reflexivity.
  - rewrite (IH _ _ (invoke_events_same e d f em cur Hcur)). f_equal.
    destruct (stays d f); [reflexivity|].
    rewrite filter_filter_andb. reflexivity.
Qed.

Lemma wrapper_closures_cons f fs :
  wrapper_closures (f :: fs) =
  match f with
  | Direct _ => wrapper_closures fs
  | OnceWrapper c _ => c :: wrapper_closures fs
  end.
Proof. destruct f; reflexivity. Qed.

Lemma wrapper_closures_elem c l fs :
  OnceWrapper c l ∈ fs -> c ∈ wrapper_closures fs.
Proof.
  intros H. apply list_elem_of_omap. exists (OnceWrapper c l). auto.
Qed.

Lemma one_listener_per_closure fs c l l' :
  NoDup (wrapper_closures fs) ->
  OnceWrapper c l ∈ fs -> OnceWrapper c l' ∈ fs -> l = l'.
Proof.
  induction fs as [|f fs IH]; intros Hnd H1 H2.
  - apply elem_of_nil in H1 as [].
  - rewrite wrapper_closures_cons in Hnd.
    apply elem_of_cons in H1 as [H1|H1], H2 as [H2|H2].
    + congruence.
    + subst f. apply NoDup_cons in Hnd as [Hnot _].
      destruct Hnot. eapply wrapper_closures_elem, H2.
    + subst f. apply NoDup_cons in Hnd as [Hnot _].
      destruct Hnot. eapply wrapper_closures_elem, H1.
    + apply IH; [|exact H1|exact H2].
      destruct f; [exact Hnd|]. apply NoDup_cons in Hnd as [_ Hnd]. exact Hnd.
Qed.

Lemma same_function_refl f : Emitter.same_function f f = true.
Proof. destruct f; cbn; apply Nat.eqb_refl. Qed.

Lemma stays_decides d fs x :
  NoDup (wrapper_closures fs) -> x ∈ fs ->
  forallb (fun w => stays d w || negb (Emitter.same_function x w)) fs =
  stays d x.
Proof.
  intros Hnd Hx. destruct (stays d x) eqn:Hs.
  - apply forallb_forall. intros w Hw. apply list_elem_of_In in Hw.
    destruct (stays d w) eqn:Hsw; [reflexivity|]. cbn.
    destruct x as [l|c l], w as [l'|c' l']; cbn in *; try discriminate;
      try reflexivity.
    destruct (Nat.eqb_spec c c') as [->|]; [|reflexivity].
    rewrite (one_listener_per_closure fs c' l l' Hnd Hx Hw) in Hs. congruence.
  - apply not_true_is_false. intros Hall.
    rewrite forallb_forall in Hall.
    specialize (Hall x (proj1 (list_elem_of_In _ _) Hx)).
    rewrite Hs, same_function_refl in Hall. discriminate.
Qed.

Lemma emit_listeners e d em :
  closures_ok em ->
  Emitter.listeners (Emitter.emit e d em) e =
  List.filter (stays d) (Emitter.listeners em e).
Proof.
  intros Hok. unfold Emitter.emit, Emitter.listeners.
  destruct (Emitter.events em !! e) as [fs|] eqn:E.
  - rewrite (fold_invoke_events_same e d fs em fs E). cbn.
    apply List.filter_ext_in. intros x Hx.
    apply stays_decides; [apply (Hok e fs E)|apply list_elem_of_In, Hx].
  - rewrite E. reflexivity.
Qed.

Lemma emit_called e d em :
  Emitter.called (Emitter.emit e d em) =
  Emitter.called em ++
  map (fun f => (fn (Emitter.listener_of f), d)) (Emitter.listeners em e).
Proof.
  unfold Emitter.emit, Emitter.listeners.
  destruct (Emitter.events em !! e) as [fs|].
  - apply fold_invoke_called.
  - cbn. rewrite app_nil_r. reflexivity.
Qed.

Lemma emit_listeners_other e d em e' :
  e' <> e ->
  Emitter.listeners (Emitter.emit e d em) e' = Emitter.listeners em e'.
Proof.
  intros Hne. unfold Emitter.emit, Emitter.listeners.
  destruct (Emitter.events em !! e) as [fs|]; [|reflexivity].
  rewrite fold_invoke_events_other by exact Hne. reflexivity.
Qed.

Lemma wrapper_closures_filter p fs :
  (NoDup (wrapper_closures fs) -> NoDup (wrapper_closures (List.filter p fs))) /\
  (forall n, Forall (fun c => c < n) (wrapper_closures fs) ->
             Forall (fun c => c < n) (wrapper_closures (List.filter p fs))) /\
  (forall c, c ∈ wrapper_closures (List.filter p fs) ->
             c ∈ wrapper_closures fs).
Proof.
  induction fs as [|f fs (IH1 & IH2 & IH3)]; [cbn; auto|].
  assert (H3 : forall c, c ∈ wrapper_closures (List.filter p (f :: fs)) ->
                         c ∈ wrapper_closures (f :: fs)).
  { intros c. cbn [List.filter].
    destruct (p f); rewrite ?wrapper_closures_cons; destruct f; auto.
    - rewrite !elem_of_cons. intros [->|H]; auto.
    - intros H. apply elem_of_cons. auto. }
  split; [|split; [|exact H3]].
  - cbn [List.filter]. rewrite wrapper_closures_cons.
    destruct (p f); rewrite ?wrapper_closures_cons; destruct f; auto.
    + rewrite !NoDup_cons. intros [Hn Hd]. split; auto.
    + rewrite NoDup_cons. intros [_ Hd]. auto.
  - intros n. cbn [List.filter]. rewrite wrapper_closures_cons.
    destruct (p f); rewrite ?wrapper_closures_cons; destruct f; auto.
    + rewrite !Forall_cons. intros [Hn Hd]. split; auto.
    + rewrite Forall_cons. intros [_ Hd]. auto.
Qed.

Lemma off_ok e f em : closures_ok em -> closures_ok (Emitter.off e f em).
Proof.
  intros Hok e' fs. unfold Emitter.off.
  destruct (Emitter.events em !! e) as [cur|] eqn:E; [|apply Hok].
  cbn. destruct (decide (e = e')) as [<-|Hne].
  - rewrite lookup_insert_eq. intros [= <-].
    destruct (Hok e cur E) as [Hnd Hlt].
    split; apply wrapper_closures_filter; assumption.
  - rewrite lookup_insert_ne by exact Hne. apply Hok.
Qed.

Lemma invoke_ok e d f em :
  closures_ok em -> closures_ok (Emitter.invoke e d f em).
Proof.
  intros Hok. unfold Emitter.invoke. cbv zeta.
  destruct (throws_on _ d); [exact Hok|].
  destruct f; [exact Hok|]. apply off_ok. exact Hok.
Qed.

Lemma emit_ok e d em : closures_ok em -> closures_ok (Emitter.emit e d em).
Proof.
  intros Hok. unfold Emitter.emit.
  destruct (Emitter.events em !! e) as [fs|]; [|exact Hok].
  revert em Hok. induction fs as [|f fs IH]; intros em Hok; [exact Hok|].
  cbn [fold_left]. apply IH, invoke_ok, Hok.
Qed.

Lemma wrapper_closures_app fs gs :
  wrapper_closures (fs ++ gs) = wrapper_closures fs ++ wrapper_closures gs.
Proof.
  induction fs as [|f fs IH]; [reflexivity|].
  cbn [app]. rewrite !wrapper_closures_cons, IH. destruct f; reflexivity.
Qed.

Lemma listeners_ok em e :
  closures_ok em ->
  NoDup (wrapper_closures (Emitter.listeners em e)) /\
  Forall (fun c => c < Emitter.closures em)
    (wrapper_closures (Emitter.listeners em e)).
Proof.
  intros Hok. unfold Emitter.listeners.
  destruct (Emitter.events em !! e) as [fs|] eqn:E; [apply (Hok e fs E)|].
  cbn. split; constructor.
Qed.

Lemma on_ok e l em :
  closures_ok em -> closures_ok (Emitter.on e (Direct l) em).
Proof.
  intros Hok e' fs. unfold Emitter.on. cbn.
  destruct (decide (e = e')) as [<-|Hne].
  - rewrite lookup_insert_eq. intros [= <-].
    rewrite wrapper_closures_app. cbn. rewrite app_nil_r.
    apply listeners_ok, Hok.
  - rewrite lookup_insert_ne by exact Hne. apply Hok.
Qed.

Lemma once_ok e l em :
  closures_ok em -> closures_ok (Emitter.once e l em).
Proof.
  intros Hok e' fs. unfold Emitter.once, Emitter.on. cbn.
  destruct (decide (e = e')) as [<-|Hne].
  - rewrite lookup_insert_eq. intros [= <-].
    destruct (listeners_ok em e Hok) as [Hnd Hlt].
    rewrite wrapper_closures_app. cbn. split.
    + apply NoDup_app. split; [exact Hnd|]. split; [|apply NoDup_singleton].
      intros c Hc Hin. apply list_elem_of_singleton in Hin as ->.
      rewrite Forall_forall in Hlt. specialize (Hlt _ Hc). lia.
    + apply Forall_app. split; [|repeat constructor].
      eapply Forall_impl; [exact Hlt|]. cbn. intros; lia.
  - rewrite lookup_insert_ne by exact Hne. intros Hfs.
    destruct (Hok e' fs Hfs) as [Hnd Hlt]. split; [exact Hnd|].
    eapply Forall_impl; [exact Hlt|]. cbn. intros; lia.
Qed.

Lemma emitter_call_ok c em : closures_ok em -> closures_ok (emitter_call c em).
Proof.
  destruct c; cbn [emitter_call].
  - apply on_ok.
  - apply off_ok.
  - apply once_ok.
  - apply emit_ok.
Qed.

Lemma run_emitter_calls_ok calls : forall em,
  closures_ok em -> closures_ok (run_emitter_calls calls em).
Proof.
  induction calls as [|c calls IH]; intros em Hok; [exact Hok|].
  apply IH, emitter_call_ok, Hok.
Qed.

Lemma create_ok : closures_ok Emitter.create.
Proof. intros e fs H. cbn in H. rewrite lookup_empty in H. discriminate. Qed.

Lemma once_listeners e l em :
  Emitter.listeners (Emitter.once e l em) e =
  Emitter.listeners em e ++ [OnceWrapper (Emitter.closures em) l].
Proof.
  unfold Emitter.listeners, Emitter.once, Emitter.on. cbn.
  rewrite lookup_insert_eq. reflexivity.
Qed.

(** X18. On an emitter reached from a new one by any calls of [on], [off],
    [once] and [emit], with listeners that do not call the emitter:
    [emit] calls every function subscribed to the event once, in the order
    of subscription, with the data, also after one of them has thrown.
    Afterwards the event has the same subscribers, except the wrappers of
    [once] whose listener has returned; the other events keep theirs. A
    listener subscribed with [once] that throws when it is called stays
    subscribed and is called again by the next [emit]. [off] removes every
    subscription of the listener to the event: after a listener was
    subscribed twice, one call of [off] leaves none. *)
Theorem emit_reaches_every_listener calls e d :
  let em := run_emitter_calls calls Emitter.create in
  Emitter.called (Emitter.emit e d em) =
    Emitter.called em ++
    map (fun f => (fn (Emitter.listener_of f), d)) (Emitter.listeners em e) /\
  Emitter.listeners (Emitter.emit e d em) e =
    List.filter (stays d) (Emitter.listeners em e) /\
  (forall e', e' <> e ->
     Emitter.listeners (Emitter.emit e d em) e' = Emitter.listeners em e') /\
  (forall l,
     OnceWrapper (Emitter.closures em) l ∈
       Emitter.listeners (Emitter.emit e d (Emitter.once e l em)) e <->
     throws_on l d = true) /\
  (forall l f,
     f ∈ Emitter.listeners
           (Emitter.off e (Direct l)
              (Emitter.on e (Direct l) (Emitter.on e (Direct l) em))) e ->
     f ∈ Emitter.listeners em e /\ Emitter.same_function f (Direct l) = false).
Proof.
  intros em.
  assert (Hok : closures_ok em) by apply run_emitter_calls_ok, create_ok.
  split; [apply emit_called|]. split; [apply emit_listeners, Hok|].
  split; [intros e' Hne; apply emit_listeners_other, Hne|]. split.
  - intros l. rewrite emit_listeners by apply once_ok, Hok.
    rewrite once_listeners, list_elem_of_In, List.filter_In.
    rewrite <- list_elem_of_In. cbn [stays]. split; [intros [_ H]; exact H|].
    intros H. split; [|exact H]. apply elem_of_app. right.
    apply list_elem_of_singleton. reflexivity.
  - intros l f. unfold Emitter.listeners, Emitter.off, Emitter.on. cbn.
    rewrite !lookup_insert_eq. cbn. rewrite lookup_insert_eq. cbn.
    rewrite list_elem_of_In, List.filter_In, <- list_elem_of_In.
    intros [Hin Hsame]. apply negb_true_iff in Hsame. split; [|exact Hsame].
    rewrite <- !app_assoc in Hin. apply elem_of_app in Hin as [Hin|Hin];
      [exact Hin|].
    cbn in Hin. rewrite !elem_of_cons in Hin.
    destruct Hin as [->|[->|Hin]];
      [rewrite same_function_refl in Hsame; discriminate..|].
    apply elem_of_nil in Hin as [].
Qed.

(** X18 on an emitter with a listener subscribed with [on] and one with
    [once], both of which throw on [null]: both are called, and the
    wrapper of [once] is still subscribed. *)
Lemma emit_reaches_every_listener_witness :
  Emitter.called
    (Emitter.emit "tick" VNull
       (run_emitter_calls
          [call_on "tick" (picky 1); call_once "tick" (picky 2)]
          Emitter.create)) =
    [(1, VNull); (2, VNull)] /\
  Emitter.listeners
    (Emitter.emit "tick" VNull
       (run_emitter_calls
          [call_on "tick" (picky 1); call_once "tick" (picky 2)]
          Emitter.create)) "tick" =
    [Direct (picky 1); OnceWrapper 0 (picky 2)].
Proof.
  destruct (emit_reaches_every_listener
              [call_on "tick" (picky 1); call_once "tick" (picky 2)]
              "tick" VNull) as (H1 & H2 & _).
  split; [rewrite H1|rewrite H2]; vm_compute; reflexivity.
Defined.

(** ** A parallel step whose branches all resolve *)

Lemma brief_ensured_jobs jobId briefData st :
  jobHeap (brief_ensured jobId briefData st) = jobHeap st /\
  activeJobs (brief_ensured jobId briefData st) = activeJobs st /\
  jobContexts (brief_ensured jobId briefData st) = jobContexts st /\
  jobSchemas (brief_ensured jobId briefData st) = jobSchemas st.
Proof.
  unfold brief_ensured. destruct (briefs st !! jobId); repeat split.
Qed.

Lemma job_assigned_jobs jobId job st :
  jobHeap (job_assigned jobId job st) = jobHeap st ++ [job] /\
  activeJobs (job_assigned jobId job st) =
    <[jobId := length (jobHeap st)]> (activeJobs st) /\
  is_Some (jobContexts (job_assigned jobId job st) !! jobId) /\
  (forall j, j <> jobId ->
     jobContexts (job_assigned jobId job st) !! j = jobContexts st !! j) /\
  jobSchemas (job_assigned jobId job st) = jobSchemas st.
Proof.
  split; [|split; [|split; [apply job_assigned_context|split]]].
  - unfold job_assigned. cbv zeta. destruct (jobContexts st !! jobId); reflexivity.
  - unfold job_assigned. cbv zeta. destruct (jobContexts st !! jobId); reflexivity.
  - intros j Hne. unfold job_assigned. cbv zeta.
    destruct (jobContexts st !! jobId); [reflexivity|]. cbn.
    apply lookup_insert_ne. congruence.
  - unfold job_assigned. cbv zeta. destruct (jobContexts st !! jobId); reflexivity.
Qed.

Lemma launch_branch_effect workflowId i step currentData index jid st l st' :
  launch_branch workflowId i step currentData index jid st = (Ok l, st') ->
  exists launch,
    l = (index, jid, launch) /\
    jobSchemas st' = jobSchemas st /\
    length (jobHeap st') = S (length (jobHeap st)) /\
    (forall ref, ref < length (jobHeap st) ->
                 jobHeap st' !! ref = jobHeap st !! ref) /\
    (forall j, j <> jid ->
               activeJobs st' !! j = activeJobs st !! j /\
               jobContexts st' !! j = jobContexts st !! j) /\
    (forall ref, (exists reply, launch = Awaiting ref reply) ->
                 ref = length (jobHeap st)) /\
    branch_running st' l.
Proof.
  unfold launch_branch. unfold bind at 1. rewrite ensure_brief_eval.
  match goal with |- context [brief_ensured jid ?d st] =>
    set (sb := brief_ensured jid d st);
    destruct (brief_ensured_jobs jid d st) as (Hbh & Hba & Hbc & Hbs)
  end.
  fold sb in Hbh, Hba, Hbc, Hbs.
  unfold bind at 1. rewrite assignJob_eval.
  destruct (briefs sb !! jid) as [b|]; [|discriminate].
  destruct (lookup_assignee sb _ _) as [run0|]; [|discriminate].
  cbv zeta.
  set (job := new_job jid b (element (step_assigneeId step) index)
                (element (step_assigneeType step) index)).
  set (sa := job_assigned jid job sb).
  destruct (job_assigned_jobs jid job sb) as (Hah & Haa & Hac & Hao & Has).
  fold sa in Hah, Haa, Hac, Hao, Has.
  pose proof (job_assigned_ref jid job sb) as Href. fold sa in Href.
  set (ref := length (jobHeap sb)) in *.
  unfold bind at 1. rewrite (execute_start_eval _ _ _ _ _ Href).
  assert (Href' : ref = length (jobHeap st)) by (subst ref; rewrite Hbh; reflexivity).
  assert (Hlen : forall f, length (alter f ref (jobHeap sa)) = S (length (jobHeap st))).
  { intros f. rewrite length_alter, Hah, length_app, Hbh. cbn. lia. }
  assert (Hold : forall f r, r < length (jobHeap st) ->
            alter f ref (jobHeap sa) !! r = jobHeap st !! r).
  { intros f r Hr. rewrite list_lookup_alter_ne by lia.
    rewrite Hah, lookup_app_l, Hbh by (rewrite Hbh; exact Hr). reflexivity. }
  assert (Hother : forall j, j <> jid ->
            activeJobs sa !! j = activeJobs st !! j /\
            jobContexts sa !! j = jobContexts st !! j).
  { intros j Hne. rewrite Haa, lookup_insert_ne, Hba by congruence.
    rewrite (Hao j Hne), Hbc. auto. }
  assert (Hact : activeJobs sa !! jid = Some ref).
  { rewrite Haa. apply lookup_insert_eq. }
  assert (Hcell : jobHeap sa !! ref = Some job).
  { apply job_ref_Some in Href as [_ H]. exact H. }
  destruct (prepare sa job jid _) as [[run input]|e]; intros [= <- <-].
  - eexists. split; [reflexivity|]. split; [rewrite <- Hbs, <- Has; reflexivity|].
    split; [apply (Hlen (with_status in_progress))|].
    split; [apply (Hold (with_status in_progress))|].
    split; [exact Hother|]. split.
    + intros r [reply [= <- _]]. exact Href'.
    + intros r reply [= <- _]. split; [exact Hact|]. split; [exact Hac|].
      exists (with_status in_progress job). split; [|reflexivity].
      exact (status_written_lookup ByExecute ref in_progress job sa Hcell).
  - eexists. split; [reflexivity|]. split; [rewrite <- Hbs, <- Has; reflexivity|].
    split.
    { unfold job_failed, job_started, status_written. fields.
      rewrite !length_alter, Hah, length_app, Hbh. cbn. lia. }
    split.
    { intros r Hr. unfold job_failed, job_started, status_written. fields.
      rewrite !list_lookup_alter_ne by lia.
      rewrite Hah, lookup_app_l, Hbh by (rewrite Hbh; exact Hr). reflexivity. }
    split; [exact Hother|]. split.
    + intros r [reply H]. discriminate.
    + intros r reply H. discriminate.
Qed.

Lemma NoDup_fmap_inj_on {A B} (f : A -> B) (l : list A) x y :
  NoDup (f <$> l) -> x ∈ l -> y ∈ l -> f x = f y -> x = y.
Proof.
  induction l as [|a l IH]; intros Hnd Hx Hy Hf.
  - apply elem_of_nil in Hx as [].
  - cbn in Hnd. apply NoDup_cons in Hnd as [Hnot Hnd].
    apply elem_of_cons in Hx as [->|Hx], Hy as [->|Hy].
    + reflexivity.
    + destruct Hnot. rewrite Hf. apply list_elem_of_fmap_2, Hy.
    + destruct Hnot. rewrite <- Hf. apply list_elem_of_fmap_2, Hx.
    + apply IH; assumption.
Qed.

Lemma NoDup_omap_inj_on {A B} (f : A -> option B) (l : list A) x y r :
  NoDup (omap f l) -> x ∈ l -> y ∈ l -> f x = Some r -> f y = Some r -> x = y.
Proof.
  induction l as [|a l IH]; intros Hnd Hx Hy Hfx Hfy.
  - apply elem_of_nil in Hx as [].
  - cbn in Hnd.
    apply elem_of_cons in Hx as [->|Hx], Hy as [->|Hy].
    + reflexivity.
    + rewrite Hfx in Hnd. apply NoDup_cons in Hnd as [Hnot _].
      destruct Hnot. apply list_elem_of_omap. eauto.
    + rewrite Hfy in Hnd. apply NoDup_cons in Hnd as [Hnot _].
      destruct Hnot. apply list_elem_of_omap. eauto.
    + apply IH; try assumption.
      destruct (f a); [apply NoDup_cons in Hnd as [_ Hnd]|]; exact Hnd.
Qed.

Lemma launch_refs_app launched l :
  launch_refs (launched ++ [l]) =
  launch_refs launched ++
  match l.2 with Awaiting ref _ => [ref] | Settled _ => [] end.
Proof.
  unfold launch_refs. rewrite omap_app. cbn. destruct (l.2); reflexivity.
Qed.

Lemma launch_all_ok workflowId i step currentData branches :
  forall launched st all st',
    launch_all workflowId i step currentData branches launched st =
      (Ok all, st') ->
    launched_ok launched st -> Forall (branch_running st) launched ->
    branches.*1 = seq (length launched) (length branches) ->
    NoDup ((launch_jobId <$> launched) ++ branches.*2) ->
    launched_ok all st' /\ Forall (branch_running st') all /\
    jobSchemas st' = jobSchemas st /\
    launch_jobId <$> all = (launch_jobId <$> launched) ++ branches.*2.
Proof.
  induction branches as [|[index jid] rest IH];
    intros launched st all st' Hrun Hok Hrunning Hidx Hnd.
  - injection Hrun as <- <-. cbn. rewrite app_nil_r. auto.
  - cbn [launch_all] in Hrun. unfold bind at 1, try_catch in Hrun.
    destruct (launch_branch workflowId i step currentData index jid st)
      as [[l|e] s1] eqn:E.
    2:{ unfold abandon, bind, modify, throw in Hrun. discriminate. }
    destruct (launch_branch_effect _ _ _ _ _ _ _ _ _ E)
      as (launch & -> & Hs & Hlen & Hold & Hother & Hnew & Hl).
    cbn in Hidx. injection Hidx as Hindex Hrest.
    destruct Hok as (Hi & Hj & Hr & Hlt).
    assert (Hfresh : jid ∉ launch_jobId <$> launched).
    { intros Hin. apply NoDup_app in Hnd as (_ & Hdis & _).
      apply (Hdis jid Hin). cbn. apply elem_of_cons. auto. }
    destruct (IH (launched ++ [(index, jid, launch)]) s1 all st' Hrun)
      as (Hok' & Hrun' & Hs' & Hj').
    + split; [|split; [|split]].
      * rewrite fmap_app, length_app, Hi. cbn. rewrite Hindex.
        rewrite Nat.add_1_r, seq_S. reflexivity.
      * rewrite fmap_app. cbn. apply NoDup_app. split; [exact Hj|].
        split; [|apply NoDup_singleton].
        intros x Hx Hx'. apply list_elem_of_singleton in Hx' as ->.
        exact (Hfresh Hx).
      * rewrite launch_refs_app. cbn [snd]. destruct launch as [ref reply|r];
          [|rewrite app_nil_r; exact Hr].
        apply NoDup_app. split; [exact Hr|]. split; [|apply NoDup_singleton].
        intros x Hx Hx'. apply list_elem_of_singleton in Hx' as ->.
        rewrite Forall_forall in Hlt. specialize (Hlt _ Hx).
        rewrite (Hnew ref) in Hlt by eauto. lia.
      * rewrite launch_refs_app. cbn [snd]. apply Forall_app. split.
        -- eapply Forall_impl; [exact Hlt|]. cbn. intros; lia.
        -- destruct launch as [ref reply|r]; [|constructor].
           repeat constructor. rewrite (Hnew ref) by eauto. lia.
    + apply Forall_app. split; [|constructor; [exact Hl|constructor]].
      rewrite Forall_forall in Hrunning |- *. intros l0 Hl0 ref reply Hawait.
      destruct (Hrunning l0 Hl0 ref reply Hawait) as (Ha & Hc & job & Hh & Hst).
      assert (Hne : launch_jobId l0 <> jid).
      { intros <-. apply Hfresh. apply list_elem_of_fmap_2, Hl0. }
      destruct (Hother _ Hne) as [-> ->].
      rewrite Hold by (eapply lookup_lt_Some, Hh). eauto 6.
    + rewrite length_app. cbn. rewrite Nat.add_1_r. exact Hrest.
    + rewrite fmap_app. cbn. rewrite <- app_assoc. exact Hnd.
    + split; [exact Hok'|]. split; [exact Hrun'|].
      split; [congruence|]. rewrite Hj', fmap_app. cbn.
      rewrite <- app_assoc. reflexivity.
Qed.

Lemma delete_without {A} (l : list A) k x :
  NoDup l -> l !! k = Some x ->
  (x ∉ delete k l) /\ forall y, y ∈ l -> y <> x -> y ∈ delete k l.
Proof.
  intros Hnd Hk. rewrite delete_take_drop.
  pose proof (take_drop_middle l k x Hk) as Hl.
  rewrite <- Hl in Hnd. apply NoDup_app in Hnd as (_ & Hdis & Hnd).
  apply NoDup_cons in Hnd as [Hnot _]. split.
  - intros Hin. apply elem_of_app in Hin as [Hin|Hin]; [|contradiction].
    apply (Hdis x Hin). apply elem_of_cons. auto.
  - intros y Hy Hne. rewrite <- Hl in Hy.
    apply elem_of_app in Hy as [Hy|Hy]; apply elem_of_app; [auto|].
    apply elem_of_cons in Hy as [->|Hy]; [contradiction|auto].
Qed.

Lemma omap_id_Some {A} (l : list A) : omap id (Some <$> l) = l.
Proof. induction l as [|x l IH]; [reflexivity|]. cbn. rewrite IH. reflexivity. Qed.

Section Join.

Context (st0 : Agency) (launched : list (nat * string * Launch)).
Hypothesis indices : (fun l => l.1.1) <$> launched = seq 0 (length launched).
Hypothesis jobs : NoDup (launch_jobId <$> launched).
Hypothesis refs : NoDup (launch_refs launched).
Hypothesis all_resolve : Forall (resolving st0) launched.

Lemma index_at k l : launched !! k = Some l -> l.1.1 = k.
Proof using indices.
  intros Hk.
  assert (H : ((fun l => l.1.1) <$> launched) !! k = Some (l.1.1))
    by (rewrite list_lookup_fmap, Hk; reflexivity).
  rewrite indices in H. apply lookup_seq in H as [-> _]. reflexivity.
Qed.

Lemma index_lt l : l ∈ launched -> l.1.1 < length launched.
Proof using indices.
  intros Hl. apply list_elem_of_lookup in Hl as [k Hk].
  rewrite (index_at k l Hk). eapply lookup_lt_Some, Hk.
Qed.

Lemma index_inj l l' :
  l ∈ launched -> l' ∈ launched -> l.1.1 = l'.1.1 -> l = l'.
Proof using indices.
  intros Hl Hl' Heq.
  eapply (NoDup_fmap_inj_on (fun l => l.1.1) launched); eauto.
  rewrite indices. apply NoDup_seq.
Qed.

Lemma slots_full slots :
  length slots = length launched ->
  (forall l, l ∈ launched -> slots !! l.1.1 = Some (Some (launch_result l))) ->
  omap id slots = launch_result <$> launched.
Proof using indices.
  intros Hlen Hall.
  assert (Hs : slots = Some <$> (launch_result <$> launched)).
  { apply list_eq. intros k. rewrite !list_lookup_fmap.
    destruct (launched !! k) as [l|] eqn:Hk.
    - rewrite <- (index_at k l Hk) at 1.
      rewrite (Hall l) by (eapply list_elem_of_lookup_2, Hk). reflexivity.
    - apply lookup_ge_None in Hk. apply lookup_ge_None. lia. }
  rewrite Hs. apply omap_id_Some.
Qed.

Lemma settle_one pending slots st k index jid launch :
  join_inv st0 launched pending slots st ->
  pending !! k = Some (index, jid, launch) ->
  exists v st2,
    execute_finish jid launch st = (Ok v, st2) /\
    join_inv st0 launched (delete k pending)
      (<[index := Some (jid, v)]> slots) st2.
Proof using indices jobs refs all_resolve.
  intros (Hs & Hlen & Hnd & Hsub & Hall) Hk.
  set (l := (index, jid, launch)) in *.
  assert (Hp : l ∈ pending) by (eapply list_elem_of_lookup_2, Hk).
  assert (Hl : l ∈ launched) by auto.
  rewrite Forall_forall in all_resolve.
  destruct (all_resolve l Hl) as (ref & v & Hlaunch & Hschema).
  cbn in Hlaunch. subst launch.
  destruct (Hall l Hl) as [(_ & Hslot & Hrun)|(Hnot & _)]; [|contradiction].
  destruct (Hrun ref (Resolves v) eq_refl) as (Hact & [old Hold] & job & Hheap & Hst).
  cbn [launch_jobId fst snd l] in Hact, Hold, Hschema.
  exists v, (job_completed jid ref v job old st). split.
  { rewrite (execute_finish_eval jid ref (Resolves v) job st Hheap).
    unfold output_schema in Hschema |- *. rewrite Hs, Hschema, Hold.
    reflexivity. }
  destruct (delete_without pending k l Hnd Hk) as [Hgone Hkeep].
  split; [exact Hs|]. split; [rewrite length_insert; exact Hlen|].
  split; [eapply sublist_NoDup; [exact Hnd|apply sublist_delete]|].
  split; [intros x Hx; apply Hsub; eapply list_elem_of_delete_inv, Hx|].
  intros l' Hl'. destruct (decide (l'.1.1 = index)) as [Heq|Hi'].
  - assert (Hsame : l' = l) by (apply (index_inj l' l Hl' Hl); exact Heq).
    subst l'. right. split; [exact Hgone|]. split.
    + cbn [fst snd l]. apply list_lookup_insert_eq. rewrite Hlen.
      apply (index_lt l Hl).
    + intros r reply [= <- <-]. cbn [launch_jobId fst snd l].
      split; [exact Hact|]. split.
      * unfold job_completed. fields. rewrite lookup_insert_eq. eauto.
      * exists (with_results v (with_status completed job)).
        split; [|split; reflexivity].
        unfold job_completed, status_written. fields.
        rewrite !list_lookup_alter_eq, Hheap. reflexivity.
  - assert (Hne : l' <> l) by (intros ->; apply Hi'; reflexivity).
    assert (Hi : index <> l'.1.1) by congruence.
    assert (Hj : jid <> launch_jobId l').
    { intros Heq. apply Hne. symmetry.
      apply (NoDup_fmap_inj_on launch_jobId launched l l' jobs Hl Hl'). exact Heq. }
    assert (Hr : forall r reply, l'.2 = Awaiting r reply -> ref <> r).
    { intros r reply Hawait <-. apply Hne. symmetry.
      apply (NoDup_omap_inj_on _ launched l l' ref refs Hl Hl').
      - reflexivity.
      - rewrite Hawait. reflexivity. }
    assert (Hframe : forall r reply, l'.2 = Awaiting r reply ->
              activeJobs (job_completed jid ref v job old st) !! launch_jobId l' =
                activeJobs st !! launch_jobId l' /\
              jobContexts (job_completed jid ref v job old st) !! launch_jobId l' =
                jobContexts st !! launch_jobId l' /\
              jobHeap (job_completed jid ref v job old st) !! r =
                jobHeap st !! r).
    { intros r reply Hawait. split; [reflexivity|]. split.
      - unfold job_completed. fields. apply lookup_insert_ne. exact Hj.
      - unfold job_completed, status_written. fields.
        rewrite !list_lookup_alter_ne by (eapply Hr, Hawait). reflexivity. }
    rewrite list_lookup_insert_ne by exact Hi.
    destruct (Hall l' Hl') as [(Hin & Hslot' & Hrun')|(Hnot & Hslot' & Hset')].
    + left. split; [apply Hkeep; assumption|]. split; [exact Hslot'|].
      intros r reply Hawait.
      destruct (Hframe r reply Hawait) as (-> & -> & ->).
      apply (Hrun' r reply Hawait).
    + right. split.
      { intros Hin. apply Hnot. eapply list_elem_of_delete_inv, Hin. }
      split; [exact Hslot'|].
      intros r reply Hawait.
      destruct (Hframe r reply Hawait) as (-> & -> & ->).
      apply (Hset' r reply Hawait).
Qed.

Lemma join_resolves schedule n : forall pending slots st,
  join_inv st0 launched pending slots st -> length pending <= n ->
  exists st',
    join schedule n pending slots st = (Ok (launch_result <$> launched), st') /\
    jobSchemas st' = jobSchemas st0 /\
    Forall (branch_settled st') launched.
Proof using indices jobs refs all_resolve.
  induction n as [|n IH]; intros pending slots st Hinv Hlen.
  - destruct pending; [|cbn in Hlen; lia].
    destruct Hinv as (Hs & Hl & _ & _ & Hall).
    exists st. split; [|split; [exact Hs|]].
    + cbn. unfold ret. f_equal. f_equal. apply slots_full; [exact Hl|].
      intros l Hin. destruct (Hall l Hin) as [(H & _)|(_ & H & _)]; [|exact H].
      apply elem_of_nil in H as [].
    + apply Forall_forall. intros l Hin.
      destruct (Hall l Hin) as [(H & _)|(_ & _ & H)]; [|exact H].
      apply elem_of_nil in H as [].
  - destruct pending as [|p ps].
    { destruct Hinv as (Hs & Hl & _ & _ & Hall).
      exists st. split; [|split; [exact Hs|]].
      + cbn. unfold ret. f_equal. f_equal. apply slots_full; [exact Hl|].
        intros l Hin. destruct (Hall l Hin) as [(H & _)|(_ & H & _)]; [|exact H].
        apply elem_of_nil in H as [].
      + apply Forall_forall. intros l Hin.
        destruct (Hall l Hin) as [(H & _)|(_ & _ & H)]; [|exact H].
        apply elem_of_nil in H as []. }
    cbn [join]. cbv zeta.
    set (pending := p :: ps) in *.
    set (k := (schedule (map fst pending) mod length pending)%nat).
    assert (Hk : k < length pending).
    { subst k. apply Nat.mod_upper_bound. subst pending. cbn. lia. }
    destruct (lookup_lt_is_Some_2 pending k Hk) as [[[index jid] launch] Hpk].
    rewrite Hpk.
    destruct (settle_one pending slots st k index jid launch Hinv Hpk)
      as (v & st2 & Hfin & Hinv2).
    unfold bind at 1, try_catch. rewrite Hfin.
    apply IH; [exact Hinv2|].
    rewrite length_delete by eauto. subst pending. cbn in *. lia.
Qed.

End Join.

Lemma has_key_fresh (o : Obj) k : k ∉ o.*1 -> JS.has_key o k = false.
Proof.
  unfold JS.has_key. induction o as [|[k' v] o IH]; intros H; [reflexivity|].
  cbn in *. apply not_elem_of_cons in H as [Hne H].
  destruct (String.eqb_spec k' k); [congruence|]. apply IH, H.
Qed.

Lemma fold_obj_set_fresh (rs : list (string * Value)) : forall acc : Obj,
  NoDup (acc.*1 ++ rs.*1) ->
  fold_left (fun a r => JS.obj_set r.1 r.2 a) rs acc = acc ++ rs.
Proof.
  induction rs as [|[k v] rs IH]; intros acc Hnd; cbn [fold_left].
  - rewrite app_nil_r. reflexivity.
  - cbn [fst snd]. unfold JS.obj_set at 2. rewrite has_key_fresh.
    + rewrite IH, <- app_assoc; [reflexivity|].
      rewrite fmap_app, <- app_assoc. exact Hnd.
    + apply NoDup_app in Hnd as (_ & Hdis & _). intros Hin.
      apply (Hdis k Hin). cbn. apply elem_of_cons. auto.
Qed.

Lemma store_parallel_resolves workflowId i rs : forall acc st,
  (forall r, r ∈ rs ->
     exists job, getJob st r.1 = Some job /\ status job = completed) ->
  exists st',
    store_parallel workflowId i rs acc st =
      (Ok (fold_left (fun a r => JS.obj_set r.1 r.2 a) rs acc), st') /\
    forall jid, getJob st' jid = getJob st jid.
Proof.
  induction rs as [|[jid v] rs IH]; intros acc st Hdone.
  - exists st. split; reflexivity.
  - cbn [store_parallel fold_left]. unfold bind at 1.
    pose proof (workflow_remember_ok workflowId
                  ("step_" +:+ pretty i +:+ "_job_" +:+ jid +:+ "_results") v st)
      as Hok.
    assert (Hg : forall j,
              getJob (workflow_remember workflowId
                        ("step_" +:+ pretty i +:+ "_job_" +:+ jid +:+ "_results")
                        v st).2 j = getJob st j)
      by (intros j; apply workflow_remember_getJob).
    destruct (workflow_remember workflowId _ v st) as [r s] eqn:Er.
    cbn [fst snd] in Hok, Hg. subst r.
    unfold bind at 1. unfold update_workflow at 1, modify at 1.
    unfold bind at 1. unfold fail_if_job_failed, bind at 1, get at 1.
    change (getJob (set_workflows ?f s) jid) with (getJob s jid).
    destruct (Hdone (jid, v)) as (job & Hjob & Hst);
      [apply elem_of_cons; auto|].
    cbn [fst] in Hjob. rewrite Hg, Hjob, Hst. unfold ret at 1.
    destruct (IH (JS.obj_set jid v acc)
                (set_workflows (alter (with_wf_result jid v) workflowId) s))
      as (st' & Hrun & Hget).
    + intros r Hr. change (getJob (set_workflows ?f s) r.1) with (getJob s r.1).
      rewrite Hg. apply Hdone. apply elem_of_cons. auto.
    + exists st'. split; [exact Hrun|]. intros j. rewrite Hget.
      change (getJob (set_workflows ?f s) j) with (getJob s j). apply Hg.
Qed.

Lemma branches_of_indices jobIds :
  (branches_of jobIds).*1 = seq 0 (length jobIds) /\
  (branches_of jobIds).*2 = JS.to_string <$> jobIds.
Proof.
  unfold branches_of. split; apply list_eq; intros k;
    rewrite !list_lookup_fmap, list_lookup_imap.
  - destruct (jobIds !! k) as [x|] eqn:E; cbn.
    + symmetry. apply lookup_seq. split; [reflexivity|].
      eapply lookup_lt_Some, E.
    + symmetry. apply lookup_seq_ge. apply lookup_ge_None, E.
  - destruct (jobIds !! k); reflexivity.
Qed.

Lemma settled_completed st l :
  (exists ref reply, l.2 = Awaiting ref reply) ->
  branch_settled st l -> branch_completed st l.
Proof.
  intros (ref & reply & Hl) Hs.
  destruct (Hs ref reply Hl) as (Hact & _ & job & Hheap & Hst & Hreply).
  exists job. split; [eapply getJob_at; eauto|]. split; [exact Hst|].
  unfold launch_result. cbn [snd]. rewrite Hl, Hreply. reflexivity.
Qed.

(** X19. A parallel step for distinct jobs, all of whose branches were
    started and call a [run] that resolves (to a value that passes the
    output schema of the job, if it has one): whatever the order in which
    the promises settle, the step answers the object that maps every job,
    in the order of the step, to what its [run] resolved to, and every job
    ends [completed] with that result. *)
Theorem parallel_results_ignore_the_schedule schedule workflowId i step jobIds
  currentData st launched st1 :
  is_type "parallel" (type_of step) = true ->
  step_jobId step = VArr jobIds ->
  NoDup (JS.to_string <$> jobIds) ->
  launch_all workflowId i step currentData (branches_of jobIds) [] st =
    (Ok launched, st1) ->
  Forall (resolving st) launched ->
  exists st',
    run_step schedule workflowId i step currentData st =
      (Ok (VObj (launch_result <$> launched)), st') /\
    launch_jobId <$> launched = JS.to_string <$> jobIds /\
    Forall (branch_completed st') launched.
Proof.
  intros Htype Hids Hnd Hlaunch Hres.
  rewrite (run_step_parallel schedule workflowId i step jobIds currentData
             Htype Hids).
  destruct (branches_of_indices jobIds) as [Hb1 Hb2].
  destruct (launch_all_ok workflowId i step currentData (branches_of jobIds)
              [] st launched st1 Hlaunch)
    as ((Hi & Hj & Hr & _) & Hrunning & Hs & Hjobs).
  { repeat split; constructor. }
  { constructor. }
  { rewrite Hb1. unfold branches_of. rewrite length_imap. reflexivity. }
  { cbn. rewrite Hb2. exact Hnd. }
  cbn in Hjobs. rewrite Hb2 in Hjobs.
  destruct (join_resolves st launched Hi Hj Hr Hres schedule (length launched)
              launched (replicate (length launched) None) st1)
    as (st2 & Hjoin & Hs2 & Hsettled).
  { split; [exact Hs|]. split; [apply length_replicate|].
    split; [eapply NoDup_fmap_1, Hj|]. split; [auto|].
    intros l Hl. left. split; [exact Hl|]. split.
    - apply lookup_replicate_2. apply (index_lt launched Hi l Hl).
    - rewrite Forall_forall in Hrunning. apply Hrunning, Hl. }
  { reflexivity. }
  assert (Hcompleted : Forall (branch_completed st2) launched).
  { rewrite Forall_forall in Hsettled, Hres |- *. intros l Hl.
    apply settled_completed; [|apply Hsettled, Hl].
    destruct (Hres l Hl) as (ref & v & H & _). eauto. }
  destruct (store_parallel_resolves workflowId i (launch_result <$> launched)
              [] st2) as (st3 & Hstore & Hget).
  { intros r Hr'. apply list_elem_of_fmap in Hr' as (l & -> & Hl).
    rewrite Forall_forall in Hcompleted.
    destruct (Hcompleted l Hl) as (job & Hjob & Hst & _). eauto. }
  rewrite fold_obj_set_fresh in Hstore.
  2:{ cbn. rewrite <- list_fmap_compose.
      change (fst ∘ launch_result) with launch_jobId. exact Hj. }
  cbn [app] in Hstore.
  unfold run_parallel. cbv zeta. fold (branches_of jobIds).
  unfold bind at 1. rewrite Hlaunch.
  unfold bind at 1. rewrite Hjoin.
  unfold bind at 1. rewrite Hstore.
  unfold bind at 1.
  pose proof (workflow_remember_ok workflowId
                ("step_" +:+ pretty i +:+ "_results")
                (VObj (launch_result <$> launched)) st3) as Hok.
  pose proof (fun j => workflow_remember_getJob workflowId
                ("step_" +:+ pretty i +:+ "_results")
                (VObj (launch_result <$> launched)) st3 j) as Hg.
  destruct (workflow_remember workflowId _ _ st3) as [r st4].
  cbn [fst snd] in Hok, Hg. subst r.
  exists st4. split; [reflexivity|]. split; [exact Hjobs|].
  rewrite Forall_forall in Hcompleted |- *. intros l Hl.
  destruct (Hcompleted l Hl) as (job & Hjob & Hrest).
  exists job. split; [|exact Hrest]. rewrite Hg, Hget. exact Hjob.
Qed.

(** X19 on the office, with a scheduler that settles the last branch
    first. *)
Lemma parallel_results_ignore_the_schedule_witness :
  exists st',
    run_step (fun pending => length pending - 1) "w" 0 two_branches (VObj [])
      office =
      (Ok (VObj [("b1", VObj [("a", VNum 1)]);
                 ("b2", VStr "I cannot plan this.")]), st') /\
    Forall (branch_completed st') two_launched.
Proof.
  destruct (parallel_results_ignore_the_schedule
              (fun pending => length pending - 1) "w" 0 two_branches
              [VStr "b1"; VStr "b2"] (VObj []) office two_launched
              (launch_all "w" 0 two_branches (VObj [])
                 (branches_of [VStr "b1"; VStr "b2"]) [] office).2)
    as (st' & Hrun & _ & Hdone).
  - reflexivity.
  - reflexivity.
  - vm_compute. repeat constructor; intros H; repeat
      (apply elem_of_cons in H as [H|H]; [discriminate|]);
      apply elem_of_nil in H as [].
  - vm_compute. reflexivity.
  - repeat constructor; eexists _, _; split; vm_compute; reflexivity.
  - exists st'. split; [exact Hrun|exact Hdone].
Defined.
